(** * Blog API: storage, expiry sweep and pagination

    A shallow embedding of the server side of the blogging application:
    the two implementations of [IStorage] ([MemStorage], [DatabaseStorage]),
    the hourly expiry job of [setupScheduler] and the pagination of
    [GET /api/posts].

    Conventions of the embedding.
    - JavaScript numbers that hold ids, counters, page numbers and clock
      instants are integers ([Z]); instants are milliseconds since the epoch
      and stay within the range of [Date]. A number parsed from the path of
      a request is an [option Z], with [None] for [NaN]. A number of hours
      is a rational ([Q]), which [Date.prototype.setHours] truncates.
    - [Date] reads and sets hours in the local time of a zone ([Js.Zone]):
      the offset from UTC in force at an instant, and the offset with which
      a local time is read back.
    - JavaScript strings are [string]s of ASCII code units: [toLowerCase]
      maps [A-Z] to [a-z] and [trim] strips the ASCII white space characters.
    - A [Map<number, V>] is its list of entries in insertion order.
    - A database table is the list of its rows in scan order, and an
      [update] writes the new version of a row after the rows it leaves
      alone. [serial] and [integer] columns hold 32-bit integers: a
      statement that compares such a column with a number outside that
      range, or writes one to it, is rejected, and so is one with [NaN]
      (one error, [NotInt4], stands for both); a sequence that has passed
      the range rejects the insert. Primary keys and [unique()] columns
      reject an insert that would repeat a value.
    - [new Date()] reads a clock that is passed in explicitly. *)

From Stdlib Require Import ZArith QArith List String Ascii Bool Lia Permutation.
Import ListNotations.

Open Scope string_scope.
Open Scope list_scope.
Open Scope Z_scope.

(* ===================================================================== *)
(** * JavaScript values used by the server *)
(* ===================================================================== *)

Module Js.

(** ** Strings *)

Definition isUpper (c : ascii) : bool :=
  let n := nat_of_ascii c in (65 <=? n)%nat && (n <=? 90)%nat.

Definition lowerChar (c : ascii) : ascii :=
  if isUpper c then ascii_of_nat (nat_of_ascii c + 32) else c.

(** [String.prototype.toLowerCase] *)
Fixpoint toLowerCase (s : string) : string :=
  match s with
  | EmptyString => EmptyString
  | String c r => String (lowerChar c) (toLowerCase r)
  end.

(** White space in the sense of [trim]: TAB, LF, VT, FF, CR, SP. *)
Definition isSpace (c : ascii) : bool :=
  let n := nat_of_ascii c in
  ((9 <=? n)%nat && (n <=? 13)%nat) || (n =? 32)%nat.

Fixpoint trimStart (s : string) : string :=
  match s with
  | EmptyString => EmptyString
  | String c r => if isSpace c then trimStart r else s
  end.

Fixpoint trimEnd (s : string) : string :=
  match s with
  | EmptyString => EmptyString
  | String c r =>
      match trimEnd r with
      | EmptyString => if isSpace c then EmptyString else String c EmptyString
      | r' => String c r'
      end
  end.

(** [String.prototype.trim] *)
Definition trim (s : string) : string := trimEnd (trimStart s).

(** Truthiness of a string: the empty string is falsy. *)
Definition truthy (s : string) : bool := negb (s =? "")%string.

(** ** Arrays *)

(** [xs.includes(x)] on an array of strings *)
Definition includes (xs : list string) (x : string) : bool :=
  existsb (String.eqb x) xs.

(** [[...new Set(xs)]]: the elements in order of first occurrence.
    [seen] holds what the set already contains. *)
Fixpoint setFrom (seen xs : list string) : list string :=
  match xs with
  | [] => []
  | x :: r => if includes seen x then setFrom seen r
              else x :: setFrom (x :: seen) r
  end.

Definition spreadSet (xs : list string) : list string := setFrom [] xs.

(** [xs.find(f)] *)
Definition find {A} (f : A -> bool) (xs : list A) : option A := List.find f xs.

(** [xs.slice(start, end)] with the relative-index rule for negative
    arguments. *)
Definition relIndex (len i : Z) : Z :=
  if i <? 0 then Z.max (len + i) 0 else Z.min i len.

Definition slice {A} (xs : list A) (start stop : Z) : list A :=
  let len := Z.of_nat (List.length xs) in
  let k := relIndex len start in
  let final := relIndex len stop in
  firstn (Z.to_nat (final - k)) (skipn (Z.to_nat k) xs).

(** ** [Map<number, V>] in insertion order *)

Section JsMap.
Context {V : Type}.

Definition Map := list (Z * V).

Definition get (m : Map) (k : Z) : option V :=
  option_map snd (List.find (fun e => fst e =? k) m).

Definition has (m : Map) (k : Z) : bool :=
  existsb (fun e => fst e =? k) m.

(** [m.set(k, v)]: an existing key keeps its place. *)
Fixpoint set (m : Map) (k : Z) (v : V) : Map :=
  match m with
  | [] => [(k, v)]
  | e :: r => if fst e =? k then (k, v) :: r else e :: set r k v
  end.

(** [m.delete(k)]: the new map and whether the key was present. *)
Definition delete (m : Map) (k : Z) : Map * bool :=
  (filter (fun e => negb (fst e =? k)) m, has m k).

Definition values (m : Map) : list V := map snd m.
Definition entries (m : Map) : list (Z * V) := m.
Definition keys (m : Map) : list Z := map fst m.
End JsMap.
Arguments Map : clear implicits.

(** ** [Date] arithmetic in local time

    Instants are milliseconds since the epoch. A time zone gives the
    offset of local time from UTC, in milliseconds, in force at an
    instant ([offsetAt]) and the offset by which a local time is read
    back as an instant ([offsetOfLocal]); where the zone moves its clock
    the two differ. *)

Record Zone := mkZone { offsetAt : Z -> Z; offsetOfLocal : Z -> Z }.

(** A zone that never moves its clock. *)
Definition fixed (tza : Z) : Zone := mkZone (fun _ => tza) (fun _ => tza).

Definition msPerSecond : Z := 1000.
Definition msPerMinute : Z := 60000.
Definition msPerHour : Z := 3600000.
Definition msPerDay : Z := 86400000.

Definition Day (t : Z) : Z := t / msPerDay.
Definition HourFromTime (t : Z) : Z := (t / msPerHour) mod 24.
Definition MinFromTime (t : Z) : Z := (t / msPerMinute) mod 60.
Definition SecFromTime (t : Z) : Z := (t / msPerSecond) mod 60.
Definition msFromTime (t : Z) : Z := t mod msPerSecond.

Definition MakeTime (h m s ms : Z) : Z :=
  h * msPerHour + m * msPerMinute + s * msPerSecond + ms.
Definition MakeDate (day time : Z) : Z := day * msPerDay + time.

Definition LocalTime (zone : Zone) (t : Z) : Z := t + offsetAt zone t.
Definition UTC (zone : Zone) (t : Z) : Z := t - offsetOfLocal zone t.

(** [ToIntegerOrInfinity] of a finite number: the fraction is dropped,
    towards zero. *)
Definition truncate (x : Q) : Z := Z.quot (Qnum x) (Z.pos (Qden x)).

(** [d.getHours()] *)
Definition getHours (zone : Zone) (t : Z) : Z := HourFromTime (LocalTime zone t).

(** [d.setHours(h)]: the instant [d] holds afterwards. The argument is a
    number, which [MakeTime] truncates to an integer. *)
Definition setHours (zone : Zone) (t : Z) (h : Q) : Z :=
  let l := LocalTime zone t in
  UTC zone (MakeDate (Day l)
                     (MakeTime (truncate h) (MinFromTime l) (SecFromTime l)
                               (msFromTime l))).

(** ** [parseInt(s)] without a radix

    [None] is [NaN]. Leading white space is skipped, a sign and a
    [0x] prefix are honoured, and the longest prefix of digits is read. *)

Definition digitVal (radix : Z) (c : ascii) : option Z :=
  let n := Z.of_nat (nat_of_ascii c) in
  let d := if (48 <=? n) && (n <=? 57) then Some (n - 48)
           else if (97 <=? n) && (n <=? 122) then Some (n - 87)
           else if (65 <=? n) && (n <=? 90) then Some (n - 55)
           else None in
  match d with
  | Some v => if v <? radix then Some v else None
  | None => None
  end.

(** Reads the longest prefix of digits; [acc] is [None] until a digit
    has been seen. *)
Fixpoint readDigits (radix : Z) (acc : option Z) (s : string) : option Z :=
  match s with
  | EmptyString => acc
  | String c r =>
      match digitVal radix c with
      | Some v =>
          readDigits radix
            (Some (match acc with Some a => a * radix + v | None => v end)) r
      | None => acc
      end
  end.

Definition parseInt (input : string) : option Z :=
  let s := trimStart input in
  let '(sign, s) :=
    match s with
    | String "-" r => (-1, r)
    | String "+" r => (1, r)
    | _ => (1, s)
    end in
  let '(radix, s) :=
    match s with
    | String "0" (String "x" r) => (16, r)
    | String "0" (String "X" r) => (16, r)
    | _ => (10, s)
    end in
  option_map (Z.mul sign) (readDigits radix None s).

(** [x || d] for a number [x]: [NaN] and zero are falsy. *)
Definition orElse (x : option Z) (d : Z) : Z :=
  match x with
  | Some v => if v =? 0 then d else v
  | None => d
  end.

(** [Math.ceil(a / b)] for integers [a >= 0], [b > 0]. *)
Definition ceilDiv (a b : Z) : Z := (a + b - 1) / b.

(** ** More of [String] *)

(** [s.split(sep)] for a separator of one character. *)
Fixpoint split (sep : ascii) (s : string) : list string :=
  match s with
  | EmptyString => [EmptyString]
  | String c r =>
      if Ascii.eqb c sep then EmptyString :: split sep r
      else match split sep r with
           | h :: t => String c h :: t
           | [] => [String c EmptyString]
           end
  end.

(** [s.includes(sub)] on strings. *)
Definition strIncludes (s sub : string) : bool :=
  match String.index 0 sub s with
  | Some _ => true
  | None => false
  end.

End Js.

(* ===================================================================== *)
(** * The schema ([shared/schema.ts]) *)
(* ===================================================================== *)

Module User.
Record t := mk
  { id : Z; name : string; email : string; password : string;
    image : option string }.
End User.

Module Post.
Record t := mk
  { id : Z; title : string; body : string; authorId : Z; createdAt : Z }.
End Post.

Module Tag.
Record t := mk { id : Z; name : string }.
End Tag.

Module PostTag.
Record t := mk { id : Z; postId : Z; tagId : Z }.
End PostTag.

Module Comment.
Record t := mk
  { id : Z; body : string; authorId : Z; postId : Z; createdAt : Z }.
End Comment.

(** [InsertUser], [InsertPost], [Partial<InsertPost>], [InsertComment],
    [Partial<InsertComment>]: an absent field of a partial object is [None]. *)
Module InsertUser.
Record t := mk
  { name : string; email : string; password : string;
    image : option string }.
End InsertUser.

Module InsertPost.
Record t := mk { title : string; body : string; tags : list string }.
End InsertPost.

Module PartialInsertPost.
Record t := mk
  { title : option string; body : option string;
    tags : option (list string) }.
End PartialInsertPost.

Module InsertComment.
Record t := mk { body : string; postId : Z }.
End InsertComment.

Module PartialInsertComment.
Record t := mk { body : option string; postId : option Z }.
End PartialInsertComment.

Module Author.
Record t := mk { id : Z; name : string }.
End Author.

Module PostWithDetails.
Record t := mk
  { post : Post.t; author : Author.t; tags : list string;
    commentCount : Z }.
End PostWithDetails.

Module CommentWithAuthor.
Record t := mk { comment : Comment.t; author : Author.t }.
End CommentWithAuthor.

(** Truthiness of an optional string field: absent and empty are falsy. *)
Definition fieldSet (f : option string) : option string :=
  match f with
  | Some v => if Js.truthy v then Some v else None
  | None => None
  end.

(** [postData.tags && postData.tags.length > 0] *)
Definition tagsGiven (f : option (list string)) : option (list string) :=
  match f with
  | Some (x :: r) => Some (x :: r)
  | _ => None
  end.

(** An awaited promise: it resolved with a value or rejected with an
    error, which [await] throws. *)
Inductive settled (E A : Type) :=
| Ok (a : A)
| Throw (e : E).
Arguments Ok {E A} a.
Arguments Throw {E A} e.

(** [for]-loop over an array with a state threaded through the body. *)
Definition forEach {S A} (xs : list A) (body : A -> S -> S) (s : S) : S :=
  fold_left (fun acc x => body x acc) xs s.

(** The array a loop with a conditional [push] builds. *)
Fixpoint collect {A B} (f : A -> option B) (xs : list A) : list B :=
  match xs with
  | [] => []
  | x :: r => match f x with
              | Some y => y :: collect f r
              | None => collect f r
              end
  end.

(* ===================================================================== *)
(** * [MemStorage] *)
(* ===================================================================== *)

Module MemStorage.

Record t := mk
  { users : Js.Map User.t;
    posts : Js.Map Post.t;
    tags : Js.Map Tag.t;
    postTags : Js.Map PostTag.t;
    comments : Js.Map Comment.t;
    userId : Z; postId : Z; tagId : Z; postTagId : Z; commentId : Z }.

(** The constructor. *)
Definition new : t := mk [] [] [] [] [] 1 1 1 1 1.

Definition withUsers (s : t) m n :=
  mk m (posts s) (tags s) (postTags s) (comments s)
     n (postId s) (tagId s) (postTagId s) (commentId s).
Definition withPosts (s : t) m n :=
  mk (users s) m (tags s) (postTags s) (comments s)
     (userId s) n (tagId s) (postTagId s) (commentId s).
Definition withTags (s : t) m n :=
  mk (users s) (posts s) m (postTags s) (comments s)
     (userId s) (postId s) n (postTagId s) (commentId s).
Definition withPostTags (s : t) m n :=
  mk (users s) (posts s) (tags s) m (comments s)
     (userId s) (postId s) (tagId s) n (commentId s).
Definition withComments (s : t) m n :=
  mk (users s) (posts s) (tags s) (postTags s) m
     (userId s) (postId s) (tagId s) (postTagId s) n.

(** ** User methods *)

Definition getUser (s : t) (id : Z) : option User.t := Js.get (users s) id.

Definition getUserByEmail (s : t) (email : string) : option User.t :=
  Js.find (fun u => (Js.toLowerCase (User.email u) =? Js.toLowerCase email)%string)
          (Js.values (users s)).

Definition createUser (d : InsertUser.t) (s : t) : User.t * t :=
  let id := userId s in
  let user := User.mk id (InsertUser.name d) (InsertUser.email d)
                      (InsertUser.password d) (InsertUser.image d) in
  (user, withUsers s (Js.set (users s) id user) (id + 1)).

(** ** Tag methods *)

Definition createTag (name : string) (s : t) : Tag.t * t :=
  let id := tagId s in
  let tag := Tag.mk id name in
  (tag, withTags s (Js.set (tags s) id tag) (id + 1)).

Definition getTagByName (s : t) (name : string) : option Tag.t :=
  Js.find (fun tag => (Js.toLowerCase (Tag.name tag) =? Js.toLowerCase name)%string)
          (Js.values (tags s)).

Definition getAllTags (s : t) : list Tag.t := Js.values (tags s).

(** ** PostTag methods *)

Definition addTagToPost (postId tagId : Z) (s : t) : PostTag.t * t :=
  let id := postTagId s in
  let postTag := PostTag.mk id postId tagId in
  (postTag, withPostTags s (Js.set (postTags s) id postTag) (id + 1)).

Definition removeTagFromPost (postId tagId : Z) (s : t) : bool * t :=
  match Js.find (fun e => (PostTag.postId (snd e) =? postId)
                          && (PostTag.tagId (snd e) =? tagId))
                (Js.entries (postTags s)) with
  | Some (id, _) =>
      let '(m, r) := Js.delete (postTags s) id in
      (r, withPostTags s m (postTagId s))
  | None => (false, s)
  end.

Definition getTagsByPostId (s : t) (postId : Z) : list Tag.t :=
  let postTagEntries :=
    filter (fun pt => PostTag.postId pt =? postId) (Js.values (postTags s)) in
  collect (fun pt => Js.get (tags s) (PostTag.tagId pt)) postTagEntries.

Definition updatePostTags (postId : Z) (tagNames : list string) (s : t)
  : list string * t :=
  let existingTags := getTagsByPostId s postId in
  let existingTagNames := map (fun t => Js.toLowerCase (Tag.name t)) existingTags in
  let normalizedTags := map (fun t => Js.trim (Js.toLowerCase t)) tagNames in
  let uniqueTags := Js.spreadSet normalizedTags in
  let s := forEach uniqueTags (fun tagName s =>
      if (tagName =? "")%string then s
      else if Js.includes existingTagNames tagName then s
      else
        let '(tag, s) :=
          match getTagByName s tagName with
          | Some tag => (tag, s)
          | None => createTag tagName s
          end in
        snd (addTagToPost postId (Tag.id tag) s)) s in
  let s := forEach existingTags (fun existingTag s =>
      if negb (Js.includes uniqueTags (Js.toLowerCase (Tag.name existingTag)))
      then snd (removeTagFromPost postId (Tag.id existingTag) s)
      else s) s in
  (map Tag.name (getTagsByPostId s postId), s).

(** ** Comment methods *)

Definition createComment (d : InsertComment.t) (authorId now : Z) (s : t)
  : Comment.t * t :=
  let id := commentId s in
  let comment := Comment.mk id (InsertComment.body d) authorId
                            (InsertComment.postId d) now in
  (comment, withComments s (Js.set (comments s) id comment) (id + 1)).

Definition getCommentsByPostId (s : t) (postId : Z) : list CommentWithAuthor.t :=
  collect (fun comment =>
      if Comment.postId comment =? postId then
        match Js.get (users s) (Comment.authorId comment) with
        | Some author =>
            Some (CommentWithAuthor.mk comment
                    (Author.mk (User.id author) (User.name author)))
        | None => None
        end
      else None)
    (Js.values (comments s)).

Definition updateComment (id : Z) (d : PartialInsertComment.t) (s : t)
  : option Comment.t * t :=
  match Js.get (comments s) id with
  | None => (None, s)
  | Some comment =>
      let updatedComment :=
        match fieldSet (PartialInsertComment.body d) with
        | Some b => Comment.mk (Comment.id comment) b (Comment.authorId comment)
                               (Comment.postId comment) (Comment.createdAt comment)
        | None => comment
        end in
      (Some updatedComment,
       withComments s (Js.set (comments s) id updatedComment) (commentId s))
  end.

Definition deleteComment (id : Z) (s : t) : bool * t :=
  let '(m, r) := Js.delete (comments s) id in
  (r, withComments s m (commentId s)).

Definition getComment (s : t) (id : Z) : option Comment.t :=
  Js.get (comments s) id.

(** ** Post methods *)

Definition createPost (d : InsertPost.t) (authorId now : Z) (s : t)
  : Post.t * t :=
  let id := postId s in
  let post := Post.mk id (InsertPost.title d) (InsertPost.body d) authorId now in
  let s := withPosts s (Js.set (posts s) id post) (id + 1) in
  let s := match tagsGiven (Some (InsertPost.tags d)) with
           | Some tags => snd (updatePostTags id tags s)
           | None => s
           end in
  (post, s).

Definition getPost (s : t) (id : Z) : option PostWithDetails.t :=
  match Js.get (posts s) id with
  | None => None
  | Some post =>
      match Js.get (users s) (Post.authorId post) with
      | None => None
      | Some author =>
          let tags := getTagsByPostId s id in
          let comments := getCommentsByPostId s id in
          Some (PostWithDetails.mk post
                  (Author.mk (User.id author) (User.name author))
                  (map Tag.name tags)
                  (Z.of_nat (List.length comments)))
      end
  end.

Definition getAllPosts (s : t) : list PostWithDetails.t :=
  collect (fun post => getPost s (Post.id post)) (Js.values (posts s)).

Definition getPostsByAuthor (s : t) (authorId : Z) : list PostWithDetails.t :=
  collect (fun post =>
      if Post.authorId post =? authorId then getPost s (Post.id post) else None)
    (Js.values (posts s)).

Definition getPostsByTag (s : t) (tagName : string) : list PostWithDetails.t :=
  match getTagByName s tagName with
  | None => []
  | Some tag =>
      let relevantPostTags :=
        filter (fun pt => PostTag.tagId pt =? Tag.id tag) (Js.values (postTags s)) in
      collect (fun pt => getPost s (PostTag.postId pt)) relevantPostTags
  end.

Definition updatePost (id : Z) (d : PartialInsertPost.t) (s : t)
  : option Post.t * t :=
  match Js.get (posts s) id with
  | None => (None, s)
  | Some post =>
      let title := match fieldSet (PartialInsertPost.title d) with
                   | Some v => v | None => Post.title post end in
      let body := match fieldSet (PartialInsertPost.body d) with
                  | Some v => v | None => Post.body post end in
      let updatedPost := Post.mk (Post.id post) title body
                                 (Post.authorId post) (Post.createdAt post) in
      let s := withPosts s (Js.set (posts s) id updatedPost) (postId s) in
      let s := match tagsGiven (PartialInsertPost.tags d) with
               | Some tags => snd (updatePostTags id tags s)
               | None => s
               end in
      (Some updatedPost, s)
  end.

Definition deletePost (id : Z) (s : t) : bool * t :=
  if negb (Js.has (posts s) id) then (false, s)
  else
    let cs := forEach (Js.entries (comments s)) (fun e m =>
        if Comment.postId (snd e) =? id then fst (Js.delete m (fst e)) else m)
      (comments s) in
    let pts := forEach (Js.entries (postTags s)) (fun e m =>
        if PostTag.postId (snd e) =? id then fst (Js.delete m (fst e)) else m)
      (postTags s) in
    let '(ps, r) := Js.delete (posts s) id in
    (r, mk (users s) ps (tags s) pts cs
           (userId s) (postId s) (tagId s) (postTagId s) (commentId s)).

(** ** Scheduled operations *)

Definition getPostsOlderThan (zone : Js.Zone) (now : Z) (hours : Q) (s : t)
  : list Post.t :=
  let cutoffTime :=
    Js.setHours zone now (inject_Z (Js.getHours zone now) - hours)%Q in
  filter (fun post => Post.createdAt post <? cutoffTime) (Js.values (posts s)).

(** ** The stores the methods can produce *)

(** A call of a method of [IStorage] that can write. *)
Inductive call :=
| CreateUser (d : InsertUser.t)
| CreatePost (d : InsertPost.t) (authorId now : Z)
| UpdatePost (id : Z) (d : PartialInsertPost.t)
| DeletePost (id : Z)
| CreateTag (name : string)
| AddTagToPost (postId tagId : Z)
| RemoveTagFromPost (postId tagId : Z)
| UpdatePostTags (postId : Z) (tagNames : list string)
| CreateComment (d : InsertComment.t) (authorId now : Z)
| UpdateComment (id : Z) (d : PartialInsertComment.t)
| DeleteComment (id : Z).

Definition exec (c : call) (s : t) : t :=
  match c with
  | CreateUser d => snd (createUser d s)
  | CreatePost d authorId now => snd (createPost d authorId now s)
  | UpdatePost id d => snd (updatePost id d s)
  | DeletePost id => snd (deletePost id s)
  | CreateTag name => snd (createTag name s)
  | AddTagToPost postId tagId => snd (addTagToPost postId tagId s)
  | RemoveTagFromPost postId tagId => snd (removeTagFromPost postId tagId s)
  | UpdatePostTags postId tagNames => snd (updatePostTags postId tagNames s)
  | CreateComment d authorId now => snd (createComment d authorId now s)
  | UpdateComment id d => snd (updateComment id d s)
  | DeleteComment id => snd (deleteComment id s)
  end.

Inductive reachable : t -> Prop :=
| reachable_new : reachable new
| reachable_exec c s : reachable s -> reachable (exec c s).

(** Every tag is stored under its own id, below the counter; the keys
    of the links are below their counter. *)
Record wf (s : t) : Prop := mkWf
  { wf_tag_keys : NoDup (Js.keys (tags s));
    wf_tag_ids : forall k g, In (k, g) (tags s) -> Tag.id g = k /\ k < tagId s;
    wf_postTag_keys : NoDup (Js.keys (postTags s));
    wf_postTag_ids : forall k r, In (k, r) (postTags s) -> k < postTagId s }.

(** No tag has an empty name. *)
Definition named (s : t) : Prop :=
  forall k g, In (k, g) (tags s) -> Tag.name g <> "".

(** The calls that leave no tag with an empty name: every call but
    [createTag] with the empty string, which no method and no route
    makes. *)
Definition namingCall (c : call) : bool :=
  match c with
  | CreateTag name => negb (name =? "")%string
  | _ => true
  end.

Inductive namedReachable : t -> Prop :=
| namedReachable_new : namedReachable new
| namedReachable_exec c s :
    namingCall c = true -> namedReachable s -> namedReachable (exec c s).

(** ** Notions used to reason about the methods *)

(** [uniqueTags] of the method: the empty string may be among them. *)
Definition uniqueTags (tagNames : list string) : list string :=
  Js.spreadSet (map (fun t => Js.trim (Js.toLowerCase t)) tagNames).

(** The body of the loop "Add new tags". *)
Definition addNew (postId : Z) (existingTagNames : list string)
           (tagName : string) (s : t) : t :=
  if (tagName =? "")%string then s
  else if Js.includes existingTagNames tagName then s
  else
    let '(tag, s) :=
      match getTagByName s tagName with
      | Some tag => (tag, s)
      | None => createTag tagName s
      end in
    snd (addTagToPost postId (Tag.id tag) s).

(** The body of the loop "Remove tags that are no longer associated". *)
Definition dropOld (postId : Z) (uniqueTags : list string)
           (existingTag : Tag.t) (s : t) : t :=
  if negb (Js.includes uniqueTags (Js.toLowerCase (Tag.name existingTag)))
  then snd (removeTagFromPost postId (Tag.id existingTag) s)
  else s.

(** What the adding loop may have done between two stores. *)
Definition grown (postId : Z) (U : list string) (s0 s1 : t) : Prop :=
  (exists nt, tags s1 = tags s0 ++ nt
              /\ forall k g, In (k, g) nt -> In (Tag.name g) U /\ Tag.name g <> "")
  /\ (exists nr, postTags s1 = postTags s0 ++ nr
                 /\ forall k r, In (k, r) nr ->
                      PostTag.postId r = postId
                      /\ exists g, In (PostTag.tagId r, g) (tags s1)
                                   /\ In (Js.toLowerCase (Tag.name g)) U
                                   /\ Tag.name g <> "").

(** [removeTagFromPost] on the map of links: the first entry with the
    pair goes. *)
Definition rmFirst (postId tagId : Z) (m : Js.Map PostTag.t) : Js.Map PostTag.t :=
  match Js.find (fun e => (PostTag.postId (snd e) =? postId)
                          && (PostTag.tagId (snd e) =? tagId)) m with
  | Some (k, _) => fst (Js.delete m k)
  | None => m
  end.

(** One turn of the removing loop, on the map of links. *)
Definition dropStep (postId : Z) (U : list string)
           (m : Js.Map PostTag.t) (e : Tag.t) : Js.Map PostTag.t :=
  if negb (Js.includes U (Js.toLowerCase (Tag.name e)))
  then rmFirst postId (Tag.id e) m else m.

(** A link of the post whose tag has a name outside [U]. *)
Definition doomed (tg : Js.Map Tag.t) (postId : Z) (U : list string)
           (r : PostTag.t) : bool :=
  (PostTag.postId r =? postId)
  && match Js.get tg (PostTag.tagId r) with
     | Some e => negb (Js.includes U (Js.toLowerCase (Tag.name e)))
     | None => false
     end.

(** [existingTags] as read from the links [rows]. *)
Definition tagsOf (tg : Js.Map Tag.t) (postId : Z)
           (rows : Js.Map PostTag.t) : list Tag.t :=
  collect (fun pt => Js.get tg (PostTag.tagId pt))
          (filter (fun pt => PostTag.postId pt =? postId) (Js.values rows)).

(** ** Further notions for the other maps *)

(** Users, posts and comments are stored under their own ids, below the
    counters. *)
Record keyed (s : t) : Prop := mkKeyed
  { keyed_user_keys : NoDup (Js.keys (users s));
    keyed_users : forall k u, In (k, u) (users s) -> User.id u = k /\ k < userId s;
    keyed_post_keys : NoDup (Js.keys (posts s));
    keyed_posts : forall k p, In (k, p) (posts s) -> Post.id p = k /\ k < postId s;
    keyed_comment_keys : NoDup (Js.keys (comments s));
    keyed_comments :
      forall k c, In (k, c) (comments s) -> Comment.id c = k /\ k < commentId s }.

End MemStorage.

(* ===================================================================== *)
(** * [DatabaseStorage] *)
(* ===================================================================== *)

Module DatabaseStorage.

(** The five tables and the sequences behind their [serial] ids. *)
Record t := mk
  { users : list User.t;
    posts : list Post.t;
    tags : list Tag.t;
    postTags : list PostTag.t;
    comments : list Comment.t;
    usersSeq : Z; postsSeq : Z; tagsSeq : Z; postTagsSeq : Z; commentsSeq : Z }.

(** The empty database. *)
Definition new : t := mk [] [] [] [] [] 1 1 1 1 1.

(** The values of an [integer] or [serial] column: 32-bit integers. *)
Definition int4 (x : Z) : bool := (-2147483648 <=? x) && (x <=? 2147483647).

(** A statement the database rejects: the constraint that was violated,
    a number bound to an integer column that is no 32-bit integer
    (out of range, or [NaN]), or a sequence that has handed out its last
    value. *)
Inductive DbError :=
| PrimaryKey (table : string)
| Unique (table column : string)
| NotInt4
| SequenceExhausted (table : string).

(** A method either resolves or rejects; what it wrote up to the
    rejection stays written (no transaction spans the statements). *)
Definition M (A : Type) := t -> settled DbError A * t.

Definition ret {A} (a : A) : M A := fun s => (Ok a, s).
Definition bind {A B} (m : M A) (k : A -> M B) : M B :=
  fun s => match m s with
           | (Ok a, s') => k a s'
           | (Throw e, s') => (Throw e, s')
           end.
Definition throw {A} (e : DbError) : M A := fun s => (Throw e, s).

(** A statement with the numbers [params] bound to integer columns: it
    is rejected before it runs unless each of them fits the column. *)
Definition bound {A} (params : list Z) (statement : M A) : M A :=
  if forallb int4 params then statement else throw NotInt4.

(** [select]: [params] are the numbers it compares integer columns
    with. *)
Definition query {A} (params : list Z) (f : t -> A) : M A :=
  bound params (fun s => (Ok (f s), s)).

(** A method called with a JavaScript number that may be [NaN] ([None]),
    as [parseInt] returns it. Each method this is used for binds the
    number in its first statement, which the database rejects for
    [NaN]. *)
Definition atNumber {A} (n : option Z) (method : Z -> M A) : M A :=
  match n with
  | Some id => method id
  | None => throw NotInt4
  end.

(** A JavaScript number that fits an [integer] column. *)
Definition isInt4 (n : option Z) : bool :=
  match n with
  | Some id => int4 id
  | None => false
  end.

Declare Scope db_scope.
Delimit Scope db_scope with db.
Notation "x <- m ;; k" := (bind m (fun x => k))
  (at level 61, m at next level, right associativity) : db_scope.
Notation "m ;;; k" := (bind m (fun _ => k))
  (at level 61, right associativity) : db_scope.
Local Open Scope db_scope.

(** [for (const x of xs) { await body(x) }] *)
Fixpoint forOf {A} (xs : list A) (body : A -> M unit) : M unit :=
  match xs with
  | [] => ret tt
  | x :: r => body x ;;; forOf r body
  end.

(** ** Statements

    An [insert] draws the id from the sequence of the table, which
    rejects once its next value no longer fits the column; the value
    drawn is spent also when a constraint then rejects the row. *)

Definition insertUser (d : InsertUser.t) : M User.t := fun s =>
  let id := usersSeq s in
  if negb (int4 id) then (Throw (SequenceExhausted "users"), s) else
  let s := mk (users s) (posts s) (tags s) (postTags s) (comments s)
              (id + 1) (postsSeq s) (tagsSeq s) (postTagsSeq s) (commentsSeq s) in
  if existsb (fun u => User.id u =? id) (users s) then
    (Throw (PrimaryKey "users"), s)
  else if existsb (fun u => (User.email u =? InsertUser.email d)%string) (users s) then
    (Throw (Unique "users" "email"), s)
  else
    let row := User.mk id (InsertUser.name d) (InsertUser.email d)
                       (InsertUser.password d) (InsertUser.image d) in
    (Ok row, mk (users s ++ [row]) (posts s) (tags s) (postTags s) (comments s)
                (usersSeq s) (postsSeq s) (tagsSeq s) (postTagsSeq s) (commentsSeq s)).

Definition insertPost (title body : string) (authorId now : Z) : M Post.t :=
  bound [authorId] (fun s =>
  let id := postsSeq s in
  if negb (int4 id) then (Throw (SequenceExhausted "posts"), s) else
  let s := mk (users s) (posts s) (tags s) (postTags s) (comments s)
              (usersSeq s) (id + 1) (tagsSeq s) (postTagsSeq s) (commentsSeq s) in
  if existsb (fun p => Post.id p =? id) (posts s) then
    (Throw (PrimaryKey "posts"), s)
  else
    let row := Post.mk id title body authorId now in
    (Ok row, mk (users s) (posts s ++ [row]) (tags s) (postTags s) (comments s)
                (usersSeq s) (postsSeq s) (tagsSeq s) (postTagsSeq s) (commentsSeq s))).

Definition insertTag (name : string) : M Tag.t := fun s =>
  let id := tagsSeq s in
  if negb (int4 id) then (Throw (SequenceExhausted "tags"), s) else
  let s := mk (users s) (posts s) (tags s) (postTags s) (comments s)
              (usersSeq s) (postsSeq s) (id + 1) (postTagsSeq s) (commentsSeq s) in
  if existsb (fun g => Tag.id g =? id) (tags s) then
    (Throw (PrimaryKey "tags"), s)
  else if existsb (fun g => (Tag.name g =? name)%string) (tags s) then
    (Throw (Unique "tags" "name"), s)
  else
    let row := Tag.mk id name in
    (Ok row, mk (users s) (posts s) (tags s ++ [row]) (postTags s) (comments s)
                (usersSeq s) (postsSeq s) (tagsSeq s) (postTagsSeq s) (commentsSeq s)).

Definition insertPostTag (postId tagId : Z) : M PostTag.t :=
  bound [postId; tagId] (fun s =>
  let id := postTagsSeq s in
  if negb (int4 id) then (Throw (SequenceExhausted "post_tags"), s) else
  let s := mk (users s) (posts s) (tags s) (postTags s) (comments s)
              (usersSeq s) (postsSeq s) (tagsSeq s) (id + 1) (commentsSeq s) in
  if existsb (fun r => PostTag.id r =? id) (postTags s) then
    (Throw (PrimaryKey "post_tags"), s)
  else
    let row := PostTag.mk id postId tagId in
    (Ok row, mk (users s) (posts s) (tags s) (postTags s ++ [row]) (comments s)
                (usersSeq s) (postsSeq s) (tagsSeq s) (postTagsSeq s) (commentsSeq s))).

Definition insertComment (body : string) (authorId postId now : Z) : M Comment.t :=
  bound [authorId; postId] (fun s =>
  let id := commentsSeq s in
  if negb (int4 id) then (Throw (SequenceExhausted "comments"), s) else
  let s := mk (users s) (posts s) (tags s) (postTags s) (comments s)
              (usersSeq s) (postsSeq s) (tagsSeq s) (postTagsSeq s) (id + 1) in
  if existsb (fun c => Comment.id c =? id) (comments s) then
    (Throw (PrimaryKey "comments"), s)
  else
    let row := Comment.mk id body authorId postId now in
    (Ok row, mk (users s) (posts s) (tags s) (postTags s) (comments s ++ [row])
                (usersSeq s) (postsSeq s) (tagsSeq s) (postTagsSeq s) (commentsSeq s))).

(** [delete ... where ... returning]: the rows removed are returned. *)
Definition deleteComments (params : list Z) (p : Comment.t -> bool)
  : M (list Comment.t) :=
  bound params (fun s =>
  (Ok (filter p (comments s)),
   mk (users s) (posts s) (tags s) (postTags s)
      (filter (fun c => negb (p c)) (comments s))
      (usersSeq s) (postsSeq s) (tagsSeq s) (postTagsSeq s) (commentsSeq s))).

Definition deletePostTags (params : list Z) (p : PostTag.t -> bool)
  : M (list PostTag.t) :=
  bound params (fun s =>
  (Ok (filter p (postTags s)),
   mk (users s) (posts s) (tags s)
      (filter (fun r => negb (p r)) (postTags s)) (comments s)
      (usersSeq s) (postsSeq s) (tagsSeq s) (postTagsSeq s) (commentsSeq s))).

Definition deletePosts (params : list Z) (p : Post.t -> bool)
  : M (list Post.t) :=
  bound params (fun s =>
  (Ok (filter p (posts s)),
   mk (users s) (filter (fun r => negb (p r)) (posts s)) (tags s)
      (postTags s) (comments s)
      (usersSeq s) (postsSeq s) (tagsSeq s) (postTagsSeq s) (commentsSeq s))).

(** [update ... set ... where ... returning]: the rows as updated. An
    updated row is written as a new version of the row, which a scan of
    the table meets after the rows that were left alone. *)
Definition updatePosts (params : list Z) (p : Post.t -> bool)
           (f : Post.t -> Post.t) : M (list Post.t) :=
  bound params (fun s =>
  (Ok (map f (filter p (posts s))),
   mk (users s)
      (filter (fun r => negb (p r)) (posts s) ++ map f (filter p (posts s)))
      (tags s) (postTags s) (comments s)
      (usersSeq s) (postsSeq s) (tagsSeq s) (postTagsSeq s) (commentsSeq s))).

Definition updateComments (params : list Z) (p : Comment.t -> bool)
           (f : Comment.t -> Comment.t) : M (list Comment.t) :=
  bound params (fun s =>
  (Ok (map f (filter p (comments s))),
   mk (users s) (posts s) (tags s) (postTags s)
      (filter (fun r => negb (p r)) (comments s)
       ++ map f (filter p (comments s)))
      (usersSeq s) (postsSeq s) (tagsSeq s) (postTagsSeq s) (commentsSeq s))).

(** ** User methods *)

Definition getUser (id : Z) : M (option User.t) :=
  query [id] (fun s => hd_error (filter (fun u => User.id u =? id) (users s))).

Definition getUserByEmail (email : string) : M (option User.t) :=
  query [] (fun s =>
    hd_error (filter (fun u => (User.email u =? email)%string) (users s))).

Definition createUser (d : InsertUser.t) : M User.t := insertUser d.

(** ** Tag methods *)

Definition createTag (name : string) : M Tag.t := insertTag name.

Definition getTagByName (name : string) : M (option Tag.t) :=
  query [] (fun s =>
    hd_error (filter (fun g => (Js.toLowerCase (Tag.name g)
                                =? Js.toLowerCase name)%string) (tags s))).

(** ** PostTag methods *)

Definition addTagToPost (postId tagId : Z) : M PostTag.t :=
  existing <- query [postId; tagId] (fun s =>
    hd_error (filter (fun r => (PostTag.postId r =? postId)
                               && (PostTag.tagId r =? tagId)) (postTags s))) ;;
  match existing with
  | Some existingPostTag => ret existingPostTag
  | None => insertPostTag postId tagId
  end.

Definition removeTagFromPost (postId tagId : Z) : M bool :=
  deleted <- deletePostTags [postId; tagId]
               (fun r => (PostTag.postId r =? postId)
                         && (PostTag.tagId r =? tagId)) ;;
  ret (match deleted with [] => false | _ :: _ => true end).

(** [tags] inner join [post_tags] on the tag id, restricted to the post. *)
Definition getTagsByPostId (postId : Z) : M (list Tag.t) :=
  query [postId] (fun s =>
    flat_map (fun g =>
        map (fun _ => g)
            (filter (fun r => (Tag.id g =? PostTag.tagId r)
                              && (PostTag.postId r =? postId)) (postTags s)))
      (tags s)).

Definition updatePostTags (postId : Z) (tagNames : list string)
  : M (list string) :=
  existingTags <- getTagsByPostId postId ;;
  let existingTagNames := map (fun t => Js.toLowerCase (Tag.name t)) existingTags in
  let normalizedTags := map (fun t => Js.trim (Js.toLowerCase t)) tagNames in
  let uniqueTags :=
    filter (fun t => negb (t =? "")%string) (Js.spreadSet normalizedTags) in
  forOf uniqueTags (fun tagName =>
      if Js.includes existingTagNames tagName then ret tt
      else
        found <- getTagByName tagName ;;
        tag <- match found with
               | Some tag => ret tag
               | None => createTag tagName
               end ;;
        addTagToPost postId (Tag.id tag) ;;;
        ret tt) ;;;
  forOf existingTags (fun existingTag =>
      if negb (Js.includes uniqueTags (Js.toLowerCase (Tag.name existingTag)))
      then removeTagFromPost postId (Tag.id existingTag) ;;; ret tt
      else ret tt) ;;;
  updatedTags <- getTagsByPostId postId ;;
  ret (map Tag.name updatedTags).

(** ** Comment methods *)

Definition createComment (d : InsertComment.t) (authorId now : Z) : M Comment.t :=
  insertComment (InsertComment.body d) authorId (InsertComment.postId d) now.

Definition getComment (id : Z) : M (option Comment.t) :=
  query [id] (fun s =>
    hd_error (filter (fun c => Comment.id c =? id) (comments s))).

Definition updateComment (id : Z) (d : PartialInsertComment.t)
  : M (option Comment.t) :=
  match fieldSet (PartialInsertComment.body d) with
  | None => getComment id
  | Some b =>
      updated <- updateComments [id] (fun c => Comment.id c =? id)
                   (fun c => Comment.mk (Comment.id c) b (Comment.authorId c)
                                        (Comment.postId c) (Comment.createdAt c)) ;;
      ret (hd_error updated)
  end.

Definition deleteComment (id : Z) : M bool :=
  deleted <- deleteComments [id] (fun c => Comment.id c =? id) ;;
  ret (match deleted with [] => false | _ :: _ => true end).

(** ** Post methods *)

Definition createPost (d : InsertPost.t) (authorId now : Z) : M Post.t :=
  post <- insertPost (InsertPost.title d) (InsertPost.body d) authorId now ;;
  match tagsGiven (Some (InsertPost.tags d)) with
  | Some tags => updatePostTags (Post.id post) tags ;;; ret post
  | None => ret post
  end.

Definition getPost (id : Z) : M (option PostWithDetails.t) :=
  found <- query [id] (fun s =>
    hd_error (filter (fun p => Post.id p =? id) (posts s))) ;;
  match found with
  | None => ret None
  | Some post =>
      foundAuthor <- query [Post.authorId post] (fun s =>
        hd_error (map (fun u => Author.mk (User.id u) (User.name u))
                      (filter (fun u => User.id u =? Post.authorId post) (users s)))) ;;
      match foundAuthor with
      | None => ret None
      | Some author =>
          tags <- getTagsByPostId id ;;
          count <- query [id] (fun s =>
            Z.of_nat (List.length
              (filter (fun c => Comment.postId c =? id) (comments s)))) ;;
          ret (Some (PostWithDetails.mk post author (map Tag.name tags) count))
      end
  end.

(** The loop that assembles the details of a list of post ids. *)
Fixpoint postsWithDetails (postIds : list Z) : M (list PostWithDetails.t) :=
  match postIds with
  | [] => ret []
  | postId :: r =>
      postWithDetails <- getPost postId ;;
      rest <- postsWithDetails r ;;
      ret (match postWithDetails with
           | Some d => d :: rest
           | None => rest
           end)
  end.

Definition getPostsByTag (tagName : string) : M (list PostWithDetails.t) :=
  found <- query [] (fun s =>
    hd_error (filter (fun g => (Tag.name g =? tagName)%string) (tags s))) ;;
  match found with
  | None => ret []
  | Some tag =>
      postIdsWithTag <- query [Tag.id tag] (fun s =>
        filter (fun r => PostTag.tagId r =? Tag.id tag) (postTags s)) ;;
      postsWithDetails (map PostTag.postId postIdsWithTag)
  end.

Definition updatePost (id : Z) (d : PartialInsertPost.t) : M (option Post.t) :=
  let title := fieldSet (PartialInsertPost.title d) in
  let body := fieldSet (PartialInsertPost.body d) in
  match title, body with
  | None, None =>
      query [id] (fun s =>
        hd_error (filter (fun p => Post.id p =? id) (posts s)))
  | _, _ =>
      updated <- updatePosts [id] (fun p => Post.id p =? id)
        (fun p => Post.mk (Post.id p)
                    (match title with Some v => v | None => Post.title p end)
                    (match body with Some v => v | None => Post.body p end)
                    (Post.authorId p) (Post.createdAt p)) ;;
      match updated with
      | [] => ret None
      | updatedPost :: _ =>
          match tagsGiven (PartialInsertPost.tags d) with
          | Some tags => updatePostTags id tags ;;; ret (Some updatedPost)
          | None => ret (Some updatedPost)
          end
      end
  end.

Definition deletePost (id : Z) : M bool :=
  deleteComments [id] (fun c => Comment.postId c =? id) ;;;
  deletePostTags [id] (fun r => PostTag.postId r =? id) ;;;
  deleted <- deletePosts [id] (fun p => Post.id p =? id) ;;
  ret (match deleted with [] => false | _ :: _ => true end).

(** ** Scheduled operations *)

Definition getPostsOlderThan (zone : Js.Zone) (now : Z) (hours : Q)
  : M (list Post.t) :=
  let cutoffTime :=
    Js.setHours zone now (inject_Z (Js.getHours zone now) - hours)%Q in
  query [] (fun s => filter (fun post => Post.createdAt post <? cutoffTime) (posts s)).

(** ** The states the methods can produce *)

(** A call of a method of [IStorage] that can write. *)
Inductive call :=
| CreateUser (d : InsertUser.t)
| CreatePost (d : InsertPost.t) (authorId now : Z)
| UpdatePost (id : Z) (d : PartialInsertPost.t)
| DeletePost (id : Z)
| CreateTag (name : string)
| AddTagToPost (postId tagId : Z)
| RemoveTagFromPost (postId tagId : Z)
| UpdatePostTags (postId : Z) (tagNames : list string)
| CreateComment (d : InsertComment.t) (authorId now : Z)
| UpdateComment (id : Z) (d : PartialInsertComment.t)
| DeleteComment (id : Z).

(** The database after the call, whether it resolved or rejected. *)
Definition exec (c : call) (s : t) : t :=
  match c with
  | CreateUser d => snd (createUser d s)
  | CreatePost d authorId now => snd (createPost d authorId now s)
  | UpdatePost id d => snd (updatePost id d s)
  | DeletePost id => snd (deletePost id s)
  | CreateTag name => snd (createTag name s)
  | AddTagToPost postId tagId => snd (addTagToPost postId tagId s)
  | RemoveTagFromPost postId tagId => snd (removeTagFromPost postId tagId s)
  | UpdatePostTags postId tagNames => snd (updatePostTags postId tagNames s)
  | CreateComment d authorId now => snd (createComment d authorId now s)
  | UpdateComment id d => snd (updateComment id d s)
  | DeleteComment id => snd (deleteComment id s)
  end.

Inductive reachable : t -> Prop :=
| reachable_new : reachable new
| reachable_exec c s : reachable s -> reachable (exec c s).

(** The (postId, tagId) pair of a row of [post_tags]. *)
Definition pairOf (r : PostTag.t) : Z * Z := (PostTag.postId r, PostTag.tagId r).

(** No two rows of [post_tags] carry the same pair. *)
Definition pairsUnique (s : t) : Prop := NoDup (map pairOf (postTags s)).

(** The tags a post is linked to, as [getTagsByPostId] reads them. *)
Definition linkedTags (s : t) (postId : Z) : list Tag.t :=
  flat_map (fun g =>
      map (fun _ => g)
          (filter (fun r => (Tag.id g =? PostTag.tagId r)
                            && (PostTag.postId r =? postId)) (postTags s)))
    (tags s).

(** Tag ids are distinct, the ids of [tags] and [post_tags] were drawn
    from their sequences, and the integer columns of both tables hold
    32-bit integers. *)
Record wf (s : t) : Prop := mkWf
  { wf_tag_ids : NoDup (map Tag.id (tags s));
    wf_tag_seq : Forall (fun g => Tag.id g < tagsSeq s) (tags s);
    wf_postTag_seq : Forall (fun r => PostTag.id r < postTagsSeq s) (postTags s);
    wf_tag_range : Forall (fun g => int4 (Tag.id g) = true) (tags s);
    wf_postTag_range :
      Forall (fun r => int4 (PostTag.postId r) = true
                       /\ int4 (PostTag.tagId r) = true) (postTags s) }.

(** The sequences of [tags] and [post_tags] can each hand out [n] more
    ids. *)
Definition room (n : Z) (s : t) : Prop :=
  (forall k, 0 <= k < n -> int4 (tagsSeq s + k) = true)
  /\ (forall k, 0 <= k < n -> int4 (postTagsSeq s + k) = true).

(** ** Notions used to reason about the methods *)

(** [steps R m]: running [m] takes a database to an [R]-related one,
    whether [m] resolves or rejects. *)
Definition steps (R : t -> t -> Prop) {A} (m : M A) : Prop :=
  forall s, R s (snd (m s)).

(** A property of the database that survives every step. *)
Definition keeps (I : t -> Prop) : t -> t -> Prop := fun s s' => I s -> I s'.

(** [uniqueTags] of the method. *)
Definition uniqueTags (tagNames : list string) : list string :=
  filter (fun t => negb (t =? "")%string)
         (Js.spreadSet (map (fun t => Js.trim (Js.toLowerCase t)) tagNames)).

(** "Get or create the tag". *)
Definition getOrCreate (tagName : string) : M Tag.t :=
  found <- getTagByName tagName ;;
  match found with
  | Some tag => ret tag
  | None => createTag tagName
  end.

(** The body of the loop "Add new tags". *)
Definition addNew (postId : Z) (existingTagNames : list string)
           (tagName : string) : M unit :=
  if Js.includes existingTagNames tagName then ret tt
  else
    tag <- getOrCreate tagName ;;
    addTagToPost postId (Tag.id tag) ;;;
    ret tt.

(** The body of the loop "Remove tags that are no longer associated". *)
Definition dropOld (postId : Z) (uniqueTags : list string)
           (existingTag : Tag.t) : M unit :=
  if negb (Js.includes uniqueTags (Js.toLowerCase (Tag.name existingTag)))
  then removeTagFromPost postId (Tag.id existingTag) ;;; ret tt
  else ret tt.

(** What the adding loop may have done between two databases: tags
    appended whose names are in [U], and rows appended that link the
    post to tags whose lower-cased names are in [U]. *)
Definition grown (postId : Z) (U : list string) (s0 s1 : t) : Prop :=
  (exists nt, tags s1 = tags s0 ++ nt
              /\ forall g, In g nt -> In (Tag.name g) U)
  /\ (exists nr, postTags s1 = postTags s0 ++ nr
                 /\ forall r, In r nr ->
                      PostTag.postId r = postId
                      /\ exists g, In g (tags s1)
                                   /\ Tag.id g = PostTag.tagId r
                                   /\ In (Js.toLowerCase (Tag.name g)) U).

(** The table [posts] is as it was. *)
Definition samePosts (s s' : t) : Prop := posts s' = posts s.

(** ** Further notions for the other tables *)

(** The ids of users, posts and comments were drawn from their
    sequences, post ids are distinct, and the integer columns of the
    three tables hold 32-bit integers. *)
Record keyed (s : t) : Prop := mkKeyed
  { keyed_users : Forall (fun u => User.id u < usersSeq s) (users s);
    keyed_posts : Forall (fun p => Post.id p < postsSeq s) (posts s);
    keyed_post_ids : NoDup (map Post.id (posts s));
    keyed_comments : Forall (fun c => Comment.id c < commentsSeq s) (comments s);
    keyed_user_range : Forall (fun u => int4 (User.id u) = true) (users s);
    keyed_post_range :
      Forall (fun p => int4 (Post.id p) = true
                       /\ int4 (Post.authorId p) = true) (posts s);
    keyed_comment_range :
      Forall (fun c => int4 (Comment.id c) = true
                       /\ int4 (Comment.authorId c) = true
                       /\ int4 (Comment.postId c) = true) (comments s) }.

(** A tag name as [updatePostTags] writes it: trimmed, lower-cased and
    not empty. *)
Definition normalizedName (n : string) : Prop :=
  Js.trim (Js.toLowerCase n) = n /\ n <> "".

(** Tag names are normalized and no two tags have the same name. *)
Definition tagNamesCanonical (s : t) : Prop :=
  Forall (fun g => normalizedName (Tag.name g)) (tags s)
  /\ NoDup (map Tag.name (tags s)).

(** The calls the routes, the middleware and the scheduler make: every
    writing method but [createTag], [addTagToPost] and
    [removeTagFromPost], which only [updatePostTags] calls. *)
Definition routeCall (c : call) : bool :=
  match c with
  | CreateTag _ | AddTagToPost _ _ | RemoveTagFromPost _ _ => false
  | _ => true
  end.

Inductive routeReachable : t -> Prop :=
| routeReachable_new : routeReachable new
| routeReachable_exec c s :
    routeCall c = true -> routeReachable s -> routeReachable (exec c s).

(** The database once the posts with an id in [ids] are deleted with
    their comments and tag links. *)
Definition purged (ids : list Z) (s : t) : t :=
  mk (users s)
     (filter (fun p => negb (existsb (Z.eqb (Post.id p)) ids)) (posts s))
     (tags s)
     (filter (fun r => negb (existsb (Z.eqb (PostTag.postId r)) ids)) (postTags s))
     (filter (fun c => negb (existsb (Z.eqb (Comment.postId c)) ids)) (comments s))
     (usersSeq s) (postsSeq s) (tagsSeq s) (postTagsSeq s) (commentsSeq s).

(** What [getPost] assembles for an id. *)
Definition postDetails (s : t) (id : Z) : option PostWithDetails.t :=
  match hd_error (filter (fun p => Post.id p =? id) (posts s)) with
  | None => None
  | Some post =>
      match hd_error (filter (fun u => User.id u =? Post.authorId post) (users s)) with
      | None => None
      | Some u =>
          Some (PostWithDetails.mk post
                  (Author.mk (User.id u) (User.name u))
                  (map Tag.name (linkedTags s id))
                  (Z.of_nat (List.length
                     (filter (fun c => Comment.postId c =? id) (comments s)))))
      end
  end.

(** The tables of users, posts and comments are as they were. *)
Definition sameOthers (s s' : t) : Prop :=
  users s' = users s /\ posts s' = posts s /\ comments s' = comments s
  /\ postsSeq s' = postsSeq s.

(** Tags were appended, each with a normalized name. *)
Definition tagsAdded (s s' : t) : Prop :=
  exists nt, tags s' = tags s ++ nt
             /\ Forall (fun g => normalizedName (Tag.name g)) nt.

End DatabaseStorage.

(* ===================================================================== *)
(** * The expiry job ([server/scheduler.ts]) *)
(* ===================================================================== *)

Module Scheduler.

(** The two methods of [IStorage] the job calls. A storage has a state
    [St]; a call may reject with an error of type [E]. *)
Class IStorage (St E : Type) := {
  getPostsOlderThan : Js.Zone -> Z -> Q -> St -> settled E (list Post.t) * St;
  deletePost : Z -> St -> settled E bool * St
}.

(** What a run does that can be seen from outside: the console lines and
    the calls of [deletePost]. *)
Inductive event (E : Type) :=
| LogRunning
| LogFound (n : Z)
| CallDeletePost (id : Z)
| LogDeleted (id : Z)
| LogCompleted
| LogNoPosts
| ErrorInJob (e : E).
Arguments LogRunning {E}.
Arguments LogFound {E} n.
Arguments CallDeletePost {E} id.
Arguments LogDeleted {E} id.
Arguments LogCompleted {E}.
Arguments LogNoPosts {E}.
Arguments ErrorInJob {E} e.

Section Job.
Context {St E : Type} `{IStorage St E}.

(** [for (const post of oldPosts) { await storage.deletePost(post.id); ... }]:
    a rejected [deletePost] leaves the loop. *)
Fixpoint deleteEach (oldPosts : list Post.t) (s : St)
  : settled E unit * St * list (event E) :=
  match oldPosts with
  | [] => (Ok tt, s, [])
  | post :: r =>
      match deletePost (Post.id post) s with
      | (Ok _, s1) =>
          let '(res, s2, tr) := deleteEach r s1 in
          (res, s2,
           CallDeletePost (Post.id post) :: LogDeleted (Post.id post) :: tr)
      | (Throw e, s1) => (Throw e, s1, [CallDeletePost (Post.id post)])
      end
  end.

(** The body of the [try] block. *)
Definition tryBlock (zone : Js.Zone) (now : Z) (s : St)
  : settled E unit * St * list (event E) :=
  match getPostsOlderThan zone now 24%Q s with
  | (Throw e, s1) => (Throw e, s1, [LogRunning])
  | (Ok oldPosts, s1) =>
      if Z.of_nat (List.length oldPosts) >? 0 then
        let '(res, s2, tr) := deleteEach oldPosts s1 in
        match res with
        | Ok _ =>
            (Ok tt, s2,
             LogRunning :: LogFound (Z.of_nat (List.length oldPosts))
               :: tr ++ [LogCompleted])
        | Throw e =>
            (Throw e, s2,
             LogRunning :: LogFound (Z.of_nat (List.length oldPosts)) :: tr)
        end
      else (Ok tt, s1, [LogRunning; LogNoPosts])
  end.

(** One run of the scheduled job: [try { ... } catch (error) { ... }]. *)
Definition job (zone : Js.Zone) (now : Z) (s : St) : list (event E) * St :=
  match tryBlock zone now s with
  | (Ok _, s1, tr) => (tr, s1)
  | (Throw e, s1, tr) => (tr ++ [ErrorInJob e], s1)
  end.

(** The ids handed to [deletePost], in order. *)
Definition deleteCalls (tr : list (event E)) : list Z :=
  collect (fun ev => match ev with
                     | CallDeletePost id => Some id
                     | _ => None
                     end) tr.

(** Every post of [oldPosts] is deleted in turn without a rejection,
    taking the storage from [s] to [s']. *)
Fixpoint deletesResolve (oldPosts : list Post.t) (s s' : St) : Prop :=
  match oldPosts with
  | [] => s' = s
  | post :: r =>
      exists b s1, deletePost (Post.id post) s = (Ok b, s1)
                   /\ deletesResolve r s1 s'
  end.
(** The console lines and calls of a loop in which every delete
    resolves. *)
Definition resolvedTrace (ps : list Post.t) : list (event E) :=
  flat_map (fun p => [CallDeletePost (Post.id p); LogDeleted (Post.id p)]) ps.
End Job.

(** [storage] as exported: the [DatabaseStorage] instance. *)
#[global] Instance databaseStorage
  : IStorage DatabaseStorage.t DatabaseStorage.DbError :=
  {| getPostsOlderThan := DatabaseStorage.getPostsOlderThan;
     deletePost := DatabaseStorage.deletePost |}.

(** A database whose connection fails while it deletes the posts listed
    in [failing]: the call rejects before any statement has run. *)
Module Flaky.
Record t := mk { db : DatabaseStorage.t; failing : list Z }.

Inductive StorageError :=
| ConnectionLost
| Db (e : DatabaseStorage.DbError).

Definition lift {A} (m : DatabaseStorage.M A) (s : t)
  : settled StorageError A * t :=
  match m (db s) with
  | (Ok a, d) => (Ok a, mk d (failing s))
  | (Throw e, d) => (Throw (Db e), mk d (failing s))
  end.

#[global] Instance storage : IStorage t StorageError :=
  {| getPostsOlderThan zone now hours :=
       lift (DatabaseStorage.getPostsOlderThan zone now hours);
     deletePost id s :=
       if existsb (Z.eqb id) (failing s) then (Throw ConnectionLost, s)
       else lift (DatabaseStorage.deletePost id) s |}.
End Flaky.

End Scheduler.

(* ===================================================================== *)
(** * Pagination of [GET /api/posts] ([server/routes.ts]) *)
(* ===================================================================== *)

Module Routes.

(** [req.query.page], [req.query.per_page]: absent or a string. *)
Record Query := mkQuery { page : option string; per_page : option string }.

(** [parseInt(q as string)]: an absent parameter parses to [NaN]. *)
Definition parseParam (q : option string) : option Z :=
  match q with
  | Some s => Js.parseInt s
  | None => None
  end.

Definition pageOf (q : Query) : Z :=
  Z.max (Js.orElse (parseParam (page q)) 1) 1.

Definition perPageOf (q : Query) : Z :=
  Z.min (Z.max (Js.orElse (parseParam (per_page q)) 20) 1) 100.

Record Meta := mkMeta
  { current_page : Z; total_pages : Z; total_count : Z }.

Record Response (A : Type) := mkResponse { posts : list A; meta : Meta }.
Arguments mkResponse {A} posts meta.
Arguments posts {A} r.
Arguments meta {A} r.

(** The handler from "Basic pagination" on; [allPosts] is what the
    storage returned for the request. *)
Definition getApiPosts {A} (q : Query) (allPosts : list A) : Response A :=
  let page := pageOf q in
  let perPage := perPageOf q in
  let start := (page - 1) * perPage in
  let paginatedPosts := Js.slice allPosts start (start + perPage) in
  mkResponse paginatedPosts
    (mkMeta page
            (Js.ceilDiv (Z.of_nat (List.length allPosts)) perPage)
            (Z.of_nat (List.length allPosts))).

End Routes.

(* ===================================================================== *)
(** * The middleware ([server/middleware/authMiddleware.ts]) *)
(* ===================================================================== *)

Module AuthMiddleware.

(** How a middleware or handler leaves a request: a JSON error or
    success response with its status, [next()], or [next(error)]. *)
Inductive reply (E : Type) :=
| Respond (status : Z) (message : string)
| Next
| NextError (e : E).
Arguments Respond {E} status message.
Arguments Next {E}.
Arguments NextError {E} e.

(** The payload of a verified token. *)
Record JwtPayload := mkPayload { id : Z; email : string; name : string }.

Section Authenticate.
Context {St E : Type}.

(** [storage.getUser] *)
Variable getUser : Z -> St -> settled E (option User.t) * St.

(** [jwt.verify(token, JWT_SECRET)]: [None] when it throws. *)
Variable verify : string -> option JwtPayload.

(** [authenticateJWT]: the reply, [req.user] afterwards and the storage.
    [authorization] is [req.headers.authorization]. *)
Definition authenticateJWT (authorization : option string) (s : St)
  : reply E * option User.t * St :=
  match fieldSet authorization with
  | None => (Respond 401 "Authentication required", None, s)
  | Some authHeader =>
      match fieldSet (nth_error (Js.split " " authHeader) 1) with
      | None => (Respond 401 "Authentication token required", None, s)
      | Some token =>
          match verify token with
          | None => (Respond 401 "Invalid or expired token", None, s)
          | Some decoded =>
              match getUser (id decoded) s with
              | (Throw _, s1) =>
                  (Respond 401 "Invalid or expired token", None, s1)
              | (Ok None, s1) => (Respond 401 "User not found", None, s1)
              | (Ok (Some user), s1) => (Next, Some user, s1)
              end
          end
      end
  end.
End Authenticate.

(** [isAuthor], from [const resourceType = ...] on: [resourceId] is
    [parseInt(req.params.id)], which is [None] for [NaN], and [user] is
    [req.user]. *)
Definition isAuthor (resourceId : option Z) (baseUrl : string)
           (user : option User.t)
           (s : DatabaseStorage.t)
  : reply DatabaseStorage.DbError * DatabaseStorage.t :=
  let resourceType :=
    if Js.strIncludes baseUrl "posts" then "post" else "comment" in
  match user with
  | None => (Respond 401 "Not authenticated", s)
  | Some u =>
      let '(found, s1) :=
        if (resourceType =? "post")%string then
          match DatabaseStorage.atNumber resourceId DatabaseStorage.getPost s with
          | (Throw e, s1) => (inl (NextError e), s1)
          | (Ok None, s1) => (inl (Respond 404 "Post not found"), s1)
          | (Ok (Some post), s1) =>
              (inr (Author.id (PostWithDetails.author post) =? User.id u), s1)
          end
        else
          match DatabaseStorage.atNumber resourceId DatabaseStorage.getComment s with
          | (Throw e, s1) => (inl (NextError e), s1)
          | (Ok None, s1) => (inl (Respond 404 "Comment not found"), s1)
          | (Ok (Some comment), s1) =>
              (inr (Comment.authorId comment =? User.id u), s1)
          end in
      match found with
      | inl r => (r, s1)
      | inr isOwner =>
          if negb isOwner then
            (Respond 403
               ("You are not authorized to modify this " ++ resourceType)%string,
             s1)
          else (Next, s1)
      end
  end.

End AuthMiddleware.

(* ===================================================================== *)
(** * Registration ([server/auth.ts]) and the post handlers *)
(* ===================================================================== *)

Module Handlers.
Import DatabaseStorage.
Local Open Scope db_scope.

(** What [POST /api/register] does between validation and the token:
    [hashedPassword] is what [hashPassword] returned. [inl] is the 400
    reply "Email already in use". *)
Definition registerUser (email hashedPassword name : string)
           (image : option string) : M (string + User.t) :=
  existingUser <- getUserByEmail email ;;
  match existingUser with
  | Some _ => ret (inl "Email already in use")
  | None =>
      user <- createUser (InsertUser.mk name email hashedPassword image) ;;
      ret (inr user)
  end.

(** The reply of [POST /api/posts] once the body is validated. *)
Inductive created :=
| Created (post : PostWithDetails.t)
| Failed (status : Z) (message : string)
| Errored (e : DbError).

Definition postApiPosts (d : InsertPost.t) (user : option User.t) (now : Z)
           (s : t) : created * t :=
  match user with
  | None => (Failed 401 "Authentication required", s)
  | Some u =>
      match createPost d (User.id u) now s with
      | (Throw e, s1) => (Errored e, s1)
      | (Ok post, s1) =>
          match getPost (Post.id post) s1 with
          | (Throw e, s2) => (Errored e, s2)
          | (Ok None, s2) => (Failed 500 "Failed to retrieve created post", s2)
          | (Ok (Some postWithDetails), s2) => (Created postWithDetails, s2)
          end
      end
  end.

(** The reply of the handler of [DELETE /api/posts/:id]. *)
Inductive removed :=
| Removed
| Missing (status : Z) (message : string)
| RemoveErrored (e : DbError).

Definition deleteApiPost (id : option Z) (s : t) : removed * t :=
  match atNumber id deletePost s with
  | (Throw e, s1) => (RemoveErrored e, s1)
  | (Ok deleted, s1) =>
      if negb deleted then (Missing 404 "Post not found", s1)
      else (Removed, s1)
  end.

(** [app.delete("/api/posts/:id", authenticateJWT, isAuthor, handler)]:
    each function runs when the one before it calls [next()]. [inl] is
    the reply of a middleware that ended the request, [inr] the reply of
    the handler. *)
Definition deletePostRoute
           (verify : string -> option AuthMiddleware.JwtPayload)
           (authorization : option string) (id : option Z) (baseUrl : string)
           (s : t)
  : (AuthMiddleware.reply DbError + removed) * t :=
  match AuthMiddleware.authenticateJWT getUser verify authorization s with
  | (AuthMiddleware.Next, user, s1) =>
      match AuthMiddleware.isAuthor id baseUrl user s1 with
      | (AuthMiddleware.Next, s2) =>
          let '(r, s3) := deleteApiPost id s2 in (inr r, s3)
      | (r, s2) => (inl r, s2)
      end
  | (r, _, s1) => (inl r, s1)
  end.

End Handlers.

(* ===================================================================== *)
(** * The client ([post-card.tsx], [post-form.tsx]) *)
(* ===================================================================== *)

Module Client.

(** [expiryTime] of a post card: the creation instant with its hour
    field moved on by 24. *)
Definition expiryTime (zone : Js.Zone) (createdAt : Z) : Z :=
  Js.setHours zone createdAt (inject_Z (Js.getHours zone createdAt + 24)).

(** [isExpiringSoon]: less than two hours are left. The quotient of the
    source is compared through its numerator. *)
Definition isExpiringSoon (zone : Js.Zone) (createdAt now : Z) : bool :=
  expiryTime zone createdAt - now <? 2 * (1000 * 60 * 60).

(** The tags [onSubmit] sends: the blank ones are filtered out. *)
Definition submittedTags (tags : list string) : list string :=
  filter (fun tag => negb (Js.trim tag =? "")%string) tags.

End Client.

(* ===================================================================== *)
(** * The list of posts on the client ([post-list.tsx]) *)
(* ===================================================================== *)

Module PostList.

(** [limit || 10] *)
Definition perPageOf (limit : option Z) : Z := Js.orElse limit 10.

(** "Apply pagination": [filteredPosts] is the list once filtered and
    sorted. *)
Definition totalPages {A} (filteredPosts : list A) (perPage : Z) : Z :=
  Js.ceilDiv (Z.of_nat (List.length filteredPosts)) perPage.

Definition paginatedPosts {A} (filteredPosts : list A) (page perPage : Z)
  : list A :=
  Js.slice filteredPosts ((page - 1) * perPage) (page * perPage).

(** [handlePageChange]: the page afterwards. *)
Definition handlePageChange (totalPages page newPage : Z) : Z :=
  if (newPage >? 0) && (newPage <=? totalPages) then newPage else page.

(** What the pager renders at a position: a link to a page, an ellipsis
    or nothing. *)
Inductive item :=
| PageLink (pageNumber : Z) (isActive : bool)
| Ellipsis (pageNumber : Z)
| Null.

(** "Logic to show pages around current page" *)
Definition pageNumberAt (page totalPages i : Z) : Z :=
  if totalPages <=? 5 then i + 1
  else if page <=? 3 then i + 1
  else if page >=? totalPages - 2 then totalPages - 4 + i
  else page - 2 + i.

Definition itemAt (page totalPages i : Z) : item :=
  let pageNumber := pageNumberAt page totalPages i in
  if (pageNumber =? 1) || (pageNumber =? totalPages)
     || ((pageNumber >=? page - 1) && (pageNumber <=? page + 1))
  then PageLink pageNumber (page =? pageNumber)
  else if (pageNumber =? 2) || (pageNumber =? totalPages - 1)
  then Ellipsis pageNumber
  else Null.

(** [Array.from({ length: Math.min(5, totalPages) }, (_, i) => ...)] *)
Definition pagerItems (page totalPages : Z) : list item :=
  map (fun i => itemAt page totalPages (Z.of_nat i))
      (seq 0 (Z.to_nat (Z.min 5 totalPages))).

End PostList.

(* ===================================================================== *)
(** * What an update may change *)
(* ===================================================================== *)

Module CommentUpdate.

(** A comment after an update with [d]: only the body may differ, and
    only when a body that is not empty was supplied. *)
Definition patched (d : PartialInsertComment.t) (old new : Comment.t)
  : Prop :=
  Comment.id new = Comment.id old
  /\ Comment.authorId new = Comment.authorId old
  /\ Comment.postId new = Comment.postId old
  /\ Comment.createdAt new = Comment.createdAt old
  /\ Comment.body new = match PartialInsertComment.body d with
                        | Some v => if (v =? "")%string then Comment.body old else v
                        | None => Comment.body old
                        end.

End CommentUpdate.

(* ===================================================================== *)
(** * The two storages side by side *)
(* ===================================================================== *)

Module Agreement.

(** The store in memory and the database hold the same comments, in
    whatever order the table keeps its rows, and hand out the same next
    comment id. *)
Definition sameComments (m : MemStorage.t) (d : DatabaseStorage.t) : Prop :=
  Permutation (Js.values (MemStorage.comments m)) (DatabaseStorage.comments d)
  /\ MemStorage.commentId m = DatabaseStorage.commentsSeq d.

End Agreement.

(* ===================================================================== *)
(** * Sample stores *)
(* ===================================================================== *)

Module Samples.

Definition alice : User.t := User.mk 1 "Alice" "alice@example.org" "x" None.

(** A database with one post by Alice, tagged [api] and [test]. *)
Definition tagged : DatabaseStorage.t :=
  DatabaseStorage.mk
    [alice]
    [Post.mk 1 "Hello" "First post" 1 0]
    [Tag.mk 1 "api"; Tag.mk 2 "test"]
    [PostTag.mk 1 1 1; PostTag.mk 2 1 2]
    []
    2 2 3 3 1.

(** A database with one post by Alice, tagged [go]. *)
Definition taggedGo : DatabaseStorage.t :=
  DatabaseStorage.mk
    [alice]
    [Post.mk 1 "Hello" "First post" 1 0]
    [Tag.mk 1 "go"]
    [PostTag.mk 1 1 1]
    []
    2 2 2 2 1.

(** The same store held in memory. *)
Definition taggedGoMem : MemStorage.t :=
  MemStorage.mk
    [(1, alice)]
    [(1, Post.mk 1 "Hello" "First post" 1 0)]
    [(1, Tag.mk 1 "go")]
    [(1, PostTag.mk 1 1 1)]
    []
    2 2 2 2 1.

Definition oldPost1 : Post.t := Post.mk 1 "One" "first" 1 0.
Definition oldPost2 : Post.t := Post.mk 2 "Two" "second" 1 0.

(** Two posts written at instant 0, and a connection that fails while
    the first is deleted. *)
Definition flaky : Scheduler.Flaky.t :=
  Scheduler.Flaky.mk
    (DatabaseStorage.mk [alice] [oldPost1; oldPost2] [] [] [] 2 3 1 1 1)
    [1].

Definition oldPost3 : Post.t := Post.mk 3 "Three" "third" 1 0.

(** Three posts written at instant 0, and a connection that fails while
    the second is deleted. *)
Definition flakySecond : Scheduler.Flaky.t :=
  Scheduler.Flaky.mk
    (DatabaseStorage.mk [alice] [oldPost1; oldPost2; oldPost3] [] [] []
                        2 4 1 1 1)
    [2].

(** [flakySecond] once the first post is deleted. *)
Definition flakySecondAfterFirst : Scheduler.Flaky.t :=
  Scheduler.Flaky.mk
    (DatabaseStorage.mk [alice] [oldPost2; oldPost3] [] [] [] 2 4 1 1 1)
    [2].

(** Two days after instant 0. *)
Definition twoDaysOn : Z := 2 * Js.msPerDay.

(** A zone that keeps UTC. *)
Definition utc : Js.Zone := Js.fixed 0.






Definition bob : User.t := User.mk 2 "Bob" "bob@example.org" "y" None.

(** Two users; a post by Alice written at instant 0 and a post by Bob
    written two days later, both tagged [api], each with one comment. *)
Definition discussed : DatabaseStorage.t :=
  DatabaseStorage.mk
    [alice; bob]
    [Post.mk 1 "Hello" "First post" 1 0;
     Post.mk 2 "Fresh" "Second post" 2 twoDaysOn]
    [Tag.mk 1 "api"]
    [PostTag.mk 1 1 1; PostTag.mk 2 2 1]
    [Comment.mk 1 "Nice" 2 1 0; Comment.mk 2 "Thanks" 1 2 twoDaysOn]
    3 3 2 3 3.

(** The same store held in memory. *)
Definition discussedMem : MemStorage.t :=
  MemStorage.mk
    [(1, alice); (2, bob)]
    [(1, Post.mk 1 "Hello" "First post" 1 0);
     (2, Post.mk 2 "Fresh" "Second post" 2 twoDaysOn)]
    [(1, Tag.mk 1 "api")]
    [(1, PostTag.mk 1 1 1); (2, PostTag.mk 2 2 1)]
    [(1, Comment.mk 1 "Nice" 2 1 0); (2, Comment.mk 2 "Thanks" 1 2 twoDaysOn)]
    3 3 2 3 3.

(** A token check that accepts the token [t1] as Alice's and no other. *)
Definition verifyAlice (token : string) : option AuthMiddleware.JwtPayload :=
  if (token =? "t1")%string
  then Some (AuthMiddleware.mkPayload 1 "alice@example.org" "Alice")
  else None.

End Samples.

(* ===================================================================== *)
(** * The specification's own notions *)
(* ===================================================================== *)

Module Spec.

(** The canonical form of a sequence of tag names, in the words of the
    specification: each name lower-cased and trimmed, empty strings
    dropped, duplicates removed. *)
Definition canonical (names : list string) : list string :=
  nodup string_dec
    (filter (fun t => negb (t =? "")%string)
            (map (fun t => Js.trim (Js.toLowerCase t)) names)).

(** [v] clamped into the range from [lo] to [hi]. *)
Definition clamp (lo hi v : Z) : Z := Z.min (Z.max v lo) hi.

(** The page size as the specification words it: the parsed parameter
    clamped into 1..100, and 20 when it is absent or does not parse. *)
Definition claimedPerPage (q : Routes.Query) : Z :=
  match Routes.parseParam (Routes.per_page q) with
  | Some v => clamp 1 100 v
  | None => 20
  end.

(** The page number as the specification words it: the parsed parameter
    clamped below to 1, and 1 when it is absent or does not parse. *)
Definition claimedPage (q : Routes.Query) : Z :=
  match Routes.parseParam (Routes.page q) with
  | Some v => Z.max v 1
  | None => 1
  end.

(** A partial update applied to a post: [new] differs from [old] only
    in the fields that were supplied and are not empty. *)
Definition patched (d : PartialInsertPost.t) (old new : Post.t) : Prop :=
  Post.id new = Post.id old
  /\ Post.authorId new = Post.authorId old
  /\ Post.createdAt new = Post.createdAt old
  /\ Post.title new = match PartialInsertPost.title d with
                      | Some v => if (v =? "")%string then Post.title old else v
                      | None => Post.title old
                      end
  /\ Post.body new = match PartialInsertPost.body d with
                     | Some v => if (v =? "")%string then Post.body old else v
                     | None => Post.body old
                     end.

End Spec.

(** Splits a conjunction into its parts, and nothing else. *)
Ltac splits := repeat match goal with |- _ /\ _ => split end.

(* ===================================================================== *)
(** * Facts about the JavaScript values *)
(* ===================================================================== *)

Module JsFacts.
Import Js.

(** ** Strings *)

Lemma lowerChar_idem c : lowerChar (lowerChar c) = lowerChar c.
Proof.
  destruct c as [[] [] [] [] [] [] [] []]; reflexivity.
Qed.

Lemma isSpace_lowerChar c : isSpace (lowerChar c) = isSpace c.
Proof.
  destruct c as [[] [] [] [] [] [] [] []]; reflexivity.
Qed.

Lemma toLowerCase_idem s : toLowerCase (toLowerCase s) = toLowerCase s.
Proof.
  induction s as [|c r IH]; simpl; [reflexivity|].
  now rewrite lowerChar_idem, IH.
Qed.

Lemma toLowerCase_trimStart s :
  toLowerCase (trimStart s) = trimStart (toLowerCase s).
Proof.
  induction s as [|c r IH]; simpl; [reflexivity|].
  rewrite isSpace_lowerChar.
  destruct (isSpace c); [exact IH | reflexivity].
Qed.

Lemma toLowerCase_trimEnd s :
  toLowerCase (trimEnd s) = trimEnd (toLowerCase s).
Proof.
  induction s as [|c r IH]; simpl; [reflexivity|].
  rewrite <- IH, isSpace_lowerChar.
  destruct (trimEnd r) as [|c' r']; simpl.
  - destruct (isSpace c); reflexivity.
  - reflexivity.
Qed.

(** Lower-casing commutes with trimming. *)
Lemma toLowerCase_trim s : toLowerCase (trim s) = trim (toLowerCase s).
Proof.
  unfold trim. now rewrite toLowerCase_trimEnd, toLowerCase_trimStart.
Qed.

(** A normalized tag name is its own lower-case form. *)
Lemma normalized_lower s :
  toLowerCase (trim (toLowerCase s)) = trim (toLowerCase s).
Proof.
  now rewrite toLowerCase_trim, toLowerCase_idem.
Qed.

(** ** Arrays *)

Lemma includes_In xs x : includes xs x = true <-> In x xs.
Proof.
  unfold includes. rewrite existsb_exists. split.
  - intros [y [Hy He]]. apply String.eqb_eq in He. now subst.
  - intros H. exists x. split; [exact H | apply String.eqb_refl].
Qed.

Lemma includes_false xs x : includes xs x = false <-> ~ In x xs.
Proof.
  rewrite <- includes_In. destruct (includes xs x); split; congruence.
Qed.

Lemma setFrom_In seen xs x :
  In x (setFrom seen xs) <-> In x xs /\ ~ In x seen.
Proof.
  revert seen. induction xs as [|y r IH]; intros seen; simpl.
  - tauto.
  - destruct (includes seen y) eqn:Hy.
    + apply includes_In in Hy. rewrite IH. split.
      * tauto.
      * intros [[->|H] Hn]; tauto.
    + apply includes_false in Hy. simpl. rewrite IH. simpl. split.
      * intros [->|[H Hn]]; [tauto|]. split; [tauto|]. intros Hs. apply Hn. now right.
      * intros [[->|H] Hn]; [now left|].
        destruct (String.eqb_spec y x) as [->|Hne]; [now left|].
        right. split; [exact H|]. intros [E|Hs]; [congruence | tauto].
Qed.

Lemma spreadSet_In xs x : In x (spreadSet xs) <-> In x xs.
Proof.
  unfold spreadSet. rewrite setFrom_In. simpl. tauto.
Qed.

Lemma setFrom_NoDup seen xs : NoDup (setFrom seen xs).
Proof.
  revert seen. induction xs as [|y r IH]; intros seen; simpl.
  - constructor.
  - destruct (includes seen y); [apply IH|].
    constructor; [|apply IH].
    rewrite setFrom_In. simpl. tauto.
Qed.

Lemma collect_In {A B} (f : A -> option B) xs y :
  In y (collect f xs) <-> exists x, In x xs /\ f x = Some y.
Proof.
  induction xs as [|x r IH]; simpl.
  - split; [tauto | intros [? [[] _]]].
  - destruct (f x) eqn:Hx; simpl; rewrite IH; split.
    + intros [->|[x' [Hin Hf]]]; [exists x; tauto | exists x'; tauto].
    + intros [x' [[->|Hin] Hf]]; [left; congruence | right; exists x'; tauto].
    + intros [x' [Hin Hf]]. exists x'; tauto.
    + intros [x' [[->|Hin] Hf]]; [congruence | exists x'; tauto].
Qed.

(** A slice that starts at a non-negative index. *)
Lemma slice_firstn_skipn {A} (xs : list A) start n :
  0 <= start -> 0 <= n ->
  slice xs start (start + n)
  = firstn (Z.to_nat n) (skipn (Z.to_nat start) xs).
Proof.
  intros Hs Hn. unfold slice, relIndex.
  destruct (start <? 0) eqn:E1; [lia|].
  destruct (start + n <? 0) eqn:E2; [lia|].
  set (len := Z.of_nat (List.length xs)).
  destruct (Z.le_gt_cases len start) as [Hle|Hgt].
  - rewrite (skipn_all2 xs (n := Z.to_nat start)) by lia.
    rewrite (skipn_all2 xs (n := Z.to_nat (Z.min start len))) by lia.
    now rewrite !firstn_nil.
  - replace (Z.min start len) with start by lia.
    destruct (Z.le_gt_cases (start + n) len) as [Hle2|Hgt2].
    + replace (Z.min (start + n) len - start) with n by lia. reflexivity.
    + replace (Z.min (start + n) len - start) with (len - start) by lia.
      rewrite !firstn_all2; try reflexivity;
        rewrite length_skipn; lia.
Qed.

(** ** Maps *)

Section MapFacts.
Context {V : Type}.
Implicit Types m : Js.Map V.

Lemma get_Some_In m k v : get m k = Some v -> In (k, v) m.
Proof.
  unfold get. destruct (List.find _ m) as [[k' v']|] eqn:F; simpl; [|discriminate].
  intros [= <-]. apply find_some in F. destruct F as [Hin Hk].
  simpl in Hk. apply Z.eqb_eq in Hk. now subst.
Qed.

Lemma has_get m k : has m k = true <-> exists v, get m k = Some v.
Proof.
  unfold has, get. induction m as [|[k' v'] r IH]; simpl.
  - split; [discriminate | intros [? [=]]].
  - destruct (k' =? k); simpl; [split; eauto|exact IH].
Qed.

Lemma get_set_same m k v : get (set m k v) k = Some v.
Proof.
  unfold get. induction m as [|[k' v'] r IH]; simpl.
  - now rewrite Z.eqb_refl.
  - destruct (k' =? k) eqn:E; simpl.
    + now rewrite Z.eqb_refl.
    + now rewrite E.
Qed.

Lemma get_set_other m k v k' : k' <> k -> get (set m k v) k' = get m k'.
Proof.
  intros Hne. unfold get. induction m as [|[k0 v0] r IH]; simpl.
  - destruct (Z.eqb_spec k k'); [congruence | reflexivity].
  - destruct (Z.eqb_spec k0 k) as [->|Hk]; simpl.
    + destruct (Z.eqb_spec k k'); [congruence | reflexivity].
    + destruct (k0 =? k'); [reflexivity | exact IH].
Qed.


(** Deleting, one after the other, the keys of the entries of [es]
    that satisfy [p] keeps the entries whose key is none of them. *)
Lemma forEach_delete (p : Z * V -> bool) es m :
  forEach es (fun e acc => if p e then fst (delete acc (fst e)) else acc) m
  = filter (fun e => negb (existsb (fun d => p d && (fst e =? fst d)) es)) m.
Proof.
  unfold forEach. revert m. induction es as [|d r IH]; intros m; simpl.
  - induction m as [|e m IHm]; simpl; [reflexivity | now rewrite <- IHm].
  - rewrite IH. destruct (p d); simpl.
    + clear. induction m as [|e m IHm]; simpl; [reflexivity|].
      destruct (fst e =? fst d) eqn:E; simpl; [exact IHm|].
      destruct (existsb _ r); simpl; [exact IHm | now rewrite IHm].
    + reflexivity.
Qed.
End MapFacts.

(** ** Dates *)

(** Setting the hour field of a local time to [k] moves it by the
    difference between [k] and the hour it has. *)
Lemma MakeDate_hours l k :
  MakeDate (Day l) (MakeTime k (MinFromTime l) (SecFromTime l) (msFromTime l))
  = l + (k - HourFromTime l) * msPerHour.
Proof.
  unfold MakeDate, MakeTime, Day, HourFromTime,
    MinFromTime, SecFromTime, msFromTime,
    msPerDay, msPerHour, msPerMinute, msPerSecond.
  replace (l / 86400000) with (l / 1000 / 60 / 60 / 24)
    by (rewrite !Z.div_div by lia; reflexivity).
  replace (l / 3600000) with (l / 1000 / 60 / 60)
    by (rewrite !Z.div_div by lia; reflexivity).
  replace (l / 60000) with (l / 1000 / 60)
    by (rewrite !Z.div_div by lia; reflexivity).
  pose proof (Z.div_mod l 1000 ltac:(lia)).
  pose proof (Z.div_mod (l / 1000) 60 ltac:(lia)).
  pose proof (Z.div_mod (l / 1000 / 60) 60 ltac:(lia)).
  pose proof (Z.div_mod (l / 1000 / 60 / 60) 24 ltac:(lia)).
  lia.
Qed.

Lemma truncate_inject k : truncate (inject_Z k) = k.
Proof. unfold truncate. simpl. apply Z.quot_1_r. Qed.

Lemma truncate_minus a h : truncate (inject_Z a - inject_Z h) = a - h.
Proof. unfold truncate. simpl. rewrite Z.quot_1_r. lia. Qed.

(** [setHours] in any zone: the local time is moved by whole hours and
    read back as an instant. *)
Lemma setHours_local zone t h :
  setHours zone t h
  = UTC zone (LocalTime zone t + (truncate h - getHours zone t) * msPerHour).
Proof. unfold setHours, getHours. cbv zeta. now rewrite MakeDate_hours. Qed.

(** Moving the hour field back by a whole number [h] of hours. *)
Lemma setHours_back zone t h :
  setHours zone t (inject_Z (getHours zone t) - inject_Z h)
  = UTC zone (LocalTime zone t - h * msPerHour).
Proof.
  rewrite setHours_local, truncate_minus. f_equal. lia.
Qed.

(** When the offset by which the local time is read back is the offset
    in force at [t], the instant moves back by [h] hours. *)
Lemma setHours_same_offset zone t h :
  offsetOfLocal zone (LocalTime zone t - h * msPerHour) = offsetAt zone t ->
  setHours zone t (inject_Z (getHours zone t) - inject_Z h)
  = t - h * msPerHour.
Proof.
  intros E. rewrite setHours_back. unfold UTC. rewrite E.
  unfold LocalTime. lia.
Qed.

(** In a zone that never moves its clock, moving the hour field back by
    [h] moves the instant back by [h] hours. *)
Lemma setHours_getHours tza t h :
  setHours (fixed tza) t (inject_Z (getHours (fixed tza) t) - inject_Z h)
  = t - h * msPerHour.
Proof. now apply setHours_same_offset. Qed.

Section MapKeys.
Context {V : Type}.
Implicit Types m : Js.Map V.

Lemma keys_app m1 m2 : keys (m1 ++ m2) = keys m1 ++ keys m2.
Proof. apply map_app. Qed.

Lemma In_keys m k v : In (k, v) m -> In k (keys m).
Proof. intros H. apply in_map_iff. exists (k, v). auto. Qed.

(** With distinct keys, [get] finds an entry exactly when it is there. *)
Lemma get_In_iff m k v : NoDup (keys m) -> (get m k = Some v <-> In (k, v) m).
Proof.
  intros Hnd. split; [apply get_Some_In|].
  unfold get. induction m as [|[k0 v0] r IH]; simpl; [tauto|].
  inversion Hnd as [|? ? Hn Hr]; subst.
  intros [E|Hin].
  - injection E as -> ->. now rewrite Z.eqb_refl.
  - destruct (Z.eqb_spec k0 k) as [->|Hne]; [|auto].
    exfalso. apply Hn. eapply In_keys; eauto.
Qed.

(** [set] on a key the map does not have appends the entry. *)
Lemma set_fresh m k v : ~ In k (keys m) -> set m k v = m ++ [(k, v)].
Proof.
  induction m as [|[k0 v0] r IH]; simpl; intros Hn; [reflexivity|].
  destruct (Z.eqb_spec k0 k) as [->|Hne]; [tauto|].
  rewrite IH; tauto.
Qed.

Lemma delete_absent m k : ~ In k (keys m) -> fst (delete m k) = m.
Proof.
  unfold delete. simpl. induction m as [|[k0 v0] r IH]; simpl; intros Hn;
    [reflexivity|].
  destruct (Z.eqb_spec k0 k) as [->|Hne]; [tauto|]. simpl.
  rewrite IH; tauto.
Qed.

(** With distinct keys, [delete] takes out the one entry of the key. *)
Lemma delete_mid m1 k v m2 :
  NoDup (keys (m1 ++ (k, v) :: m2)) ->
  fst (delete (m1 ++ (k, v) :: m2) k) = m1 ++ m2.
Proof.
  intros Hnd. rewrite keys_app in Hnd. simpl in Hnd.
  pose proof (NoDup_remove_2 _ _ _ Hnd) as Hn.
  rewrite in_app_iff in Hn.
  unfold delete. simpl. rewrite filter_app. simpl. rewrite Z.eqb_refl. simpl.
  pose proof (delete_absent m1 k) as H1. pose proof (delete_absent m2 k) as H2.
  unfold delete in H1, H2. simpl in H1, H2. rewrite H1, H2; tauto.
Qed.

Lemma find_mid (f : Z * V -> bool) m1 x m2 :
  (forall y, In y m1 -> f y = false) -> f x = true ->
  List.find f (m1 ++ x :: m2) = Some x.
Proof.
  intros H1 Hx. induction m1 as [|y r IH]; simpl.
  - now rewrite Hx.
  - rewrite (H1 y (or_introl eq_refl)). apply IH. intros z Hz. apply H1. now right.
Qed.

Lemma keys_In m k : In k (keys m) -> exists v, In (k, v) m.
Proof.
  intros H. apply in_map_iff in H. destruct H as [[k0 v] [E Hin]].
  simpl in E. subst. eauto.
Qed.
End MapKeys.

Lemma toLowerCase_empty s : toLowerCase s = "" <-> s = "".
Proof.
  destruct s; simpl; split; intros H; try reflexivity; discriminate.
Qed.

End JsFacts.

(* ===================================================================== *)
(** * Reasoning about [DatabaseStorage] methods *)
(* ===================================================================== *)

Module DbFacts.
Import Js JsFacts DatabaseStorage.
Local Open Scope db_scope.

(** ** A relation every step of a method respects *)

Section Steps.
Variable R : t -> t -> Prop.
Hypothesis R_refl : forall s, R s s.
Hypothesis R_trans : forall s1 s2 s3, R s1 s2 -> R s2 s3 -> R s1 s3.

Lemma steps_ret {A} (a : A) : steps R (ret a).
Proof. intros s. apply R_refl. Qed.

Lemma steps_throw {A} e : steps R (throw (A := A) e).
Proof. intros s. apply R_refl. Qed.

Lemma steps_bound {A} params (m : M A) : steps R m -> steps R (bound params m).
Proof.
  intros H. unfold bound. destruct (forallb int4 params);
    [exact H | apply steps_throw].
Qed.

Lemma steps_query {A} params (f : t -> A) : steps R (query params f).
Proof. apply steps_bound. intros s. apply R_refl. Qed.

Lemma steps_atNumber {A} n (method : Z -> M A) :
  (forall id, steps R (method id)) -> steps R (atNumber n method).
Proof. intros H. destruct n; simpl; [apply H | apply steps_throw]. Qed.

Lemma steps_bind {A B} (m : M A) (k : A -> M B) :
  steps R m -> (forall a, steps R (k a)) -> steps R (bind m k).
Proof.
  intros Hm Hk s. unfold bind. specialize (Hm s).
  destruct (m s) as [[a|e] s1]; simpl in *.
  - eapply R_trans; [exact Hm | apply Hk].
  - exact Hm.
Qed.

Lemma steps_forOf {A} (xs : list A) (body : A -> M unit) :
  (forall x, steps R (body x)) -> steps R (forOf xs body).
Proof.
  intros Hb. induction xs as [|x r IH]; simpl.
  - apply steps_ret.
  - apply steps_bind; [apply Hb | intros _; exact IH].
Qed.
End Steps.

Lemma keeps_refl I s : keeps I s s.
Proof. intros H; exact H. Qed.

Lemma keeps_trans I s1 s2 s3 : keeps I s1 s2 -> keeps I s2 s3 -> keeps I s1 s3.
Proof. unfold keeps; auto. Qed.

Create HintDb db.

(** Composite methods are taken apart down to the statements; [Hr] and
    [Ht] prove the relation reflexive and transitive. *)
Ltac steps_split Hr Ht :=
  repeat first
    [ solve [auto with db]
    | apply (steps_ret _ Hr)
    | apply (steps_query _ Hr)
    | apply (steps_throw _ Hr)
    | apply (steps_bind _ Ht); [|intros ?]
    | apply (steps_forOf _ Hr Ht); intros ?
    | match goal with
      | |- steps _ (match ?x with _ => _ end) => destruct x
      | |- steps _ (if ?x then _ else _) => destruct x
      end ].

(** What a statement does to the tables, through each of its outcomes:
    a parameter that does not fit, a sequence that is exhausted, a
    constraint that is violated, and the statement carried out. *)
Ltac stmt :=
  let s := fresh "s" in
  intros s;
  unfold insertUser, insertPost, insertTag, insertPostTag, insertComment,
    deleteComments, deletePostTags, deletePosts, updatePosts, updateComments,
    bound, throw;
  cbn [forallb];
  repeat match goal with
         | |- context [int4 ?x] => destruct (int4 x) eqn:?; cbn [andb negb]
         | |- context [forallb int4 ?ps] => destruct (forallb int4 ps) eqn:?
         end;
  simpl; repeat (destruct (existsb _ _); simpl).

(** A statement whose parameters fit is carried out. *)
Lemma bound_fits {A} params (m : M A) :
  forallb int4 params = true -> bound params m = m.
Proof. intros H. unfold bound. now rewrite H. Qed.

Lemma bound_rejects {A} params (m : M A) s :
  forallb int4 params = false -> bound params m s = (Throw NotInt4, s).
Proof. intros H. unfold bound. now rewrite H. Qed.

Lemma query_fits {A} params (f : t -> A) s :
  forallb int4 params = true -> query params f s = (Ok (f s), s).
Proof. intros H. unfold query. now rewrite bound_fits. Qed.

Lemma fits1 a : int4 a = true -> forallb int4 [a] = true.
Proof. intros H. simpl. now rewrite H. Qed.

Lemma fits2 a b :
  int4 a = true -> int4 b = true -> forallb int4 [a; b] = true.
Proof. intros H1 H2. simpl. now rewrite H1, H2. Qed.

Lemma misfits1 a : int4 a = false -> forallb int4 [a] = false.
Proof. intros H. simpl. now rewrite H. Qed.

(** ** No two rows of [post_tags] with the same pair *)

Lemma NoDup_map_filter {A B} (f : A -> B) (p : A -> bool) l :
  NoDup (map f l) -> NoDup (map f (filter p l)).
Proof.
  induction l as [|x r IH]; simpl; intros H; [exact H|].
  inversion H as [|? ? Hn Hr]; subst.
  destruct (p x); simpl; [|auto].
  constructor; [|auto].
  intros Hin. apply Hn. apply in_map_iff in Hin. destruct Hin as [y [Hy Hin]].
  apply filter_In in Hin. apply in_map_iff. exists y. tauto.
Qed.

Lemma NoDup_snoc {A} (l : list A) x : NoDup l -> ~ In x l -> NoDup (l ++ [x]).
Proof.
  induction l as [|y r IH]; simpl; intros H Hn.
  - constructor; [tauto | constructor].
  - inversion H; subst. constructor.
    + rewrite in_app_iff. simpl. intros [?|[?|[]]]; [tauto|]. subst. tauto.
    + apply IH; tauto.
Qed.

Section PairsUnique.
Let R := keeps pairsUnique.

Lemma pairs_insertUser d : steps R (insertUser d).
Proof. stmt; exact (fun H => H). Qed.
Lemma pairs_insertPost a b c d : steps R (insertPost a b c d).
Proof. stmt; exact (fun H => H). Qed.
Lemma pairs_insertTag n : steps R (insertTag n).
Proof. stmt; exact (fun H => H). Qed.
Lemma pairs_insertComment a b c d : steps R (insertComment a b c d).
Proof. stmt; exact (fun H => H). Qed.
Lemma pairs_deleteComments ps p : steps R (deleteComments ps p).
Proof. stmt; exact (fun H => H). Qed.
Lemma pairs_deletePosts ps p : steps R (deletePosts ps p).
Proof. stmt; exact (fun H => H). Qed.
Lemma pairs_updatePosts ps p f : steps R (updatePosts ps p f).
Proof. stmt; exact (fun H => H). Qed.
Lemma pairs_updateComments ps p f : steps R (updateComments ps p f).
Proof. stmt; exact (fun H => H). Qed.

Lemma pairs_deletePostTags ps p : steps R (deletePostTags ps p).
Proof.
  stmt; [|exact (fun H => H)].
  unfold R, keeps, pairsUnique. simpl. apply NoDup_map_filter.
Qed.

(** The insert of [addTagToPost] runs only when no row has the pair. *)
Lemma pairs_addTagToPost postId tagId : steps R (addTagToPost postId tagId).
Proof.
  intros s. unfold addTagToPost, bind, query, insertPostTag, bound, throw.
  destruct (forallb int4 [postId; tagId]); [|exact (fun H => H)].
  destruct (filter _ (postTags s)) as [|r0 l0] eqn:F; simpl;
    [|exact (fun H => H)].
  destruct (int4 (postTagsSeq s)); simpl; [|exact (fun H => H)].
  destruct (existsb _ _); simpl; [exact (fun H => H)|].
  unfold R, keeps, pairsUnique. simpl. intros H.
  rewrite map_app. simpl. apply NoDup_snoc; [exact H|].
  intros Hin. apply in_map_iff in Hin. destruct Hin as [r [Hp Hin]].
  assert (Hf : In r (filter (fun r => (PostTag.postId r =? postId)
                                      && (PostTag.tagId r =? tagId))
                            (postTags s))).
  { apply filter_In. split; [exact Hin|].
    unfold pairOf in Hp. injection Hp as -> ->. now rewrite !Z.eqb_refl. }
  rewrite F in Hf. destruct Hf.
Qed.

#[local] Hint Resolve pairs_insertUser pairs_insertPost pairs_insertTag
  pairs_insertComment pairs_deleteComments pairs_deletePosts
  pairs_updatePosts pairs_updateComments pairs_deletePostTags
  pairs_addTagToPost : db.

Lemma pairs_updatePostTags postId names : steps R (updatePostTags postId names).
Proof. unfold updatePostTags, getTagsByPostId, removeTagFromPost,
         getTagByName, createTag.
       steps_split (keeps_refl pairsUnique) (keeps_trans pairsUnique). Qed.

#[local] Hint Resolve pairs_updatePostTags : db.

Lemma pairs_exec c s : pairsUnique s -> pairsUnique (exec c s).
Proof.
  destruct c; unfold exec;
    match goal with
    | |- _ -> pairsUnique (snd (?m s)) =>
        cut (steps R m); [intros H; exact (H s)|]
    end;
    unfold createUser, createPost, updatePost, deletePost, createTag,
      removeTagFromPost, createComment, updateComment, getComment,
      deleteComment;
    steps_split (keeps_refl pairsUnique) (keeps_trans pairsUnique).
Qed.
End PairsUnique.

(** [reachable] states keep the pairs distinct. *)
Lemma reachable_pairsUnique s : reachable s -> pairsUnique s.
Proof.
  induction 1 as [|c s _ IH].
  - constructor.
  - now apply pairs_exec.
Qed.

(** ** Reading the tags of a post *)

Lemma linkedTags_In s postId g :
  In g (linkedTags s postId) <->
  In g (tags s) /\
  exists r, In r (postTags s) /\ PostTag.tagId r = Tag.id g
            /\ PostTag.postId r = postId.
Proof.
  unfold linkedTags. rewrite in_flat_map. split.
  - intros [g' [Hg Hin]]. apply in_map_iff in Hin.
    destruct Hin as [r [-> Hr]]. apply filter_In in Hr.
    destruct Hr as [Hr Hc]. apply andb_true_iff in Hc.
    destruct Hc as [H1 H2]. apply Z.eqb_eq in H1, H2.
    split; [exact Hg|]. exists r. auto.
  - intros [Hg [r [Hr [H1 H2]]]]. exists g. split; [exact Hg|].
    apply in_map_iff. exists r. split; [reflexivity|].
    apply filter_In. split; [exact Hr|].
    apply andb_true_iff. split; apply Z.eqb_eq; auto.
Qed.

Lemma hd_error_filter_Some {A} (p : A -> bool) l x :
  hd_error (filter p l) = Some x -> In x l /\ p x = true.
Proof.
  intros H. apply filter_In. destruct (filter p l); simpl in H; [discriminate|].
  injection H as ->. now left.
Qed.

Lemma hd_error_filter_None {A} (p : A -> bool) l :
  hd_error (filter p l) = None -> forall x, In x l -> p x = false.
Proof.
  intros H x Hx. destruct (p x) eqn:E; [|reflexivity].
  assert (Hin : In x (filter p l)) by (apply filter_In; auto).
  destruct (filter p l); [destruct Hin | discriminate].
Qed.

Lemma existsb_false {A} (p : A -> bool) l :
  (forall x, In x l -> p x = false) -> existsb p l = false.
Proof.
  intros H. destruct (existsb p l) eqn:E; [|reflexivity].
  apply existsb_exists in E. destruct E as [x [Hx Hp]].
  rewrite (H x Hx) in Hp. discriminate.
Qed.

(** ** Every reachable database is well formed *)

Lemma Forall_lt_succ {A} (f : A -> Z) n l :
  Forall (fun x => f x < n) l -> Forall (fun x => f x < n + 1) l.
Proof. intros H. eapply Forall_impl; [|exact H]. simpl. intros; lia. Qed.

Lemma Forall_filter {A} (P : A -> Prop) (p : A -> bool) l :
  Forall P l -> Forall P (filter p l).
Proof.
  rewrite !Forall_forall. intros H x Hx. apply filter_In in Hx. apply H. tauto.
Qed.

Lemma Forall_snoc {A} (P : A -> Prop) l x :
  Forall P l -> P x -> Forall P (l ++ [x]).
Proof. intros H Hx. apply Forall_app. split; [exact H | now constructor]. Qed.

Section WellFormed.
Let R := keeps wf.

Ltac wf_same :=
  stmt; intros [A B C D F]; constructor; simpl; assumption.

Lemma wf_insertUser d : steps R (insertUser d).
Proof. wf_same. Qed.
Lemma wf_insertPost a b c d : steps R (insertPost a b c d).
Proof. wf_same. Qed.
Lemma wf_insertComment a b c d : steps R (insertComment a b c d).
Proof. wf_same. Qed.
Lemma wf_deleteComments ps p : steps R (deleteComments ps p).
Proof. wf_same. Qed.
Lemma wf_deletePosts ps p : steps R (deletePosts ps p).
Proof. wf_same. Qed.
Lemma wf_updatePosts ps p f : steps R (updatePosts ps p f).
Proof. wf_same. Qed.
Lemma wf_updateComments ps p f : steps R (updateComments ps p f).
Proof. wf_same. Qed.

Lemma wf_insertTag n : steps R (insertTag n).
Proof.
  stmt; intros [A B C D F]; constructor; simpl; try assumption;
    try (now apply (Forall_lt_succ Tag.id)).
  - rewrite map_app. simpl. apply NoDup_snoc; [exact A|].
    intros Hin. apply in_map_iff in Hin. destruct Hin as [g [Hid Hg]].
    rewrite Forall_forall in B. specialize (B g Hg). lia.
  - apply Forall_snoc; [now apply (Forall_lt_succ Tag.id) | simpl; lia].
  - now apply Forall_snoc.
Qed.

Lemma wf_insertPostTag a b : steps R (insertPostTag a b).
Proof.
  stmt; intros [A B C D F]; constructor; simpl; try assumption;
    try (now apply (Forall_lt_succ PostTag.id)).
  - apply Forall_snoc; [now apply (Forall_lt_succ PostTag.id) | simpl; lia].
  - apply Forall_snoc; [exact F | simpl; auto].
Qed.

Lemma wf_deletePostTags ps p : steps R (deletePostTags ps p).
Proof.
  stmt; intros [A B C D F]; constructor; simpl; auto;
    now apply Forall_filter.
Qed.

#[local] Hint Resolve wf_insertUser wf_insertPost wf_insertComment
  wf_deleteComments wf_deletePosts wf_updatePosts wf_updateComments
  wf_insertTag wf_insertPostTag wf_deletePostTags : db.

Lemma wf_addTagToPost a b : steps R (addTagToPost a b).
Proof.
  unfold addTagToPost. steps_split (keeps_refl wf) (keeps_trans wf).
Qed.

Lemma wf_getOrCreate u : steps R (getOrCreate u).
Proof.
  unfold getOrCreate, getTagByName, createTag.
  steps_split (keeps_refl wf) (keeps_trans wf).
Qed.

Lemma wf_updatePostTags postId names : steps R (updatePostTags postId names).
Proof.
  unfold updatePostTags, getTagsByPostId, removeTagFromPost, addTagToPost,
    getTagByName, createTag.
  steps_split (keeps_refl wf) (keeps_trans wf).
Qed.

#[local] Hint Resolve wf_updatePostTags : db.

Lemma wf_exec c s : wf s -> wf (exec c s).
Proof.
  destruct c; unfold exec;
    match goal with
    | |- _ -> wf (snd (?m s)) =>
        cut (steps R m); [intros H; exact (H s)|]
    end;
    unfold createUser, createPost, updatePost, deletePost, createTag,
      removeTagFromPost, createComment, updateComment, getComment,
      deleteComment, addTagToPost, getTagsByPostId,
      getTagByName, removeTagFromPost, addTagToPost, createTag;
    steps_split (keeps_refl wf) (keeps_trans wf).
Qed.
End WellFormed.

(** The databases the methods can produce are well formed. *)
Lemma reachable_wf s : reachable s -> wf s.
Proof.
  induction 1 as [|c s _ IH].
  - constructor; constructor.
  - now apply wf_exec.
Qed.

(** The tags linked to a post are rows of [tags]. *)
Lemma linkedTags_tags s postId g : In g (linkedTags s postId) -> In g (tags s).
Proof. intros H. apply linkedTags_In in H. tauto. Qed.

Lemma wf_tag_fits s g : wf s -> In g (tags s) -> int4 (Tag.id g) = true.
Proof.
  intros W Hg. pose proof (wf_tag_range s W) as F.
  rewrite Forall_forall in F. now apply F.
Qed.

(** ** Room in the sequences *)

Lemma room_here n s :
  room n s -> 0 < n ->
  int4 (tagsSeq s) = true /\ int4 (postTagsSeq s) = true.
Proof.
  intros [A B] Hn. split.
  - specialize (A 0). rewrite Z.add_0_r in A. apply A. lia.
  - specialize (B 0). rewrite Z.add_0_r in B. apply B. lia.
Qed.

Lemma room_step n s s1 :
  room (n + 1) s ->
  tagsSeq s <= tagsSeq s1 <= tagsSeq s + 1 ->
  postTagsSeq s <= postTagsSeq s1 <= postTagsSeq s + 1 ->
  room n s1.
Proof.
  intros [A B] Ht Hp. split; intros k Hk.
  - assert (E : tagsSeq s1 = tagsSeq s \/ tagsSeq s1 = tagsSeq s + 1) by lia.
    destruct E as [-> | ->]; [apply A; lia|].
    replace (tagsSeq s + 1 + k) with (tagsSeq s + (k + 1)) by lia.
    apply A. lia.
  - assert (E : postTagsSeq s1 = postTagsSeq s
                \/ postTagsSeq s1 = postTagsSeq s + 1) by lia.
    destruct E as [-> | ->]; [apply B; lia|].
    replace (postTagsSeq s + 1 + k) with (postTagsSeq s + (k + 1)) by lia.
    apply B. lia.
Qed.

Lemma room_less n m s : room n s -> m <= n -> room m s.
Proof. intros [A B] H. split; intros k Hk; [apply A | apply B]; lia. Qed.

(** ** The two loops of [updatePostTags] *)

(** A post id that is no 32-bit integer is rejected by the first
    statement: nothing is written. *)
Lemma updatePostTags_rejects postId tagNames s :
  int4 postId = false ->
  updatePostTags postId tagNames s = (Throw NotInt4, s).
Proof.
  intros H. unfold updatePostTags, bind at 1, getTagsByPostId at 1, query at 1.
  rewrite bound_rejects; [reflexivity | now apply misfits1].
Qed.

Lemma getTagsByPostId_linked postId s :
  int4 postId = true ->
  getTagsByPostId postId s = (Ok (linkedTags s postId), s).
Proof. intros H. unfold getTagsByPostId. now rewrite query_fits by now apply fits1. Qed.

Lemma updatePostTags_unfold postId tagNames s :
  int4 postId = true ->
  updatePostTags postId tagNames s =
  let existingTags := linkedTags s postId in
  let existingTagNames := map (fun t => toLowerCase (Tag.name t)) existingTags in
  match forOf (uniqueTags tagNames) (addNew postId existingTagNames) s with
  | (Ok _, s1) =>
      match forOf existingTags (dropOld postId (uniqueTags tagNames)) s1 with
      | (Ok _, s2) => (Ok (map Tag.name (linkedTags s2 postId)), s2)
      | (Throw e, s2) => (Throw e, s2)
      end
  | (Throw e, s1) => (Throw e, s1)
  end.
Proof.
  intros Hp.
  unfold updatePostTags, bind at 1. rewrite (getTagsByPostId_linked _ _ Hp).
  fold (uniqueTags tagNames). cbv zeta.
  unfold bind at 1.
  match goal with
  | |- context [forOf (uniqueTags tagNames) ?b s] =>
      change b with
        (addNew postId
           (map (fun t => toLowerCase (Tag.name t)) (linkedTags s postId)))
  end.
  destruct (forOf _ _ s) as [[[]|e] s1]; [|reflexivity].
  unfold bind at 1.
  match goal with
  | |- context [forOf (linkedTags s postId) ?b s1] =>
      change b with (dropOld postId (uniqueTags tagNames))
  end.
  destruct (forOf _ _ s1) as [[[]|e] s2]; [|reflexivity].
  unfold bind. now rewrite (getTagsByPostId_linked _ _ Hp).
Qed.

Lemma uniqueTags_lower tagNames u :
  In u (uniqueTags tagNames) -> toLowerCase u = u.
Proof.
  unfold uniqueTags. rewrite filter_In, spreadSet_In, in_map_iff.
  intros [[x [<- _]] _]. apply normalized_lower.
Qed.

(** *** Adding *)

(** [addTagToPost] on a well-formed database either resolves with a row
    that links the post to the tag, or finds no such row and the
    sequence of [post_tags] exhausted. *)
Lemma addTagToPost_total postId gid s :
  wf s -> int4 postId = true -> int4 gid = true ->
  (exists r s1,
    addTagToPost postId gid s = (Ok r, s1)
    /\ wf s1
    /\ tags s1 = tags s /\ tagsSeq s1 = tagsSeq s
    /\ postTagsSeq s <= postTagsSeq s1 <= postTagsSeq s + 1
    /\ (exists nr, postTags s1 = postTags s ++ nr
                   /\ forall r', In r' nr ->
                        PostTag.postId r' = postId /\ PostTag.tagId r' = gid)
    /\ In r (postTags s1)
    /\ PostTag.postId r = postId /\ PostTag.tagId r = gid)
  \/ (addTagToPost postId gid s = (Throw (SequenceExhausted "post_tags"), s)
      /\ int4 (postTagsSeq s) = false
      /\ forall r, In r (postTags s) ->
                   ~ (PostTag.postId r = postId /\ PostTag.tagId r = gid)).
Proof.
  intros Hwf Hp Hg.
  pose proof (wf_addTagToPost postId gid s Hwf) as Hwf1.
  pose proof (wf_postTag_seq s Hwf) as Hs.
  revert Hwf1. unfold addTagToPost, bind.
  rewrite query_fits by now apply fits2.
  destruct (hd_error (filter _ (postTags s))) as [r|] eqn:F.
  - apply hd_error_filter_Some in F. destruct F as [Hin Hc].
    apply andb_true_iff in Hc. destruct Hc as [H1 H2].
    apply Z.eqb_eq in H1, H2.
    intros Hwf1. left. exists r, s. simpl. splits; auto; try lia.
    exists []. rewrite app_nil_r. split; [reflexivity | intros ? []].
  - pose proof (hd_error_filter_None _ _ F) as Hno. simpl in Hno.
    unfold insertPostTag. rewrite bound_fits by now apply fits2.
    destruct (int4 (postTagsSeq s)) eqn:Hq; simpl.
    + rewrite existsb_false.
      2:{ intros x Hx. rewrite Forall_forall in Hs. specialize (Hs x Hx).
          apply Z.eqb_neq. lia. }
      intros Hwf1. left.
      eexists. eexists. split; [reflexivity|]. simpl.
      splits; auto; try lia.
      * eexists. split; [reflexivity|]. intros r' [<-|[]]. simpl. auto.
      * apply in_or_app. right. now left.
    + intros _. right. split; [reflexivity|]. split; [reflexivity|].
      intros r Hr [A B]. specialize (Hno r Hr).
      rewrite A, B, !Z.eqb_refl in Hno. discriminate.
Qed.

Lemma addTagToPost_spec postId gid s :
  wf s -> int4 postId = true -> int4 gid = true ->
  int4 (postTagsSeq s) = true ->
  exists r s1,
    addTagToPost postId gid s = (Ok r, s1)
    /\ wf s1
    /\ tags s1 = tags s /\ tagsSeq s1 = tagsSeq s
    /\ postTagsSeq s <= postTagsSeq s1 <= postTagsSeq s + 1
    /\ (exists nr, postTags s1 = postTags s ++ nr
                   /\ forall r', In r' nr ->
                        PostTag.postId r' = postId /\ PostTag.tagId r' = gid)
    /\ In r (postTags s1)
    /\ PostTag.postId r = postId /\ PostTag.tagId r = gid.
Proof.
  intros Hwf Hp Hg Hq.
  destruct (addTagToPost_total postId gid s Hwf Hp Hg) as [H|[_ [H _]]];
    [exact H | congruence].
Qed.

(** "Get or create" on a well-formed database either resolves with a
    tag of that name, which a second lookup finds again, or finds no
    such tag and the sequence of [tags] exhausted. *)
Lemma getOrCreate_total u s :
  wf s ->
  (exists g s1,
    getOrCreate u s = (Ok g, s1)
    /\ wf s1
    /\ postTags s1 = postTags s /\ postTagsSeq s1 = postTagsSeq s
    /\ tagsSeq s <= tagsSeq s1 <= tagsSeq s + 1
    /\ In g (tags s1)
    /\ toLowerCase (Tag.name g) = toLowerCase u
    /\ (exists nt, tags s1 = tags s ++ nt
                   /\ forall g', In g' nt -> Tag.name g' = u /\ g' = g)
    /\ getOrCreate u s1 = (Ok g, s1))
  \/ (getOrCreate u s = (Throw (SequenceExhausted "tags"), s)
      /\ int4 (tagsSeq s) = false).
Proof.
  intros Hwf.
  pose proof (wf_getOrCreate u s Hwf) as Hwf1.
  pose proof (wf_tag_seq s Hwf) as Hseq.
  revert Hwf1. unfold getOrCreate, bind, getTagByName.
  rewrite !query_fits by reflexivity.
  destruct (hd_error (filter _ (tags s))) as [g|] eqn:F.
  - pose proof F as F'.
    apply hd_error_filter_Some in F. destruct F as [Hin Hc].
    apply String.eqb_eq in Hc.
    intros Hwf1. left. exists g, s. simpl. splits; auto; try lia.
    + exists []. rewrite app_nil_r. split; [reflexivity | intros ? []].
    + now rewrite F'.
  - pose proof (hd_error_filter_None _ _ F) as Hno. simpl in Hno.
    unfold createTag, insertTag.
    destruct (int4 (tagsSeq s)) eqn:Hq; simpl.
    + rewrite existsb_false.
      2:{ intros x Hx. rewrite Forall_forall in Hseq. specialize (Hseq x Hx).
          apply Z.eqb_neq. lia. }
      rewrite existsb_false.
      2:{ intros x Hx. specialize (Hno x Hx).
          apply String.eqb_neq. intros E. apply String.eqb_neq in Hno.
          apply Hno. now rewrite E. }
      intros Hwf1. left.
      eexists. eexists. split; [reflexivity|]. simpl.
      splits; simpl; auto; try lia.
      * apply in_or_app. right. now left.
      * eexists. split; [reflexivity|]. intros g' [<-|[]]. now split.
      * rewrite filter_app.
        destruct (filter _ (tags s)) as [|x l]; [|discriminate].
        simpl. now rewrite String.eqb_refl.
    + intros _. now right.
Qed.

Lemma getOrCreate_spec u s :
  wf s -> int4 (tagsSeq s) = true ->
  exists g s1,
    getOrCreate u s = (Ok g, s1)
    /\ wf s1
    /\ postTags s1 = postTags s /\ postTagsSeq s1 = postTagsSeq s
    /\ tagsSeq s <= tagsSeq s1 <= tagsSeq s + 1
    /\ In g (tags s1)
    /\ toLowerCase (Tag.name g) = toLowerCase u
    /\ exists nt, tags s1 = tags s ++ nt
                  /\ forall g', In g' nt -> Tag.name g' = u.
Proof.
  intros Hwf Hq.
  destruct (getOrCreate_total u s Hwf)
    as [[g [s1 [E [A [B [C [D [F [G [[nt [T N]] _]]]]]]]]]]|[_ H]];
    [|congruence].
  exists g, s1. repeat (split; [assumption|]).
  exists nt. split; [exact T|].
  intros g' Hg'. now apply N.
Qed.

Lemma grown_refl postId U s : grown postId U s s.
Proof.
  split; exists []; rewrite app_nil_r; (split; [reflexivity | intros ? []]).
Qed.

Lemma grown_trans postId U1 U2 U s0 s1 s2 :
  incl U1 U -> incl U2 U ->
  grown postId U1 s0 s1 -> grown postId U2 s1 s2 -> grown postId U s0 s2.
Proof.
  intros I1 I2 [[nt1 [T1 N1]] [nr1 [P1 R1]]] [[nt2 [T2 N2]] [nr2 [P2 R2]]].
  split.
  - exists (nt1 ++ nt2). rewrite T2, T1, app_assoc. split; [reflexivity|].
    intros g Hg. apply in_app_or in Hg. destruct Hg; auto.
  - exists (nr1 ++ nr2). rewrite P2, P1, app_assoc. split; [reflexivity|].
    intros r Hr. apply in_app_or in Hr. destruct Hr as [Hr|Hr].
    + destruct (R1 r Hr) as [Hp [g [Hg [Hid Hu]]]]. split; [exact Hp|].
      exists g. rewrite T2. repeat split; auto. apply in_or_app. now left.
    + destruct (R2 r Hr) as [Hp [g [Hg [Hid Hu]]]]. split; [exact Hp|].
      exists g. repeat split; auto.
Qed.

Lemma grown_linked postId U s0 s1 g :
  grown postId U s0 s1 ->
  In g (linkedTags s0 postId) -> In g (linkedTags s1 postId).
Proof.
  intros [[nt [T _]] [nr [P _]]]. rewrite !linkedTags_In.
  intros [Hg [r [Hr Hl]]]. rewrite T, P. split.
  - apply in_or_app. now left.
  - exists r. split; [apply in_or_app; now left | exact Hl].
Qed.

(** One turn of the adding loop on a well-formed database. It either
    resolves, and then the name is linked unless it was among the
    existing names; or it rejects because a sequence is exhausted, having
    written at most the tag, and the same turn taken again rejects in the
    same way and writes nothing. *)
Lemma addNew_total postId E u s :
  wf s -> int4 postId = true -> toLowerCase u = u ->
  (exists s1,
    addNew postId E u s = (Ok tt, s1)
    /\ wf s1
    /\ tagsSeq s <= tagsSeq s1 <= tagsSeq s + 1
    /\ postTagsSeq s <= postTagsSeq s1 <= postTagsSeq s + 1
    /\ grown postId [u] s s1
    /\ (includes E u = false ->
        exists g, In g (linkedTags s1 postId) /\ toLowerCase (Tag.name g) = u))
  \/ (exists e s1,
    addNew postId E u s = (Throw e, s1)
    /\ wf s1
    /\ includes E u = false
    /\ postTags s1 = postTags s
    /\ (exists nt, tags s1 = tags s ++ nt
                   /\ (forall g', In g' nt -> Tag.name g' = u)
                   /\ forall g' r, In g' nt -> In r (postTags s) ->
                        ~ (PostTag.postId r = postId
                           /\ PostTag.tagId r = Tag.id g'))
    /\ (e = SequenceExhausted "tags" /\ int4 (tagsSeq s) = false
        \/ e = SequenceExhausted "post_tags" /\ int4 (postTagsSeq s) = false)
    /\ forall E', includes E' u = false ->
                  addNew postId E' u s1 = (Throw e, s1)).
Proof.
  intros Hwf Hpid Hu. unfold addNew. destruct (includes E u) eqn:Hinc.
  - left. exists s. split; [reflexivity|]. split; [exact Hwf|].
    split; [lia|]. split; [lia|].
    split; [apply grown_refl | discriminate].
  - destruct (getOrCreate_total u s Hwf)
      as [[g [s1 [Eg [Hwf1 [Hp1 [Hps1 [Hts1 [Hg [Hn [[nt [T1 N1]] Hagain]]]]]]]]]]
          |[Eg Hq]].
    + destruct (addTagToPost_total postId (Tag.id g) s1 Hwf1 Hpid
                  (wf_tag_fits s1 g Hwf1 Hg))
        as [[r [s2 [Ea [Hwf2 [T2 [Q2 [Hps2 [[nr [P2 R2]] [Hr [Hrp Hrt]]]]]]]]]]
            |[Ea [Hq Hno]]].
      * left. unfold bind. rewrite Eg, Ea. exists s2. split; [reflexivity|].
        rewrite Hu in Hn.
        split; [exact Hwf2|]. split; [lia|]. split; [lia|].
        split; [|].
        -- split.
           ++ exists nt. rewrite T2. split; [exact T1|].
              intros g' Hg'. left. symmetry. now apply N1.
           ++ exists nr. rewrite P2, Hp1. split; [reflexivity|].
              intros r' Hr'. destruct (R2 r' Hr') as [A B]. split; [exact A|].
              exists g. rewrite T2, Hn. repeat split; auto. now left.
        -- intros _. exists g. split; [|exact Hn].
           apply linkedTags_In. rewrite T2. split; [exact Hg|].
           exists r. auto.
      * right. exists (SequenceExhausted "post_tags"), s1.
        unfold bind. rewrite Eg, Ea. split; [reflexivity|].
        split; [exact Hwf1|]. split; [reflexivity|]. split; [exact Hp1|].
        split; [|split].
        -- exists nt. split; [exact T1|]. split.
           ++ intros g' Hg'. now apply N1.
           ++ intros g' r Hg' Hr.
              destruct (N1 g' Hg') as [_ ->]. apply Hno. now rewrite Hp1.
        -- right. split; [reflexivity | now rewrite <- Hps1].
        -- intros E' HE'. rewrite HE'. now rewrite Hagain, Ea.
    + right. exists (SequenceExhausted "tags"), s.
      unfold bind. rewrite Eg. split; [reflexivity|].
      split; [exact Hwf|]. split; [reflexivity|]. split; [reflexivity|].
      split; [|split].
      * exists []. rewrite app_nil_r. split; [reflexivity|].
        split; [intros ? [] | intros ? ? []].
      * left. now split.
      * intros E' HE'. rewrite HE'. now rewrite Eg.
Qed.

Lemma addNew_step postId E u s :
  wf s -> int4 postId = true -> room 1 s -> toLowerCase u = u ->
  exists s1,
    addNew postId E u s = (Ok tt, s1)
    /\ wf s1
    /\ tagsSeq s <= tagsSeq s1 <= tagsSeq s + 1
    /\ postTagsSeq s <= postTagsSeq s1 <= postTagsSeq s + 1
    /\ grown postId [u] s s1
    /\ (includes E u = false ->
        exists g, In g (linkedTags s1 postId) /\ toLowerCase (Tag.name g) = u).
Proof.
  intros Hwf Hpid Hroom Hu.
  destruct (room_here 1 s Hroom ltac:(lia)) as [Hq1 Hq2].
  destruct (addNew_total postId E u s Hwf Hpid Hu)
    as [H|[e [s1 [_ [_ [_ [_ [_ [[[_ H]|[_ H]] _]]]]]]]]];
    [exact H | congruence | congruence].
Qed.

(** The adding loop, when it resolves. *)
Lemma addNew_loop_ok postId E U s s1 :
  wf s -> int4 postId = true ->
  (forall u, In u U -> toLowerCase u = u) ->
  forOf U (addNew postId E) s = (Ok tt, s1) ->
  wf s1
  /\ grown postId U s s1
  /\ (forall u, In u U -> includes E u = false ->
      exists g, In g (linkedTags s1 postId) /\ toLowerCase (Tag.name g) = u).
Proof.
  intros Hwf Hpid. revert s Hwf.
  induction U as [|u U IH]; intros s Hwf HU; simpl.
  - unfold ret. intros [= <-]. split; [exact Hwf|].
    split; [apply grown_refl | intros ? []].
  - unfold bind.
    destruct (addNew_total postId E u s Hwf Hpid (HU u (or_introl eq_refl)))
      as [[s0 [E1 [Hwf0 [_ [_ [G1 L1]]]]]]|[e [s0 [E1 _]]]];
      rewrite E1; [|discriminate].
    intros E2.
    destruct (IH s0 Hwf0 (fun v Hv => HU v (or_intror Hv)) E2)
      as [Hwf2 [G2 L2]].
    split; [exact Hwf2|]. split.
    + eapply grown_trans; [| |exact G1|exact G2].
      * intros x [<-|[]]. now left.
      * intros x Hx. now right.
    + intros v [<-|Hv] Hinc.
      * destruct (L1 Hinc) as [g [Hg Hn]]. exists g. split; [|exact Hn].
        eapply grown_linked; eauto.
      * now apply L2.
Qed.

(** With room in the two sequences the adding loop resolves. *)
Lemma addNew_loop_resolves postId E U s :
  wf s -> int4 postId = true -> room (Z.of_nat (List.length U)) s ->
  (forall u, In u U -> toLowerCase u = u) ->
  exists s1, forOf U (addNew postId E) s = (Ok tt, s1).
Proof.
  intros Hwf Hpid. revert s Hwf.
  induction U as [|u U IH]; intros s Hwf Hroom HU.
  - exists s. reflexivity.
  - assert (Hlen : Z.of_nat (List.length (u :: U))
                   = Z.of_nat (List.length U) + 1)
      by (simpl List.length; lia).
    rewrite Hlen in Hroom.
    destruct (addNew_step postId E u s Hwf Hpid
                (room_less _ 1 s Hroom ltac:(lia)) (HU u (or_introl eq_refl)))
      as [s1 [E1 [Hwf1 [Hts [Hps _]]]]].
    destruct (IH s1 Hwf1 (room_step _ s s1 Hroom Hts Hps)
                (fun v Hv => HU v (or_intror Hv)))
      as [s2 E2].
    exists s2. simpl. unfold bind. now rewrite E1.
Qed.

Lemma addNew_loop postId E U s :
  wf s -> int4 postId = true -> room (Z.of_nat (List.length U)) s ->
  (forall u, In u U -> toLowerCase u = u) ->
  exists s1,
    forOf U (addNew postId E) s = (Ok tt, s1)
    /\ wf s1
    /\ grown postId U s s1
    /\ (forall u, In u U -> includes E u = false ->
        exists g, In g (linkedTags s1 postId) /\ toLowerCase (Tag.name g) = u).
Proof.
  intros Hwf Hpid Hroom HU.
  destruct (addNew_loop_resolves postId E U s Hwf Hpid Hroom HU) as [s1 E1].
  exists s1. split; [exact E1|].
  now apply (addNew_loop_ok postId E U s s1).
Qed.

(** A loop either resolves, or rejects at the first turn that rejects. *)
Lemma forOf_cases {A} (xs : list A) (body : A -> M unit) s :
  (exists s1, forOf xs body s = (Ok tt, s1))
  \/ (exists pre x post e s0 s1,
        xs = pre ++ x :: post
        /\ forOf pre body s = (Ok tt, s0)
        /\ body x s0 = (Throw e, s1)
        /\ forOf xs body s = (Throw e, s1)).
Proof.
  revert s. induction xs as [|x r IH]; intros s.
  - left. exists s. reflexivity.
  - simpl. unfold bind. destruct (body x s) as [[[]|e] s0] eqn:Ex.
    + destruct (IH s0) as [[s1 E1]|[pre [y [post [e [s1 [s2 [-> [P [Q T]]]]]]]]]].
      * left. now exists s1.
      * right. exists (x :: pre), y, post, e, s1, s2. simpl. unfold bind.
        rewrite Ex. auto.
    + right. exists [], x, r, e, s, s0. simpl. auto.
Qed.

(** *** Removing *)

Lemma removeTagFromPost_fits postId gid s :
  int4 postId = true -> int4 gid = true ->
  removeTagFromPost postId gid s
  = (Ok (match filter (fun r => (PostTag.postId r =? postId)
                                && (PostTag.tagId r =? gid)) (postTags s) with
         | [] => false
         | _ :: _ => true
         end),
     mk (users s) (posts s) (tags s)
        (filter (fun r => negb ((PostTag.postId r =? postId)
                                && (PostTag.tagId r =? gid))) (postTags s))
        (comments s)
        (usersSeq s) (postsSeq s) (tagsSeq s) (postTagsSeq s) (commentsSeq s)).
Proof.
  intros H1 H2. unfold removeTagFromPost, bind, deletePostTags.
  rewrite bound_fits by now apply fits2. reflexivity.
Qed.

Lemma dropOld_loop postId U X s1 :
  int4 postId = true ->
  (forall e, In e X -> int4 (Tag.id e) = true) ->
  exists s2,
    forOf X (dropOld postId U) s1 = (Ok tt, s2)
    /\ tags s2 = tags s1
    /\ forall r, In r (postTags s2) <->
                 In r (postTags s1)
                 /\ ~ (PostTag.postId r = postId
                       /\ exists e, In e X /\ Tag.id e = PostTag.tagId r
                            /\ includes U (toLowerCase (Tag.name e)) = false).
Proof.
  intros Hpid. revert s1. induction X as [|e X IH]; intros s1 HX.
  - exists s1. simpl. repeat split; try tauto.
    intros [_ [x [[] _]]].
  - assert (HX' : forall x, In x X -> int4 (Tag.id x) = true)
      by (intros x Hx; apply HX; now right).
    cbn [forOf]. unfold bind at 1, dropOld at 1.
    destruct (includes U (toLowerCase (Tag.name e))) eqn:Hinc; cbn [negb].
    + simpl. destruct (IH s1 HX') as [s2 [E2 [T2 P2]]]. exists s2.
      split; [exact E2|]. split; [exact T2|].
      intros r. rewrite P2. split; intros [Hin Hn]; (split; [exact Hin|]).
      * intros [Hp [x [[<-|Hx] [Hid Hf]]]]; [congruence|].
        apply Hn. split; [exact Hp|]. exists x. auto.
      * intros [Hp [x [Hx Hf]]]. apply Hn. split; [exact Hp|]. exists x.
        split; [now right | exact Hf].
    + unfold bind at 1.
      rewrite removeTagFromPost_fits by (auto; apply HX; now left).
      cbn [ret].
      match goal with
      | |- context [forOf X _ ?s'] => destruct (IH s' HX') as [s2 [E2 [T2 P2]]]
      end.
      exists s2. split; [exact E2|]. split; [exact T2|].
      intros r. rewrite P2. simpl. rewrite filter_In, negb_true_iff,
        andb_false_iff, !Z.eqb_neq.
      split.
      * intros [[Hin Hd] Hn]. split; [exact Hin|].
        intros [Hp [x [[<-|Hx] [Hid Hf]]]].
        -- destruct Hd; congruence.
        -- apply Hn. split; [exact Hp|]. exists x. auto.
      * intros [Hin Hn]. split; [split; [exact Hin|]|].
        -- destruct (Z.eq_dec (PostTag.postId r) postId) as [Hp|Hp]; [|now left].
           right. intros Hid. apply Hn. split; [exact Hp|]. exists e.
           split; [now left|]. auto.
        -- intros [Hp [x [Hx Hf]]]. apply Hn. split; [exact Hp|]. exists x.
           split; [now right | exact Hf].
Qed.

Lemma NoDup_map_inj {A B} (f : A -> B) l x y :
  NoDup (map f l) -> In x l -> In y l -> f x = f y -> x = y.
Proof.
  induction l as [|a l IH]; simpl; intros Hnd Hx Hy Hf; [destruct Hx|].
  inversion Hnd as [|? ? Hn Hr]; subst.
  destruct Hx as [->|Hx], Hy as [->|Hy]; auto.
  - exfalso. apply Hn. rewrite Hf. now apply in_map.
  - exfalso. apply Hn. rewrite <- Hf. now apply in_map.
Qed.

(** ** What [updatePostTags] leaves linked *)

Lemma uniqueTags_canonical tagNames x :
  In x (uniqueTags tagNames) <-> In x (Spec.canonical tagNames).
Proof.
  unfold uniqueTags, Spec.canonical.
  rewrite nodup_In, !filter_In, spreadSet_In. tauto.
Qed.

Lemma uniqueTags_NoDup tagNames : NoDup (uniqueTags tagNames).
Proof. unfold uniqueTags. apply NoDup_filter. apply setFrom_NoDup. Qed.

(** The number of names [updatePostTags] may have to create and link. *)
Lemma uniqueTags_length tagNames :
  List.length (uniqueTags tagNames) = List.length (Spec.canonical tagNames).
Proof.
  apply Permutation_length. apply NoDup_Permutation.
  - apply uniqueTags_NoDup.
  - apply NoDup_nodup.
  - intros x. apply uniqueTags_canonical.
Qed.

(** When [updatePostTags] resolves on a well-formed database, the tags
    it leaves linked to the post carry, lower-cased, exactly the names of
    [uniqueTags]. *)
Lemma updatePostTags_after postId tagNames s out s2 :
  wf s ->
  updatePostTags postId tagNames s = (Ok out, s2) ->
  int4 postId = true
  /\ out = map Tag.name (linkedTags s2 postId)
  /\ wf s2
  /\ (forall g, In g (linkedTags s2 postId) ->
                In (toLowerCase (Tag.name g)) (uniqueTags tagNames))
  /\ (forall u, In u (uniqueTags tagNames) ->
                exists g, In g (linkedTags s2 postId)
                          /\ toLowerCase (Tag.name g) = u).
Proof.
  intros Hwf.
  destruct (int4 postId) eqn:Hpid.
  2:{ rewrite updatePostTags_rejects by exact Hpid. discriminate. }
  pose proof (wf_updatePostTags postId tagNames s Hwf) as Hwf2.
  revert Hwf2.
  rewrite updatePostTags_unfold by exact Hpid. cbv zeta.
  set (X := linkedTags s postId).
  set (E := map (fun t => toLowerCase (Tag.name t)) X).
  set (U := uniqueTags tagNames).
  destruct (forOf U (addNew postId E) s) as [[[]|e] s1] eqn:E1;
    [|intros _; discriminate].
  destruct (addNew_loop_ok postId E U s s1 Hwf Hpid
              (uniqueTags_lower tagNames) E1) as [Hwf1 [G1 L1]].
  destruct (dropOld_loop postId U X s1 Hpid) as [s2' [E2 [T2 P2]]].
  { intros e He. apply (wf_tag_fits s e Hwf).
    now apply (linkedTags_tags s postId). }
  rewrite E2. intros Hwf2 [= <- <-].
  split; [reflexivity|]. split; [reflexivity|].
  split; [exact Hwf2|].
  pose proof G1 as [[nt [T1 N1]] [nr [P1 R1]]].
  assert (Hsame : forall a b, In a (tags s1) -> In b (tags s1) ->
                              Tag.id a = Tag.id b -> a = b).
  { intros a b. apply NoDup_map_inj. apply Hwf1. }
  assert (HX : forall e, In e X -> In e (tags s1)).
  { intros e He. apply linkedTags_In in He. rewrite T1.
    apply in_or_app. left. tauto. }
  split.
  - intros g Hg. apply linkedTags_In in Hg. rewrite T2 in Hg.
    destruct Hg as [Hg [r [Hr [Hid Hp]]]]. apply P2 in Hr.
    destruct Hr as [Hr Hkeep]. rewrite P1 in Hr. apply in_app_or in Hr.
    destruct Hr as [Hr|Hr].
    + rewrite T1 in Hg. apply in_app_or in Hg. destruct Hg as [Hg|Hg].
      * assert (HgX : In g X).
        { apply linkedTags_In. split; [exact Hg|]. exists r. auto. }
        destruct (includes U (toLowerCase (Tag.name g))) eqn:Hinc.
        -- now apply includes_In.
        -- exfalso. apply Hkeep. split; [exact Hp|]. exists g. auto.
      * pose proof (N1 g Hg) as Hn.
        rewrite (uniqueTags_lower tagNames _ Hn). exact Hn.
    + destruct (R1 r Hr) as [_ [g' [Hg' [Hid' Hu]]]].
      assert (g' = g) by (apply Hsame; auto; congruence).
      now subst.
  - intros u Hu.
    assert (Hkept : forall g, In g (linkedTags s1 postId) ->
                              toLowerCase (Tag.name g) = u ->
                              In g (linkedTags s2' postId)).
    { intros g Hg Hn. apply linkedTags_In in Hg.
      destruct Hg as [Hg [r [Hr [Hid Hp]]]].
      apply linkedTags_In. rewrite T2. split; [exact Hg|].
      exists r. split; [|auto]. apply P2. split; [exact Hr|].
      intros [_ [e [He [Hide Hf]]]].
      assert (e = g) by (apply Hsame; auto; congruence). subst e.
      rewrite Hn in Hf. apply includes_false in Hf. tauto. }
    destruct (includes E u) eqn:Hinc.
    + apply includes_In in Hinc. apply in_map_iff in Hinc.
      destruct Hinc as [e [Hn He]]. exists e. split; [|exact Hn].
      apply Hkept; [|exact Hn]. eapply grown_linked; eauto.
    + destruct (L1 u Hu Hinc) as [g [Hg Hn]]. exists g. auto.
Qed.

(** On a well-formed database with room in the two sequences, and for a
    post id that is a 32-bit integer, the method resolves. *)
Lemma updatePostTags_resolves postId tagNames s :
  wf s -> int4 postId = true ->
  room (Z.of_nat (List.length (uniqueTags tagNames))) s ->
  exists out s2, updatePostTags postId tagNames s = (Ok out, s2).
Proof.
  intros Hwf Hpid Hroom.
  rewrite updatePostTags_unfold by exact Hpid. cbv zeta.
  set (X := linkedTags s postId).
  set (E := map (fun t => toLowerCase (Tag.name t)) X).
  set (U := uniqueTags tagNames).
  destruct (addNew_loop_resolves postId E U s Hwf Hpid Hroom
              (uniqueTags_lower tagNames)) as [s1 E1].
  destruct (dropOld_loop postId U X s1 Hpid) as [s2 [E2 _]].
  { intros e He. apply (wf_tag_fits s e Hwf).
    now apply (linkedTags_tags s postId). }
  rewrite E1, E2. eauto.
Qed.

Lemma updatePostTags_spec postId tagNames s :
  wf s -> int4 postId = true ->
  room (Z.of_nat (List.length (uniqueTags tagNames))) s ->
  exists s2,
    updatePostTags postId tagNames s
    = (Ok (map Tag.name (linkedTags s2 postId)), s2)
    /\ wf s2
    /\ (forall g, In g (linkedTags s2 postId) ->
                  In (toLowerCase (Tag.name g)) (uniqueTags tagNames))
    /\ (forall u, In u (uniqueTags tagNames) ->
                  exists g, In g (linkedTags s2 postId)
                            /\ toLowerCase (Tag.name g) = u).
Proof.
  intros Hwf Hpid Hroom.
  destruct (updatePostTags_resolves postId tagNames s Hwf Hpid Hroom)
    as [out [s2 E]].
  destruct (updatePostTags_after postId tagNames s out s2 Hwf E)
    as [_ [-> [W [H1 H2]]]].
  exists s2. auto.
Qed.

Lemma forOf_noop {A} (xs : list A) (body : A -> M unit) s :
  (forall x, In x xs -> body x s = (Ok tt, s)) ->
  forOf xs body s = (Ok tt, s).
Proof.
  induction xs as [|x r IH]; intros H; simpl; [reflexivity|].
  unfold bind. rewrite (H x (or_introl eq_refl)).
  apply IH. intros y Hy. apply H. now right.
Qed.

(** Once the post carries exactly the names of [uniqueTags], the method
    writes nothing. *)
Lemma updatePostTags_settled postId tagNames s :
  int4 postId = true ->
  (forall g, In g (linkedTags s postId) ->
             In (toLowerCase (Tag.name g)) (uniqueTags tagNames)) ->
  (forall u, In u (uniqueTags tagNames) ->
             exists g, In g (linkedTags s postId)
                       /\ toLowerCase (Tag.name g) = u) ->
  updatePostTags postId tagNames s
  = (Ok (map Tag.name (linkedTags s postId)), s).
Proof.
  intros Hpid H1 H2. rewrite updatePostTags_unfold by exact Hpid. cbv zeta.
  rewrite forOf_noop.
  - rewrite forOf_noop; [reflexivity|].
    intros e He. unfold dropOld.
    replace (includes _ _) with true; [reflexivity|].
    symmetry. apply includes_In. now apply H1.
  - intros u Hu. unfold addNew.
    replace (includes _ _) with true; [reflexivity|].
    symmetry. apply includes_In. destruct (H2 u Hu) as [g [Hg Hn]].
    apply in_map_iff. exists g. auto.
Qed.

(** [updatePostTags] on a well-formed database is rejected only for a
    post id that is no 32-bit integer, before anything is written, or
    because one of the two sequences is exhausted. *)
Lemma updatePostTags_errors postId tagNames s e s' :
  wf s ->
  updatePostTags postId tagNames s = (Throw e, s') ->
  (e = NotInt4 /\ int4 postId = false /\ s' = s)
  \/ (int4 postId = true
      /\ (e = SequenceExhausted "tags" \/ e = SequenceExhausted "post_tags")
      /\ ~ room (Z.of_nat (List.length (uniqueTags tagNames))) s).
Proof.
  intros Hwf E. destruct (int4 postId) eqn:Hpid.
  2:{ rewrite updatePostTags_rejects in E by exact Hpid.
      injection E as <- <-. now left. }
  right. split; [reflexivity|]. split.
  - rewrite updatePostTags_unfold in E by exact Hpid. cbv zeta in E.
    destruct (forOf_cases (uniqueTags tagNames)
                (addNew postId (map (fun t => toLowerCase (Tag.name t))
                                    (linkedTags s postId))) s)
      as [[s0 E1]|[pre [u [post [e' [s0 [s1' [HU [Epre [Eu Eall]]]]]]]]]].
    + rewrite E1 in E.
      destruct (dropOld_loop postId (uniqueTags tagNames)
                  (linkedTags s postId) s0 Hpid) as [s2 [E2 _]].
      { intros g Hg. apply (wf_tag_fits s g Hwf).
        now apply (linkedTags_tags s postId). }
      rewrite E2 in E. discriminate.
    + rewrite Eall in E. injection E as -> ->.
      assert (Hlow_pre : forall x, In x pre -> toLowerCase x = x).
      { intros x Hx. apply (uniqueTags_lower tagNames). rewrite HU.
        apply in_or_app. now left. }
      assert (Hlow_u : toLowerCase u = u).
      { apply (uniqueTags_lower tagNames). rewrite HU.
        apply in_or_app. right. now left. }
      destruct (addNew_loop_ok postId _ pre s s0 Hwf Hpid Hlow_pre Epre)
        as [Hwf0 _].
      destruct (addNew_total postId
                  (map (fun t => toLowerCase (Tag.name t)) (linkedTags s postId))
                  u s0 Hwf0 Hpid Hlow_u)
        as [[s2 [Eok _]]|[e2 [s2 [Ethrow [_ [_ [_ [_ [He _]]]]]]]]].
      * rewrite Eok in Eu. discriminate.
      * rewrite Ethrow in Eu. injection Eu as -> _. tauto.
  - intros Hroom.
    destruct (updatePostTags_resolves postId tagNames s Hwf Hpid Hroom)
      as [out [s2 E2]].
    rewrite E2 in E. discriminate.
Qed.

(** Turns that write nothing can be left out of a loop. *)
Lemma forOf_skip {A} (pre rest : list A) (body : A -> M unit) s :
  (forall x, In x pre -> body x s = (Ok tt, s)) ->
  forOf (pre ++ rest) body s = forOf rest body s.
Proof.
  induction pre as [|x pre IH]; intros H; simpl; [reflexivity|].
  unfold bind. rewrite (H x (or_introl eq_refl)).
  apply IH. intros y Hy. apply H. now right.
Qed.

Lemma linked_more postId s0 s1 nt g :
  tags s1 = tags s0 ++ nt -> postTags s1 = postTags s0 ->
  In g (linkedTags s0 postId) -> In g (linkedTags s1 postId).
Proof.
  intros T P. rewrite !linkedTags_In, T, P. intros [Hg Hr].
  split; [apply in_or_app; now left | exact Hr].
Qed.

(** A second call of [updatePostTags] with the same arguments, on the
    database the first call left, settles as the first call did and
    writes nothing: also when the first call was rejected. *)
Lemma updatePostTags_again postId tagNames s r s1 :
  wf s ->
  updatePostTags postId tagNames s = (r, s1) ->
  updatePostTags postId tagNames s1 = (r, s1).
Proof.
  intros Hwf E. destruct r as [out|e].
  { destruct (updatePostTags_after postId tagNames s out s1 Hwf E)
      as [Hpid [-> [W [H1 H2]]]].
    now apply updatePostTags_settled. }
  destruct (int4 postId) eqn:Hpid.
  2:{ rewrite updatePostTags_rejects in E by exact Hpid.
      injection E as <- <-. now apply updatePostTags_rejects. }
  rewrite updatePostTags_unfold in E by exact Hpid. cbv zeta in E.
  rewrite updatePostTags_unfold by exact Hpid. cbv zeta.
  set (X := linkedTags s postId) in *.
  set (E0 := map (fun t => toLowerCase (Tag.name t)) X) in *.
  set (U := uniqueTags tagNames) in *.
  set (E' := map (fun t => toLowerCase (Tag.name t)) (linkedTags s1 postId)).
  pose proof (uniqueTags_lower tagNames) as Hlow. fold U in Hlow.
  pose proof (uniqueTags_NoDup tagNames) as Hnd. fold U in Hnd.
  destruct (forOf_cases U (addNew postId E0) s)
    as [[s0 E1]|[pre [u [post [e' [s0 [s1' [HU [Epre [Eu Eall]]]]]]]]]].
  { rewrite E1 in E.
    destruct (dropOld_loop postId U X s0 Hpid) as [s2 [E2 _]].
    { intros g Hg. apply (wf_tag_fits s g Hwf).
      now apply (linkedTags_tags s postId). }
    rewrite E2 in E. discriminate. }
  rewrite Eall in E. injection E as -> ->.
  assert (Hlow_pre : forall x, In x pre -> toLowerCase x = x).
  { intros x Hx. apply Hlow. rewrite HU. apply in_or_app. now left. }
  assert (Hlow_u : toLowerCase u = u).
  { apply Hlow. rewrite HU. apply in_or_app. right. now left. }
  assert (Hnew : ~ In u pre).
  { rewrite HU in Hnd. apply NoDup_remove_2 in Hnd. intros Hin. apply Hnd.
    apply in_or_app. now left. }
  destruct (addNew_loop_ok postId E0 pre s s0 Hwf Hpid Hlow_pre Epre)
    as [Hwf0 [G0 L0]].
  destruct (addNew_total postId E0 u s0 Hwf0 Hpid Hlow_u)
    as [[s' [Eok _]]
        |[e2 [s2 [Ethrow [Hwf1 [Hinc [Hpt [[nt [T1 [_ N1]]] [_ Hreplay]]]]]]]]].
  { rewrite Eok in Eu. discriminate. }
  rewrite Ethrow in Eu. injection Eu as -> ->.
  assert (Hpre : forall x, In x pre -> includes E' x = true).
  { intros x Hx. apply includes_In. unfold E'.
    destruct (includes E0 x) eqn:Hx0.
    - apply includes_In in Hx0. apply in_map_iff in Hx0.
      destruct Hx0 as [g [Hn Hg]]. apply in_map_iff. exists g.
      split; [exact Hn|].
      apply (linked_more postId s0 s1 nt g T1 Hpt).
      eapply grown_linked; eauto.
    - destruct (L0 x Hx Hx0) as [g [Hg Hn]]. apply in_map_iff. exists g.
      split; [exact Hn|]. exact (linked_more postId s0 s1 nt g T1 Hpt Hg). }
  assert (Hu : includes E' u = false).
  { apply includes_false. unfold E'. intros Hin. apply in_map_iff in Hin.
    destruct Hin as [g [Hn Hg]]. apply linkedTags_In in Hg.
    destruct Hg as [Hg [r [Hr [Hid Hp]]]].
    destruct G0 as [[nt0 [T0 N0]] [nr0 [P0 R0]]].
    rewrite Hpt, P0 in Hr. apply in_app_or in Hr. destruct Hr as [Hr|Hr].
    - rewrite T1, T0 in Hg. apply in_app_or in Hg. destruct Hg as [Hg|Hg];
        [apply in_app_or in Hg; destruct Hg as [Hg|Hg]|].
      + apply includes_false in Hinc. apply Hinc. unfold E0.
        apply in_map_iff. exists g. split; [exact Hn|].
        apply linkedTags_In. split; [exact Hg|]. exists r. auto.
      + apply Hnew. pose proof (N0 g Hg) as Hin.
        rewrite (Hlow_pre _ Hin) in Hn. now rewrite <- Hn.
      + apply (N1 g r Hg); [|auto]. rewrite P0. apply in_or_app. now left.
    - destruct (R0 r Hr) as [_ [g' [Hg' [Hid' Hin']]]].
      assert (g' = g).
      { apply (NoDup_map_inj Tag.id (tags s1)); [apply Hwf1 | | exact Hg
                                                 | congruence].
        rewrite T1. apply in_or_app. now left. }
      subst g'. apply Hnew. now rewrite <- Hn. }
  fold E'. rewrite HU, forOf_skip.
  2:{ intros x Hx. unfold addNew. now rewrite (Hpre x Hx). }
  simpl. unfold bind. now rewrite (Hreplay E' Hu).
Qed.

(** ** Tables a method does not write *)

Lemma samePosts_refl s : samePosts s s.
Proof. reflexivity. Qed.

Lemma samePosts_trans s1 s2 s3 :
  samePosts s1 s2 -> samePosts s2 s3 -> samePosts s1 s3.
Proof. unfold samePosts. congruence. Qed.

Lemma samePosts_insertTag n : steps samePosts (insertTag n).
Proof. stmt; reflexivity. Qed.
Lemma samePosts_insertPostTag a b : steps samePosts (insertPostTag a b).
Proof. stmt; reflexivity. Qed.
Lemma samePosts_deletePostTags ps p : steps samePosts (deletePostTags ps p).
Proof. stmt; reflexivity. Qed.

#[local] Hint Resolve samePosts_insertTag samePosts_insertPostTag
  samePosts_deletePostTags : db.

Lemma samePosts_updatePostTags postId names :
  steps samePosts (updatePostTags postId names).
Proof.
  unfold updatePostTags, getTagsByPostId, removeTagFromPost, addTagToPost,
    getTagByName, createTag.
  steps_split samePosts_refl samePosts_trans.
Qed.

(** ** [updatePost] *)

Lemma patched_self d p : 
  fieldSet (PartialInsertPost.title d) = None ->
  fieldSet (PartialInsertPost.body d) = None ->
  Spec.patched d p p.
Proof.
  unfold Spec.patched, fieldSet, truthy. intros Ht Hb.
  repeat split.
  - destruct (PartialInsertPost.title d) as [v|]; [|reflexivity].
    destruct (v =? "")%string; [reflexivity | discriminate].
  - destruct (PartialInsertPost.body d) as [v|]; [|reflexivity].
    destruct (v =? "")%string; [reflexivity | discriminate].
Qed.

Lemma patched_mk d p :
  Spec.patched d p
    (Post.mk (Post.id p)
       (match fieldSet (PartialInsertPost.title d) with
        | Some v => v | None => Post.title p end)
       (match fieldSet (PartialInsertPost.body d) with
        | Some v => v | None => Post.body p end)
       (Post.authorId p) (Post.createdAt p)).
Proof.
  unfold Spec.patched, fieldSet, truthy. simpl. repeat split.
  - destruct (PartialInsertPost.title d) as [v|]; [|reflexivity].
    destruct (v =? "")%string; reflexivity.
  - destruct (PartialInsertPost.body d) as [v|]; [|reflexivity].
    destruct (v =? "")%string; reflexivity.
Qed.

Lemma Forall2_map_pointwise {A} (P : A -> A -> Prop) (f : A -> A) l :
  (forall x, P x (f x)) -> Forall2 P l (map f l).
Proof.
  intros H. induction l; simpl; constructor; auto.
Qed.

(** The rows an [update] leaves, in the order of the table before it,
    are the rows it writes, in another order. *)
Lemma updated_in_place {A} (p : A -> bool) (f : A -> A) l :
  Permutation (map (fun r => if p r then f r else r) l)
              (filter (fun r => negb (p r)) l ++ map f (filter p l)).
Proof.
  induction l as [|x l IH]; simpl; [constructor|].
  destruct (p x); simpl.
  - now apply Permutation_cons_app.
  - now constructor.
Qed.

(** A post id that is no 32-bit integer is rejected by the first
    statement: nothing is written. *)
Lemma updatePost_rejects id d s :
  int4 id = false -> updatePost id d s = (Throw NotInt4, s).
Proof.
  intros H. unfold updatePost.
  destruct (fieldSet (PartialInsertPost.title d));
    destruct (fieldSet (PartialInsertPost.body d));
    unfold bind, updatePosts, query;
    rewrite bound_rejects by (now apply misfits1); reflexivity.
Qed.

Lemma updatePost_spec id d s :
  int4 id = true ->
  Forall2 (fun old new =>
             if Post.id old =? id then Spec.patched d old new else new = old)
          (posts s)
          (map (fun p => if Post.id p =? id
                         then Post.mk (Post.id p)
                                (match fieldSet (PartialInsertPost.title d) with
                                 | Some v => v | None => Post.title p end)
                                (match fieldSet (PartialInsertPost.body d) with
                                 | Some v => v | None => Post.body p end)
                                (Post.authorId p) (Post.createdAt p)
                         else p) (posts s))
  /\ Permutation
       (map (fun p => if Post.id p =? id
                      then Post.mk (Post.id p)
                             (match fieldSet (PartialInsertPost.title d) with
                              | Some v => v | None => Post.title p end)
                             (match fieldSet (PartialInsertPost.body d) with
                              | Some v => v | None => Post.body p end)
                             (Post.authorId p) (Post.createdAt p)
                      else p) (posts s))
       (posts (snd (updatePost id d s))).
Proof.
  intros Hid. split.
  { apply Forall2_map_pointwise. intros p.
    destruct (Post.id p =? id); [apply patched_mk | reflexivity]. }
  unfold updatePost.
  destruct (fieldSet (PartialInsertPost.title d)) as [tv|] eqn:Ht;
    destruct (fieldSet (PartialInsertPost.body d)) as [bv|] eqn:Hb.
  4:{ rewrite query_fits by now apply fits1. simpl.
      erewrite map_ext; [rewrite map_id; reflexivity|].
      intros p. destruct (Post.id p =? id); [now destruct p | reflexivity]. }
  all: unfold bind, updatePosts;
    rewrite bound_fits by (now apply fits1);
    match goal with
    | |- context [map ?f (filter ?q (posts ?s0))] =>
        pose proof (updated_in_place q f (posts s0)) as Hperm;
        destruct (map f (filter q (posts s0))) as [|updatedPost rest]
    end;
    [ simpl
    | destruct (tagsGiven (PartialInsertPost.tags d)) as [tgs|];
      [ cbv beta;
        match goal with
        | |- context [updatePostTags ?i ?tg ?s1] =>
            pose proof (samePosts_updatePostTags i tg s1) as Hsame;
            unfold samePosts in Hsame;
            destruct (updatePostTags i tg s1) as [[out|e] s2];
            simpl in Hsame |- *; rewrite Hsame
        end
      | simpl ] ];
    simpl; exact Hperm.
Qed.

(** ** [deletePost] *)

(** A post id that is no 32-bit integer is rejected by the first
    statement: nothing is written. *)
Lemma deletePost_rejects id s :
  int4 id = false -> deletePost id s = (Throw NotInt4, s).
Proof.
  intros H. unfold deletePost, bind at 1, deleteComments.
  rewrite bound_rejects by (now apply misfits1). reflexivity.
Qed.

Lemma deletePost_spec id s :
  int4 id = true ->
  exists b s',
    deletePost id s = (Ok b, s')
    /\ comments s' = filter (fun c => negb (Comment.postId c =? id)) (comments s)
    /\ postTags s' = filter (fun r => negb (PostTag.postId r =? id)) (postTags s)
    /\ posts s' = filter (fun p => negb (Post.id p =? id)) (posts s)
    /\ users s' = users s /\ tags s' = tags s
    /\ (b = true <-> exists p, In p (posts s) /\ Post.id p = id).
Proof.
  intros Hid.
  unfold deletePost, bind, deleteComments, deletePostTags, deletePosts, ret.
  rewrite !bound_fits by (now apply fits1).
  simpl. eexists. eexists. split; [reflexivity|]. simpl.
  repeat split; try reflexivity.
  - destruct (filter _ (posts s)) as [|p l] eqn:F; [discriminate|].
    intros _. assert (Hin : In p (filter (fun p => Post.id p =? id) (posts s)))
      by (rewrite F; now left).
    apply filter_In in Hin. exists p. split; [tauto|]. now apply Z.eqb_eq.
  - intros [p [Hin Hid']].
    assert (Hf : In p (filter (fun p => Post.id p =? id) (posts s))).
    { apply filter_In. split; [exact Hin | now apply Z.eqb_eq]. }
    destruct (filter _ (posts s)); [destruct Hf | reflexivity].
Qed.

(** ** [addTagToPost] on a pair that is already stored *)

Lemma addTagToPost_existing postId tagId s :
  wf s ->
  (exists r, In r (postTags s) /\ pairOf r = (postId, tagId)) ->
  exists r, addTagToPost postId tagId s = (Ok r, s)
            /\ In r (postTags s) /\ pairOf r = (postId, tagId).
Proof.
  intros Hwf [r0 [Hin Hp]]. unfold addTagToPost, bind.
  unfold pairOf in Hp. injection Hp as <- <-.
  pose proof (wf_postTag_range s Hwf) as F0. rewrite Forall_forall in F0.
  destruct (F0 r0 Hin) as [Hr1 Hr2].
  rewrite query_fits by now apply fits2.
  destruct (hd_error (filter _ (postTags s))) as [r|] eqn:F.
  - apply hd_error_filter_Some in F. destruct F as [Hr Hc].
    apply andb_true_iff in Hc. destruct Hc as [H1 H2].
    apply Z.eqb_eq in H1, H2. exists r. unfold pairOf, ret.
    repeat split; auto. congruence.
  - pose proof (hd_error_filter_None _ _ F r0 Hin) as Hf. simpl in Hf.
    now rewrite !Z.eqb_refl in Hf.
Qed.

End DbFacts.

(* ===================================================================== *)
(** * Reasoning about [MemStorage] methods *)
(* ===================================================================== *)

Module MemFacts.
Import Js JsFacts MemStorage.

Lemma forEach_inv {S A} (P : S -> Prop) (xs : list A) (body : A -> S -> S) s :
  P s -> (forall x s, P s -> P (body x s)) -> P (forEach xs body s).
Proof.
  unfold forEach. revert s. induction xs as [|x r IH]; intros s Hs Hb; simpl.
  - exact Hs.
  - apply IH; auto.
Qed.

(** ** Tables a method does not write *)

Lemma removeTagFromPost_posts postId tagId s :
  posts (snd (removeTagFromPost postId tagId s)) = posts s.
Proof.
  unfold removeTagFromPost.
  destruct (Js.find _ _) as [[k v]|]; reflexivity.
Qed.

Lemma updatePostTags_posts postId tagNames s :
  posts (snd (updatePostTags postId tagNames s)) = posts s.
Proof.
  unfold updatePostTags. simpl.
  apply (forEach_inv (fun s' => posts s' = posts s)).
  - apply (forEach_inv (fun s' => posts s' = posts s)); [reflexivity|].
    intros u s1 H1.
    destruct (u =? "")%string; [exact H1|].
    destruct (includes _ u); [exact H1|].
    destruct (getTagByName s1 u); simpl; exact H1.
  - intros e s1 H1. destruct (negb _); [|exact H1].
    now rewrite removeTagFromPost_posts.
Qed.

(** ** [updatePost] *)

Lemma mem_updatePost_spec id d s post :
  Js.get (posts s) id = Some post ->
  exists post',
    fst (updatePost id d s) = Some post'
    /\ Js.get (posts (snd (updatePost id d s))) id = Some post'
    /\ Spec.patched d post post'
    /\ forall k, k <> id ->
         Js.get (posts (snd (updatePost id d s))) k = Js.get (posts s) k.
Proof.
  intros Hget. unfold updatePost. rewrite Hget.
  eexists. split; [reflexivity|].
  assert (Hp : forall s1, posts
            (match tagsGiven (PartialInsertPost.tags d) with
             | Some tgs => snd (updatePostTags id tgs s1)
             | None => s1
             end) = posts s1).
  { intros s1. destruct (tagsGiven _); [apply updatePostTags_posts | reflexivity]. }
  cbv zeta. cbn [snd fst]. rewrite Hp. cbn [posts withPosts].
  split; [apply get_set_same|].
  split; [apply DbFacts.patched_mk|].
  intros k Hk. now apply get_set_other.
Qed.

(** ** [deletePost] *)




(** ** [getPostsByTag] *)

Lemma getTagByName_case s a b :
  toLowerCase a = toLowerCase b -> getTagByName s a = getTagByName s b.
Proof.
  intros H. unfold getTagByName. now rewrite H.
Qed.

(** The query is resolved whatever its letter case. *)
Lemma getPostsByTag_case s a b :
  toLowerCase a = toLowerCase b -> getPostsByTag s a = getPostsByTag s b.
Proof.
  intros H. unfold getPostsByTag. now rewrite (getTagByName_case s a b H).
Qed.

(** ** The two loops of [updatePostTags] *)

Lemma mem_updatePostTags_unfold postId tagNames s :
  updatePostTags postId tagNames s =
  let existingTags := getTagsByPostId s postId in
  let existingTagNames := map (fun t => toLowerCase (Tag.name t)) existingTags in
  let s1 := forEach (uniqueTags tagNames) (addNew postId existingTagNames) s in
  let s2 := forEach existingTags (dropOld postId (uniqueTags tagNames)) s1 in
  (map Tag.name (getTagsByPostId s2 postId), s2).
Proof. reflexivity. Qed.

Lemma mem_uniqueTags_lower tagNames u :
  In u (uniqueTags tagNames) -> toLowerCase u = u.
Proof.
  unfold uniqueTags. rewrite spreadSet_In, in_map_iff.
  intros [x [<- _]]. apply normalized_lower.
Qed.

Lemma getTagsByPostId_In s postId g :
  In g (getTagsByPostId s postId) <->
  exists k r, In (k, r) (postTags s) /\ PostTag.postId r = postId
              /\ Js.get (tags s) (PostTag.tagId r) = Some g.
Proof.
  unfold getTagsByPostId. rewrite collect_In. split.
  - intros [r [Hr Hg]]. apply filter_In in Hr. destruct Hr as [Hr Hp].
    apply Z.eqb_eq in Hp. unfold Js.values in Hr. apply in_map_iff in Hr.
    destruct Hr as [[k r'] [E Hin]]. simpl in E. subst r'.
    exists k, r. auto.
  - intros [k [r [Hin [Hp Hg]]]]. exists r. split; [|exact Hg].
    apply filter_In. split; [|now apply Z.eqb_eq].
    unfold Js.values. apply in_map_iff. exists (k, r). auto.
Qed.

(** *** Adding *)

Lemma fresh_key {V} (m : Js.Map V) n :
  (forall k v, In (k, v) m -> k < n) -> ~ In n (Js.keys m).
Proof.
  intros H Hin. apply keys_In in Hin. destruct Hin as [v Hv].
  specialize (H n v Hv). lia.
Qed.

Lemma createTag_spec name s :
  wf s ->
  let tag := Tag.mk (tagId s) name in
  createTag name s
  = (tag, withTags s (tags s ++ [(tagId s, tag)]) (tagId s + 1))
  /\ wf (snd (createTag name s)).
Proof.
  intros [Hk Hi Hpk Hpi]. unfold createTag. cbv zeta.
  rewrite set_fresh by (apply fresh_key; intros k v Hv; apply (Hi k v Hv)).
  split; [reflexivity|]. simpl. constructor; simpl; auto.
  - rewrite keys_app. simpl. apply DbFacts.NoDup_snoc; [exact Hk|].
    apply fresh_key. intros k v Hv. apply (Hi k v Hv).
  - intros k g Hin. apply in_app_or in Hin. destruct Hin as [Hin|[E|[]]].
    + destruct (Hi k g Hin). split; [auto | lia].
    + injection E as <- <-. simpl. split; [reflexivity | lia].
Qed.

Lemma mem_addTagToPost_spec postId tid s :
  wf s ->
  let row := PostTag.mk (postTagId s) postId tid in
  addTagToPost postId tid s
  = (row, withPostTags s (postTags s ++ [(postTagId s, row)]) (postTagId s + 1))
  /\ wf (snd (addTagToPost postId tid s)).
Proof.
  intros [Hk Hi Hpk Hpi]. unfold addTagToPost. cbv zeta.
  rewrite set_fresh by (apply fresh_key; exact Hpi).
  split; [reflexivity|]. simpl. constructor; simpl; auto.
  - rewrite keys_app. simpl. apply DbFacts.NoDup_snoc; [exact Hpk|].
    apply fresh_key. exact Hpi.
  - intros k r Hin. apply in_app_or in Hin. destruct Hin as [Hin|[E|[]]].
    + specialize (Hpi k r Hin). lia.
    + injection E as <- <-. lia.
Qed.

Lemma mem_grown_refl postId U s : grown postId U s s.
Proof.
  split; exists []; rewrite app_nil_r; (split; [reflexivity | intros ? ? []]).
Qed.

Lemma mem_grown_trans postId U1 U2 U s0 s1 s2 :
  incl U1 U -> incl U2 U ->
  grown postId U1 s0 s1 -> grown postId U2 s1 s2 -> grown postId U s0 s2.
Proof.
  intros I1 I2 [[nt1 [T1 N1]] [nr1 [P1 R1]]] [[nt2 [T2 N2]] [nr2 [P2 R2]]].
  split.
  - exists (nt1 ++ nt2). rewrite T2, T1, app_assoc. split; [reflexivity|].
    intros k g Hg. apply in_app_or in Hg.
    destruct Hg as [Hg|Hg]; [destruct (N1 k g Hg) | destruct (N2 k g Hg)]; auto.
  - exists (nr1 ++ nr2). rewrite P2, P1, app_assoc. split; [reflexivity|].
    intros k r Hr. apply in_app_or in Hr. destruct Hr as [Hr|Hr].
    + destruct (R1 k r Hr) as [Hp [g [Hg [Hu Hne]]]]. split; [exact Hp|].
      exists g. rewrite T2. repeat split; auto. apply in_or_app. now left.
    + destruct (R2 k r Hr) as [Hp [g [Hg [Hu Hne]]]]. split; [exact Hp|].
      exists g. repeat split; auto.
Qed.

Lemma mem_addNew_step postId E u s :
  wf s -> toLowerCase u = u ->
  wf (addNew postId E u s)
  /\ grown postId [u] s (addNew postId E u s)
  /\ (u <> "" -> includes E u = false ->
      exists g, In g (getTagsByPostId (addNew postId E u s) postId)
                /\ toLowerCase (Tag.name g) = u).
Proof.
  intros Hwf Hu. unfold addNew.
  destruct (String.eqb_spec u "") as [->|Hne].
  { split; [exact Hwf|]. split; [apply mem_grown_refl | tauto]. }
  destruct (includes E u) eqn:Hinc.
  { split; [exact Hwf|]. split; [apply mem_grown_refl | discriminate]. }
  assert (Hgoc : exists g s1 nt,
             match getTagByName s u with
             | Some tag => (tag, s)
             | None => createTag u s
             end = (g, s1)
             /\ wf s1 /\ tags s1 = tags s ++ nt /\ postTags s1 = postTags s
             /\ postTagId s1 = postTagId s
             /\ In (Tag.id g, g) (tags s1)
             /\ toLowerCase (Tag.name g) = u
             /\ forall k g', In (k, g') nt -> Tag.name g' = u).
  { unfold getTagByName. destruct (Js.find _ _) as [g|] eqn:F.
    - apply find_some in F. destruct F as [Hin Hn].
      apply String.eqb_eq in Hn. rewrite Hu in Hn.
      unfold Js.values in Hin. apply in_map_iff in Hin.
      destruct Hin as [[k g'] [Eg Hin]]. simpl in Eg. subst g'.
      destruct (wf_tag_ids s Hwf k g Hin) as [Hid _]. subst k.
      exists g, s, []. rewrite app_nil_r. splits; auto.
      intros ? ? [].
    - destruct (createTag_spec u s Hwf) as [Ec Hwf1]. rewrite Ec in Hwf1 |- *.
      eexists. eexists. exists [(tagId s, Tag.mk (tagId s) u)].
      split; [reflexivity|]. simpl in *. splits; auto.
      + apply in_or_app. right. now left.
      + intros k g' [E'|[]]. now injection E' as <- <-. }
  destruct Hgoc as [g [s1 [nt [Eg [Hwf1 [T1 [P1 [Q1 [Hg [Hn N1]]]]]]]]]].
  rewrite Eg.
  destruct (mem_addTagToPost_spec postId (Tag.id g) s1 Hwf1) as [Ea Hwf2].
  rewrite Ea in Hwf2 |- *. simpl in *.
  assert (Hgne : Tag.name g <> "").
  { intros Hz. apply Hne. rewrite <- Hn. now apply toLowerCase_empty. }
  split; [exact Hwf2|]. split; [split|].
  - exists nt. split; [exact T1|]. intros k g' Hin.
    rewrite (N1 k g' Hin). split; [now left | exact Hne].
  - eexists. rewrite P1. split; [reflexivity|].
    intros k r [E'|[]]. injection E' as <- <-. simpl. split; [reflexivity|].
    exists g. rewrite Hn. split; [exact Hg|]. split; [now left | exact Hgne].
  - intros _ _. exists g. split; [|exact Hn].
    apply getTagsByPostId_In. simpl.
    exists (postTagId s1), (PostTag.mk (postTagId s1) postId (Tag.id g)).
    split; [apply in_or_app; right; now left|]. simpl. split; [reflexivity|].
    apply get_In_iff; [apply Hwf1 | exact Hg].
Qed.

Lemma forEach_cons {S A} (x : A) xs (body : A -> S -> S) s :
  forEach (x :: xs) body s = forEach xs body (body x s).
Proof. reflexivity. Qed.

Lemma mem_grown_linked postId U s0 s1 g :
  grown postId U s0 s1 -> NoDup (Js.keys (tags s0)) -> NoDup (Js.keys (tags s1)) ->
  In g (getTagsByPostId s0 postId) -> In g (getTagsByPostId s1 postId).
Proof.
  intros [[nt [T _]] [nr [P _]]] Hnd0 Hnd1. rewrite !getTagsByPostId_In.
  intros [k [r [Hr [Hp Hg]]]]. exists k, r. rewrite P. split; [|split].
  - apply in_or_app. now left.
  - exact Hp.
  - apply get_In_iff; [exact Hnd1|]. apply get_In_iff in Hg; [|exact Hnd0].
    rewrite T. apply in_or_app. now left.
Qed.

Lemma mem_addNew_loop postId E U s :
  wf s -> (forall u, In u U -> toLowerCase u = u) ->
  wf (forEach U (addNew postId E) s)
  /\ grown postId U s (forEach U (addNew postId E) s)
  /\ (forall u, In u U -> u <> "" -> includes E u = false ->
      exists g, In g (getTagsByPostId (forEach U (addNew postId E) s) postId)
                /\ toLowerCase (Tag.name g) = u).
Proof.
  revert s. induction U as [|u U IH]; intros s Hwf HU.
  - split; [exact Hwf|]. split; [apply mem_grown_refl | intros ? []].
  - rewrite forEach_cons.
    destruct (mem_addNew_step postId E u s Hwf (HU u (or_introl eq_refl)))
      as [Hwf1 [G1 L1]].
    destruct (IH (addNew postId E u s) Hwf1 (fun v Hv => HU v (or_intror Hv)))
      as [Hwf2 [G2 L2]].
    split; [exact Hwf2|]. split.
    + eapply mem_grown_trans; [| |exact G1|exact G2].
      * intros x [<-|[]]. now left.
      * intros x Hx. now right.
    + intros v [<-|Hv] Hne Hinc.
      * destruct (L1 Hne Hinc) as [g [Hg Hn]]. exists g. split; [|exact Hn].
        eapply mem_grown_linked; [exact G2| | |exact Hg].
        -- apply Hwf1.
        -- apply Hwf2.
      * now apply L2.
Qed.

(** *** Removing *)

Lemma removeTagFromPost_state postId tagId s :
  snd (removeTagFromPost postId tagId s)
  = withPostTags s (rmFirst postId tagId (postTags s)) (postTagId s).
Proof.
  unfold removeTagFromPost, rmFirst, Js.entries.
  destruct (Js.find _ (postTags s)) as [[k v]|]; [reflexivity|].
  destruct s; reflexivity.
Qed.

Lemma dropOld_state postId U X s :
  forEach X (dropOld postId U) s
  = withPostTags s (fold_left (dropStep postId U) X (postTags s)) (postTagId s).
Proof.
  revert s. induction X as [|e X IH]; intros s.
  - destruct s; reflexivity.
  - rewrite forEach_cons, IH. cbn [fold_left]. unfold dropOld.
    replace (dropStep postId U (postTags s) e)
      with (if negb (includes U (toLowerCase (Tag.name e)))
            then rmFirst postId (Tag.id e) (postTags s) else postTags s)
      by reflexivity.
    destruct (negb _); [|reflexivity].
    now rewrite removeTagFromPost_state.
Qed.

Section Doomed.
Variable tg : Js.Map Tag.t.
Variable postId : Z.
Variable U : list string.
Hypothesis tg_ids : forall k g, In (k, g) tg -> Tag.id g = k.

(** The removing loop takes out exactly the doomed links it was
    computed from, whatever follows them in the map. *)
Lemma drop_fold todo : forall kept tail,
  NoDup (Js.keys (kept ++ todo ++ tail)) ->
  (forall e, In e kept -> doomed tg postId U (snd e) = false) ->
  fold_left (dropStep postId U) (tagsOf tg postId todo) (kept ++ todo ++ tail)
  = kept ++ filter (fun e => negb (doomed tg postId U (snd e))) todo ++ tail.
Proof.
  induction todo as [|[k r] todo IH]; intros kept tail Hnd Hkept.
  - reflexivity.
  - assert (Hkeep : doomed tg postId U r = false ->
        fold_left (dropStep postId U) (tagsOf tg postId todo) (kept ++ (k, r) :: todo ++ tail)
        = kept ++ (k, r) :: filter (fun e => negb (doomed tg postId U (snd e))) todo ++ tail).
    { intros Hd.
      replace (kept ++ (k, r) :: todo ++ tail)
        with ((kept ++ [(k, r)]) ++ todo ++ tail)
        by (rewrite <- app_assoc; reflexivity).
      rewrite IH.
      - rewrite <- app_assoc. reflexivity.
      - rewrite <- app_assoc. exact Hnd.
      - intros e He. apply in_app_or in He.
        destruct He as [He|[<-|[]]]; [now apply Hkept | exact Hd]. }
    unfold tagsOf. simpl.
    destruct (Z.eqb_spec (PostTag.postId r) postId) as [Hp|Hp].
    2:{ assert (Hd : doomed tg postId U r = false).
        { unfold doomed. apply Z.eqb_neq in Hp. now rewrite Hp. }
        rewrite Hd. simpl. now apply Hkeep. }
    simpl. destruct (Js.get tg (PostTag.tagId r)) as [e|] eqn:Hg.
    2:{ assert (Hd : doomed tg postId U r = false).
        { unfold doomed. rewrite Hg. apply andb_false_r. }
        rewrite Hd. simpl. now apply Hkeep. }
    assert (Hid : Tag.id e = PostTag.tagId r).
    { apply tg_ids. now apply get_Some_In. }
    simpl. unfold dropStep at 2.
    destruct (includes U (toLowerCase (Tag.name e))) eqn:Hinc; simpl.
    + assert (Hd : doomed tg postId U r = false).
      { unfold doomed. rewrite Hg, Hinc. apply andb_false_r. }
      rewrite Hd. simpl. now apply Hkeep.
    + assert (Hd : doomed tg postId U r = true).
      { unfold doomed. rewrite Hg, Hinc. apply Z.eqb_eq in Hp. now rewrite Hp. }
      rewrite Hd. simpl.
      unfold rmFirst, Js.find. rewrite (find_mid _ kept (k, r)).
      * rewrite delete_mid by exact Hnd. apply IH.
        -- rewrite keys_app in Hnd |- *. simpl in Hnd.
           eapply NoDup_remove_1. exact Hnd.
        -- exact Hkept.
      * intros y Hy. specialize (Hkept y Hy). unfold doomed in Hkept.
        rewrite Hid.
        destruct (Z.eqb_spec (PostTag.postId (snd y)) postId); [|reflexivity].
        destruct (Z.eqb_spec (PostTag.tagId (snd y)) (PostTag.tagId r)) as [Et|];
          [|reflexivity].
        rewrite Et, Hg, Hinc in Hkept. discriminate.
      * simpl. rewrite Hid. apply Z.eqb_eq in Hp. now rewrite Hp, Z.eqb_refl.
Qed.
End Doomed.

(** ** What [updatePostTags] leaves linked *)

(** On a well-formed store, the tags the method leaves linked to the post
    carry, lower-cased, names of [uniqueTags]; every name of [uniqueTags]
    but the empty one is carried; and a linked tag with an empty name was
    linked before. *)
Lemma mem_updatePostTags_spec postId tagNames s :
  wf s ->
  let s2 := snd (updatePostTags postId tagNames s) in
  fst (updatePostTags postId tagNames s) = map Tag.name (getTagsByPostId s2 postId)
  /\ (forall g, In g (getTagsByPostId s2 postId) ->
                In (toLowerCase (Tag.name g)) (uniqueTags tagNames)
                /\ (Tag.name g = "" -> In g (getTagsByPostId s postId)))
  /\ (forall u, In u (uniqueTags tagNames) -> u <> "" ->
                exists g, In g (getTagsByPostId s2 postId)
                          /\ toLowerCase (Tag.name g) = u).
Proof.
  intros Hwf. rewrite mem_updatePostTags_unfold. cbv zeta. cbn [fst snd].
  split; [reflexivity|].
  set (X := getTagsByPostId s postId).
  set (E := map (fun t => toLowerCase (Tag.name t)) X).
  set (U := uniqueTags tagNames).
  destruct (mem_addNew_loop postId E U s Hwf (mem_uniqueTags_lower tagNames))
    as [Hwf1 [G1 L1]].
  set (s1 := forEach U (addNew postId E) s) in *.
  rewrite dropOld_state.
  pose proof G1 as [[nt [T1 N1]] [nr [P1 R1]]].
  assert (Hfold : fold_left (dropStep postId U) X (postTags s1)
                  = filter (fun e => negb (doomed (tags s) postId U (snd e)))
                           (postTags s) ++ nr).
  { rewrite P1.
    apply (drop_fold (tags s) postId U
             (fun k g H => proj1 (wf_tag_ids s Hwf k g H)) (postTags s) [] nr).
    - simpl. rewrite <- P1. apply Hwf1.
    - intros ? []. }
  assert (Hget1 : forall k g, In (k, g) (tags s1) <-> Js.get (tags s1) k = Some g).
  { intros k g. symmetry. apply get_In_iff. apply Hwf1. }
  assert (Hget0 : forall k g, In (k, g) (tags s) <-> Js.get (tags s) k = Some g).
  { intros k g. symmetry. apply get_In_iff. apply Hwf. }
  assert (Hup : forall k g, Js.get (tags s) k = Some g -> Js.get (tags s1) k = Some g).
  { intros k g Hg. apply Hget1. rewrite T1. apply in_or_app. left. now apply Hget0. }
  split.
  - intros g Hg. apply getTagsByPostId_In in Hg. simpl in Hg.
    destruct Hg as [k [r [Hr [Hp Hg]]]]. rewrite Hfold in Hr.
    apply in_app_or in Hr. destruct Hr as [Hr|Hr].
    + apply filter_In in Hr. destruct Hr as [Hr Hd]. simpl in Hd.
      apply negb_true_iff in Hd.
      apply Hget1 in Hg. rewrite T1 in Hg. apply in_app_or in Hg.
      destruct Hg as [Hg|Hg].
      * apply Hget0 in Hg. unfold doomed in Hd. rewrite Hg in Hd.
        apply Z.eqb_eq in Hp. rewrite Hp in Hd. simpl in Hd.
        apply negb_false_iff in Hd. split; [now apply includes_In|].
        intros _. apply getTagsByPostId_In. exists k, r.
        apply Z.eqb_eq in Hp. auto.
      * destruct (N1 _ _ Hg) as [Hn Hne].
        rewrite (mem_uniqueTags_lower tagNames _ Hn). split; [exact Hn | tauto].
    + destruct (R1 k r Hr) as [_ [g' [Hg' [Hu Hne]]]].
      apply Hget1 in Hg'. rewrite Hg in Hg'. injection Hg' as <-.
      split; [exact Hu | tauto].
  - intros u Hu Hune.
    destruct (includes E u) eqn:Hinc.
    + apply includes_In in Hinc. apply in_map_iff in Hinc.
      destruct Hinc as [e [Hn He]]. exists e. split; [|exact Hn].
      apply getTagsByPostId_In in He. destruct He as [k [r [Hr [Hp Hg]]]].
      apply getTagsByPostId_In. simpl. exists k, r. rewrite Hfold.
      split; [|split; [exact Hp | now apply Hup]].
      apply in_or_app. left. apply filter_In. split; [exact Hr|]. simpl.
      apply negb_true_iff. unfold doomed. rewrite Hg, Hn.
      replace (includes U u) with true by (symmetry; now apply includes_In).
      apply andb_false_r.
    + destruct (L1 u Hu Hune Hinc) as [g [Hg Hn]]. exists g. split; [|exact Hn].
      apply getTagsByPostId_In in Hg. destruct Hg as [k [r [Hr [Hp Hg]]]].
      apply getTagsByPostId_In. simpl. exists k, r. rewrite Hfold.
      split; [|auto]. rewrite P1 in Hr. apply in_app_or in Hr.
      apply in_or_app. destruct Hr as [Hr|Hr]; [left | now right].
      apply filter_In. split; [exact Hr|]. simpl.
      apply negb_true_iff. unfold doomed.
      destruct (Js.get (tags s) (PostTag.tagId r)) as [e'|] eqn:He';
        [|apply andb_false_r].
      apply Hup in He'. rewrite Hg in He'. injection He' as <-.
      rewrite Hn.
      replace (includes U u) with true by (symmetry; now apply includes_In).
      apply andb_false_r.
Qed.

(** For a post none of whose tags has an empty name, the names read back,
    lower-cased, are exactly the canonical names. *)
Lemma mem_updatePostTags_reads_back postId tagNames s :
  wf s ->
  (forall g, In g (getTagsByPostId s postId) -> Tag.name g <> "") ->
  forall x, In x (map toLowerCase (fst (updatePostTags postId tagNames s)))
            <-> In x (Spec.canonical tagNames).
Proof.
  intros Hwf Hne x.
  destruct (mem_updatePostTags_spec postId tagNames s Hwf) as [Eo [H1 H2]].
  rewrite Eo, map_map, in_map_iff.
  unfold Spec.canonical. rewrite nodup_In, filter_In.
  fold (uniqueTags tagNames) in *.
  assert (HU : In x (uniqueTags tagNames)
               <-> In x (map (fun t => trim (toLowerCase t)) tagNames)).
  { unfold uniqueTags. apply spreadSet_In. }
  rewrite <- HU, negb_true_iff. split.
  - intros [g [<- Hg]]. destruct (H1 g Hg) as [Hu Hold]. split; [exact Hu|].
    apply String.eqb_neq. intros Hz.
    apply (proj1 (toLowerCase_empty _)) in Hz.
    exact (Hne g (Hold Hz) Hz).
  - intros [Hu Hz]. apply String.eqb_neq in Hz.
    destruct (H2 x Hu Hz) as [g [Hg Hn]]. exists g. auto.
Qed.

(** ** Every reachable store is well formed *)

(** A store that differs in users, posts and comments only. *)
Lemma mem_wf_same_tags s s' :
  tags s' = tags s -> tagId s' = tagId s ->
  postTags s' = postTags s -> postTagId s' = postTagId s ->
  wf s -> wf s'.
Proof.
  intros T Ti P Pi [A B C D]. constructor; rewrite ?T, ?Ti, ?P, ?Pi; assumption.
Qed.

Lemma NoDup_keys_filter {V} (p : Z * V -> bool) (m : Js.Map V) :
  NoDup (Js.keys m) -> NoDup (Js.keys (filter p m)).
Proof. apply DbFacts.NoDup_map_filter. Qed.

(** Links taken out of the map leave the store well formed. *)
Lemma mem_wf_filter_postTags s (p : Z * PostTag.t -> bool) :
  wf s -> wf (withPostTags s (filter p (postTags s)) (postTagId s)).
Proof.
  intros [A B C D]. constructor; simpl; auto.
  - now apply NoDup_keys_filter.
  - intros k r Hin. apply filter_In in Hin. apply (D k r). tauto.
Qed.

Lemma mem_wf_removeTagFromPost postId tagId s :
  wf s -> wf (snd (removeTagFromPost postId tagId s)).
Proof.
  intros Hwf. rewrite removeTagFromPost_state. unfold rmFirst.
  destruct (Js.find _ (postTags s)) as [[k v]|].
  - apply (mem_wf_filter_postTags s (fun e => negb (fst e =? k)) Hwf).
  - destruct s; exact Hwf.
Qed.

Lemma mem_wf_updatePostTags postId tagNames s :
  wf s -> wf (snd (updatePostTags postId tagNames s)).
Proof.
  intros Hwf. rewrite mem_updatePostTags_unfold. cbv zeta. cbn [snd].
  apply (forEach_inv wf).
  - apply mem_addNew_loop; [exact Hwf | apply mem_uniqueTags_lower].
  - intros e s1 H1. unfold dropOld. destruct (negb _); [|exact H1].
    now apply mem_wf_removeTagFromPost.
Qed.

Lemma mem_wf_deletePost id s : wf s -> wf (snd (deletePost id s)).
Proof.
  intros Hwf. unfold deletePost. destruct (negb _); [exact Hwf|].
  cbv zeta. rewrite (forEach_delete (fun e => PostTag.postId (snd e) =? id)).
  destruct (Js.delete (posts s) id) as [ps r]. cbn [snd].
  match goal with
  | |- wf (mk _ _ _ (filter ?p _) _ _ _ _ _ _) =>
      pose proof (mem_wf_filter_postTags s p Hwf) as H
  end.
  revert H. apply mem_wf_same_tags; reflexivity.
Qed.

Lemma mem_wf_exec c s : wf s -> wf (exec c s).
Proof.
  intros Hwf. destruct c; unfold exec.
  - revert Hwf. apply mem_wf_same_tags; reflexivity.
  - unfold createPost. cbv zeta. cbn [snd].
    destruct (tagsGiven _); [apply mem_wf_updatePostTags|];
      (revert Hwf; apply mem_wf_same_tags; reflexivity).
  - unfold updatePost. destruct (Js.get (posts s) id); [|exact Hwf].
    cbv zeta. cbn [snd].
    destruct (tagsGiven _); [apply mem_wf_updatePostTags|];
      (revert Hwf; apply mem_wf_same_tags; reflexivity).
  - now apply mem_wf_deletePost.
  - now apply createTag_spec.
  - now apply mem_addTagToPost_spec.
  - now apply mem_wf_removeTagFromPost.
  - now apply mem_wf_updatePostTags.
  - revert Hwf. apply mem_wf_same_tags; reflexivity.
  - unfold updateComment. destruct (Js.get (comments s) id); [|exact Hwf].
    revert Hwf. apply mem_wf_same_tags; reflexivity.
  - unfold deleteComment.
    destruct (Js.delete (comments s) id) as [m r].
    revert Hwf. apply mem_wf_same_tags; reflexivity.
Qed.

(** The stores the methods can produce are well formed. *)
Lemma mem_reachable_wf s : reachable s -> wf s.
Proof.
  induction 1 as [|c s _ IH].
  - constructor; simpl;
      [constructor | intros ? ? [] | constructor | intros ? ? []].
  - now apply mem_wf_exec.
Qed.

(** ** No tag with an empty name *)

Lemma named_same_tags s s' : tags s' = tags s -> named s -> named s'.
Proof. unfold named. intros ->. auto. Qed.

Lemma mem_named_updatePostTags postId tagNames s :
  wf s -> named s -> named (snd (updatePostTags postId tagNames s)).
Proof.
  intros Hwf Hn. rewrite mem_updatePostTags_unfold. cbv zeta. cbn [snd].
  rewrite dropOld_state.
  destruct (mem_addNew_loop postId
              (map (fun t => toLowerCase (Tag.name t)) (getTagsByPostId s postId))
              (uniqueTags tagNames) s Hwf (mem_uniqueTags_lower tagNames))
    as [_ [[[nt [T N]] _] _]].
  intros k g Hg. simpl in Hg. rewrite T in Hg. apply in_app_or in Hg.
  destruct Hg as [Hg|Hg]; [now apply (Hn k g) | now apply (N k g)].
Qed.

Lemma mem_named_deletePost id s : named s -> named (snd (deletePost id s)).
Proof.
  intros Hn. unfold deletePost. destruct (negb _); [exact Hn|].
  cbv zeta. destruct (Js.delete (posts s) id) as [ps r]. exact Hn.
Qed.

Lemma mem_named_exec c s :
  namingCall c = true -> wf s -> named s -> named (exec c s).
Proof.
  intros Hc Hwf Hn.
  destruct c as [d|d a n|id d|id|name|pid tid|pid tid|pid names|d a n|id d|id];
    unfold exec.
  - exact Hn.
  - unfold createPost. cbv zeta. cbn [snd].
    destruct (tagsGiven _); [|exact Hn].
    apply mem_named_updatePostTags; [|exact Hn].
    revert Hwf. apply mem_wf_same_tags; reflexivity.
  - unfold updatePost. destruct (Js.get (posts s) id); [|exact Hn].
    cbv zeta. cbn [snd].
    destruct (tagsGiven _); [|exact Hn].
    apply mem_named_updatePostTags; [|exact Hn].
    revert Hwf. apply mem_wf_same_tags; reflexivity.
  - now apply mem_named_deletePost.
  - destruct (createTag_spec name s Hwf) as [E _]. rewrite E. simpl.
    intros k g Hg. apply in_app_or in Hg. destruct Hg as [Hg|[Hg|[]]].
    + now apply (Hn k g).
    + injection Hg as <- <-. simpl. simpl in Hc.
      apply negb_true_iff in Hc. now apply String.eqb_neq.
  - destruct (mem_addTagToPost_spec pid tid s Hwf) as [E _].
    rewrite E. exact Hn.
  - rewrite removeTagFromPost_state. exact Hn.
  - now apply mem_named_updatePostTags.
  - exact Hn.
  - unfold updateComment. destruct (Js.get (comments s) id); exact Hn.
  - unfold deleteComment.
    destruct (Js.delete (comments s) id) as [m r]. exact Hn.
Qed.

Lemma namedReachable_reachable s : namedReachable s -> reachable s.
Proof. induction 1; [constructor | now constructor]. Qed.

(** The stores the methods produce hold no tag with an empty name,
    unless [createTag] is called with one. *)
Lemma namedReachable_named s : namedReachable s -> named s.
Proof.
  induction 1 as [|c s Hc Hs IH].
  - intros k g [].
  - apply mem_named_exec; auto.
    now apply mem_reachable_wf, namedReachable_reachable.
Qed.

Lemma named_linked s postId g :
  named s -> In g (getTagsByPostId s postId) -> Tag.name g <> "".
Proof.
  intros Hn Hg. apply getTagsByPostId_In in Hg.
  destruct Hg as [k [r [_ [_ Hg]]]]. apply get_Some_In in Hg.
  exact (Hn _ g Hg).
Qed.

End MemFacts.

(* ===================================================================== *)
(** * Reasoning about the expiry job *)
(* ===================================================================== *)

Module SchedulerFacts.
Import Scheduler.

Section Job.
Context {St E : Type} `{IStorage St E}.

(** The loop runs up to the first rejected [deletePost] and no further. *)
Lemma deleteEach_stops pre p post s s1 e s2 :
  deletesResolve pre s s1 ->
  deletePost (Post.id p) s1 = (Throw e, s2) ->
  deleteEach (pre ++ p :: post) s
  = (Throw e, s2, resolvedTrace pre ++ [CallDeletePost (Post.id p)]).
Proof.
  revert s. induction pre as [|q pre IH]; intros s Hpre Hp; simpl in *.
  - subst s1. now rewrite Hp.
  - destruct Hpre as [b [s' [Hq Hrest]]]. rewrite Hq.
    now rewrite (IH s' Hrest Hp).
Qed.

Lemma deleteCalls_app (a b : list (event E)) :
  deleteCalls (a ++ b) = deleteCalls a ++ deleteCalls b.
Proof.
  unfold deleteCalls. induction a as [|x a IH]; simpl; [reflexivity|].
  destruct x; simpl; now rewrite ?IH.
Qed.

Lemma deleteCalls_resolvedTrace ps :
  deleteCalls (resolvedTrace (E := E) ps) = map Post.id ps.
Proof.
  induction ps as [|p ps IH]; simpl; [reflexivity|].
  unfold deleteCalls in *. simpl. now rewrite IH.
Qed.
End Job.

End SchedulerFacts.

(* ===================================================================== *)
(** * The properties of the specification *)
(* ===================================================================== *)

Lemma tagged_wf : DatabaseStorage.wf Samples.tagged.
Proof.
  constructor; simpl.
  - repeat constructor; simpl; intuition discriminate.
  - repeat constructor; simpl; lia.
  - repeat constructor; simpl; lia.
  - repeat constructor.
  - repeat constructor.
Qed.

Lemma tagged_room n : n <= 1000 -> DatabaseStorage.room n Samples.tagged.
Proof.
  intros Hn. unfold Samples.tagged.
  split; intros k Hk;
    cbn [DatabaseStorage.tagsSeq DatabaseStorage.postTagsSeq];
    unfold DatabaseStorage.int4;
    apply andb_true_iff; split; apply Z.leb_le; lia.
Qed.

Lemma tagged_room_for_three :
  DatabaseStorage.room
    (Z.of_nat (List.length (Spec.canonical ["Test"; " new "; "NEW"])))
    Samples.tagged.
Proof. apply tagged_room. vm_compute. discriminate. Qed.

Lemma taggedGoMem_namedReachable : MemStorage.namedReachable Samples.taggedGoMem.
Proof.
  change Samples.taggedGoMem
    with (MemStorage.exec
            (MemStorage.CreatePost (InsertPost.mk "Hello" "First post" ["go"]) 1 0)
            (MemStorage.exec
               (MemStorage.CreateUser
                  (InsertUser.mk "Alice" "alice@example.org" "x" None))
               MemStorage.new)).
  repeat (apply MemStorage.namedReachable_exec; [reflexivity|]).
  apply MemStorage.namedReachable_new.
Qed.

(** C1. For every post id and every sequence of tag names whose canonical
    form is not empty: when [updatePostTags] resolves on a well-formed
    database, the names of the tags then linked to the post, read back
    with [getTagsByPostId] and lower-cased, are exactly the canonical
    names; and it does resolve when the post id is a 32-bit integer and
    the sequences of [tags] and [post_tags] have room for the canonical
    names. In memory the names read back are the canonical names in every
    store the methods produce, [createTag] with an empty name apart. *)
Theorem updatePostTags_reads_back_canonical :
  forall (postId : Z) (tagNames : list string),
    Spec.canonical tagNames <> [] ->
    (forall s : DatabaseStorage.t,
        DatabaseStorage.wf s ->
        (forall out s',
            DatabaseStorage.updatePostTags postId tagNames s = (Ok out, s') ->
            exists linked,
              DatabaseStorage.getTagsByPostId postId s' = (Ok linked, s')
              /\ out = map Tag.name linked
              /\ forall x, In x (map Js.toLowerCase (map Tag.name linked))
                           <-> In x (Spec.canonical tagNames))
        /\ (DatabaseStorage.int4 postId = true ->
            DatabaseStorage.room
              (Z.of_nat (List.length (Spec.canonical tagNames))) s ->
            exists out s',
              DatabaseStorage.updatePostTags postId tagNames s = (Ok out, s')))
    /\ (forall s : MemStorage.t,
          MemStorage.namedReachable s ->
          fst (MemStorage.updatePostTags postId tagNames s)
          = map Tag.name
              (MemStorage.getTagsByPostId
                 (snd (MemStorage.updatePostTags postId tagNames s)) postId)
          /\ forall x,
               In x (map Js.toLowerCase
                         (fst (MemStorage.updatePostTags postId tagNames s)))
               <-> In x (Spec.canonical tagNames)).
Proof.
  intros postId tagNames _. split.
  - intros s Hwf. split.
    + intros out s' E.
      destruct (DbFacts.updatePostTags_after postId tagNames s out s' Hwf E)
        as [Hpid [-> [_ [H1 H2]]]].
      exists (DatabaseStorage.linkedTags s' postId).
      split; [now apply DbFacts.getTagsByPostId_linked|].
      split; [reflexivity|].
      intros x. rewrite <- DbFacts.uniqueTags_canonical, map_map, in_map_iff.
      split.
      * intros [g [<- Hg]]. now apply H1.
      * intros Hx. destruct (H2 x Hx) as [g [Hg Hn]]. exists g. auto.
    + intros Hpid Hroom. rewrite <- DbFacts.uniqueTags_length in Hroom.
      now apply DbFacts.updatePostTags_resolves.
  - intros s Hs.
    pose proof (MemFacts.mem_reachable_wf s
                  (MemFacts.namedReachable_reachable s Hs)) as Hwf.
    pose proof (MemFacts.namedReachable_named s Hs) as Hn.
    split.
    + apply (MemFacts.mem_updatePostTags_spec postId tagNames s Hwf).
    + apply MemFacts.mem_updatePostTags_reads_back; [exact Hwf|].
      intros g. now apply MemFacts.named_linked.
Qed.

Lemma updatePostTags_reads_back_canonical_witness :
  (exists out s',
      DatabaseStorage.updatePostTags 1 ["Test"; " new "; "NEW"] Samples.tagged
      = (Ok out, s')
      /\ exists linked,
           DatabaseStorage.getTagsByPostId 1 s' = (Ok linked, s')
           /\ out = map Tag.name linked
           /\ forall x, In x (map Js.toLowerCase (map Tag.name linked))
                        <-> In x (Spec.canonical ["Test"; " new "; "NEW"]))
  /\ forall x,
       In x (map Js.toLowerCase
                 (fst (MemStorage.updatePostTags 1 ["Test"; " new "; "NEW"]
                         Samples.taggedGoMem)))
       <-> In x (Spec.canonical ["Test"; " new "; "NEW"]).
Proof.
  destruct (updatePostTags_reads_back_canonical 1 ["Test"; " new "; "NEW"])
    as [Hdb Hmem].
  - discriminate.
  - split.
    + destruct (Hdb Samples.tagged tagged_wf) as [Hafter Hres].
      destruct (Hres eq_refl tagged_room_for_three) as [out [s' E]].
      exists out, s'. split; [exact E|]. exact (Hafter out s' E).
    + exact (proj2 (Hmem Samples.taggedGoMem taggedGoMem_namedReachable)).
Defined.

(** C2. On a well-formed database, a second [updatePostTags] with the same
    post id and names settles as the first call did and leaves the whole
    database, and so the rows of [post_tags], as the first call left it:
    nothing is added and nothing is removed. This is so when the first
    call resolves, which it does when the post id is a 32-bit integer and
    the sequences of [tags] and [post_tags] have room for the canonical
    names, and also when the first call is rejected. *)
Theorem updatePostTags_twice_is_noop :
  forall (s : DatabaseStorage.t) (postId : Z) (tagNames : list string),
    DatabaseStorage.wf s ->
    exists r s1,
      DatabaseStorage.updatePostTags postId tagNames s = (r, s1)
      /\ DatabaseStorage.updatePostTags postId tagNames s1 = (r, s1)
      /\ (DatabaseStorage.int4 postId = true ->
          DatabaseStorage.room
            (Z.of_nat (List.length (Spec.canonical tagNames))) s ->
          exists out, r = Ok out).
Proof.
  intros s postId tagNames Hwf.
  destruct (DatabaseStorage.updatePostTags postId tagNames s) as [r s1] eqn:E.
  exists r, s1. split; [reflexivity|]. split.
  - now apply (DbFacts.updatePostTags_again postId tagNames s).
  - intros Hpid Hroom. rewrite <- DbFacts.uniqueTags_length in Hroom.
    destruct (DbFacts.updatePostTags_resolves postId tagNames s Hwf Hpid Hroom)
      as [out [s2 E2]].
    rewrite E in E2. injection E2 as -> _. now exists out.
Qed.

Lemma updatePostTags_twice_is_noop_witness :
  exists r s1,
    DatabaseStorage.updatePostTags 1 ["a"; "B"] Samples.tagged = (r, s1)
    /\ DatabaseStorage.updatePostTags 1 ["a"; "B"] s1 = (r, s1)
    /\ (DatabaseStorage.int4 1 = true ->
        DatabaseStorage.room
          (Z.of_nat (List.length (Spec.canonical ["a"; "B"]))) Samples.tagged ->
        exists out, r = Ok out).
Proof.
  apply (updatePostTags_twice_is_noop Samples.tagged 1 ["a"; "B"]).
  exact tagged_wf.
Defined.

(** C3, as the specification states it, fails: with two expired posts and
    a [deletePost] that rejects for the first, the job logs the error and
    never hands the second post to [deletePost]. *)
Lemma sweep_failure_skips_rest_of_batch :
  fst (Scheduler.getPostsOlderThan Samples.utc Samples.twoDaysOn 24%Q
         Samples.flaky)
  = Ok [Samples.oldPost1; Samples.oldPost2]
  /\ fst (Scheduler.deletePost 1 Samples.flaky)
     = Throw Scheduler.Flaky.ConnectionLost
  /\ fst (Scheduler.job Samples.utc Samples.twoDaysOn Samples.flaky)
     = [Scheduler.LogRunning; Scheduler.LogFound 2;
        Scheduler.CallDeletePost 1;
        Scheduler.ErrorInJob Scheduler.Flaky.ConnectionLost]
  /\ Scheduler.deleteCalls
       (fst (Scheduler.job Samples.utc Samples.twoDaysOn Samples.flaky)) = [1].
Proof.
  vm_compute. repeat split.
Qed.

(** C3, amended. In a run of the expiry job, if [deletePost] rejects for a
    post of the batch after the posts before it were deleted, the error is
    logged once, at the end of the run; the posts handed to [deletePost]
    are those up to and including the failing one, and no later post of
    the batch is handed to it. *)
Theorem sweep_stops_at_first_failure :
  forall (St E : Type) (I : Scheduler.IStorage St E) (zone : Js.Zone) (now : Z)
         (s s0 s1 s2 : St) (pre post : list Post.t) (p : Post.t) (e : E),
    Scheduler.getPostsOlderThan zone now 24%Q s = (Ok (pre ++ p :: post), s0) ->
    Scheduler.deletesResolve pre s0 s1 ->
    Scheduler.deletePost (Post.id p) s1 = (Throw e, s2) ->
    Scheduler.job zone now s
    = (Scheduler.LogRunning
         :: Scheduler.LogFound (Z.of_nat (List.length (pre ++ p :: post)))
         :: Scheduler.resolvedTrace pre
         ++ [Scheduler.CallDeletePost (Post.id p); Scheduler.ErrorInJob e],
       s2)
    /\ Scheduler.deleteCalls (fst (Scheduler.job zone now s))
       = map Post.id pre ++ [Post.id p].
Proof.
  intros St E I zone now s s0 s1 s2 pre post p e Hold Hpre Hp.
  assert (Hjob : Scheduler.job zone now s
    = (Scheduler.LogRunning
         :: Scheduler.LogFound (Z.of_nat (List.length (pre ++ p :: post)))
         :: Scheduler.resolvedTrace pre
         ++ [Scheduler.CallDeletePost (Post.id p); Scheduler.ErrorInJob e],
       s2)).
  { unfold Scheduler.job, Scheduler.tryBlock. rewrite Hold.
    replace (Z.of_nat (List.length (pre ++ p :: post)) >? 0) with true.
    2:{ symmetry. apply Z.gtb_lt. rewrite length_app. simpl. lia. }
    rewrite (SchedulerFacts.deleteEach_stops pre p post s0 s1 e s2 Hpre Hp).
    simpl. now rewrite <- app_assoc. }
  split; [exact Hjob|].
  rewrite Hjob. simpl.
  change (Scheduler.LogRunning :: Scheduler.LogFound ?n :: ?r)
    with ([Scheduler.LogRunning; Scheduler.LogFound n] ++ r).
  rewrite !SchedulerFacts.deleteCalls_app,
    SchedulerFacts.deleteCalls_resolvedTrace.
  reflexivity.
Qed.

Lemma flakySecond_expired :
  Scheduler.getPostsOlderThan Samples.utc Samples.twoDaysOn 24%Q
    Samples.flakySecond
  = (Ok ([Samples.oldPost1] ++ Samples.oldPost2 :: [Samples.oldPost3]),
     Samples.flakySecond).
Proof. vm_compute. reflexivity. Qed.

Lemma flakySecond_first_resolves :
  Scheduler.deletesResolve [Samples.oldPost1] Samples.flakySecond
    Samples.flakySecondAfterFirst.
Proof.
  exists true, Samples.flakySecondAfterFirst. split; vm_compute; reflexivity.
Qed.

Lemma flakySecond_second_rejects :
  Scheduler.deletePost (Post.id Samples.oldPost2) Samples.flakySecondAfterFirst
  = (Throw Scheduler.Flaky.ConnectionLost, Samples.flakySecondAfterFirst).
Proof. vm_compute. reflexivity. Qed.

Lemma sweep_stops_at_first_failure_witness :
  Scheduler.job Samples.utc Samples.twoDaysOn Samples.flakySecond
  = (Scheduler.LogRunning
       :: Scheduler.LogFound
            (Z.of_nat (List.length ([Samples.oldPost1]
                                    ++ Samples.oldPost2 :: [Samples.oldPost3])))
       :: Scheduler.resolvedTrace [Samples.oldPost1]
       ++ [Scheduler.CallDeletePost (Post.id Samples.oldPost2);
           Scheduler.ErrorInJob Scheduler.Flaky.ConnectionLost],
     Samples.flakySecondAfterFirst)
  /\ Scheduler.deleteCalls
       (fst (Scheduler.job Samples.utc Samples.twoDaysOn Samples.flakySecond))
     = map Post.id [Samples.oldPost1] ++ [Post.id Samples.oldPost2].
Proof.
  apply (sweep_stops_at_first_failure _ _ Scheduler.Flaky.storage
           Samples.utc Samples.twoDaysOn Samples.flakySecond Samples.flakySecond
           Samples.flakySecondAfterFirst Samples.flakySecondAfterFirst
           [Samples.oldPost1] [Samples.oldPost3] Samples.oldPost2
           Scheduler.Flaky.ConnectionLost).
  - exact flakySecond_expired.
  - exact flakySecond_first_resolves.
  - exact flakySecond_second_rejects.
Defined.

(** C4, as the specification states it, fails: a post linked to two tags
    loses both when [updatePostTags] is given only empty and blank names. *)
Lemma updatePostTags_blank_names_clear_tags :
  Spec.canonical [""; "   "] = []
  /\ DatabaseStorage.linkedTags Samples.tagged 1
     = [Tag.mk 1 "api"; Tag.mk 2 "test"]
  /\ fst (DatabaseStorage.updatePostTags 1 [""; "   "] Samples.tagged) = Ok []
  /\ DatabaseStorage.postTags
       (snd (DatabaseStorage.updatePostTags 1 [""; "   "] Samples.tagged)) = []
  /\ fst (MemStorage.updatePostTags 1 [""; "   "] Samples.taggedGoMem) = [].
Proof.
  vm_compute. repeat split.
Qed.

(** C4, amended. [updatePostTags] with names whose canonical form is empty
    returns no names and leaves no tag linked to the post: on a
    well-formed database for a post id that is a 32-bit integer, and in
    memory on a well-formed store for a post none of whose tags has an
    empty name. *)
Theorem updatePostTags_empty_canonical_unlinks :
  forall (postId : Z) (tagNames : list string),
    Spec.canonical tagNames = [] ->
    (forall s : DatabaseStorage.t,
        DatabaseStorage.wf s ->
        DatabaseStorage.int4 postId = true ->
        exists s',
          DatabaseStorage.updatePostTags postId tagNames s = (Ok [], s')
          /\ DatabaseStorage.getTagsByPostId postId s' = (Ok [], s'))
    /\ (forall s : MemStorage.t,
           MemStorage.wf s ->
           (forall g, In g (MemStorage.getTagsByPostId s postId) ->
                      Tag.name g <> "") ->
           fst (MemStorage.updatePostTags postId tagNames s) = []
           /\ MemStorage.getTagsByPostId
                (snd (MemStorage.updatePostTags postId tagNames s)) postId = []).
Proof.
  intros postId tagNames Hc. split.
  - intros s Hwf Hpid.
    assert (Hroom : DatabaseStorage.room
                      (Z.of_nat (List.length
                                   (DatabaseStorage.uniqueTags tagNames))) s).
    { rewrite DbFacts.uniqueTags_length, Hc. split; intros k Hk; simpl in Hk; lia. }
    destruct (DbFacts.updatePostTags_spec postId tagNames s Hwf Hpid Hroom)
      as [s2 [E [_ [H1 _]]]].
    assert (Hnone : DatabaseStorage.linkedTags s2 postId = []).
    { destruct (DatabaseStorage.linkedTags s2 postId) as [|g l]; [reflexivity|].
      specialize (H1 g (or_introl eq_refl)).
      apply DbFacts.uniqueTags_canonical in H1. rewrite Hc in H1. destruct H1. }
    exists s2. rewrite E, (DbFacts.getTagsByPostId_linked _ _ Hpid), Hnone.
    split; reflexivity.
  - intros s Hwf Hne.
    pose proof (MemFacts.mem_updatePostTags_reads_back postId tagNames s Hwf Hne)
      as Hrb.
    destruct (MemFacts.mem_updatePostTags_spec postId tagNames s Hwf)
      as [Eo _].
    assert (Hout : fst (MemStorage.updatePostTags postId tagNames s) = []).
    { destruct (fst (MemStorage.updatePostTags postId tagNames s)) as [|x l];
        [reflexivity|].
      specialize (Hrb (Js.toLowerCase x)). rewrite Hc in Hrb.
      destruct (proj1 Hrb (or_introl eq_refl)). }
    split; [exact Hout|].
    rewrite Hout in Eo. symmetry in Eo. now apply map_eq_nil in Eo.
Qed.

Lemma taggedGoMem_wf : MemStorage.wf Samples.taggedGoMem.
Proof.
  constructor; simpl.
  - repeat constructor; simpl; tauto.
  - intros k g [E|[]]. injection E as <- <-. simpl. lia.
  - repeat constructor; simpl; tauto.
  - intros k r [E|[]]. injection E as <- <-. lia.
Qed.

Lemma taggedGoMem_blankless :
  forall g, In g (MemStorage.getTagsByPostId Samples.taggedGoMem 1) ->
            Tag.name g <> "".
Proof. intros g [<-|[]]. discriminate. Qed.

Lemma updatePostTags_empty_canonical_unlinks_witness :
  (exists s',
      DatabaseStorage.updatePostTags 1 [" "; ""] Samples.tagged = (Ok [], s')
      /\ DatabaseStorage.getTagsByPostId 1 s' = (Ok [], s'))
  /\ fst (MemStorage.updatePostTags 1 [" "; ""] Samples.taggedGoMem) = []
  /\ MemStorage.getTagsByPostId
       (snd (MemStorage.updatePostTags 1 [" "; ""] Samples.taggedGoMem)) 1 = [].
Proof.
  destruct (updatePostTags_empty_canonical_unlinks 1 [" "; ""] eq_refl)
    as [Hdb Hmem].
  split.
  - exact (Hdb Samples.tagged tagged_wf eq_refl).
  - exact (Hmem Samples.taggedGoMem taggedGoMem_wf taggedGoMem_blankless).
Defined.

(** C5 fails on [MemStorage]: [addTagToPost] called twice with the same
    post and tag on a new store leaves two rows with the same pair, where
    [DatabaseStorage] keeps one. *)
Theorem MemStorage_addTagToPost_repeats_pair :
  let s1 := snd (MemStorage.addTagToPost 1 1 MemStorage.new) in
  let s2 := snd (MemStorage.addTagToPost 1 1 s1) in
  Js.values (MemStorage.postTags s1) = [PostTag.mk 1 1 1]
  /\ Js.values (MemStorage.postTags s2) = [PostTag.mk 1 1 1; PostTag.mk 2 1 1]
  /\ (let d1 := snd (DatabaseStorage.addTagToPost 1 1 DatabaseStorage.new) in
      DatabaseStorage.postTags d1 = [PostTag.mk 1 1 1]
      /\ DatabaseStorage.addTagToPost 1 1 d1 = (Ok (PostTag.mk 1 1 1), d1)).
Proof.
  vm_compute. repeat split.
Qed.

(** C6 fails on [DatabaseStorage]: with a tag stored as [go] and linked to
    a post, the query [Go] returns no post, while the query [go] returns
    the post, as does [MemStorage] for both. *)
Theorem DatabaseStorage_getPostsByTag_is_case_sensitive :
  fst (DatabaseStorage.getPostsByTag "Go" Samples.taggedGo) = Ok []
  /\ (exists d, fst (DatabaseStorage.getPostsByTag "go" Samples.taggedGo) = Ok [d]
                /\ Post.id (PostWithDetails.post d) = 1)
  /\ fst (DatabaseStorage.getTagByName "Go" Samples.taggedGo)
     = Ok (Some (Tag.mk 1 "go"))
  /\ MemStorage.getPostsByTag Samples.taggedGoMem "Go"
     = MemStorage.getPostsByTag Samples.taggedGoMem "go"
  /\ (exists d, MemStorage.getPostsByTag Samples.taggedGoMem "Go" = [d]
                /\ Post.id (PostWithDetails.post d) = 1).
Proof.
  split; [reflexivity|]. split; [eexists; split; reflexivity|].
  split; [reflexivity|]. split; [reflexivity|].
  eexists; split; reflexivity.
Qed.






(** C9. [updatePost] changes only the title and the body, and each only
    when it is supplied and not empty: the post keeps its id, author and
    creation instant, an absent or empty title (body) leaves the stored
    one, and every other post is untouched. On the database the rows of
    [posts] after the call are, in some order, the rows before it so
    changed, for an id that is a 32-bit integer; for any other id
    [updatePost] is rejected and writes nothing. *)
Theorem updatePost_changes_only_supplied_fields :
  forall (id : Z) (d : PartialInsertPost.t),
    (forall (s : MemStorage.t) (post : Post.t),
        Js.get (MemStorage.posts s) id = Some post ->
        exists post',
          fst (MemStorage.updatePost id d s) = Some post'
          /\ Js.get (MemStorage.posts (snd (MemStorage.updatePost id d s))) id
             = Some post'
          /\ Spec.patched d post post'
          /\ forall k, k <> id ->
               Js.get (MemStorage.posts (snd (MemStorage.updatePost id d s))) k
               = Js.get (MemStorage.posts s) k)
    /\ (forall s : DatabaseStorage.t,
           (DatabaseStorage.int4 id = true ->
            exists rows,
              Permutation rows
                (DatabaseStorage.posts (snd (DatabaseStorage.updatePost id d s)))
              /\ Forall2 (fun old new =>
                            if Post.id old =? id then Spec.patched d old new
                            else new = old)
                         (DatabaseStorage.posts s) rows)
           /\ (DatabaseStorage.int4 id = false ->
               DatabaseStorage.updatePost id d s
               = (Throw DatabaseStorage.NotInt4, s))).
Proof.
  intros id d. split.
  - intros s post. apply MemFacts.mem_updatePost_spec.
  - intros s. split.
    + intros Hid. destruct (DbFacts.updatePost_spec id d s Hid) as [F P].
      eexists. split; [exact P | exact F].
    + apply DbFacts.updatePost_rejects.
Qed.

(** C10, as the specification states it, fails: [per_page=0] parses, and
    clamped into 1..100 it would be 1, but the handler serves pages of 20. *)
Lemma per_page_zero_serves_twenty :
  Routes.parseParam (Some "0") = Some 0
  /\ Spec.claimedPerPage (Routes.mkQuery None (Some "0")) = 1
  /\ Routes.perPageOf (Routes.mkQuery None (Some "0")) = 20
  /\ Routes.posts (Routes.getApiPosts (Routes.mkQuery None (Some "0")) [1; 2; 3])
     = [1; 2; 3].
Proof.
  vm_compute. repeat split.
Qed.

(** C10, amended. For every [GET /api/posts] request the page is the
    parsed [page] clamped below to 1 (1 when absent or unparseable); the
    page size is the parsed [per_page] clamped into 1..100, and 20 when it
    is absent, unparseable or zero; the response holds exactly the slice of
    the full list that starts at index (page - 1) * page size and has at
    most page-size elements, and [total_count] is the length of the full
    list. *)
Theorem getApiPosts_paginates :
  forall (A : Type) (q : Routes.Query) (allPosts : list A),
    let page := Spec.claimedPage q in
    let perPage :=
      match Routes.parseParam (Routes.per_page q) with
      | Some v => if v =? 0 then 20 else Spec.clamp 1 100 v
      | None => 20
      end in
    let r := Routes.getApiPosts q allPosts in
    Routes.pageOf q = page
    /\ Routes.perPageOf q = perPage
    /\ 1 <= page /\ 1 <= perPage <= 100
    /\ Routes.posts r
       = firstn (Z.to_nat perPage)
                (skipn (Z.to_nat ((page - 1) * perPage)) allPosts)
    /\ (List.length (Routes.posts r) <= Z.to_nat perPage)%nat
    /\ Routes.current_page (Routes.meta r) = page
    /\ Routes.total_count (Routes.meta r) = Z.of_nat (List.length allPosts).
Proof.
  intros A q allPosts page perPage r.
  assert (Hpage : Routes.pageOf q = page).
  { unfold Routes.pageOf, page, Spec.claimedPage, Js.orElse.
    destruct (Routes.parseParam (Routes.page q)) as [v|]; [|reflexivity].
    destruct (Z.eqb_spec v 0); [subst; reflexivity | reflexivity]. }
  assert (Hper : Routes.perPageOf q = perPage).
  { unfold Routes.perPageOf, perPage, Spec.clamp, Js.orElse.
    destruct (Routes.parseParam (Routes.per_page q)) as [v|]; [|reflexivity].
    destruct (v =? 0); reflexivity. }
  assert (H1 : 1 <= page).
  { unfold page, Spec.claimedPage.
    destruct (Routes.parseParam (Routes.page q)); lia. }
  assert (H2 : 1 <= perPage <= 100).
  { unfold perPage, Spec.clamp.
    destruct (Routes.parseParam (Routes.per_page q)) as [v|]; [|lia].
    destruct (v =? 0); lia. }
  assert (Hposts : Routes.posts r
       = firstn (Z.to_nat perPage)
                (skipn (Z.to_nat ((page - 1) * perPage)) allPosts)).
  { unfold r, Routes.getApiPosts. cbv zeta. cbn [Routes.posts].
    rewrite Hpage, Hper. apply JsFacts.slice_firstn_skipn; nia. }
  split; [exact Hpage|]. split; [exact Hper|]. split; [exact H1|].
  split; [exact H2|]. split; [exact Hposts|].
  split; [rewrite Hposts; apply firstn_le_length|].
  split; [exact Hpage | reflexivity].
Qed.

(* ===================================================================== *)
(** * Further properties of the two storages *)
(* ===================================================================== *)

(** X1. In every database the methods can produce, [updatePostTags] for a
    post id that is a 32-bit integer, with room in the sequences of
    [tags] and [post_tags] for the canonical names, resolves, and the
    names of the tags then linked to the post, read back with
    [getTagsByPostId] and lower-cased, are exactly the canonical names.
    For a post id that is no 32-bit integer it is rejected and writes
    nothing; and it is rejected for no other reason than such an id or an
    exhausted sequence. *)
Theorem DatabaseStorage_updatePostTags_resolves_or_rejects :
  forall (s : DatabaseStorage.t) (postId : Z) (tagNames : list string),
    DatabaseStorage.reachable s ->
    (DatabaseStorage.int4 postId = true ->
     DatabaseStorage.room
       (Z.of_nat (List.length (Spec.canonical tagNames))) s ->
     exists out s' linked,
       DatabaseStorage.updatePostTags postId tagNames s = (Ok out, s')
       /\ DatabaseStorage.getTagsByPostId postId s' = (Ok linked, s')
       /\ out = map Tag.name linked
       /\ forall x, In x (map Js.toLowerCase (map Tag.name linked))
                    <-> In x (Spec.canonical tagNames))
    /\ (DatabaseStorage.int4 postId = false ->
        DatabaseStorage.updatePostTags postId tagNames s
        = (Throw DatabaseStorage.NotInt4, s))
    /\ (forall e s',
          DatabaseStorage.updatePostTags postId tagNames s = (Throw e, s') ->
          e = DatabaseStorage.NotInt4
          \/ e = DatabaseStorage.SequenceExhausted "tags"
          \/ e = DatabaseStorage.SequenceExhausted "post_tags").
Proof.
  intros s postId tagNames Hs.
  pose proof (DbFacts.reachable_wf s Hs) as Hwf.
  split; [|split].
  - intros Hpid Hroom. rewrite <- DbFacts.uniqueTags_length in Hroom.
    destruct (DbFacts.updatePostTags_spec postId tagNames s Hwf Hpid Hroom)
      as [s2 [E [_ [H1 H2]]]].
    exists (map Tag.name (DatabaseStorage.linkedTags s2 postId)), s2,
           (DatabaseStorage.linkedTags s2 postId).
    split; [exact E|].
    split; [now apply DbFacts.getTagsByPostId_linked|].
    split; [reflexivity|].
    intros x. rewrite <- DbFacts.uniqueTags_canonical, map_map, in_map_iff.
    split.
    + intros [g [<- Hg]]. now apply H1.
    + intros Hx. destruct (H2 x Hx) as [g [Hg Hn]]. exists g. auto.
  - apply DbFacts.updatePostTags_rejects.
  - intros e s' E.
    destruct (DbFacts.updatePostTags_errors postId tagNames s e s' Hwf E)
      as [[-> _]|[_ [[->| ->] _]]]; auto.
Qed.

Lemma DatabaseStorage_updatePostTags_resolves_or_rejects_witness :
  let s := DatabaseStorage.exec (DatabaseStorage.UpdatePostTags 1 ["api"])
             DatabaseStorage.new in
  (DatabaseStorage.int4 1 = true ->
   DatabaseStorage.room
     (Z.of_nat (List.length (Spec.canonical ["Test"; " new "; "NEW"]))) s ->
   exists out s' linked,
     DatabaseStorage.updatePostTags 1 ["Test"; " new "; "NEW"] s = (Ok out, s')
     /\ DatabaseStorage.getTagsByPostId 1 s' = (Ok linked, s')
     /\ out = map Tag.name linked
     /\ forall x, In x (map Js.toLowerCase (map Tag.name linked))
                  <-> In x (Spec.canonical ["Test"; " new "; "NEW"]))
  /\ (DatabaseStorage.int4 1 = false ->
      DatabaseStorage.updatePostTags 1 ["Test"; " new "; "NEW"] s
      = (Throw DatabaseStorage.NotInt4, s))
  /\ (forall e s',
        DatabaseStorage.updatePostTags 1 ["Test"; " new "; "NEW"] s
        = (Throw e, s') ->
        e = DatabaseStorage.NotInt4
        \/ e = DatabaseStorage.SequenceExhausted "tags"
        \/ e = DatabaseStorage.SequenceExhausted "post_tags").
Proof.
  apply (DatabaseStorage_updatePostTags_resolves_or_rejects
           (DatabaseStorage.exec (DatabaseStorage.UpdatePostTags 1 ["api"])
              DatabaseStorage.new)
           1 ["Test"; " new "; "NEW"]).
  apply DatabaseStorage.reachable_exec. apply DatabaseStorage.reachable_new.
Defined.

(** X2. In every database the methods can produce, no two rows of
    [post_tags] carry the same (postId, tagId) pair, and [addTagToPost] on
    a pair that is stored resolves with the stored row and writes nothing. *)
Theorem DatabaseStorage_postTag_pairs_unique :
  forall s : DatabaseStorage.t,
    DatabaseStorage.reachable s ->
    DatabaseStorage.pairsUnique s
    /\ forall postId tagId,
         (exists r, In r (DatabaseStorage.postTags s)
                    /\ DatabaseStorage.pairOf r = (postId, tagId)) ->
         exists r, DatabaseStorage.addTagToPost postId tagId s = (Ok r, s)
                   /\ In r (DatabaseStorage.postTags s)
                   /\ DatabaseStorage.pairOf r = (postId, tagId).
Proof.
  intros s Hs. split.
  - now apply DbFacts.reachable_pairsUnique.
  - intros postId tagId. apply DbFacts.addTagToPost_existing.
    now apply DbFacts.reachable_wf.
Qed.

Lemma DatabaseStorage_postTag_pairs_unique_witness :
  let s := DatabaseStorage.exec (DatabaseStorage.AddTagToPost 1 1)
             DatabaseStorage.new in
  DatabaseStorage.pairsUnique s
  /\ forall postId tagId,
       (exists r, In r (DatabaseStorage.postTags s)
                  /\ DatabaseStorage.pairOf r = (postId, tagId)) ->
       exists r, DatabaseStorage.addTagToPost postId tagId s = (Ok r, s)
                 /\ In r (DatabaseStorage.postTags s)
                 /\ DatabaseStorage.pairOf r = (postId, tagId).
Proof.
  apply (DatabaseStorage_postTag_pairs_unique
           (DatabaseStorage.exec (DatabaseStorage.AddTagToPost 1 1)
              DatabaseStorage.new)).
  apply DatabaseStorage.reachable_exec. apply DatabaseStorage.reachable_new.
Defined.

(** X3. In memory [getPostsByTag] resolves the tag name whatever its letter
    case, and a name that matches no tag gives the empty list. *)
Theorem MemStorage_getPostsByTag_ignores_case :
  forall (s : MemStorage.t) (a b : string),
    Js.toLowerCase a = Js.toLowerCase b ->
    MemStorage.getPostsByTag s a = MemStorage.getPostsByTag s b
    /\ (MemStorage.getTagByName s a = None -> MemStorage.getPostsByTag s a = []).
Proof.
  intros s a b H. split.
  - now apply MemFacts.getPostsByTag_case.
  - intros Hn. unfold MemStorage.getPostsByTag. now rewrite Hn.
Qed.

Lemma MemStorage_getPostsByTag_ignores_case_witness :
  MemStorage.getPostsByTag Samples.taggedGoMem "GO"
  = MemStorage.getPostsByTag Samples.taggedGoMem "go"
  /\ (MemStorage.getTagByName Samples.taggedGoMem "GO" = None ->
      MemStorage.getPostsByTag Samples.taggedGoMem "GO" = []).
Proof.
  apply (MemStorage_getPostsByTag_ignores_case Samples.taggedGoMem "GO" "go").
  reflexivity.
Defined.

(* ===================================================================== *)
(** * More facts about the JavaScript values *)
(* ===================================================================== *)

Module JsMore.
Import Js JsFacts.

Lemma trimStart_idem s : trimStart (trimStart s) = trimStart s.
Proof.
  induction s as [|c r IH]; simpl; [reflexivity|].
  destruct (isSpace c) eqn:E; [exact IH|]. simpl. now rewrite E.
Qed.

Lemma trimEnd_idem s : trimEnd (trimEnd s) = trimEnd s.
Proof.
  induction s as [|c r IH]; simpl; [reflexivity|].
  destruct (trimEnd r) as [|c' r'] eqn:E.
  - destruct (isSpace c) eqn:Ec; simpl; [reflexivity|]. now rewrite Ec.
  - simpl in *. now rewrite IH.
Qed.

Lemma trimStart_trimEnd s : trimStart (trimEnd s) = trimEnd (trimStart s).
Proof.
  induction s as [|c r IH]; simpl; [reflexivity|].
  destruct (isSpace c) eqn:Ec.
  - rewrite <- IH. destruct (trimEnd r) as [|c' r']; simpl; [reflexivity|].
    now rewrite Ec.
  - simpl. destruct (trimEnd r) as [|c' r']; simpl; now rewrite Ec.
Qed.

(** Trimming twice trims once. *)
Lemma trim_idem s : trim (trim s) = trim s.
Proof.
  unfold trim. now rewrite trimStart_trimEnd, trimEnd_idem, trimStart_idem.
Qed.

(** What [updatePostTags] makes of a name is normalized for good. *)
Lemma normalize_idem t :
  trim (toLowerCase (trim (toLowerCase t))) = trim (toLowerCase t).
Proof. now rewrite normalized_lower, trim_idem. Qed.

Lemma trim_empty_lower t : trim (toLowerCase t) = "" <-> trim t = "".
Proof.
  rewrite <- toLowerCase_trim. apply toLowerCase_empty.
Qed.

Lemma filter_filter {A} (p q : A -> bool) l :
  filter p (filter q l) = filter (fun x => q x && p x) l.
Proof.
  induction l as [|x r IH]; simpl; [reflexivity|].
  destruct (q x); simpl; [destruct (p x)|]; now rewrite ?IH.
Qed.

Lemma filter_all {A} (p : A -> bool) l :
  (forall x, In x l -> p x = true) -> filter p l = l.
Proof.
  induction l as [|x r IH]; simpl; intros H; [reflexivity|].
  rewrite (H x (or_introl eq_refl)). f_equal. apply IH. auto.
Qed.

Lemma filter_none {A} (p : A -> bool) l :
  (forall x, In x l -> p x = false) -> filter p l = [].
Proof.
  induction l as [|x r IH]; simpl; intros H; [reflexivity|].
  rewrite (H x (or_introl eq_refl)). apply IH. auto.
Qed.

(** Cutting a list into consecutive pieces of [p] elements and joining
    them gives the list back, once the pieces reach its end. *)
Lemma chunks_concat {A} (p : nat) : forall (T : nat) (l : list A),
  (0 < p)%nat -> (List.length l <= T * p)%nat ->
  List.concat (map (fun k => firstn p (skipn (k * p) l)) (seq 0 T)) = l.
Proof.
  induction T as [|T IH]; intros l Hp Hl.
  - simpl in *. destruct l; [reflexivity | simpl in Hl; lia].
  - change (seq 0 (S T)) with (0%nat :: seq 1 T). rewrite <- seq_shift.
    cbn [map List.concat]. rewrite map_map.
    transitivity (firstn p l ++ skipn p l); [|apply firstn_skipn].
    cbn [Nat.mul skipn]. f_equal.
    rewrite <- (IH (skipn p l) Hp) at 1.
    2:{ rewrite length_skipn. simpl in Hl. lia. }
    f_equal. apply map_ext. intros k.
    rewrite skipn_skipn. f_equal. f_equal. simpl. lia.
Qed.

End JsMore.

(* ===================================================================== *)
(** * More facts about [DatabaseStorage] *)
(* ===================================================================== *)

Module DbMore.
Import Js JsFacts JsMore DatabaseStorage DbFacts.
Local Open Scope db_scope.

Lemma existsb_false_inv {A} (p : A -> bool) l :
  existsb p l = false -> forall y, In y l -> p y = false.
Proof.
  intros H y Hy. destruct (p y) eqn:E; [|reflexivity].
  assert (Ht : existsb p l = true) by (apply existsb_exists; eauto).
  congruence.
Qed.

Lemma filter_snoc_only {A} (p : A -> bool) l x :
  existsb p l = false -> p x = true -> filter p (l ++ [x]) = [x].
Proof.
  intros Hl Hx. rewrite filter_app. simpl. rewrite Hx.
  rewrite (filter_none p l); [reflexivity|]. now apply existsb_false_inv.
Qed.

Lemma filter_snoc_skip {A} (p : A -> bool) l x :
  p x = false -> filter p (l ++ [x]) = filter p l.
Proof.
  intros Hx. rewrite filter_app. simpl. rewrite Hx. apply app_nil_r.
Qed.

Lemma fresh_id_absent {A} (f : A -> Z) n l :
  Forall (fun x => f x < n) l -> existsb (fun x => f x =? n) l = false.
Proof.
  intros H. apply existsb_false. rewrite Forall_forall in H.
  intros x Hx. specialize (H x Hx). apply Z.eqb_neq. lia.
Qed.

(** ** Users *)

Lemma createUser_stores d s :
  Forall (fun u => User.id u < usersSeq s) (users s) ->
  int4 (usersSeq s) = true ->
  (forall u, In u (users s) -> User.email u <> InsertUser.email d) ->
  let user := User.mk (usersSeq s) (InsertUser.name d) (InsertUser.email d)
                      (InsertUser.password d) (InsertUser.image d) in
  exists s',
    createUser d s = (Ok user, s')
    /\ users s' = users s ++ [user]
    /\ getUser (usersSeq s) s' = (Ok (Some user), s')
    /\ getUserByEmail (InsertUser.email d) s' = (Ok (Some user), s').
Proof.
  intros Hk Hq Hne user. unfold createUser, insertUser. rewrite Hq. simpl.
  rewrite (fresh_id_absent User.id _ _ Hk).
  rewrite existsb_false.
  2:{ intros u Hu. apply String.eqb_neq. now apply Hne. }
  eexists. split; [reflexivity|]. simpl. split; [reflexivity|].
  unfold getUser, getUserByEmail.
  rewrite query_fits by (now apply fits1).
  rewrite query_fits by reflexivity. simpl. split.
  - rewrite filter_snoc_only; [reflexivity| |simpl; apply Z.eqb_refl].
    now apply (fresh_id_absent User.id).
  - rewrite filter_snoc_only; [reflexivity| |simpl; apply String.eqb_refl].
    apply existsb_false. intros u Hu. apply String.eqb_neq. now apply Hne.
Qed.

Lemma createUser_exhausted d s :
  int4 (usersSeq s) = false ->
  createUser d s = (Throw (SequenceExhausted "users"), s).
Proof. intros H. unfold createUser, insertUser. now rewrite H. Qed.

Lemma createUser_rejects d s :
  (exists u, In u (users s) /\ User.email u = InsertUser.email d) ->
  exists e s',
    createUser d s = (Throw e, s')
    /\ users s' = users s
    /\ (e = PrimaryKey "users" \/ e = Unique "users" "email"
        \/ e = SequenceExhausted "users").
Proof.
  intros [u [Hu He]]. unfold createUser, insertUser.
  destruct (int4 (usersSeq s)); simpl.
  2:{ eexists. eexists. split; [reflexivity|]. auto. }
  destruct (existsb (fun u0 => User.id u0 =? usersSeq s) (users s)).
  - eexists. eexists. split; [reflexivity|]. simpl. auto.
  - replace (existsb _ (users s)) with true.
    + eexists. eexists. split; [reflexivity|]. simpl. auto.
    + symmetry. apply existsb_exists. exists u. split; [exact Hu|].
      now apply String.eqb_eq.
Qed.

(** ** Comments *)

Lemma createComment_stores d authorId now s c s' :
  createComment d authorId now s = (Ok c, s') ->
  c = Comment.mk (commentsSeq s) (InsertComment.body d) authorId
                 (InsertComment.postId d) now
  /\ comments s' = comments s ++ [c]
  /\ getComment (Comment.id c) s' = (Ok (Some c), s')
  /\ (forall k, k <> Comment.id c ->
        fst (getComment k s') = fst (getComment k s))
  /\ posts s' = posts s /\ users s' = users s.
Proof.
  unfold createComment, insertComment, bound, throw.
  destruct (forallb int4 _); [|discriminate].
  destruct (int4 (commentsSeq s)) eqn:Hq; simpl; [|discriminate].
  destruct (existsb _ (comments s)) eqn:E; [discriminate|].
  intros [= <- <-]. simpl. split; [reflexivity|]. split; [reflexivity|].
  unfold getComment. split; [|split; [|split; reflexivity]].
  - rewrite query_fits by (now apply fits1). simpl.
    rewrite filter_snoc_only; [reflexivity|exact E|simpl; apply Z.eqb_refl].
  - intros k Hk. unfold query, bound, throw.
    destruct (forallb int4 [k]); [|reflexivity]. simpl.
    rewrite filter_snoc_skip; [reflexivity|].
    simpl. apply Z.eqb_neq. congruence.
Qed.

Lemma createComment_resolves d authorId now s :
  Forall (fun c => Comment.id c < commentsSeq s) (comments s) ->
  int4 authorId = true -> int4 (InsertComment.postId d) = true ->
  int4 (commentsSeq s) = true ->
  exists c s', createComment d authorId now s = (Ok c, s').
Proof.
  intros H Ha Hp Hq. unfold createComment, insertComment.
  rewrite bound_fits by (now apply fits2). rewrite Hq. simpl.
  rewrite (fresh_id_absent Comment.id _ _ H). eauto.
Qed.

Lemma createComment_rejects d authorId now s :
  int4 authorId = false \/ int4 (InsertComment.postId d) = false ->
  createComment d authorId now s = (Throw NotInt4, s).
Proof.
  intros H. unfold createComment, insertComment.
  apply bound_rejects. simpl.
  destruct H as [-> | ->]; [reflexivity | apply andb_false_r].
Qed.

Lemma createComment_exhausted d authorId now s :
  int4 authorId = true -> int4 (InsertComment.postId d) = true ->
  int4 (commentsSeq s) = false ->
  createComment d authorId now s = (Throw (SequenceExhausted "comments"), s).
Proof.
  intros Ha Hp Hq. unfold createComment, insertComment.
  rewrite bound_fits by (now apply fits2). now rewrite Hq.
Qed.

Lemma patched_comment_mk d c :
  CommentUpdate.patched d c
    (match fieldSet (PartialInsertComment.body d) with
     | Some b => Comment.mk (Comment.id c) b (Comment.authorId c)
                            (Comment.postId c) (Comment.createdAt c)
     | None => c
     end).
Proof.
  unfold CommentUpdate.patched, fieldSet, truthy.
  destruct (PartialInsertComment.body d) as [v|]; [|tauto].
  destruct (v =? "")%string; simpl; tauto.
Qed.

Lemma updateComment_rejects id d s :
  int4 id = false -> updateComment id d s = (Throw NotInt4, s).
Proof.
  intros H. unfold updateComment.
  destruct (fieldSet (PartialInsertComment.body d));
    unfold bind, updateComments, getComment, query;
    rewrite bound_rejects by (now apply misfits1); reflexivity.
Qed.

(** The comments after the call are, in some order, the comments before
    it with the body of those with the id set. *)
Lemma updateComment_spec id d s :
  int4 id = true ->
  exists rows,
    Permutation rows (comments (snd (updateComment id d s)))
    /\ Forall2 (fun old new =>
                  if Comment.id old =? id then CommentUpdate.patched d old new
                  else new = old)
               (comments s) rows.
Proof.
  intros Hid. unfold updateComment.
  pose proof (fun c => patched_comment_mk d c) as Hp.
  destruct (fieldSet (PartialInsertComment.body d)) as [b|].
  - unfold bind, updateComments. rewrite bound_fits by (now apply fits1).
    simpl. eexists. split; [apply updated_in_place|].
    apply Forall2_map_pointwise. intros c.
    destruct (Comment.id c =? id); [apply Hp | reflexivity].
  - unfold getComment. rewrite query_fits by (now apply fits1). simpl.
    exists (comments s). split; [apply Permutation_refl|].
    rewrite <- (map_id (comments s)) at 2.
    apply Forall2_map_pointwise. intros c.
    destruct (Comment.id c =? id); [apply Hp | reflexivity].
Qed.

Lemma deleteComment_rejects id s :
  int4 id = false -> deleteComment id s = (Throw NotInt4, s).
Proof.
  intros H. unfold deleteComment, bind, deleteComments.
  rewrite bound_rejects by (now apply misfits1). reflexivity.
Qed.

Lemma deleteComment_spec id s :
  int4 id = true ->
  exists b s',
    deleteComment id s = (Ok b, s')
    /\ comments s' = filter (fun c => negb (Comment.id c =? id)) (comments s)
    /\ (b = true <-> exists c, In c (comments s) /\ Comment.id c = id)
    /\ getComment id s' = (Ok None, s').
Proof.
  intros Hid. unfold deleteComment, bind, deleteComments, ret.
  rewrite bound_fits by (now apply fits1). simpl.
  eexists. eexists. split; [reflexivity|]. simpl. split; [reflexivity|].
  split.
  - split.
    + destruct (filter _ (comments s)) as [|c l] eqn:F; [discriminate|].
      intros _. assert (Hin : In c (filter (fun c => Comment.id c =? id) (comments s)))
        by (rewrite F; now left).
      apply filter_In in Hin. exists c. split; [tauto|]. now apply Z.eqb_eq.
    + intros [c [Hin Hid']].
      assert (Hf : In c (filter (fun c => Comment.id c =? id) (comments s))).
      { apply filter_In. split; [exact Hin | now apply Z.eqb_eq]. }
      destruct (filter _ (comments s)); [destruct Hf | reflexivity].
  - unfold getComment. rewrite query_fits by (now apply fits1). simpl.
    rewrite filter_filter.
    rewrite filter_none; [reflexivity|].
    intros c _. destruct (Comment.id c =? id); reflexivity.
Qed.

(** ** Links *)

Lemma removeTagFromPost_rejects postId tagId s :
  int4 postId = false \/ int4 tagId = false ->
  removeTagFromPost postId tagId s = (Throw NotInt4, s).
Proof.
  intros H. unfold removeTagFromPost, bind, deletePostTags.
  rewrite bound_rejects; [reflexivity|]. simpl.
  destruct H as [-> | ->]; [reflexivity | apply andb_false_r].
Qed.

Lemma removeTagFromPost_spec postId tagId s :
  int4 postId = true -> int4 tagId = true ->
  exists b s',
    removeTagFromPost postId tagId s = (Ok b, s')
    /\ postTags s'
       = filter (fun r => negb ((PostTag.postId r =? postId)
                                && (PostTag.tagId r =? tagId))) (postTags s)
    /\ tags s' = tags s
    /\ (b = true <->
        exists r, In r (postTags s) /\ pairOf r = (postId, tagId))
    /\ (forall g, In g (linkedTags s' postId) -> Tag.id g <> tagId)
    /\ (forall q g, q <> postId \/ Tag.id g <> tagId ->
          (In g (linkedTags s' q) <-> In g (linkedTags s q))).
Proof.
  intros Hfit1 Hfit2. rewrite removeTagFromPost_fits by assumption.
  eexists. eexists. split; [reflexivity|]. simpl.
  split; [reflexivity|]. split; [reflexivity|]. split; [|split].
  - split.
    + destruct (filter _ (postTags s)) as [|r l] eqn:F; [discriminate|].
      intros _.
      assert (Hin : In r (filter (fun r => (PostTag.postId r =? postId)
                                          && (PostTag.tagId r =? tagId))
                                 (postTags s))) by (rewrite F; now left).
      apply filter_In in Hin. destruct Hin as [Hin Hc].
      apply andb_true_iff in Hc. destruct Hc as [H1 H2].
      apply Z.eqb_eq in H1, H2. exists r. unfold pairOf. split; congruence.
    + intros [r [Hin Hp]]. unfold pairOf in Hp. injection Hp as H1 H2.
      assert (Hf : In r (filter (fun r => (PostTag.postId r =? postId)
                                         && (PostTag.tagId r =? tagId))
                                (postTags s))).
      { apply filter_In. split; [exact Hin|]. subst. now rewrite !Z.eqb_refl. }
      destruct (filter _ (postTags s)); [destruct Hf | reflexivity].
  - intros g Hg. apply linkedTags_In in Hg. simpl in Hg.
    destruct Hg as [_ [r [Hr [Hid Hp]]]]. apply filter_In in Hr.
    destruct Hr as [_ Hc]. apply negb_true_iff, andb_false_iff in Hc.
    rewrite !Z.eqb_neq in Hc. intros E. destruct Hc; congruence.
  - intros q g Hor. rewrite !linkedTags_In. simpl. split.
    + intros [Hg [r [Hr Hl]]]. apply filter_In in Hr.
      split; [exact Hg|]. exists r. tauto.
    + intros [Hg [r [Hr [Hid Hp]]]]. split; [exact Hg|]. exists r.
      split; [|auto]. apply filter_In. split; [exact Hr|].
      apply negb_true_iff, andb_false_iff. rewrite !Z.eqb_neq.
      destruct Hor; [left | right]; congruence.
Qed.

(** ** Reading a post *)

Lemma hd_error_map {A B} (f : A -> B) l :
  hd_error (map f l) = option_map f (hd_error l).
Proof. destruct l; reflexivity. Qed.

Lemma getPost_rejects id s :
  int4 id = false -> getPost id s = (Throw NotInt4, s).
Proof.
  intros H. unfold getPost, bind at 1, query at 1.
  rewrite bound_rejects by (now apply misfits1). reflexivity.
Qed.

(** On a database whose author ids fit their column, [getPost] for an id
    that is a 32-bit integer resolves with the details of the post. *)
Lemma getPost_details id s :
  keyed s -> int4 id = true -> getPost id s = (Ok (postDetails s id), s).
Proof.
  intros K Hid. unfold getPost, postDetails, bind.
  rewrite query_fits by (now apply fits1).
  destruct (hd_error (filter _ (posts s))) as [post|] eqn:Fp; [|reflexivity].
  assert (Ha : int4 (Post.authorId post) = true).
  { apply hd_error_filter_Some in Fp. destruct Fp as [Hin _].
    pose proof (keyed_post_range s K) as F. rewrite Forall_forall in F.
    now apply F. }
  rewrite query_fits by (now apply fits1).
  rewrite hd_error_map.
  destruct (hd_error (filter _ (users s))) as [u|]; [|reflexivity].
  simpl. rewrite (getTagsByPostId_linked _ _ Hid).
  rewrite query_fits by (now apply fits1). reflexivity.
Qed.

Lemma postsWithDetails_details ids s :
  keyed s -> Forall (fun k => int4 k = true) ids ->
  postsWithDetails ids s = (Ok (collect (postDetails s) ids), s).
Proof.
  intros K. induction ids as [|id r IH]; intros F; simpl; [reflexivity|].
  inversion F as [|? ? Hid Hr]; subst.
  unfold bind. rewrite (getPost_details id s K Hid), (IH Hr).
  destruct (postDetails s id); reflexivity.
Qed.

Lemma postDetails_Some s id d :
  postDetails s id = Some d ->
  In (PostWithDetails.post d) (posts s)
  /\ Post.id (PostWithDetails.post d) = id
  /\ Author.id (PostWithDetails.author d) = Post.authorId (PostWithDetails.post d)
  /\ (exists u, In u (users s) /\ User.id u = Author.id (PostWithDetails.author d)
                /\ User.name u = Author.name (PostWithDetails.author d))
  /\ PostWithDetails.tags d = map Tag.name (linkedTags s id).
Proof.
  unfold postDetails.
  destruct (hd_error (filter _ (posts s))) as [post|] eqn:Fp; [|discriminate].
  destruct (hd_error (filter _ (users s))) as [u|] eqn:Fu; [|discriminate].
  intros [= <-]. simpl.
  apply hd_error_filter_Some in Fp, Fu.
  destruct Fp as [Hp Hid], Fu as [Hu Ha]. apply Z.eqb_eq in Hid, Ha.
  repeat split; auto. exists u. auto.
Qed.

Lemma postDetails_None_iff s id :
  postDetails s id = None <->
  (forall p, In p (posts s) -> Post.id p <> id)
  \/ (exists post,
        hd_error (filter (fun p => Post.id p =? id) (posts s)) = Some post
        /\ forall u, In u (users s) -> User.id u <> Post.authorId post).
Proof.
  unfold postDetails.
  destruct (hd_error (filter _ (posts s))) as [post|] eqn:Fp.
  - destruct (hd_error (filter _ (users s))) as [u|] eqn:Fu.
    + apply hd_error_filter_Some in Fu. destruct Fu as [Hu Ha].
      apply Z.eqb_eq in Ha. apply hd_error_filter_Some in Fp.
      destruct Fp as [Hp Hid]. apply Z.eqb_eq in Hid.
      split; [discriminate|]. intros [H|[post' [[= <-] H]]].
      * exfalso. exact (H post Hp Hid).
      * exfalso. exact (H u Hu Ha).
    + split; [|reflexivity]. intros _. right. exists post. split; [reflexivity|].
      intros u Hu. apply Z.eqb_neq. exact (hd_error_filter_None _ _ Fu u Hu).
  - split; [|reflexivity]. intros _. left. intros p Hp. apply Z.eqb_neq.
    exact (hd_error_filter_None _ _ Fp p Hp).
Qed.

(** ** Deleting, then reading *)

Lemma deletePost_then_details id s k d :
  int4 id = true ->
  postDetails (snd (deletePost id s)) k = Some d ->
  Post.id (PostWithDetails.post d) <> id /\ k <> id.
Proof.
  intros Hfit.
  destruct (deletePost_spec id s Hfit) as [b [s' [E [_ [_ [Hp _]]]]]].
  rewrite E. simpl. intros Hd. apply postDetails_Some in Hd.
  destruct Hd as [Hin [Hid _]]. rewrite Hp in Hin. apply filter_In in Hin.
  destruct Hin as [_ Hn]. apply negb_true_iff, Z.eqb_neq in Hn.
  split; congruence.
Qed.

(** ** Tables [updatePostTags] does not write *)

Lemma sameOthers_refl s : sameOthers s s.
Proof. unfold sameOthers. tauto. Qed.

Lemma sameOthers_trans s1 s2 s3 :
  sameOthers s1 s2 -> sameOthers s2 s3 -> sameOthers s1 s3.
Proof. unfold sameOthers. intuition congruence. Qed.

Lemma sameOthers_insertTag n : steps sameOthers (insertTag n).
Proof. stmt; unfold sameOthers; simpl; tauto. Qed.
Lemma sameOthers_insertPostTag a b : steps sameOthers (insertPostTag a b).
Proof. stmt; unfold sameOthers; simpl; tauto. Qed.
Lemma sameOthers_deletePostTags ps p : steps sameOthers (deletePostTags ps p).
Proof. stmt; unfold sameOthers; simpl; tauto. Qed.

#[local] Hint Resolve sameOthers_insertTag sameOthers_insertPostTag
  sameOthers_deletePostTags : db.

Lemma sameOthers_updatePostTags postId names :
  steps sameOthers (updatePostTags postId names).
Proof.
  unfold updatePostTags, getTagsByPostId, removeTagFromPost, addTagToPost,
    getTagByName, createTag.
  steps_split sameOthers_refl sameOthers_trans.
Qed.

(** ** Ids are drawn from the sequences *)

Section Keyed.
Let R := keeps keyed.

Lemma Forall_snoc_lt {A} (f : A -> Z) n l x :
  Forall (fun x => f x < n) l -> f x = n ->
  Forall (fun x => f x < n + 1) (l ++ [x]).
Proof.
  intros H E. apply Forall_app. split; [now apply (Forall_lt_succ f)|].
  constructor; [lia | constructor].
Qed.

Lemma NoDup_snoc_fresh {A} (f : A -> Z) n l x :
  NoDup (map f l) -> Forall (fun x => f x < n) l -> f x = n ->
  NoDup (map f (l ++ [x])).
Proof.
  intros N H E. rewrite map_app. simpl. apply NoDup_snoc; [exact N|].
  intros Hin. apply in_map_iff in Hin. destruct Hin as [y [Hy Hin]].
  rewrite Forall_forall in H. specialize (H y Hin). lia.
Qed.

Ltac keyed_with tac :=
  stmt; intros [A B C D E F G]; constructor; simpl; try assumption;
    try (apply Forall_snoc; [assumption | simpl; auto]); tac.

Lemma keyed_insertUser d : steps R (insertUser d).
Proof.
  keyed_with ltac:(try (now apply (Forall_lt_succ User.id));
                   try (now apply (Forall_snoc_lt User.id))).
Qed.
Lemma keyed_insertPost a b c d : steps R (insertPost a b c d).
Proof.
  keyed_with ltac:(try (now apply (Forall_lt_succ Post.id));
                   try (now apply (Forall_snoc_lt Post.id));
                   try (now apply (NoDup_snoc_fresh Post.id (postsSeq s)))).
Qed.
Lemma keyed_insertTag n : steps R (insertTag n).
Proof. keyed_with idtac. Qed.
Lemma keyed_insertPostTag a b : steps R (insertPostTag a b).
Proof. keyed_with idtac. Qed.
Lemma keyed_insertComment a b c d : steps R (insertComment a b c d).
Proof.
  keyed_with ltac:(try (now apply (Forall_lt_succ Comment.id));
                   try (now apply (Forall_snoc_lt Comment.id))).
Qed.

Lemma keyed_deleteComments ps p : steps R (deleteComments ps p).
Proof. keyed_with ltac:(now apply Forall_filter). Qed.
Lemma keyed_deletePostTags ps p : steps R (deletePostTags ps p).
Proof. keyed_with idtac. Qed.
Lemma keyed_deletePosts ps p : steps R (deletePosts ps p).
Proof.
  keyed_with ltac:(first [now apply Forall_filter | now apply NoDup_map_filter]).
Qed.

Lemma Forall_updated {A} (P : A -> Prop) (p : A -> bool) (f : A -> A) l :
  (forall x, P x -> P (f x)) ->
  Forall P l ->
  Forall P (filter (fun r => negb (p r)) l ++ map f (filter p l)).
Proof.
  intros H F. apply Forall_app. split; [now apply Forall_filter|].
  rewrite Forall_forall in *. intros y Hy.
  apply in_map_iff in Hy. destruct Hy as [x [<- Hx]].
  apply filter_In in Hx. apply H, F. tauto.
Qed.

Lemma NoDup_updated {A} (key : A -> Z) (p : A -> bool) (f : A -> A) l :
  (forall x, key (f x) = key x) ->
  NoDup (map key l) ->
  NoDup (map key (filter (fun r => negb (p r)) l ++ map f (filter p l))).
Proof.
  intros H N.
  apply (Permutation_NoDup
           (l := map key (map (fun r => if p r then f r else r) l))).
  - apply Permutation_map, updated_in_place.
  - rewrite map_map. erewrite map_ext; [exact N|].
    intros x. simpl. destruct (p x); auto.
Qed.

Lemma keyed_updatePosts ps p f :
  (forall x, Post.id (f x) = Post.id x) ->
  (forall x, Post.authorId (f x) = Post.authorId x) ->
  steps R (updatePosts ps p f).
Proof.
  intros H H'.
  keyed_with ltac:(first [ apply Forall_updated; [|assumption];
                           intros x; rewrite ?H, ?H'; tauto
                         | now apply (NoDup_updated Post.id) ]).
Qed.
Lemma keyed_updateComments ps p f :
  (forall x, Comment.id (f x) = Comment.id x) ->
  (forall x, Comment.authorId (f x) = Comment.authorId x) ->
  (forall x, Comment.postId (f x) = Comment.postId x) ->
  steps R (updateComments ps p f).
Proof.
  intros H H' H''.
  keyed_with ltac:(apply Forall_updated; [|assumption];
                   intros x; rewrite ?H, ?H', ?H''; tauto).
Qed.

#[local] Hint Resolve keyed_insertUser keyed_insertPost keyed_insertTag
  keyed_insertPostTag keyed_insertComment keyed_deleteComments
  keyed_deletePostTags keyed_deletePosts : db.
#[local] Hint Extern 1 (steps _ (updatePosts _ _ _)) =>
  apply keyed_updatePosts; intros; reflexivity : db.
#[local] Hint Extern 1 (steps _ (updateComments _ _ _)) =>
  apply keyed_updateComments; intros; reflexivity : db.

Lemma keyed_exec c s : keyed s -> keyed (exec c s).
Proof.
  destruct c; unfold exec;
    match goal with
    | |- _ -> keyed (snd (?m s)) =>
        cut (steps R m); [intros H; exact (H s)|]
    end;
    unfold createUser, createPost, updatePost, deletePost, createTag,
      removeTagFromPost, createComment, updateComment, getComment,
      deleteComment, addTagToPost, updatePostTags, getTagsByPostId,
      getTagByName, removeTagFromPost, addTagToPost, createTag;
    steps_split (keeps_refl keyed) (keeps_trans keyed).
Qed.
End Keyed.

Lemma reachable_keyed s : reachable s -> keyed s.
Proof.
  induction 1 as [|c s _ IH].
  - constructor; constructor.
  - now apply keyed_exec.
Qed.

Lemma keyed_user_fits s u : keyed s -> In u (users s) -> int4 (User.id u) = true.
Proof.
  intros K Hu. pose proof (keyed_user_range s K) as F.
  rewrite Forall_forall in F. now apply F.
Qed.

Lemma keyed_post_fits s p : keyed s -> In p (posts s) -> int4 (Post.id p) = true.
Proof.
  intros K Hp. pose proof (keyed_post_range s K) as F.
  rewrite Forall_forall in F. now apply F.
Qed.

(** ** [updatePostTags] on a well-formed database *)

Lemma room_canonical names s :
  room (Z.of_nat (List.length (Spec.canonical names))) s ->
  room (Z.of_nat (List.length (uniqueTags names))) s.
Proof. now rewrite uniqueTags_length. Qed.

Lemma updatePostTags_full postId names s :
  wf s -> int4 postId = true ->
  room (Z.of_nat (List.length (Spec.canonical names))) s ->
  exists s',
    updatePostTags postId names s
    = (Ok (map Tag.name (linkedTags s' postId)), s')
    /\ wf s' /\ sameOthers s s'
    /\ forall x, In x (map toLowerCase (map Tag.name (linkedTags s' postId)))
                 <-> In x (Spec.canonical names).
Proof.
  intros W Hid Hroom.
  destruct (updatePostTags_spec postId names s W Hid (room_canonical _ _ Hroom))
    as [s2 [E [W2 [H1 H2]]]].
  exists s2. split; [exact E|]. split; [exact W2|split].
  - pose proof (sameOthers_updatePostTags postId names s) as S.
    now rewrite E in S.
  - intros x. rewrite <- uniqueTags_canonical, map_map. split.
    + intros Hin. apply in_map_iff in Hin. destruct Hin as [g [<- Hg]]. auto.
    + intros Hin. destruct (H2 x Hin) as [g [Hg <-]].
      apply in_map_iff. exists g. auto.
Qed.

(** ** Creating a post *)

Lemma createPost_rejects d authorId now s :
  int4 authorId = false -> createPost d authorId now s = (Throw NotInt4, s).
Proof.
  intros H. unfold createPost, bind, insertPost.
  rewrite bound_rejects by (now apply misfits1). reflexivity.
Qed.

Lemma createPost_exhausted d authorId now s :
  int4 authorId = true -> int4 (postsSeq s) = false ->
  createPost d authorId now s = (Throw (SequenceExhausted "posts"), s).
Proof.
  intros Ha Hq. unfold createPost, bind, insertPost.
  rewrite bound_fits by (now apply fits1). now rewrite Hq.
Qed.

Lemma createPost_spec d authorId now s :
  wf s -> Forall (fun p => Post.id p < postsSeq s) (posts s) ->
  int4 authorId = true -> int4 (postsSeq s) = true ->
  room (Z.of_nat (List.length (Spec.canonical (InsertPost.tags d)))) s ->
  let post := Post.mk (postsSeq s) (InsertPost.title d) (InsertPost.body d)
                      authorId now in
  exists s',
    createPost d authorId now s = (Ok post, s')
    /\ wf s'
    /\ posts s' = posts s ++ [post]
    /\ users s' = users s /\ comments s' = comments s
    /\ postsSeq s' = postsSeq s + 1
    /\ (InsertPost.tags d <> [] ->
        forall x,
          In x (map toLowerCase (map Tag.name (linkedTags s' (postsSeq s))))
          <-> In x (Spec.canonical (InsertPost.tags d))).
Proof.
  intros W K Ha Hq Hroom post. unfold createPost, bind, insertPost.
  rewrite bound_fits by (now apply fits1). rewrite Hq. simpl.
  rewrite (fresh_id_absent Post.id _ _ K).
  set (s1 := mk _ (posts s ++ [_]) _ _ _ _ _ _ _ _).
  assert (W1 : wf s1) by (destruct W; constructor; assumption).
  destruct (InsertPost.tags d) as [|x r] eqn:Et; simpl.
  - exists s1. unfold ret. splits; try reflexivity; try assumption.
    intros C. now destruct C.
  - destruct (updatePostTags_full (postsSeq s) (x :: r) s1 W1 Hq Hroom)
      as [s2 [E [W2 [[Hu [Hp [Hc Hq']]] Hl]]]].
    rewrite E. unfold ret. exists s2. splits; try assumption; try reflexivity.
    intros _. exact Hl.
Qed.

Lemma hd_error_filter_ex {A} (p : A -> bool) l x :
  In x l -> p x = true ->
  exists y, hd_error (filter p l) = Some y /\ In y l /\ p y = true.
Proof.
  intros Hin Hp.
  destruct (hd_error (filter p l)) as [y|] eqn:F.
  - exists y. apply hd_error_filter_Some in F. tauto.
  - pose proof (hd_error_filter_None _ _ F x Hin). congruence.
Qed.

Lemma postApiPosts_created d u now s :
  wf s -> keyed s ->
  In u (users s) ->
  int4 (postsSeq s) = true ->
  room (Z.of_nat (List.length (Spec.canonical (InsertPost.tags d)))) s ->
  exists pd s',
    Handlers.postApiPosts d (Some u) now s = (Handlers.Created pd, s')
    /\ PostWithDetails.post pd
       = Post.mk (postsSeq s) (InsertPost.title d) (InsertPost.body d)
                 (User.id u) now
    /\ Author.id (PostWithDetails.author pd) = User.id u
    /\ posts s' = posts s ++ [PostWithDetails.post pd]
    /\ getPost (postsSeq s) s' = (Ok (Some pd), s')
    /\ (InsertPost.tags d <> [] ->
        forall x, In x (map toLowerCase (PostWithDetails.tags pd))
                  <-> In x (Spec.canonical (InsertPost.tags d))).
Proof.
  intros W K Hu Hq Hroom.
  pose proof (keyed_posts s K) as Kp.
  pose proof (keyed_exec (CreatePost d (User.id u) now) s K) as K'.
  destruct (createPost_spec d (User.id u) now s W Kp
              (keyed_user_fits s u K Hu) Hq Hroom)
    as [s' [E [W' [Hp [Hus [Hc [Hq' Ht]]]]]]].
  simpl in K'. rewrite E in K'. simpl in K'.
  unfold Handlers.postApiPosts. rewrite E. simpl Post.id.
  rewrite (getPost_details _ _ K' Hq).
  assert (Hd : exists pd, postDetails s' (postsSeq s) = Some pd
             /\ PostWithDetails.post pd
                = Post.mk (postsSeq s) (InsertPost.title d) (InsertPost.body d)
                          (User.id u) now
             /\ Author.id (PostWithDetails.author pd) = User.id u
             /\ PostWithDetails.tags pd
                = map Tag.name (linkedTags s' (postsSeq s))).
  { unfold postDetails. rewrite Hp, Hus.
    rewrite filter_snoc_only;
      [| now apply (fresh_id_absent Post.id) | simpl; apply Z.eqb_refl].
    simpl hd_error. cbv iota. simpl Post.authorId.
    destruct (hd_error_filter_ex (fun u0 => User.id u0 =? User.id u)
                (users s) u Hu (Z.eqb_refl _)) as [y [Fy [_ Hy]]].
    rewrite Fy. eexists. split; [reflexivity|]. simpl.
    apply Z.eqb_eq in Hy. auto. }
  destruct Hd as [pd [Ed [Hpost [Hauth Htags]]]].
  rewrite Ed. exists pd, s'. splits; auto.
  - now rewrite Hpost.
  - now rewrite (getPost_details _ _ K' Hq), Ed.
  - rewrite Htags. exact Ht.
Qed.

(** ** Registration *)

Lemma registerUser_unfold email pw name image s :
  Handlers.registerUser email pw name image s
  = match hd_error (filter (fun u => (User.email u =? email)%string) (users s)) with
    | Some _ => (Ok (inl "Email already in use"), s)
    | None =>
        match createUser (InsertUser.mk name email pw image) s with
        | (Ok user, s') => (Ok (inr user), s')
        | (Throw e, s') => (Throw e, s')
        end
    end.
Proof.
  unfold Handlers.registerUser, bind, getUserByEmail.
  rewrite query_fits by reflexivity.
  destruct (hd_error _); reflexivity.
Qed.

Lemma registerUser_taken email pw name image s :
  (exists u, In u (users s) /\ User.email u = email) ->
  Handlers.registerUser email pw name image s
  = (Ok (inl "Email already in use"), s).
Proof.
  intros [u [Hin He]]. rewrite registerUser_unfold.
  destruct (hd_error_filter_ex (fun u0 => (User.email u0 =? email)%string)
              (users s) u Hin) as [y [Fy _]].
  { apply String.eqb_eq. exact He. }
  now rewrite Fy.
Qed.

Lemma registerUser_fresh email pw name image s :
  Forall (fun u => User.id u < usersSeq s) (users s) ->
  int4 (usersSeq s) = true ->
  (forall u, In u (users s) -> User.email u <> email) ->
  let user := User.mk (usersSeq s) name email pw image in
  exists s',
    Handlers.registerUser email pw name image s = (Ok (inr user), s')
    /\ users s' = users s ++ [user]
    /\ getUser (usersSeq s) s' = (Ok (Some user), s')
    /\ getUserByEmail email s' = (Ok (Some user), s')
    /\ Handlers.registerUser email pw name image s'
       = (Ok (inl "Email already in use"), s').
Proof.
  intros K Hq F user.
  destruct (createUser_stores (InsertUser.mk name email pw image) s K Hq F)
    as [s' [E [Hu [Hg He]]]].
  exists s'. rewrite registerUser_unfold, filter_none.
  2:{ intros u Hin. apply String.eqb_neq. now apply F. }
  simpl hd_error. cbv iota. rewrite E. splits; auto.
  apply registerUser_taken. exists user. rewrite Hu. split; [|reflexivity].
  apply in_or_app. right. now left.
Qed.

Lemma registerUser_exhausted email pw name image s :
  int4 (usersSeq s) = false ->
  (forall u, In u (users s) -> User.email u <> email) ->
  Handlers.registerUser email pw name image s
  = (Throw (SequenceExhausted "users"), s).
Proof.
  intros Hq F. rewrite registerUser_unfold, filter_none.
  2:{ intros u Hin. apply String.eqb_neq. now apply F. }
  simpl hd_error. cbv iota. now rewrite createUser_exhausted.
Qed.

(** ** [updatePost] and the tags *)

Lemma updatePost_no_fields id d s :
  int4 id = true ->
  fieldSet (PartialInsertPost.title d) = None ->
  fieldSet (PartialInsertPost.body d) = None ->
  updatePost id d s
  = (Ok (hd_error (filter (fun p => Post.id p =? id) (posts s))), s).
Proof.
  intros Hid Ht Hb. unfold updatePost. rewrite Ht, Hb.
  now rewrite query_fits by (now apply fits1).
Qed.

Lemma updatePost_with_tags id d s x r :
  wf s -> int4 id = true ->
  room (Z.of_nat (List.length (Spec.canonical (x :: r)))) s ->
  fieldSet (PartialInsertPost.title d) <> None
  \/ fieldSet (PartialInsertPost.body d) <> None ->
  (exists p, In p (posts s) /\ Post.id p = id) ->
  PartialInsertPost.tags d = Some (x :: r) ->
  exists p' s',
    updatePost id d s = (Ok (Some p'), s')
    /\ (exists p0, In p0 (posts s) /\ Post.id p0 = id /\ Spec.patched d p0 p')
    /\ forall y, In y (map toLowerCase (map Tag.name (linkedTags s' id)))
                 <-> In y (Spec.canonical (x :: r)).
Proof.
  intros W Hfit Hroom Hf [p [Hin Hid]] Ht. unfold updatePost.
  set (f := fun p0 : Post.t => Post.mk _ _ _ _ _).
  assert (E : forall (k : M (option Post.t)),
             (match fieldSet (PartialInsertPost.title d),
                    fieldSet (PartialInsertPost.body d) with
              | None, None => k
              | _, _ =>
                  updated <- updatePosts [id] (fun p => Post.id p =? id) f ;;
                  match updated with
                  | [] => ret None
                  | updatedPost :: _ =>
                      match tagsGiven (PartialInsertPost.tags d) with
                      | Some tags => updatePostTags id tags ;;; ret (Some updatedPost)
                      | None => ret (Some updatedPost)
                      end
                  end
              end) s
             = (updated <- updatePosts [id] (fun p => Post.id p =? id) f ;;
                match updated with
                | [] => ret None
                | updatedPost :: _ =>
                    match tagsGiven (PartialInsertPost.tags d) with
                    | Some tags => updatePostTags id tags ;;; ret (Some updatedPost)
                    | None => ret (Some updatedPost)
                    end
                end) s).
  { intros k.
    destruct (fieldSet (PartialInsertPost.title d));
      destruct (fieldSet (PartialInsertPost.body d)); try reflexivity.
    destruct Hf; congruence. }
  rewrite E. clear E. unfold bind at 1. unfold updatePosts.
  rewrite bound_fits by (now apply fits1).
  destruct (hd_error_filter_ex (fun p0 => Post.id p0 =? id) (posts s) p Hin)
    as [y [Fy _]]; [now apply Z.eqb_eq|].
  destruct (filter (fun p0 => Post.id p0 =? id) (posts s)) as [|y0 l] eqn:F;
    [discriminate|].
  change (map f (y0 :: l)) with (f y0 :: map f l). cbv beta iota.
  rewrite Ht. unfold tagsGiven.
  set (s1 := mk _ _ _ _ _ _ _ _ _ _).
  assert (W1 : wf s1) by (destruct W; constructor; assumption).
  destruct (updatePostTags_full id (x :: r) s1 W1 Hfit Hroom)
    as [s2 [E2 [_ [_ Hl]]]].
  unfold bind. rewrite E2. unfold ret. exists (f y0), s2. split; [reflexivity|].
  split; [|exact Hl]. exists y0.
  assert (Hy0 : In y0 (filter (fun p0 => Post.id p0 =? id) (posts s)))
    by (rewrite F; now left).
  apply filter_In in Hy0. destruct Hy0 as [Hy0 Hy0id].
  split; [exact Hy0|]. split; [now apply Z.eqb_eq | apply patched_mk].
Qed.

(** ** Tag names *)

Lemma uniqueTags_normalized names u :
  In u (uniqueTags names) -> normalizedName u.
Proof.
  unfold uniqueTags. intros H. apply filter_In in H. destruct H as [H Hne].
  apply (proj1 (spreadSet_In _ _)) in H. apply in_map_iff in H.
  destruct H as [x [<- _]].
  split; [apply normalize_idem|].
  intros E. rewrite E in Hne. discriminate.
Qed.

(** Whether it resolves or rejects, [updatePostTags] only appends tags,
    each with a normalized name. *)
Lemma updatePostTags_tags postId names s :
  wf s -> tagsAdded s (snd (updatePostTags postId names s)).
Proof.
  intros W.
  assert (Hrefl : tagsAdded s s).
  { exists []. rewrite app_nil_r. split; [reflexivity | constructor]. }
  destruct (int4 postId) eqn:Hpid.
  2:{ now rewrite updatePostTags_rejects by exact Hpid. }
  rewrite updatePostTags_unfold by exact Hpid. cbv zeta.
  set (X := linkedTags s postId).
  set (E := map (fun t => toLowerCase (Tag.name t)) X).
  set (U := uniqueTags names).
  assert (HX : forall e, In e X -> int4 (Tag.id e) = true).
  { intros e He. apply (wf_tag_fits s e W).
    now apply (linkedTags_tags s postId). }
  destruct (forOf_cases U (addNew postId E) s)
    as [[s1 E1]|[pre [u [post [e [s0 [s1 [HU [Epre [Eu Eall]]]]]]]]]].
  - destruct (addNew_loop_ok postId E U s s1 W Hpid (uniqueTags_lower names) E1)
      as [_ [[[nt [T1 N1]] _] _]].
    destruct (dropOld_loop postId U X s1 Hpid HX) as [s2 [E2 [T2 _]]].
    rewrite E1, E2. simpl. exists nt. rewrite T2. split; [exact T1|].
    apply Forall_forall. intros g Hg. apply (uniqueTags_normalized names).
    now apply N1.
  - rewrite Eall. simpl.
    assert (Hin_pre : forall x, In x pre -> In x U).
    { intros x Hx. rewrite HU. apply in_or_app. now left. }
    assert (Hin_u : In u U).
    { rewrite HU. apply in_or_app. right. now left. }
    destruct (addNew_loop_ok postId E pre s s0 W Hpid
                (fun x Hx => uniqueTags_lower names x (Hin_pre x Hx)) Epre)
      as [W0 [[[nt0 [T0 N0]] _] _]].
    destruct (addNew_total postId E u s0 W0 Hpid
                (uniqueTags_lower names u Hin_u))
      as [[s2 [Eok _]]|[e2 [s2 [Ethrow [_ [_ [_ [[nt [T1 [M1 _]]] _]]]]]]]].
    + rewrite Eok in Eu. discriminate.
    + rewrite Ethrow in Eu. injection Eu as _ <-.
      exists (nt0 ++ nt). rewrite T1, T0, app_assoc. split; [reflexivity|].
      apply Forall_forall. intros g Hg. apply (uniqueTags_normalized names).
      apply in_app_or in Hg. destruct Hg as [Hg|Hg].
      * apply Hin_pre. now apply N0.
      * now rewrite (M1 g Hg).
Qed.

Section TagNames.
Let G : t -> t -> Prop := fun s s' => wf s -> wf s' /\ tagsAdded s s'.

Lemma tagsAdded_refl s : tagsAdded s s.
Proof. exists []. rewrite app_nil_r. split; [reflexivity | constructor]. Qed.

Lemma tagsAdded_trans s1 s2 s3 :
  tagsAdded s1 s2 -> tagsAdded s2 s3 -> tagsAdded s1 s3.
Proof.
  intros [a [Ea Fa]] [b [Eb Fb]]. exists (a ++ b).
  rewrite Eb, Ea, app_assoc. split; [reflexivity|].
  apply Forall_app. tauto.
Qed.

Lemma G_refl s : G s s.
Proof. intros W. split; [exact W | apply tagsAdded_refl]. Qed.

Lemma G_trans s1 s2 s3 : G s1 s2 -> G s2 s3 -> G s1 s3.
Proof.
  intros A B W. destruct (A W) as [W2 T2]. destruct (B W2) as [W3 T3].
  split; [exact W3 | eapply tagsAdded_trans; eauto].
Qed.

Lemma G_same {A} (m : M A) :
  steps (keeps wf) m -> steps (fun s s' => tags s' = tags s) m -> steps G m.
Proof.
  intros Hw Ht s W. split; [exact (Hw s W)|].
  exists []. rewrite app_nil_r. split; [apply Ht | constructor].
Qed.

Lemma G_insertUser d : steps G (insertUser d).
Proof. apply G_same; [apply wf_insertUser | stmt; reflexivity]. Qed.
Lemma G_insertPost a b c d : steps G (insertPost a b c d).
Proof. apply G_same; [apply wf_insertPost | stmt; reflexivity]. Qed.
Lemma G_insertComment a b c d : steps G (insertComment a b c d).
Proof. apply G_same; [apply wf_insertComment | stmt; reflexivity]. Qed.
Lemma G_deleteComments ps p : steps G (deleteComments ps p).
Proof. apply G_same; [apply wf_deleteComments | stmt; reflexivity]. Qed.
Lemma G_deletePostTags ps p : steps G (deletePostTags ps p).
Proof. apply G_same; [apply wf_deletePostTags | stmt; reflexivity]. Qed.
Lemma G_deletePosts ps p : steps G (deletePosts ps p).
Proof. apply G_same; [apply wf_deletePosts | stmt; reflexivity]. Qed.
Lemma G_updatePosts ps p f : steps G (updatePosts ps p f).
Proof. apply G_same; [apply wf_updatePosts | stmt; reflexivity]. Qed.
Lemma G_updateComments ps p f : steps G (updateComments ps p f).
Proof. apply G_same; [apply wf_updateComments | stmt; reflexivity]. Qed.

Lemma G_updatePostTags postId names : steps G (updatePostTags postId names).
Proof.
  intros s W. split.
  - exact (wf_updatePostTags postId names s W).
  - now apply updatePostTags_tags.
Qed.

#[local] Hint Resolve G_insertUser G_insertPost G_insertComment
  G_deleteComments G_deletePostTags G_deletePosts G_updatePosts
  G_updateComments G_updatePostTags : db.

Lemma routeCall_tagsAdded c s :
  routeCall c = true -> wf s -> tagsAdded s (exec c s).
Proof.
  intros Hc W.
  cut (G s (exec c s)); [intros H; exact (proj2 (H W))|].
  destruct c; try discriminate Hc; unfold exec;
    match goal with
    | |- G s (snd (?m s)) => cut (steps G m); [intros H; exact (H s)|]
    end;
    unfold createUser, createPost, updatePost, deletePost,
      createComment, updateComment, getComment, deleteComment;
    steps_split G_refl G_trans.
Qed.
End TagNames.

Section NamesUnique.
Let I : t -> Prop := fun s => NoDup (map Tag.name (tags s)).
Let R := keeps I.

Ltac names_same := stmt; intros N; exact N.

Lemma names_insertUser d : steps R (insertUser d).
Proof. names_same. Qed.
Lemma names_insertPost a b c d : steps R (insertPost a b c d).
Proof. names_same. Qed.
Lemma names_insertPostTag a b : steps R (insertPostTag a b).
Proof. names_same. Qed.
Lemma names_insertComment a b c d : steps R (insertComment a b c d).
Proof. names_same. Qed.
Lemma names_deleteComments ps p : steps R (deleteComments ps p).
Proof. names_same. Qed.
Lemma names_deletePostTags ps p : steps R (deletePostTags ps p).
Proof. names_same. Qed.
Lemma names_deletePosts ps p : steps R (deletePosts ps p).
Proof. names_same. Qed.
Lemma names_updatePosts ps p f : steps R (updatePosts ps p f).
Proof. names_same. Qed.
Lemma names_updateComments ps p f : steps R (updateComments ps p f).
Proof. names_same. Qed.

Lemma names_insertTag n : steps R (insertTag n).
Proof.
  intros s. unfold insertTag.
  destruct (int4 (tagsSeq s)); simpl; [|intros N; exact N].
  destruct (existsb (fun g => Tag.id g =? tagsSeq s) (tags s)); simpl;
    [intros N; exact N|].
  destruct (existsb (fun g => (Tag.name g =? n)%string) (tags s)) eqn:Ex; simpl;
    [intros N; exact N|].
  intros N. unfold I. simpl. rewrite map_app. simpl.
  apply NoDup_snoc; [exact N|]. intros Hin. apply in_map_iff in Hin.
  destruct Hin as [g [Hn Hg]].
  pose proof (existsb_false_inv _ _ Ex g Hg) as Hf. simpl in Hf.
  apply String.eqb_neq in Hf. contradiction.
Qed.

#[local] Hint Resolve names_insertUser names_insertPost names_insertPostTag
  names_insertComment names_deleteComments names_deletePostTags
  names_deletePosts names_updatePosts names_updateComments
  names_insertTag : db.

Lemma names_exec c s :
  NoDup (map Tag.name (tags s)) -> NoDup (map Tag.name (tags (exec c s))).
Proof.
  destruct c; unfold exec;
    match goal with
    | |- _ -> NoDup (map Tag.name (tags (snd (?m s)))) =>
        cut (steps R m); [intros H; exact (H s)|]
    end;
    unfold createUser, createPost, updatePost, deletePost, createTag,
      removeTagFromPost, createComment, updateComment, getComment,
      deleteComment, addTagToPost, updatePostTags, getTagsByPostId,
      getTagByName, removeTagFromPost, addTagToPost, createTag;
    steps_split (keeps_refl I) (keeps_trans I).
Qed.
End NamesUnique.

Lemma reachable_names_unique s :
  reachable s -> NoDup (map Tag.name (tags s)).
Proof.
  induction 1 as [|c s _ IH]; [constructor | now apply names_exec].
Qed.

Lemma routeReachable_reachable s : routeReachable s -> reachable s.
Proof. induction 1; [constructor | now constructor]. Qed.

Lemma routeReachable_canonical s : routeReachable s -> tagNamesCanonical s.
Proof.
  intros H. split; [|apply reachable_names_unique, routeReachable_reachable, H].
  induction H as [|c s Hc Hr IH]; [constructor|].
  destruct (routeCall_tagsAdded c s Hc) as [nt [E F]].
  { apply reachable_wf, routeReachable_reachable, Hr. }
  rewrite E. apply Forall_app. tauto.
Qed.

Lemma normalizedName_lower n : normalizedName n -> toLowerCase n = n.
Proof.
  intros [E _]. pose proof (normalized_lower n) as H. now rewrite E in H.
Qed.

Lemma canonical_lower_unique s :
  tagNamesCanonical s ->
  NoDup (map (fun g => toLowerCase (Tag.name g)) (tags s)).
Proof.
  intros [F N]. erewrite map_ext_in; [exact N|].
  intros g Hg. rewrite Forall_forall in F. now apply normalizedName_lower, F.
Qed.

Lemma canonical_lookup s q :
  tagNamesCanonical s ->
  getTagByName q s
  = (Ok (hd_error (filter (fun g => (Tag.name g =? toLowerCase q)%string)
                          (tags s))), s).
Proof.
  intros [F _]. unfold getTagByName. rewrite !query_fits by reflexivity.
  f_equal. f_equal. f_equal.
  apply filter_ext_in. intros g Hg. rewrite Forall_forall in F.
  now rewrite (normalizedName_lower _ (F g Hg)).
Qed.

(** ** Deleting a post leaves the other posts as they read *)

Lemma hd_error_filter_filter_neq {A} (key : A -> Z) id k l :
  k <> id ->
  filter (fun x => key x =? k) (filter (fun x => negb (key x =? id)) l)
  = filter (fun x => key x =? k) l.
Proof.
  intros Hk. rewrite filter_filter. apply filter_ext. intros x.
  destruct (Z.eqb_spec (key x) k) as [E|E]; [|now rewrite andb_false_r].
  rewrite andb_true_r. apply negb_true_iff, Z.eqb_neq. congruence.
Qed.

Lemma deletePost_frame id s k :
  k <> id -> postDetails (snd (deletePost id s)) k = postDetails s k.
Proof.
  intros Hk. destruct (int4 id) eqn:Hfit.
  2:{ now rewrite deletePost_rejects by exact Hfit. }
  destruct (deletePost_spec id s Hfit)
    as [b [s' [E [Hc [Hr [Hp [Hu [Ht _]]]]]]]].
  rewrite E. simpl. unfold postDetails, linkedTags.
  rewrite Hc, Hr, Hp, Hu, Ht.
  rewrite (hd_error_filter_filter_neq Post.id), (hd_error_filter_filter_neq Comment.postId)
    by exact Hk.
  replace (flat_map _ (tags s))
    with (flat_map (fun g =>
            map (fun _ => g)
              (filter (fun r => (Tag.id g =? PostTag.tagId r)
                                && (PostTag.postId r =? k)) (postTags s)))
          (tags s)); [reflexivity|].
  apply flat_map_ext. intros g. f_equal. rewrite filter_filter.
  apply filter_ext. intros r.
  destruct (Z.eqb_spec (PostTag.postId r) k) as [Ek|Ek];
    [|now rewrite !andb_false_r].
  rewrite !andb_true_r.
  replace (PostTag.postId r =? id) with false; [reflexivity|].
  symmetry. apply Z.eqb_neq. congruence.
Qed.

Lemma deletePost_gone id s :
  int4 id = true -> postDetails (snd (deletePost id s)) id = None.
Proof.
  intros Hfit.
  destruct (postDetails (snd (deletePost id s)) id) as [d|] eqn:E;
    [|reflexivity].
  apply deletePost_then_details in E; [tauto | exact Hfit].
Qed.

(** ** What [updateComment] returns *)

Lemma updateComment_result id d s :
  int4 id = true ->
  exists r s',
    updateComment id d s = (Ok r, s')
    /\ users s' = users s /\ posts s' = posts s
    /\ tags s' = tags s /\ postTags s' = postTags s
    /\ (r = None <-> forall c, In c (comments s) -> Comment.id c <> id)
    /\ (forall c', r = Some c' ->
          exists c, In c (comments s) /\ Comment.id c = id
                    /\ CommentUpdate.patched d c c' /\ In c' (comments s')).
Proof.
  intros Hfit. unfold updateComment.
  destruct (fieldSet (PartialInsertComment.body d)) as [b|] eqn:Fb.
  - unfold bind, updateComments, ret.
    rewrite bound_fits by (now apply fits1). simpl.
    eexists. eexists. split; [reflexivity|]. simpl. splits; try reflexivity.
    + destruct (filter _ (comments s)) as [|c l] eqn:F; simpl.
      * split; [|reflexivity]. intros _ c Hc. apply Z.eqb_neq.
        apply (hd_error_filter_None (fun c => Comment.id c =? id) (comments s));
          [now rewrite F | exact Hc].
      * split; [discriminate|]. intros H. exfalso.
        assert (Hin : In c (filter (fun c => Comment.id c =? id) (comments s)))
          by (rewrite F; now left).
        apply filter_In in Hin. destruct Hin as [Hin Hid].
        apply Z.eqb_eq in Hid. exact (H c Hin Hid).
    + intros c' Hc'.
      destruct (filter _ (comments s)) as [|c l] eqn:F; simpl in Hc';
        [discriminate|]. injection Hc' as <-.
      assert (Hin : In c (filter (fun c => Comment.id c =? id) (comments s)))
        by (rewrite F; now left).
      apply filter_In in Hin. destruct Hin as [Hin Hid].
      exists c. split; [exact Hin|]. split; [now apply Z.eqb_eq|]. split.
      * pose proof (patched_comment_mk d c) as P. now rewrite Fb in P.
      * apply in_or_app. right. now left.
  - unfold getComment. rewrite query_fits by (now apply fits1).
    eexists. eexists. split; [reflexivity|].
    splits; try reflexivity.
    + destruct (hd_error _) as [c|] eqn:F.
      * split; [discriminate|]. intros H. exfalso.
        apply hd_error_filter_Some in F. destruct F as [Hin Hid].
        apply Z.eqb_eq in Hid. exact (H c Hin Hid).
      * split; [|reflexivity]. intros _ c Hc. apply Z.eqb_neq.
        exact (hd_error_filter_None _ _ F c Hc).
    + intros c' F. apply hd_error_filter_Some in F. destruct F as [Hin Hid].
      exists c'. split; [exact Hin|]. split; [now apply Z.eqb_eq|].
      split; [|exact Hin].
      pose proof (patched_comment_mk d c') as P. now rewrite Fb in P.
Qed.

(** ** [getPostsByTag] *)

Lemma getPostsByTag_In tagName s :
  wf s -> keyed s ->
  exists ps,
    getPostsByTag tagName s = (Ok ps, s)
    /\ forall d, In d ps <->
         exists tag r,
           hd_error (filter (fun g => (Tag.name g =? tagName)%string) (tags s))
           = Some tag
           /\ In r (postTags s) /\ PostTag.tagId r = Tag.id tag
           /\ getPost (PostTag.postId r) s = (Ok (Some d), s).
Proof.
  intros W K.
  assert (Hrow : forall r, In r (postTags s) -> int4 (PostTag.postId r) = true).
  { intros r Hr. pose proof (wf_postTag_range s W) as F.
    rewrite Forall_forall in F. now apply F. }
  unfold getPostsByTag, bind. rewrite query_fits by reflexivity.
  destruct (hd_error _) as [tag|] eqn:F.
  - pose proof F as F'. apply hd_error_filter_Some in F'.
    rewrite query_fits by (apply fits1, (wf_tag_fits s tag W); tauto).
    rewrite postsWithDetails_details; [|exact K|].
    2:{ apply Forall_forall. intros k Hk. apply in_map_iff in Hk.
        destruct Hk as [r [<- Hr]]. apply filter_In in Hr. apply Hrow. tauto. }
    eexists. split; [reflexivity|].
    intros d. rewrite collect_In. split.
    + intros [k [Hk Hd]]. apply in_map_iff in Hk. destruct Hk as [r [<- Hr]].
      apply filter_In in Hr. destruct Hr as [Hr Hid]. apply Z.eqb_eq in Hid.
      exists tag, r. rewrite (getPost_details _ _ K (Hrow r Hr)), Hd. auto.
    + intros [tag' [r [[= <-] [Hr [Hid Hg]]]]].
      rewrite (getPost_details _ _ K (Hrow r Hr)) in Hg. injection Hg as Hg.
      exists (PostTag.postId r). split; [|exact Hg].
      apply in_map. apply filter_In. split; [exact Hr|]. now apply Z.eqb_eq.
  - exists []. split; [reflexivity|]. intros d. split; [intros []|].
    intros [tag [r [Hf _]]]. discriminate.
Qed.

End DbMore.

(* ===================================================================== *)
(** * The expiry job on the database *)
(* ===================================================================== *)

Module SchedulerMore.
Import Js JsFacts JsMore DatabaseStorage DbFacts DbMore Scheduler SchedulerFacts.

Section Job.
Context {St E : Type} `{IStorage St E}.

(** When every delete resolves the loop runs to its end. *)
Lemma deleteEach_resolves ps : forall s s',
  deletesResolve ps s s' ->
  deleteEach ps s = (Ok tt, s', resolvedTrace ps).
Proof.
  induction ps as [|p ps IH]; intros s s' Hr; simpl in *.
  - now subst.
  - destruct Hr as [b [s1 [Hd Hrest]]]. rewrite Hd.
    now rewrite (IH s1 s' Hrest).
Qed.

Lemma job_resolves zone now s old s1 s2 :
  getPostsOlderThan zone now 24%Q s = (Ok old, s1) ->
  deletesResolve old s1 s2 ->
  job zone now s
  = (match old with
     | [] => [LogRunning; LogNoPosts]
     | _ :: _ =>
         LogRunning :: LogFound (Z.of_nat (List.length old))
           :: resolvedTrace old ++ [LogCompleted]
     end, s2).
Proof.
  intros Hg Hr. unfold job, tryBlock. rewrite Hg.
  destruct old as [|p r].
  - simpl in *. now subst.
  - replace (Z.of_nat (List.length (p :: r)) >? 0) with true
      by (symmetry; apply Z.gtb_lt; simpl List.length; lia).
    now rewrite (deleteEach_resolves _ _ _ Hr).
Qed.
End Job.

Lemma purged_nil s : purged [] s = s.
Proof.
  destruct s. unfold purged. simpl.
  f_equal; apply filter_all; reflexivity.
Qed.

Lemma deletePost_purged id s :
  int4 id = true ->
  exists b, DatabaseStorage.deletePost id s = (Ok b, purged [id] s).
Proof.
  intros Hfit.
  unfold DatabaseStorage.deletePost, bind, deleteComments, deletePostTags,
    deletePosts, ret, purged.
  rewrite !bound_fits by (now apply fits1). simpl.
  eexists. f_equal. f_equal; apply filter_ext; intros x;
    now rewrite orb_false_r, Z.eqb_sym.
Qed.

Lemma purged_cons id ids s : purged ids (purged [id] s) = purged (id :: ids) s.
Proof.
  unfold purged. simpl. f_equal; rewrite filter_filter; apply filter_ext;
    intros x; rewrite orb_false_r; now rewrite negb_orb.
Qed.

Lemma deletesResolve_purged ps : forall s,
  Forall (fun p => int4 (Post.id p) = true) ps ->
  deletesResolve (St := DatabaseStorage.t) ps s (purged (map Post.id ps) s).
Proof.
  induction ps as [|p ps IH]; intros s F; simpl.
  - now rewrite purged_nil.
  - inversion F as [|? ? Hp Hps]; subst.
    destruct (deletePost_purged (Post.id p) s Hp) as [b Hb].
    exists b, (purged [Post.id p] s). split; [exact Hb|].
    rewrite <- (purged_cons (Post.id p) (map Post.id ps) s). now apply IH.
Qed.

Lemma existsb_id_expired (expired : Post.t -> bool) l p :
  NoDup (map Post.id l) -> In p l ->
  existsb (Z.eqb (Post.id p)) (map Post.id (filter expired l)) = expired p.
Proof.
  intros N Hp. destruct (expired p) eqn:Ex.
  - apply existsb_exists. exists (Post.id p). split; [|apply Z.eqb_refl].
    apply in_map. apply filter_In. auto.
  - apply existsb_false. intros k Hk. apply in_map_iff in Hk.
    destruct Hk as [q [<- Hq]]. apply filter_In in Hq. destruct Hq as [Hq Eq].
    apply Z.eqb_neq. intros Eid.
    assert (p = q) by (eapply NoDup_map_inj; eauto). subst. congruence.
Qed.

Lemma existsb_eqb_In k ids : existsb (Z.eqb k) ids = true <-> In k ids.
Proof.
  rewrite existsb_exists. split.
  - intros [x [Hx E]]. apply Z.eqb_eq in E. now subst.
  - intros Hk. exists k. split; [exact Hk | apply Z.eqb_refl].
Qed.

(** The cutoff of [getPostsOlderThan(24)]. *)
Lemma cutoff_day zone now :
  offsetOfLocal zone (LocalTime zone now - 24 * msPerHour) = offsetAt zone now ->
  setHours zone now (inject_Z (getHours zone now) - 24) = now - 24 * msPerHour.
Proof. intros H. now apply (setHours_same_offset zone now 24). Qed.

(** One run of the job on the database. *)
Lemma sweep_database zone now s :
  keyed s ->
  let cutoff := setHours zone now (inject_Z (getHours zone now) - 24) in
  let expired := fun p => Post.createdAt p <? cutoff in
  let old := filter expired (posts s) in
  exists tr s',
    job zone now s = (tr, s')
    /\ tr = match old with
            | [] => [LogRunning; LogNoPosts]
            | _ :: _ =>
                LogRunning :: LogFound (Z.of_nat (List.length old))
                  :: resolvedTrace old ++ [LogCompleted]
            end
    /\ deleteCalls tr = map Post.id old
    /\ posts s' = filter (fun p => negb (expired p)) (posts s)
    /\ comments s'
       = filter (fun c => negb (existsb (Z.eqb (Comment.postId c))
                                        (map Post.id old))) (comments s)
    /\ postTags s'
       = filter (fun r => negb (existsb (Z.eqb (PostTag.postId r))
                                        (map Post.id old))) (postTags s)
    /\ users s' = users s /\ tags s' = tags s
    /\ job zone now s' = ([LogRunning; LogNoPosts], s').
Proof.
  intros K cutoff expired old.
  pose proof (keyed_post_ids s K) as N.
  assert (G : forall x : t,
             getPostsOlderThan zone now 24%Q x
             = (Ok (filter expired (posts x)), x)).
  { intros x. simpl. unfold DatabaseStorage.getPostsOlderThan.
    now rewrite query_fits by reflexivity. }
  assert (Hold : Forall (fun p => int4 (Post.id p) = true) old).
  { apply Forall_forall. intros p Hp. apply filter_In in Hp.
    apply (keyed_post_fits s p K). tauto. }
  pose proof (job_resolves zone now s old s (purged (map Post.id old) s)
                (G s) (deletesResolve_purged old s Hold)) as J.
  assert (P : posts (purged (map Post.id old) s)
              = filter (fun p => negb (expired p)) (posts s)).
  { unfold purged. simpl. apply filter_ext_in. intros p Hp. f_equal.
    now apply existsb_id_expired. }
  eexists. eexists. split; [exact J|]. splits; try reflexivity.
  - destruct old as [|p r] eqn:Eo; [reflexivity|]. rewrite <- Eo.
    unfold deleteCalls. simpl.
    fold (deleteCalls (resolvedTrace (E := DbError) old ++ [LogCompleted])).
    rewrite deleteCalls_app, deleteCalls_resolvedTrace. simpl.
    now rewrite app_nil_r.
  - exact P.
  - set (s' := purged (map Post.id old) s).
    assert (Hn : filter expired (posts s') = []).
    { unfold s'. rewrite P. apply filter_none. intros p Hp.
      apply filter_In in Hp. destruct Hp as [_ Hp].
      now apply negb_true_iff in Hp. }
    pose proof (job_resolves zone now s' [] s' s') as J'.
    rewrite G, Hn in J'. apply J'; reflexivity.
Qed.

End SchedulerMore.

(* ===================================================================== *)
(** * The middleware *)
(* ===================================================================== *)

Module AuthFacts.
Import Js JsFacts JsMore DatabaseStorage DbFacts DbMore AuthMiddleware.

(** Splitting a string with a separator in it splits both sides. *)
Lemma split_nonempty sep s : split sep s <> [].
Proof.
  destruct s as [|c r]; simpl; [discriminate|].
  destruct (Ascii.eqb c sep); [discriminate|].
  destruct (split sep r); discriminate.
Qed.

Lemma split_app sep a b :
  split sep (a ++ String sep b) = split sep a ++ split sep b.
Proof.
  induction a as [|c a IH]; simpl.
  - now rewrite Ascii.eqb_refl.
  - destruct (Ascii.eqb c sep); [now rewrite IH|].
    rewrite IH. destruct (split sep a) as [|h t] eqn:E; [|reflexivity].
    now apply split_nonempty in E.
Qed.

Lemma split_second scheme rest :
  split " " scheme = [scheme] ->
  nth_error (split " " (scheme ++ String " " rest)) 1
  = hd_error (split " " rest).
Proof.
  intros H. rewrite split_app, H. simpl. now destruct (split " " rest).
Qed.

Lemma fieldSet_Some f v : fieldSet f = Some v -> f = Some v /\ v <> "".
Proof.
  unfold fieldSet, truthy. destruct f as [w|]; [|discriminate].
  destruct (String.eqb_spec w ""); simpl; [discriminate|].
  intros [= <-]. auto.
Qed.

Section Authenticate.
Context {St E : Type}.
Variable getUser : Z -> St -> settled E (option User.t) * St.
Variable verify : string -> option JwtPayload.

Lemma authenticateJWT_outcome authorization s :
  exists r user s',
    authenticateJWT getUser verify authorization s = (r, user, s')
    /\ ((r = Next /\
         exists header token payload u,
           authorization = Some header
           /\ nth_error (split " " header) 1 = Some token /\ token <> ""
           /\ verify token = Some payload
           /\ getUser (AuthMiddleware.id payload) s = (Ok (Some u), s')
           /\ user = Some u)
        \/ (user = None /\ exists message, r = Respond 401 message)).
Proof.
  unfold authenticateJWT.
  destruct (fieldSet authorization) as [header|] eqn:Fh;
    [|do 3 eexists; split; [reflexivity | right; eauto]].
  destruct (fieldSet (nth_error (split " " header) 1)) as [token|] eqn:Ft;
    [|do 3 eexists; split; [reflexivity | right; eauto]].
  destruct (verify token) as [payload|] eqn:V;
    [|do 3 eexists; split; [reflexivity | right; eauto]].
  destruct (getUser (AuthMiddleware.id payload) s) as [[[u|]|e] s1] eqn:G;
    do 3 eexists; (split; [reflexivity|]); try (right; eauto; fail).
  left. split; [reflexivity|]. exists header, token, payload, u.
  apply fieldSet_Some in Fh, Ft. splits; tauto.
Qed.

Lemma authenticateJWT_scheme scheme rest s :
  split " " scheme = [scheme] ->
  authenticateJWT getUser verify (Some (scheme ++ String " " rest)%string) s
  = authenticateJWT getUser verify (Some ("Bearer" ++ String " " rest)%string) s.
Proof.
  intros H. unfold authenticateJWT, fieldSet at 1 3.
  replace (truthy (scheme ++ String " " rest)) with true
    by (destruct scheme; reflexivity).
  replace (truthy ("Bearer" ++ String " " rest)) with true by reflexivity.
  rewrite (split_second scheme rest H).
  now rewrite (split_second "Bearer" rest eq_refl).
Qed.
End Authenticate.

Lemma isAuthor_unauthenticated resourceId baseUrl s :
  isAuthor resourceId baseUrl None s = (Respond 401 "Not authenticated", s).
Proof. reflexivity. Qed.

(** A number that does not fit the column is rejected by the first
    statement of the method. *)
Lemma atNumber_rejects {A} n (method : Z -> M A) s :
  (forall id, int4 id = false -> method id s = (Throw NotInt4, s)) ->
  isInt4 n = false -> atNumber n method s = (Throw NotInt4, s).
Proof. intros H Hn. destruct n as [id|]; simpl in *; auto. Qed.

Lemma isInt4_Some n : isInt4 n = true -> exists id, n = Some id /\ int4 id = true.
Proof. destruct n as [id|]; simpl; [eauto | discriminate]. Qed.

Lemma getComment_reads id s :
  int4 id = true ->
  getComment id s
  = (Ok (hd_error (filter (fun c => Comment.id c =? id) (comments s))), s).
Proof. intros H. unfold getComment. now rewrite query_fits by now apply fits1. Qed.

Lemma getComment_rejects id s :
  int4 id = false -> getComment id s = (Throw NotInt4, s).
Proof.
  intros H. unfold getComment, query.
  now rewrite bound_rejects by now apply misfits1.
Qed.

Lemma isAuthor_post resourceId baseUrl u s :
  keyed s ->
  strIncludes baseUrl "posts" = true ->
  exists r,
    isAuthor resourceId baseUrl (Some u) s = (r, s)
    /\ (r = Next <->
        exists id d, resourceId = Some id
                     /\ getPost id s = (Ok (Some d), s)
                     /\ Author.id (PostWithDetails.author d) = User.id u)
    /\ (r = Respond 404 "Post not found" <->
        exists id, resourceId = Some id /\ getPost id s = (Ok None, s))
    /\ (r = NextError NotInt4 <-> isInt4 resourceId = false)
    /\ (r = Next \/ r = Respond 404 "Post not found"
        \/ r = Respond 403 "You are not authorized to modify this post"
        \/ r = NextError NotInt4).
Proof.
  intros K Hb. unfold isAuthor. rewrite Hb. simpl String.eqb. cbv iota.
  destruct (isInt4 resourceId) eqn:Hn.
  2:{ rewrite (atNumber_rejects resourceId getPost s (fun id => getPost_rejects id s) Hn).
      eexists. split; [reflexivity|]. splits; auto.
      - split; [discriminate|]. intros [id [d [-> [Hd _]]]].
        simpl in Hn. rewrite (getPost_rejects id s Hn) in Hd. discriminate.
      - split; [discriminate|]. intros [id [-> Hd]].
        simpl in Hn. rewrite (getPost_rejects id s Hn) in Hd. discriminate.
      - tauto. }
  destruct (isInt4_Some _ Hn) as [id [-> Hid]]. simpl atNumber.
  pose proof (getPost_details id s K Hid) as Hg. rewrite Hg.
  destruct (postDetails s id) as [d|] eqn:Ed.
  - destruct (Z.eqb_spec (Author.id (PostWithDetails.author d)) (User.id u))
      as [E|E]; simpl; eexists; (split; [reflexivity|]).
    + splits; auto.
      * split; [|reflexivity]. intros _. exists id, d. auto.
      * split; [discriminate|]. intros [id' [[= <-] Hd]].
        rewrite Hg in Hd. discriminate.
      * split; discriminate.
    + splits; auto.
      * split; [discriminate|]. intros [id' [d' [[= <-] [Hd He]]]].
        rewrite Hg in Hd. injection Hd as <-. contradiction.
      * split; [discriminate|]. intros [id' [[= <-] Hd]].
        rewrite Hg in Hd. discriminate.
      * split; discriminate.
  - eexists. split; [reflexivity|]. splits; auto.
    + split; [discriminate|]. intros [id' [d [[= <-] [Hd _]]]].
      rewrite Hg in Hd. discriminate.
    + split; [|reflexivity]. intros _. exists id. auto.
    + split; discriminate.
Qed.

Lemma isAuthor_comment resourceId baseUrl u s :
  strIncludes baseUrl "posts" = false ->
  exists r,
    isAuthor resourceId baseUrl (Some u) s = (r, s)
    /\ (r = Next <->
        exists id c, resourceId = Some id
                     /\ getComment id s = (Ok (Some c), s)
                     /\ Comment.authorId c = User.id u)
    /\ (r = Respond 404 "Comment not found" <->
        exists id, resourceId = Some id /\ getComment id s = (Ok None, s))
    /\ (r = NextError NotInt4 <-> isInt4 resourceId = false)
    /\ (r = Next \/ r = Respond 404 "Comment not found"
        \/ r = Respond 403 "You are not authorized to modify this comment"
        \/ r = NextError NotInt4).
Proof.
  intros Hb. unfold isAuthor. rewrite Hb. simpl String.eqb. cbv iota.
  destruct (isInt4 resourceId) eqn:Hn.
  2:{ rewrite (atNumber_rejects resourceId getComment s
                 (fun id => getComment_rejects id s) Hn).
      eexists. split; [reflexivity|]. splits; auto.
      - split; [discriminate|]. intros [id [d [-> [Hd _]]]].
        simpl in Hn. rewrite (getComment_rejects id s Hn) in Hd. discriminate.
      - split; [discriminate|]. intros [id [-> Hd]].
        simpl in Hn. rewrite (getComment_rejects id s Hn) in Hd. discriminate.
      - tauto. }
  destruct (isInt4_Some _ Hn) as [id [-> Hid]]. simpl atNumber.
  pose proof (getComment_reads id s Hid) as Hg. rewrite Hg.
  destruct (hd_error _) as [c|] eqn:Ec.
  - destruct (Z.eqb_spec (Comment.authorId c) (User.id u))
      as [E|E]; simpl; eexists; (split; [reflexivity|]).
    + splits; auto.
      * split; [|reflexivity]. intros _. exists id, c. auto.
      * split; [discriminate|]. intros [id' [[= <-] Hd]].
        rewrite Hg in Hd. discriminate.
      * split; discriminate.
    + splits; auto.
      * split; [discriminate|]. intros [id' [d' [[= <-] [Hd He]]]].
        rewrite Hg in Hd. injection Hd as <-. contradiction.
      * split; [discriminate|]. intros [id' [[= <-] Hd]].
        rewrite Hg in Hd. discriminate.
      * split; discriminate.
  - eexists. split; [reflexivity|]. splits; auto.
    + split; [discriminate|]. intros [id' [d [[= <-] [Hd _]]]].
      rewrite Hg in Hd. discriminate.
    + split; [|reflexivity]. intros _. exists id. auto.
    + split; discriminate.
Qed.

(** ** The route that deletes a post *)

Lemma getUser_same id s : snd (DatabaseStorage.getUser id s) = s.
Proof.
  unfold DatabaseStorage.getUser, query, bound, throw.
  destruct (forallb int4 [id]); reflexivity.
Qed.

Lemma deletePostRoute_outcome verify authorization id baseUrl s :
  keyed s ->
  exists out s',
    Handlers.deletePostRoute verify authorization id baseUrl s = (out, s')
    /\ ((s' = s /\
         exists status message,
           out = inl (Respond status message)
           /\ (status = 401 \/ status = 403 \/ status = 404))
        \/ (s' = s /\ out = inl (NextError NotInt4) /\ isInt4 id = false)
        \/ (exists r header token payload u b k,
              out = inr r
              /\ id = Some k /\ int4 k = true
              /\ authorization = Some header
              /\ nth_error (split " " header) 1 = Some token
              /\ verify token = Some payload
              /\ DatabaseStorage.getUser (AuthMiddleware.id payload) s
                 = (Ok (Some u), s)
              /\ DatabaseStorage.deletePost k s = (Ok b, s')
              /\ (if strIncludes baseUrl "posts" then
                    r = Handlers.Removed
                    /\ exists d, getPost k s = (Ok (Some d), s)
                                 /\ Author.id (PostWithDetails.author d)
                                    = User.id u
                  else
                    exists c, getComment k s = (Ok (Some c), s)
                              /\ Comment.authorId c = User.id u))).
Proof.
  intros K. unfold Handlers.deletePostRoute.
  destruct (authenticateJWT_outcome DatabaseStorage.getUser verify
              authorization s)
    as [r [user [s1 [Ea [[-> [header [token [payload [u H]]]]]|[-> [m ->]]]]]]];
    rewrite Ea.
  2:{ assert (s1 = s).
      { revert Ea. unfold authenticateJWT.
        destruct (fieldSet authorization); [|now intros [= <-]].
        destruct (fieldSet _); [|now intros [= <-]].
        destruct (verify _) as [payload|]; [|now intros [= <-]].
        pose proof (getUser_same (AuthMiddleware.id payload) s) as Hs.
        destruct (DatabaseStorage.getUser _ s) as [[[v|]|e] sg];
          simpl in Hs; subst sg; now intros [= <-]. }
      subst s1. do 2 eexists. split; [reflexivity|]. left.
      split; [reflexivity|]. exists 401, m. auto. }
  destruct H as [Hh [Ht [Hne [Hv [Hg ->]]]]].
  assert (s1 = s).
  { pose proof (getUser_same (AuthMiddleware.id payload) s) as Hs.
    now rewrite Hg in Hs. }
  subst s1.
  destruct (strIncludes baseUrl "posts") eqn:Hb.
  - destruct (isAuthor_post id baseUrl u s K Hb) as [r [Ei [Hn [_ [He Hc]]]]].
    rewrite Ei. destruct Hc as [->|[->|[->| ->]]].
    + destruct (proj1 Hn eq_refl) as [k [d [-> [Hd Hau]]]].
      assert (Hk : int4 k = true).
      { destruct (int4 k) eqn:Hk; [reflexivity|].
        rewrite (getPost_rejects k s Hk) in Hd. discriminate. }
      destruct (DbFacts.deletePost_spec k s Hk)
        as [b [s' [Ed [_ [_ [_ [_ [_ Hb']]]]]]]].
      unfold Handlers.deleteApiPost. simpl atNumber. rewrite Ed.
      assert (b = true).
      { apply Hb'. rewrite (DbMore.getPost_details k s K Hk) in Hd.
        injection Hd as Hd.
        apply DbMore.postDetails_Some in Hd. destruct Hd as [Hin [Hid _]].
        eauto. }
      subst b. simpl. do 2 eexists. split; [reflexivity|]. right. right.
      exists Handlers.Removed, header, token, payload, u, true, k.
      splits; auto. exists d. auto.
    + do 2 eexists. split; [reflexivity|]. left. split; [reflexivity|].
      do 2 eexists. split; [reflexivity|]. auto.
    + do 2 eexists. split; [reflexivity|]. left. split; [reflexivity|].
      do 2 eexists. split; [reflexivity|]. auto.
    + do 2 eexists. split; [reflexivity|]. right. left.
      split; [reflexivity|]. split; [reflexivity|]. now apply He.
  - destruct (isAuthor_comment id baseUrl u s Hb) as [r [Ei [Hn [_ [He Hc]]]]].
    rewrite Ei. destruct Hc as [->|[->|[->| ->]]].
    + destruct (proj1 Hn eq_refl) as [k [c [-> [Hc Hau]]]].
      assert (Hk : int4 k = true).
      { destruct (int4 k) eqn:Hk; [reflexivity|].
        rewrite (getComment_rejects k s Hk) in Hc. discriminate. }
      destruct (DbFacts.deletePost_spec k s Hk) as [b [s' [Ed _]]].
      unfold Handlers.deleteApiPost. simpl atNumber. rewrite Ed.
      destruct b; simpl; do 2 eexists; (split; [reflexivity|]); right; right.
      * exists Handlers.Removed, header, token, payload, u, true, k.
        splits; auto. exists c. auto.
      * exists (Handlers.Missing 404 "Post not found"), header, token,
          payload, u, false, k.
        splits; auto. exists c. auto.
    + do 2 eexists. split; [reflexivity|]. left. split; [reflexivity|].
      do 2 eexists. split; [reflexivity|]. auto.
    + do 2 eexists. split; [reflexivity|]. left. split; [reflexivity|].
      do 2 eexists. split; [reflexivity|]. auto.
    + do 2 eexists. split; [reflexivity|]. right. left.
      split; [reflexivity|]. split; [reflexivity|]. now apply He.
Qed.

End AuthFacts.

(* ===================================================================== *)
(** * The pages of [GET /api/posts] *)
(* ===================================================================== *)

Module RoutesMore.
Import Js JsFacts JsMore Routes.

Lemma pageOf_pos q : 1 <= pageOf q.
Proof. unfold pageOf. lia. Qed.

Lemma perPageOf_range q : 1 <= perPageOf q <= 100.
Proof. unfold perPageOf. lia. Qed.

Lemma getApiPosts_posts {A} q (allPosts : list A) :
  posts (getApiPosts q allPosts)
  = firstn (Z.to_nat (perPageOf q))
           (skipn (Z.to_nat ((pageOf q - 1) * perPageOf q)) allPosts).
Proof.
  unfold getApiPosts. cbv zeta. cbn [posts].
  pose proof (pageOf_pos q). pose proof (perPageOf_range q).
  apply slice_firstn_skipn; nia.
Qed.

(** [ceilDiv a b] is the least [k] with [a <= k * b]. *)
Lemma ceilDiv_le a b k : 0 < b -> (ceilDiv a b <= k <-> a <= k * b).
Proof.
  intros Hb. unfold ceilDiv. split.
  - intros H.
    pose proof (Z.mul_div_le (a + b - 1) b Hb).
    pose proof (Z.mod_pos_bound (a + b - 1) b Hb).
    pose proof (Z.div_mod (a + b - 1) b). nia.
  - intros H. apply Z.lt_succ_r. apply Z.div_lt_upper_bound; [exact Hb|]. nia.
Qed.

Lemma page_length {A} q (allPosts : list A) :
  Z.of_nat (List.length (posts (getApiPosts q allPosts)))
  = Z.max 0 (Z.min (perPageOf q)
               (Z.of_nat (List.length allPosts) - (pageOf q - 1) * perPageOf q)).
Proof.
  rewrite getApiPosts_posts, length_firstn, length_skipn.
  pose proof (pageOf_pos q). pose proof (perPageOf_range q). nia.
Qed.

Lemma page_empty_iff {A} q (allPosts : list A) :
  posts (getApiPosts q allPosts) = []
  <-> total_pages (meta (getApiPosts q allPosts))
      < current_page (meta (getApiPosts q allPosts)).
Proof.
  pose proof (page_length q allPosts) as L.
  pose proof (pageOf_pos q). pose proof (perPageOf_range q).
  cbn [getApiPosts meta total_pages current_page].
  assert (C : ceilDiv (Z.of_nat (List.length allPosts)) (perPageOf q)
              <= pageOf q - 1
              <-> Z.of_nat (List.length allPosts)
                  <= (pageOf q - 1) * perPageOf q)
    by (apply ceilDiv_le; lia).
  split.
  - intros E. rewrite E in L. simpl in L.
    assert (Z.of_nat (List.length allPosts) <= (pageOf q - 1) * perPageOf q)
      by lia.
    apply C in H1. lia.
  - intros Hlt.
    assert (Z.of_nat (List.length allPosts) <= (pageOf q - 1) * perPageOf q)
      by (apply C; lia).
    apply length_zero_iff_nil. lia.
Qed.

Lemma page_full {A} q (allPosts : list A) :
  current_page (meta (getApiPosts q allPosts))
  < total_pages (meta (getApiPosts q allPosts)) ->
  Z.of_nat (List.length (posts (getApiPosts q allPosts))) = perPageOf q.
Proof.
  rewrite page_length.
  pose proof (pageOf_pos q). pose proof (perPageOf_range q).
  cbn [getApiPosts meta total_pages current_page]. intros Hlt.
  assert (~ Z.of_nat (List.length allPosts) <= pageOf q * perPageOf q
          \/ Z.of_nat (List.length allPosts) <= pageOf q * perPageOf q) as [N|N]
    by lia; [nia|].
  apply (ceilDiv_le _ (perPageOf q)) in N; lia.
Qed.

Lemma pages_map {A} (allPosts : list A) p : forall n a qs,
  Forall (fun q => perPageOf q = p) qs ->
  map pageOf qs = map Z.of_nat (seq (S a) n) ->
  map (fun q => posts (getApiPosts q allPosts)) qs
  = map (fun k => firstn (Z.to_nat p) (skipn (k * Z.to_nat p) allPosts))
        (seq a n).
Proof.
  induction n as [|n IH]; intros a qs F E; cbn [seq map] in *.
  - destruct qs; [reflexivity | discriminate].
  - destruct qs as [|q qs]; [discriminate|].
    cbn [map] in *. injection E as Eq Er. inversion F as [|? ? Hp F']; subst.
    f_equal.
    + rewrite getApiPosts_posts, Eq. f_equal. f_equal.
      pose proof (perPageOf_range q).
      replace (Z.pos (Pos.of_succ_nat a) - 1) with (Z.of_nat a) by lia.
      rewrite Z2Nat.inj_mul by lia. now rewrite Nat2Z.id.
    + now apply IH.
Qed.

Lemma pages_cover {A} (allPosts : list A) q0 qs :
  Forall (fun q => per_page q = per_page q0) qs ->
  map pageOf qs
  = map Z.of_nat
        (seq 1 (Z.to_nat (total_pages (meta (getApiPosts q0 allPosts))))) ->
  List.concat (map (fun q => posts (getApiPosts q allPosts)) qs) = allPosts.
Proof.
  intros F E. cbn [getApiPosts meta total_pages] in E.
  pose proof (perPageOf_range q0) as R.
  rewrite (pages_map allPosts (perPageOf q0)
             (Z.to_nat (ceilDiv (Z.of_nat (List.length allPosts))
                                (perPageOf q0))) 0%nat qs); [| |exact E].
  - apply chunks_concat; [lia|].
    set (T := ceilDiv _ _).
    assert (HT : Z.of_nat (List.length allPosts) <= T * perPageOf q0)
      by (apply ceilDiv_le; [lia | unfold T; lia]).
    assert (0 <= T) by (unfold T, ceilDiv; apply Z.div_pos; lia).
    apply Nat2Z.inj_le. rewrite Nat2Z.inj_mul, !Z2Nat.id by lia. exact HT.
  - eapply Forall_impl; [|exact F]. simpl. intros q Hq.
    unfold perPageOf. now rewrite Hq.
Qed.

End RoutesMore.

(* ===================================================================== *)
(** * The client beside the server *)
(* ===================================================================== *)

Module ClientFacts.
Import Js JsFacts JsMore Client.

(** In a zone that never moves its clock the card expires a day after
    the post was written. *)
Lemma expiryTime_plus_day tza createdAt :
  expiryTime (fixed tza) createdAt = createdAt + 24 * msPerHour.
Proof.
  unfold expiryTime. rewrite setHours_local, truncate_inject.
  unfold UTC, LocalTime. cbn [offsetAt offsetOfLocal fixed].
  set (g := getHours _ _). lia.
Qed.

Lemma setFrom_filter (p : string -> bool) xs : forall seen seen',
  (forall x, p x = true -> includes seen' x = includes seen x) ->
  setFrom seen' (filter p xs) = filter p (setFrom seen xs).
Proof.
  induction xs as [|x r IH]; intros seen seen' H; simpl; [reflexivity|].
  destruct (p x) eqn:Px; simpl.
  - rewrite (H x Px). destruct (includes seen x); [now apply IH|].
    simpl. rewrite Px. f_equal. apply IH. intros y Py.
    unfold includes. simpl. f_equal. apply (H y Py).
  - destruct (includes seen x); [now apply IH|]. simpl. rewrite Px.
    apply IH. intros y Py. unfold includes at 2. simpl.
    replace (y =? x)%string with false; [apply (H y Py)|].
    symmetry. apply String.eqb_neq. intros ->. congruence.
Qed.

Lemma spreadSet_filter (p : string -> bool) xs :
  spreadSet (filter p xs) = filter p (spreadSet xs).
Proof. unfold spreadSet. now apply setFrom_filter. Qed.

Lemma normalized_submitted l :
  map (fun t => trim (toLowerCase t)) (submittedTags l)
  = filter (fun t => negb (t =? "")%string)
           (map (fun t => trim (toLowerCase t)) l).
Proof.
  unfold submittedTags. induction l as [|x r IH]; simpl; [reflexivity|].
  assert (E : (trim (toLowerCase x) =? "")%string = (trim x =? "")%string).
  { destruct (String.eqb_spec (trim x) "") as [H|H].
    - apply String.eqb_eq. now apply trim_empty_lower.
    - apply String.eqb_neq. intros C. apply H. now apply trim_empty_lower. }
  rewrite E. destruct (trim x =? "")%string; simpl; now rewrite IH.
Qed.

Lemma uniqueTags_submitted l :
  MemStorage.uniqueTags (submittedTags l) = DatabaseStorage.uniqueTags l
  /\ DatabaseStorage.uniqueTags (submittedTags l) = DatabaseStorage.uniqueTags l.
Proof.
  unfold MemStorage.uniqueTags, DatabaseStorage.uniqueTags.
  rewrite normalized_submitted, spreadSet_filter. split; [reflexivity|].
  rewrite filter_filter. apply filter_ext. intros x. now rewrite andb_diag.
Qed.

End ClientFacts.

(* ===================================================================== *)
(** * More facts about [MemStorage] *)
(* ===================================================================== *)

Module MemMore.
Import Js JsFacts JsMore MemStorage MemFacts.

(** ** Maps filled under fresh keys *)

Section Keys.
Context {V : Type}.
Variable key : V -> Z.

Lemma set_In (m : Js.Map V) k v k' v' :
  In (k', v') (Js.set m k v) -> (k' = k /\ v' = v) \/ In (k', v') m.
Proof.
  induction m as [|[a b] r IH]; simpl.
  - intros [[= <- <-]|[]]. auto.
  - destruct (Z.eqb_spec a k) as [E|E]; simpl.
    + intros [[= <- <-]|H]; auto.
    + intros [H|H]; [auto|]. destruct (IH H); auto.
Qed.

Lemma keys_set_present (m : Js.Map V) k v :
  In k (Js.keys m) -> Js.keys (Js.set m k v) = Js.keys m.
Proof.
  induction m as [|[a b] r IH]; simpl; [intros []|].
  destruct (Z.eqb_spec a k) as [E|E]; simpl; [now subst|].
  intros [H|H]; [contradiction|]. now rewrite IH.
Qed.

Lemma keys_set_NoDup (m : Js.Map V) k v :
  NoDup (Js.keys m) -> NoDup (Js.keys (Js.set m k v)).
Proof.
  intros N. destruct (in_dec Z.eq_dec k (Js.keys m)) as [H|H].
  - now rewrite keys_set_present.
  - rewrite set_fresh by exact H. rewrite keys_app. simpl.
    now apply DbFacts.NoDup_snoc.
Qed.

Lemma keyed_set (m : Js.Map V) n n' k v :
  NoDup (Js.keys m) ->
  (forall a b, In (a, b) m -> key b = a /\ a < n) ->
  key v = k -> k < n' -> n <= n' ->
  NoDup (Js.keys (Js.set m k v))
  /\ (forall a b, In (a, b) (Js.set m k v) -> key b = a /\ a < n').
Proof.
  intros N K Hv Hk Hn. split; [now apply keys_set_NoDup|].
  intros a b H. apply set_In in H. destruct H as [[-> ->]|H]; [auto|].
  destruct (K a b H). split; [auto | lia].
Qed.

Lemma keyed_subset (m m' : Js.Map V) n :
  (forall e, In e m' -> In e m) ->
  (forall a b, In (a, b) m -> key b = a /\ a < n) ->
  forall a b, In (a, b) m' -> key b = a /\ a < n.
Proof. intros S K a b H. apply K, S, H. Qed.

Lemma get_keyed (m : Js.Map V) n v :
  NoDup (Js.keys m) ->
  (forall a b, In (a, b) m -> key b = a /\ a < n) ->
  In v (Js.values m) -> Js.get m (key v) = Some v.
Proof.
  intros N K H. unfold Js.values in H. apply in_map_iff in H.
  destruct H as [[a b] [E H]]. simpl in E. subst b.
  apply get_In_iff; [exact N|]. now destruct (K a v H) as [-> _].
Qed.

Lemma get_value (m : Js.Map V) k v : Js.get m k = Some v -> In v (Js.values m).
Proof.
  intros H. apply get_Some_In in H. unfold Js.values.
  apply in_map_iff. exists (k, v). auto.
Qed.
End Keys.

(** ** What [updatePostTags] leaves alone *)

Lemma updatePostTags_others postId tagNames s :
  let s' := snd (updatePostTags postId tagNames s) in
  users s' = users s /\ posts s' = posts s /\ comments s' = comments s
  /\ userId s' = userId s /\ MemStorage.postId s' = MemStorage.postId s
  /\ commentId s' = commentId s.
Proof.
  cbv zeta. rewrite mem_updatePostTags_unfold. cbv zeta. simpl snd.
  set (P := fun x : t =>
    users x = users s /\ posts x = posts s /\ comments x = comments s
    /\ userId x = userId s /\ MemStorage.postId x = MemStorage.postId s
    /\ commentId x = commentId s).
  change (P (forEach (getTagsByPostId s postId)
               (dropOld postId (uniqueTags tagNames))
               (forEach (uniqueTags tagNames)
                  (addNew postId
                     (map (fun t => toLowerCase (Tag.name t))
                          (getTagsByPostId s postId))) s))).
  apply forEach_inv; [apply forEach_inv|].
  - unfold P. tauto.
  - intros u x Hx. unfold addNew.
    destruct (u =? "")%string; [exact Hx|].
    destruct (includes _ u); [exact Hx|].
    destruct (getTagByName x u); exact Hx.
  - intros e x Hx. unfold dropOld.
    destruct (negb _); [|exact Hx]. rewrite removeTagFromPost_state. exact Hx.
Qed.

(** ** Every reachable store is keyed *)

Lemma keyed_same s s' :
  users s' = users s -> posts s' = posts s -> comments s' = comments s ->
  userId s' = userId s -> MemStorage.postId s' = MemStorage.postId s ->
  commentId s' = commentId s ->
  keyed s -> keyed s'.
Proof.
  intros E1 E2 E3 E4 E5 E6 [A B C D E F].
  constructor; rewrite ?E1, ?E2, ?E3, ?E4, ?E5, ?E6; assumption.
Qed.

Lemma keyed_updatePostTags postId tagNames s :
  keyed s -> keyed (snd (updatePostTags postId tagNames s)).
Proof.
  destruct (updatePostTags_others postId tagNames s) as [A [B [C [D [E F]]]]].
  now apply keyed_same.
Qed.

Lemma keyed_createUser d s : keyed s -> keyed (snd (createUser d s)).
Proof.
  intros [A B C D E F]. unfold createUser. simpl.
  destruct (keyed_set User.id (users s) (userId s) (userId s + 1) (userId s)
              (User.mk (userId s) (InsertUser.name d) (InsertUser.email d)
                       (InsertUser.password d) (InsertUser.image d)) A B)
    as [N K]; try (simpl; lia).
  constructor; assumption.
Qed.

Lemma keyed_createComment d a now s :
  keyed s -> keyed (snd (createComment d a now s)).
Proof.
  intros [A B C D E F]. unfold createComment. simpl.
  destruct (keyed_set Comment.id (comments s) (commentId s) (commentId s + 1)
              (commentId s)
              (Comment.mk (commentId s) (InsertComment.body d) a
                          (InsertComment.postId d) now) E F)
    as [N K]; try (simpl; lia).
  constructor; assumption.
Qed.

Lemma keyed_createPost d a now s :
  keyed s -> keyed (snd (createPost d a now s)).
Proof.
  intros [A B C D E F]. unfold createPost. cbv zeta. cbn [snd].
  destruct (keyed_set Post.id (posts s) (MemStorage.postId s)
              (MemStorage.postId s + 1) (MemStorage.postId s)
              (Post.mk (MemStorage.postId s) (InsertPost.title d)
                       (InsertPost.body d) a now) C D)
    as [N K]; try (simpl; lia).
  assert (K1 : keyed (withPosts s
                 (Js.set (posts s) (MemStorage.postId s)
                    (Post.mk (MemStorage.postId s) (InsertPost.title d)
                       (InsertPost.body d) a now))
                 (MemStorage.postId s + 1)))
    by (constructor; assumption).
  destruct (tagsGiven (Some (InsertPost.tags d)));
    [now apply keyed_updatePostTags | exact K1].
Qed.

Lemma keyed_updatePost id d s : keyed s -> keyed (snd (updatePost id d s)).
Proof.
  intros Ks. pose proof Ks as [A B C D E F]. unfold updatePost.
  destruct (Js.get (posts s) id) as [post|] eqn:G; [|exact Ks].
  cbv zeta. cbn [snd]. apply get_Some_In in G.
  destruct (D id post G) as [Hid Hlt].
  set (up := Post.mk _ _ _ _ _).
  destruct (keyed_set Post.id (posts s) (MemStorage.postId s)
              (MemStorage.postId s) id up C D) as [N K];
    try (simpl; lia).
  assert (K1 : keyed (withPosts s (Js.set (posts s) id up) (MemStorage.postId s)))
    by (constructor; assumption).
  destruct (tagsGiven (PartialInsertPost.tags d));
    [now apply keyed_updatePostTags | exact K1].
Qed.

Lemma keyed_updateComment id d s : keyed s -> keyed (snd (updateComment id d s)).
Proof.
  intros Ks. pose proof Ks as [A B C D E F]. unfold updateComment.
  destruct (Js.get (comments s) id) as [c|] eqn:G; [|exact Ks].
  cbv zeta. cbn [snd]. apply get_Some_In in G.
  destruct (F id c G) as [Hid Hlt].
  set (up := match fieldSet _ with Some _ => _ | None => _ end).
  destruct (keyed_set Comment.id (comments s) (commentId s) (commentId s) id up
              E F) as [N K]; try lia.
  { unfold up. destruct (fieldSet _); simpl; exact Hid. }
  constructor; assumption.
Qed.

Lemma keyed_deleteComment id s : keyed s -> keyed (snd (deleteComment id s)).
Proof.
  intros [A B C D E F]. unfold deleteComment, Js.delete. simpl.
  constructor; simpl; try assumption.
  - now apply NoDup_keys_filter.
  - intros a b H. apply filter_In in H. apply F. tauto.
Qed.

Lemma keyed_deletePost id s : keyed s -> keyed (snd (deletePost id s)).
Proof.
  intros Ks. pose proof Ks as [A B C D E F]. unfold deletePost.
  destruct (negb _); [exact Ks|]. cbv zeta.
  rewrite (forEach_delete (fun e => Comment.postId (snd e) =? id)).
  unfold Js.delete. cbn [snd].
  constructor; cbn [users posts comments userId MemStorage.postId commentId];
    try assumption.
  - now apply NoDup_keys_filter.
  - intros a b H. apply filter_In in H. apply D. tauto.
  - now apply NoDup_keys_filter.
  - intros a b H. apply filter_In in H. apply F. tauto.
Qed.

Lemma mem_keyed_exec c s : keyed s -> keyed (exec c s).
Proof.
  intros Ks. destruct c; unfold exec.
  - now apply keyed_createUser.
  - now apply keyed_createPost.
  - now apply keyed_updatePost.
  - now apply keyed_deletePost.
  - unfold createTag. simpl. now apply (keyed_same s).
  - unfold addTagToPost. simpl. now apply (keyed_same s).
  - rewrite removeTagFromPost_state. now apply (keyed_same s).
  - now apply keyed_updatePostTags.
  - now apply keyed_createComment.
  - now apply keyed_updateComment.
  - now apply keyed_deleteComment.
Qed.

Lemma mem_reachable_keyed s : reachable s -> keyed s.
Proof.
  induction 1 as [|c s _ IH].
  - constructor; simpl; first [apply NoDup_nil | intros ? ? []].
  - now apply mem_keyed_exec.
Qed.

(** ** Listing posts *)

Lemma collect_filter {A B} (f : A -> option B) (c : A -> bool) (c' : B -> bool) l :
  (forall x y, In x l -> f x = Some y -> c' y = c x) ->
  collect (fun x => if c x then f x else None) l = filter c' (collect f l).
Proof.
  induction l as [|x r IH]; intros H; simpl; [reflexivity|].
  assert (Hr : forall x y, In x r -> f x = Some y -> c' y = c x)
    by (intros a b Ha; apply H; now right).
  destruct (f x) as [y|] eqn:Fx.
  - simpl. rewrite (H x y (or_introl eq_refl) Fx).
    destruct (c x); now rewrite IH.
  - destruct (c x); now apply IH.
Qed.

Lemma getPost_post s id d :
  getPost s id = Some d ->
  Js.get (posts s) id = Some (PostWithDetails.post d)
  /\ (exists u, Js.get (users s) (Post.authorId (PostWithDetails.post d)) = Some u
                /\ PostWithDetails.author d = Author.mk (User.id u) (User.name u))
  /\ PostWithDetails.tags d = map Tag.name (getTagsByPostId s id).
Proof.
  unfold getPost.
  destruct (Js.get (posts s) id) as [post|]; [|discriminate].
  destruct (Js.get (users s) (Post.authorId post)) as [u|] eqn:G; [|discriminate].
  intros [= <-]. simpl. rewrite G. eauto.
Qed.

Lemma getPostsByAuthor_filter s authorId :
  keyed s ->
  getPostsByAuthor s authorId
  = filter (fun d => Post.authorId (PostWithDetails.post d) =? authorId)
           (getAllPosts s).
Proof.
  intros [A B C D E F]. unfold getPostsByAuthor, getAllPosts.
  apply collect_filter. intros post d Hin Hd.
  apply getPost_post in Hd. destruct Hd as [G _].
  rewrite (get_keyed Post.id (posts s) (MemStorage.postId s) post C D Hin) in G.
  now injection G as <-.
Qed.

Lemma getAllPosts_In s d :
  keyed s ->
  (In d (getAllPosts s) <-> getPost s (Post.id (PostWithDetails.post d)) = Some d).
Proof.
  intros [A B C D E F]. unfold getAllPosts. rewrite collect_In. split.
  - intros [post [Hin Hd]]. pose proof Hd as Hd'.
    apply getPost_post in Hd'. destruct Hd' as [G _].
    rewrite (get_keyed Post.id (posts s) (MemStorage.postId s) post C D Hin) in G.
    injection G as <-. exact Hd.
  - intros Hd. pose proof Hd as Hd'. apply getPost_post in Hd'.
    destruct Hd' as [G _]. exists (PostWithDetails.post d).
    split; [|exact Hd]. eapply get_value; eauto.
Qed.

(** ** Comments *)

Lemma collect_app {A B} (f : A -> option B) l1 l2 :
  collect f (l1 ++ l2) = collect f l1 ++ collect f l2.
Proof.
  induction l1 as [|x r IH]; simpl; [reflexivity|].
  destruct (f x); simpl; now rewrite IH.
Qed.

Lemma createComment_listed d a now s :
  keyed s ->
  let c := Comment.mk (commentId s) (InsertComment.body d) a
                      (InsertComment.postId d) now in
  let s' := snd (createComment d a now s) in
  fst (createComment d a now s) = c
  /\ getComment s' (commentId s) = Some c
  /\ (forall k, k <> commentId s -> getComment s' k = getComment s k)
  /\ getCommentsByPostId s' (InsertComment.postId d)
     = getCommentsByPostId s (InsertComment.postId d)
       ++ match getUser s a with
          | Some author =>
              [CommentWithAuthor.mk c (Author.mk (User.id author)
                                                 (User.name author))]
          | None => []
          end
  /\ (forall q, q <> InsertComment.postId d ->
        getCommentsByPostId s' q = getCommentsByPostId s q).
Proof.
  intros [A B C D E F] c s'. unfold s', createComment. cbv zeta. cbn [fst snd].
  fold c. split; [reflexivity|].
  unfold getComment, getCommentsByPostId, getUser.
  cbn [comments users withComments].
  split; [apply get_set_same|]. split; [intros k Hk; now apply get_set_other|].
  rewrite set_fresh by (apply fresh_key; intros k v H; now apply (F k v)).
  unfold Js.values. rewrite map_app, !collect_app. simpl.
  split.
  - rewrite Z.eqb_refl. now destruct (Js.get (users s) a).
  - intros q Hq. rewrite collect_app. cbn [collect app].
    replace (Comment.postId c =? q) with false
      by (symmetry; apply Z.eqb_neq; unfold c; simpl; congruence).
    now rewrite app_nil_r.
Qed.

End MemMore.

(* ===================================================================== *)
(** * The pager of the client *)
(* ===================================================================== *)

Module PostListFacts.
Import Js JsFacts JsMore PostList.

Lemma pagerItems_In page T it :
  In it (pagerItems page T) <->
  exists i, 0 <= i < Z.min 5 T /\ itemAt page T i = it.
Proof.
  unfold pagerItems. rewrite in_map_iff. split.
  - intros [n [E Hn]]. apply in_seq in Hn. exists (Z.of_nat n).
    split; [lia | exact E].
  - intros [i [Hi E]]. exists (Z.to_nat i). rewrite Z2Nat.id by lia.
    split; [exact E|]. apply in_seq. lia.
Qed.

(** Decides the comparisons of a goal or hypothesis about the pager. *)
Ltac cases :=
  repeat match goal with
    | |- context [?a <=? ?b] => destruct (Z.leb_spec a b)
    | |- context [?a >=? ?b] => rewrite (Z.geb_leb a b)
    | |- context [?a >? ?b] => rewrite (Z.gtb_ltb a b)
    | |- context [?a <? ?b] => destruct (Z.ltb_spec a b)
    | |- context [?a =? ?b] => destruct (Z.eqb_spec a b)
    end; cbn [orb andb].

(** Decides which window of page numbers the pager shows. *)
Ltac window page T :=
  unfold pageNumberAt;
  destruct (Z.leb_spec T 5);
    [|destruct (Z.leb_spec page 3);
      [|rewrite (Z.geb_leb page (T - 2));
        destruct (Z.leb_spec (T - 2) page)]].

Lemma itemAt_link page T i n a :
  1 <= page <= T -> 0 <= i < Z.min 5 T ->
  itemAt page T i = PageLink n a ->
  1 <= n <= T /\ (a = true <-> n = page) /\ handlePageChange T page n = n.
Proof.
  intros Hp Hi. unfold itemAt, handlePageChange. cbv zeta.
  window page T;
  cases; intros E; try discriminate; injection E as <- <-;
    (split; [lia|]); (split; [split; intros; first [lia | reflexivity | discriminate]|]);
    cases; lia.
Qed.

Lemma itemAt_ellipsis page T i n :
  1 <= page <= T -> 0 <= i < Z.min 5 T ->
  itemAt page T i = Ellipsis n -> 1 < n < T /\ n <> page.
Proof.
  intros Hp Hi. unfold itemAt. cbv zeta.
  window page T;
  cases; intros E; try discriminate; injection E as <-; lia.
Qed.

(** The position at which the pager renders a page near the current
    one. *)
Lemma near_linked page T n :
  1 <= page <= T -> 1 <= n <= T -> page - 1 <= n <= page + 1 ->
  In (PageLink n (page =? n)) (pagerItems page T).
Proof.
  intros Hp Hn Hnear. apply pagerItems_In.
  exists (if T <=? 5 then n - 1
          else if page <=? 3 then n - 1
          else if page >=? T - 2 then n - T + 4
          else n - page + 2).
  unfold itemAt. cbv zeta.
  window page T;
  (split; [lia|]);
  match goal with
  | |- context [PageLink ?k _] =>
      replace k with n by lia
  end;
  cases; first [reflexivity | lia].
Qed.

Lemma paginatedPosts_chunk {A} (l : list A) page perPage :
  1 <= page -> 0 < perPage ->
  paginatedPosts l page perPage
  = firstn (Z.to_nat perPage) (skipn (Z.to_nat ((page - 1) * perPage)) l).
Proof.
  intros Hp Hq. unfold paginatedPosts.
  replace (page * perPage) with ((page - 1) * perPage + perPage) by lia.
  apply slice_firstn_skipn; nia.
Qed.

Lemma paginatedPosts_length {A} (l : list A) page perPage :
  1 <= page -> 0 < perPage ->
  Z.of_nat (List.length (paginatedPosts l page perPage))
  = Z.max 0 (Z.min perPage (Z.of_nat (List.length l) - (page - 1) * perPage)).
Proof.
  intros Hp Hq. rewrite paginatedPosts_chunk, length_firstn, length_skipn by lia.
  nia.
Qed.

Lemma paginatedPosts_filled {A} (l : list A) page perPage :
  0 < perPage -> 1 <= page <= totalPages l perPage ->
  paginatedPosts l page perPage <> []
  /\ Z.of_nat (List.length (paginatedPosts l page perPage)) <= perPage.
Proof.
  intros Hq [Hp Ht].
  pose proof (paginatedPosts_length l page perPage Hp Hq) as L.
  assert (N : ~ Z.of_nat (List.length l) <= (page - 1) * perPage).
  { intros C. apply (RoutesMore.ceilDiv_le _ perPage (page - 1) Hq) in C.
    unfold totalPages in Ht. lia. }
  split; [|lia]. intros E. rewrite E in L. simpl in L. lia.
Qed.

Lemma paginatedPosts_cover {A} (l : list A) perPage :
  0 < perPage ->
  List.concat (map (fun k => paginatedPosts l (Z.of_nat k) perPage)
                   (seq 1 (Z.to_nat (totalPages l perPage))))
  = l.
Proof.
  intros Hq. rewrite <- seq_shift, map_map.
  erewrite map_ext.
  2:{ intros k. rewrite paginatedPosts_chunk by lia.
      replace (Z.to_nat ((Z.of_nat (S k) - 1) * perPage))
        with (k * Z.to_nat perPage)%nat by nia.
      reflexivity. }
  apply chunks_concat; [lia|].
  unfold totalPages. set (T := ceilDiv _ _).
  assert (HT : Z.of_nat (List.length l) <= T * perPage)
    by (apply RoutesMore.ceilDiv_le; [lia | unfold T; lia]).
  assert (0 <= T) by (unfold T, ceilDiv; apply Z.div_pos; lia).
  apply Nat2Z.inj_le. rewrite Nat2Z.inj_mul, !Z2Nat.id by lia. exact HT.
Qed.

End PostListFacts.

(* ===================================================================== *)
(** * Comments in memory and in the database *)
(* ===================================================================== *)

Module AgreementFacts.
Import Js JsFacts JsMore Agreement.

Section Rows.
Context {V : Type}.
Variable key : V -> Z.

(** A map that keeps every value under its own key, read as a table. *)
Lemma values_get (m : Js.Map V) k :
  (forall a b, In (a, b) m -> key b = a) ->
  hd_error (filter (fun v => key v =? k) (Js.values m)) = Js.get m k.
Proof.
  unfold Js.values, Js.get. induction m as [|[a b] r IH]; intros K; simpl;
    [reflexivity|].
  rewrite (K a b (or_introl eq_refl)).
  destruct (a =? k); [reflexivity|]. apply IH. intros x y H. apply K. now right.
Qed.

Lemma values_set (m : Js.Map V) k c (f : V -> V) :
  NoDup (Js.keys m) ->
  (forall a b, In (a, b) m -> key b = a) ->
  Js.get m k = Some c ->
  Js.values (Js.set m k (f c))
  = map (fun r => if key r =? k then f r else r) (Js.values m).
Proof.
  unfold Js.values, Js.get. induction m as [|[a b] r IH]; intros N K G;
    simpl in *; [discriminate|].
  inversion N as [|? ? Hnotin N']; subst.
  rewrite (K a b (or_introl eq_refl)).
  destruct (Z.eqb_spec a k) as [E|E]; simpl.
  - injection G as <-. f_equal. rewrite <- (map_id (map snd r)) at 1.
    rewrite !map_map. apply map_ext_in. intros [x y] Hin. simpl.
    rewrite (K x y (or_intror Hin)).
    destruct (Z.eqb_spec x k) as [Ex|Ex]; [|reflexivity].
    exfalso. apply Hnotin. subst. apply (In_keys _ _ _ Hin).
  - f_equal. apply IH; auto.
Qed.

Lemma values_delete (m : Js.Map V) k :
  (forall a b, In (a, b) m -> key b = a) ->
  Js.values (fst (Js.delete m k))
  = filter (fun v => negb (key v =? k)) (Js.values m)
  /\ snd (Js.delete m k)
     = match filter (fun v => key v =? k) (Js.values m) with
       | [] => false
       | _ :: _ => true
       end.
Proof.
  unfold Js.values, Js.delete, Js.has. simpl.
  induction m as [|[a b] r IH]; intros K; simpl; [auto|].
  rewrite (K a b (or_introl eq_refl)).
  destruct IH as [I1 I2]; [intros x y H; apply K; now right|].
  destruct (a =? k); simpl; split; auto. now rewrite I1.
Qed.
End Rows.

Section Lookup.
Context {A : Type}.
Variable key : A -> Z.

Lemma Permutation_filter (p : A -> bool) l l' :
  Permutation l l' -> Permutation (filter p l) (filter p l').
Proof.
  induction 1 as [|x l l' _ IH|x y l|l l' l'' _ IH1 _ IH2]; simpl.
  - constructor.
  - destruct (p x); [now constructor | exact IH].
  - destruct (p x), (p y); try apply Permutation_refl. apply perm_swap.
  - now transitivity (filter p l').
Qed.

(** A table with distinct keys holds at most one row under a key. *)
Lemma unique_row k l :
  NoDup (map key l) ->
  Nat.le (List.length (filter (fun v => key v =? k) l)) 1.
Proof.
  induction l as [|a l IH]; simpl; intros N; [lia|].
  inversion N as [|? ? Hn N']; subst.
  destruct (Z.eqb_spec (key a) k) as [E|E]; [|auto].
  simpl. destruct (filter _ l) as [|b r] eqn:F; [simpl; lia|].
  exfalso. apply Hn.
  assert (Hb : In b (filter (fun v => key v =? k) l)) by (rewrite F; now left).
  apply filter_In in Hb. destruct Hb as [Hb Eb]. apply Z.eqb_eq in Eb.
  apply in_map_iff. exists b. split; [lia | exact Hb].
Qed.

(** So a lookup by key does not depend on the order of the rows. *)
Lemma lookup_perm k l l' :
  NoDup (map key l) -> Permutation l l' ->
  filter (fun v => key v =? k) l = filter (fun v => key v =? k) l'.
Proof.
  intros N P. pose proof (unique_row k l N) as U.
  pose proof (Permutation_filter (fun v => key v =? k) l l' P) as Pf.
  destruct (filter _ l) as [|a [|b r]].
  - now rewrite (Permutation_nil Pf).
  - now rewrite (Permutation_length_1_inv Pf).
  - simpl in U. lia.
Qed.

Lemma in_place_perm (p : A -> bool) (f : A -> A) l l' :
  Permutation l l' ->
  Permutation (map (fun r => if p r then f r else r) l)
              (filter (fun r => negb (p r)) l' ++ map f (filter p l')).
Proof.
  intros P. etransitivity; [apply DbFacts.updated_in_place|].
  apply Permutation_app; [|apply Permutation_map];
    now apply Permutation_filter.
Qed.
End Lookup.

Lemma values_ids m :
  MemStorage.keyed m ->
  NoDup (map Comment.id (Js.values (MemStorage.comments m))).
Proof.
  intros K. unfold Js.values. rewrite map_map.
  erewrite map_ext_in; [apply (MemStorage.keyed_comment_keys m K)|].
  intros [a b] H. simpl. apply (MemStorage.keyed_comments m K a b H).
Qed.

Lemma sameComments_keyed m d :
  MemStorage.keyed m -> sameComments m d ->
  Forall (fun c => Comment.id c < DatabaseStorage.commentsSeq d)
         (DatabaseStorage.comments d).
Proof.
  intros K [Hv Hn]. rewrite <- Hn.
  apply (Permutation_Forall Hv). apply Forall_forall.
  intros c Hc. unfold Js.values in Hc. apply in_map_iff in Hc.
  destruct Hc as [[a b] [E Hin]]. simpl in E. subst b.
  destruct (MemStorage.keyed_comments m K a c Hin). lia.
Qed.

(** The row of a comment id is the same in both. *)
Lemma sameComments_row m d id :
  MemStorage.keyed m -> sameComments m d ->
  filter (fun c => Comment.id c =? id) (DatabaseStorage.comments d)
  = filter (fun c => Comment.id c =? id) (Js.values (MemStorage.comments m))
  /\ hd_error (filter (fun c => Comment.id c =? id) (DatabaseStorage.comments d))
     = Js.get (MemStorage.comments m) id.
Proof.
  intros K [Hv _].
  assert (E : filter (fun c => Comment.id c =? id) (DatabaseStorage.comments d)
              = filter (fun c => Comment.id c =? id)
                       (Js.values (MemStorage.comments m)))
    by (symmetry; apply (lookup_perm Comment.id); [now apply values_ids | exact Hv]).
  split; [exact E|]. rewrite E. apply (values_get Comment.id).
  intros a b H. apply (MemStorage.keyed_comments m K a b H).
Qed.

Lemma getComment_agrees m d id :
  MemStorage.keyed m -> sameComments m d ->
  DatabaseStorage.int4 id = true ->
  DatabaseStorage.getComment id d = (Ok (MemStorage.getComment m id), d).
Proof.
  intros K S I. unfold DatabaseStorage.getComment, MemStorage.getComment.
  rewrite DbFacts.query_fits by now apply DbFacts.fits1.
  now rewrite (proj2 (sameComments_row m d id K S)).
Qed.

Lemma createComment_agrees m d data authorId now :
  MemStorage.keyed m -> sameComments m d ->
  DatabaseStorage.int4 authorId = true ->
  DatabaseStorage.int4 (InsertComment.postId data) = true ->
  DatabaseStorage.int4 (MemStorage.commentId m) = true ->
  exists d',
    DatabaseStorage.createComment data authorId now d
    = (Ok (fst (MemStorage.createComment data authorId now m)), d')
    /\ sameComments (snd (MemStorage.createComment data authorId now m)) d'.
Proof.
  intros K S Ia Ip Is. pose proof (sameComments_keyed m d K S) as F.
  destruct S as [Hv Hn].
  unfold DatabaseStorage.createComment, DatabaseStorage.insertComment,
    MemStorage.createComment. cbn [fst snd].
  rewrite DbFacts.bound_fits by now apply DbFacts.fits2.
  rewrite <- Hn in F |- *. rewrite Is. cbn [negb].
  cbn [DatabaseStorage.comments DatabaseStorage.commentsSeq].
  rewrite (DbMore.fresh_id_absent Comment.id _ _ F).
  eexists. split; [reflexivity|]. split; simpl; [|lia].
  rewrite set_fresh.
  - unfold Js.values. rewrite map_app. simpl.
    now apply Permutation_app_tail.
  - apply MemFacts.fresh_key. intros k v H.
    apply (MemStorage.keyed_comments m K k v H).
Qed.

Lemma updateComment_agrees m d id data :
  MemStorage.keyed m -> sameComments m d ->
  DatabaseStorage.int4 id = true ->
  exists d',
    DatabaseStorage.updateComment id data d
    = (Ok (fst (MemStorage.updateComment id data m)), d')
    /\ sameComments (snd (MemStorage.updateComment id data m)) d'.
Proof.
  intros K S I. destruct (sameComments_row m d id K S) as [Er G].
  destruct S as [Hv Hn].
  assert (Kc : forall a b, In (a, b) (MemStorage.comments m) -> Comment.id b = a)
    by (intros a b H; apply (MemStorage.keyed_comments m K a b H)).
  unfold DatabaseStorage.updateComment, MemStorage.updateComment.
  destruct (fieldSet (PartialInsertComment.body data)) as [b|].
  - unfold DatabaseStorage.bind, DatabaseStorage.updateComments,
      DatabaseStorage.ret.
    rewrite DbFacts.bound_fits by now apply DbFacts.fits1.
    destruct (Js.get (MemStorage.comments m) id) as [c|] eqn:Gm.
    + destruct (filter _ (DatabaseStorage.comments d)) as [|c0 l] eqn:Fd;
        [discriminate|]. simpl in G. injection G as ->.
      eexists. split; [reflexivity|]. split; [|simpl; exact Hn].
      cbn - [map filter Js.values Js.set].
      rewrite (values_set Comment.id (MemStorage.comments m) id c
               (fun c => Comment.mk (Comment.id c) b (Comment.authorId c)
                                    (Comment.postId c) (Comment.createdAt c)));
        auto; [|apply K].
      rewrite <- Fd. now apply in_place_perm.
    + destruct (filter _ (DatabaseStorage.comments d)) as [|c0 l] eqn:Fd;
        [|discriminate].
      eexists. split; [reflexivity|]. split; simpl; [|exact Hn].
      rewrite app_nil_r. etransitivity; [exact Hv|].
      rewrite <- (map_id (DatabaseStorage.comments d)) at 1.
      rewrite <- (app_nil_r (filter _ _)).
      change (@nil Comment.t) with (map (fun c : Comment.t => c) (@nil Comment.t)).
      rewrite <- Fd.
      etransitivity; [|apply (DbFacts.updated_in_place
                                (fun c => Comment.id c =? id) (fun c => c))].
      erewrite map_ext; [apply Permutation_refl|].
      intros x. simpl. now destruct (Comment.id x =? id).
  - unfold DatabaseStorage.getComment.
    rewrite DbFacts.query_fits by now apply DbFacts.fits1. rewrite G.
    destruct (Js.get (MemStorage.comments m) id) as [c|] eqn:Gm.
    + eexists. split; [reflexivity|]. split; simpl; [|exact Hn].
      rewrite (values_set Comment.id (MemStorage.comments m) id c (fun c => c));
        auto; [|apply K].
      erewrite map_ext; [rewrite map_id; exact Hv|].
      intros x. now destruct (Comment.id x =? id).
    + eexists. split; [reflexivity|]. split; [exact Hv | exact Hn].
Qed.

Lemma deleteComment_agrees m d id :
  MemStorage.keyed m -> sameComments m d ->
  DatabaseStorage.int4 id = true ->
  exists d',
    DatabaseStorage.deleteComment id d
    = (Ok (fst (MemStorage.deleteComment id m)), d')
    /\ sameComments (snd (MemStorage.deleteComment id m)) d'.
Proof.
  intros K S I. destruct (sameComments_row m d id K S) as [Er _].
  destruct S as [Hv Hn].
  assert (Kc : forall a b, In (a, b) (MemStorage.comments m) -> Comment.id b = a)
    by (intros a b H; apply (MemStorage.keyed_comments m K a b H)).
  destruct (values_delete Comment.id (MemStorage.comments m) id Kc) as [D1 D2].
  unfold DatabaseStorage.deleteComment, DatabaseStorage.bind,
    DatabaseStorage.deleteComments, DatabaseStorage.ret,
    MemStorage.deleteComment.
  rewrite DbFacts.bound_fits by now apply DbFacts.fits1.
  destruct (Js.delete (MemStorage.comments m) id) as [m' r]. simpl in *.
  rewrite Er, <- D2. eexists. split; [reflexivity|].
  split; simpl; [|exact Hn]. rewrite D1. now apply Permutation_filter.
Qed.

End AgreementFacts.

(* ===================================================================== *)
(** * Further properties of the code *)
(* ===================================================================== *)

Lemma discussed_wf : DatabaseStorage.wf Samples.discussed.
Proof.
  constructor; simpl.
  - repeat constructor; simpl; intuition discriminate.
  - repeat constructor; simpl; lia.
  - repeat constructor; simpl; lia.
  - repeat constructor.
  - repeat constructor.
Qed.

Lemma discussed_keyed : DatabaseStorage.keyed Samples.discussed.
Proof.
  constructor; simpl.
  - repeat constructor; simpl; lia.
  - repeat constructor; simpl; lia.
  - repeat constructor; simpl; intuition discriminate.
  - repeat constructor; simpl; lia.
  - repeat constructor.
  - repeat constructor.
  - repeat constructor.
Qed.

Lemma discussed_room n : n <= 1000 -> DatabaseStorage.room n Samples.discussed.
Proof.
  intros Hn. split; intros k Hk; unfold Samples.discussed;
    cbn [DatabaseStorage.tagsSeq DatabaseStorage.postTagsSeq];
    unfold DatabaseStorage.int4; apply andb_true_iff; split; apply Z.leb_le; lia.
Qed.

(** X4. Registration on the database. When a stored user already has the
    e-mail address, [POST /api/register] answers "Email already in use" and
    writes nothing. Otherwise, while the sequence of user ids has an id
    left in the 32-bit range, the user is stored under the next id of the
    sequence, [getUser] and [getUserByEmail] find it, and a second
    registration with the same address is refused; once the sequence is
    exhausted the insert is rejected and nothing is written. *)
Theorem register_stores_a_new_user_once :
  forall (s : DatabaseStorage.t) (email hashedPassword name : string)
         (image : option string),
    DatabaseStorage.keyed s ->
    ((exists u, In u (DatabaseStorage.users s) /\ User.email u = email) ->
     Handlers.registerUser email hashedPassword name image s
     = (Ok (inl "Email already in use"), s))
    /\ ((forall u, In u (DatabaseStorage.users s) -> User.email u <> email) ->
        DatabaseStorage.int4 (DatabaseStorage.usersSeq s) = true ->
        exists s',
          Handlers.registerUser email hashedPassword name image s
          = (Ok (inr (User.mk (DatabaseStorage.usersSeq s) name email
                              hashedPassword image)), s')
          /\ DatabaseStorage.users s'
             = DatabaseStorage.users s
               ++ [User.mk (DatabaseStorage.usersSeq s) name email
                           hashedPassword image]
          /\ DatabaseStorage.getUser (DatabaseStorage.usersSeq s) s'
             = (Ok (Some (User.mk (DatabaseStorage.usersSeq s) name email
                                  hashedPassword image)), s')
          /\ DatabaseStorage.getUserByEmail email s'
             = (Ok (Some (User.mk (DatabaseStorage.usersSeq s) name email
                                  hashedPassword image)), s')
          /\ Handlers.registerUser email hashedPassword name image s'
             = (Ok (inl "Email already in use"), s'))
    /\ ((forall u, In u (DatabaseStorage.users s) -> User.email u <> email) ->
        DatabaseStorage.int4 (DatabaseStorage.usersSeq s) = false ->
        Handlers.registerUser email hashedPassword name image s
        = (Throw (DatabaseStorage.SequenceExhausted "users"), s)).
Proof.
  intros s email pw name image K. split; [|split].
  - apply DbMore.registerUser_taken.
  - intros F I.
    exact (DbMore.registerUser_fresh email pw name image s
             (DatabaseStorage.keyed_users s K) I F).
  - intros F I. now apply DbMore.registerUser_exhausted.
Qed.

Lemma register_stores_a_new_user_once_witness :
  ((exists u, In u (DatabaseStorage.users Samples.discussed)
              /\ User.email u = "carol@example.org") ->
   Handlers.registerUser "carol@example.org" "h" "Carol" None Samples.discussed
   = (Ok (inl "Email already in use"), Samples.discussed))
  /\ ((forall u, In u (DatabaseStorage.users Samples.discussed) ->
                 User.email u <> "carol@example.org") ->
      DatabaseStorage.int4 (DatabaseStorage.usersSeq Samples.discussed) = true ->
      exists s',
        Handlers.registerUser "carol@example.org" "h" "Carol" None
                              Samples.discussed
        = (Ok (inr (User.mk (DatabaseStorage.usersSeq Samples.discussed)
                            "Carol" "carol@example.org" "h" None)), s')
        /\ DatabaseStorage.users s'
           = DatabaseStorage.users Samples.discussed
             ++ [User.mk (DatabaseStorage.usersSeq Samples.discussed)
                         "Carol" "carol@example.org" "h" None]
        /\ DatabaseStorage.getUser
             (DatabaseStorage.usersSeq Samples.discussed) s'
           = (Ok (Some (User.mk (DatabaseStorage.usersSeq Samples.discussed)
                                "Carol" "carol@example.org" "h" None)), s')
        /\ DatabaseStorage.getUserByEmail "carol@example.org" s'
           = (Ok (Some (User.mk (DatabaseStorage.usersSeq Samples.discussed)
                                "Carol" "carol@example.org" "h" None)), s')
        /\ Handlers.registerUser "carol@example.org" "h" "Carol" None s'
           = (Ok (inl "Email already in use"), s'))
  /\ ((forall u, In u (DatabaseStorage.users Samples.discussed) ->
                 User.email u <> "carol@example.org") ->
      DatabaseStorage.int4 (DatabaseStorage.usersSeq Samples.discussed) = false ->
      Handlers.registerUser "carol@example.org" "h" "Carol" None
                            Samples.discussed
      = (Throw (DatabaseStorage.SequenceExhausted "users"), Samples.discussed)).
Proof.
  apply (register_stores_a_new_user_once Samples.discussed
           "carol@example.org" "h" "Carol" None).
  exact discussed_keyed.
Defined.

(** X5. In every database the methods can produce, the ids of users, posts
    and comments lie below their sequences, post ids are distinct and every
    stored id is a 32-bit integer. So [createPost] for an author id that is
    a 32-bit integer, while the sequences have ids left, resolves with a
    post under the next id of the sequence that no stored post has; it is
    rejected without a write for an author id outside that range or when
    the sequence of post ids is exhausted. [createUser] resolves exactly
    when no stored user has the e-mail address and the sequence of user ids
    has an id left. *)
Theorem DatabaseStorage_inserts_take_fresh_ids :
  forall s : DatabaseStorage.t,
    DatabaseStorage.reachable s ->
    DatabaseStorage.keyed s
    /\ (forall d authorId now,
          (DatabaseStorage.int4 authorId = true ->
           DatabaseStorage.int4 (DatabaseStorage.postsSeq s) = true ->
           DatabaseStorage.room
             (Z.of_nat (List.length (Spec.canonical (InsertPost.tags d)))) s ->
           exists p s',
             DatabaseStorage.createPost d authorId now s = (Ok p, s')
             /\ Post.id p = DatabaseStorage.postsSeq s
             /\ DatabaseStorage.posts s' = DatabaseStorage.posts s ++ [p]
             /\ forall q, In q (DatabaseStorage.posts s) -> Post.id q <> Post.id p)
          /\ (DatabaseStorage.int4 authorId = false ->
              DatabaseStorage.createPost d authorId now s
              = (Throw DatabaseStorage.NotInt4, s))
          /\ (DatabaseStorage.int4 authorId = true ->
              DatabaseStorage.int4 (DatabaseStorage.postsSeq s) = false ->
              DatabaseStorage.createPost d authorId now s
              = (Throw (DatabaseStorage.SequenceExhausted "posts"), s)))
    /\ (forall d,
          (exists u s', DatabaseStorage.createUser d s = (Ok u, s'))
          <-> ((forall u, In u (DatabaseStorage.users s) ->
                          User.email u <> InsertUser.email d)
               /\ DatabaseStorage.int4 (DatabaseStorage.usersSeq s) = true)).
Proof.
  intros s Hs.
  pose proof (DbMore.reachable_keyed s Hs) as K.
  pose proof (DbFacts.reachable_wf s Hs) as W.
  split; [exact K|]. split.
  - intros d authorId now. split; [|split].
    + intros Ia Is Hr.
      destruct (DbMore.createPost_spec d authorId now s W
                  (DatabaseStorage.keyed_posts s K) Ia Is Hr)
        as [s' [E [_ [Hp _]]]].
      eexists. exists s'. split; [exact E|]. split; [reflexivity|].
      split; [exact Hp|]. intros q Hq. simpl.
      pose proof (DatabaseStorage.keyed_posts s K) as F.
      rewrite Forall_forall in F. specialize (F q Hq). lia.
    + apply DbMore.createPost_rejects.
    + apply DbMore.createPost_exhausted.
  - intros d. split.
    + intros [u [s' E]]. split.
      * intros v Hv Hem.
        destruct (DbMore.createUser_rejects d s) as [e [s2 [E2 _]]];
          [exists v; auto | congruence].
      * destruct (DatabaseStorage.int4 (DatabaseStorage.usersSeq s)) eqn:I;
          [reflexivity|].
        rewrite (DbMore.createUser_exhausted d s I) in E. discriminate.
    + intros [F I].
      destruct (DbMore.createUser_stores d s
                  (DatabaseStorage.keyed_users s K) I F) as [s' [E _]].
      eauto.
Qed.

Lemma DatabaseStorage_inserts_take_fresh_ids_witness :
  let s := DatabaseStorage.exec
             (DatabaseStorage.CreateUser
                (InsertUser.mk "Alice" "alice@example.org" "x" None))
             DatabaseStorage.new in
  DatabaseStorage.keyed s
  /\ (forall d authorId now,
        (DatabaseStorage.int4 authorId = true ->
         DatabaseStorage.int4 (DatabaseStorage.postsSeq s) = true ->
         DatabaseStorage.room
           (Z.of_nat (List.length (Spec.canonical (InsertPost.tags d)))) s ->
         exists p s',
           DatabaseStorage.createPost d authorId now s = (Ok p, s')
           /\ Post.id p = DatabaseStorage.postsSeq s
           /\ DatabaseStorage.posts s' = DatabaseStorage.posts s ++ [p]
           /\ forall q, In q (DatabaseStorage.posts s) -> Post.id q <> Post.id p)
        /\ (DatabaseStorage.int4 authorId = false ->
            DatabaseStorage.createPost d authorId now s
            = (Throw DatabaseStorage.NotInt4, s))
        /\ (DatabaseStorage.int4 authorId = true ->
            DatabaseStorage.int4 (DatabaseStorage.postsSeq s) = false ->
            DatabaseStorage.createPost d authorId now s
            = (Throw (DatabaseStorage.SequenceExhausted "posts"), s)))
  /\ (forall d,
        (exists u s', DatabaseStorage.createUser d s = (Ok u, s'))
        <-> ((forall u, In u (DatabaseStorage.users s) ->
                        User.email u <> InsertUser.email d)
             /\ DatabaseStorage.int4 (DatabaseStorage.usersSeq s) = true)).
Proof.
  apply (DatabaseStorage_inserts_take_fresh_ids
           (DatabaseStorage.exec
              (DatabaseStorage.CreateUser
                 (InsertUser.mk "Alice" "alice@example.org" "x" None))
              DatabaseStorage.new)).
  apply DatabaseStorage.reachable_exec. apply DatabaseStorage.reachable_new.
Defined.

(** X6. On a database whose comment ids lie below the sequence,
    [createComment] for an author id and a post id that are 32-bit
    integers, while the sequence of comment ids has an id left, resolves
    with a comment that carries the next id, the body and post id of the
    request, the given author and the instant of creation; [getComment]
    then finds it, and reads every other id as before. For an author id or
    a post id outside that range, or once the sequence is exhausted, it is
    rejected and nothing is written. *)
Theorem DatabaseStorage_createComment_then_getComment :
  forall (s : DatabaseStorage.t) (d : InsertComment.t) (authorId now : Z),
    DatabaseStorage.keyed s ->
    (DatabaseStorage.int4 authorId = true ->
     DatabaseStorage.int4 (InsertComment.postId d) = true ->
     DatabaseStorage.int4 (DatabaseStorage.commentsSeq s) = true ->
     exists s',
       DatabaseStorage.createComment d authorId now s
       = (Ok (Comment.mk (DatabaseStorage.commentsSeq s) (InsertComment.body d)
                         authorId (InsertComment.postId d) now), s')
       /\ DatabaseStorage.getComment (DatabaseStorage.commentsSeq s) s'
          = (Ok (Some (Comment.mk (DatabaseStorage.commentsSeq s)
                                  (InsertComment.body d) authorId
                                  (InsertComment.postId d) now)), s')
       /\ (forall k, k <> DatabaseStorage.commentsSeq s ->
             fst (DatabaseStorage.getComment k s')
             = fst (DatabaseStorage.getComment k s))
       /\ DatabaseStorage.comments s'
          = DatabaseStorage.comments s
            ++ [Comment.mk (DatabaseStorage.commentsSeq s) (InsertComment.body d)
                           authorId (InsertComment.postId d) now]
       /\ DatabaseStorage.posts s' = DatabaseStorage.posts s
       /\ DatabaseStorage.users s' = DatabaseStorage.users s)
    /\ (DatabaseStorage.int4 authorId = false
        \/ DatabaseStorage.int4 (InsertComment.postId d) = false ->
        DatabaseStorage.createComment d authorId now s
        = (Throw DatabaseStorage.NotInt4, s))
    /\ (DatabaseStorage.int4 authorId = true ->
        DatabaseStorage.int4 (InsertComment.postId d) = true ->
        DatabaseStorage.int4 (DatabaseStorage.commentsSeq s) = false ->
        DatabaseStorage.createComment d authorId now s
        = (Throw (DatabaseStorage.SequenceExhausted "comments"), s)).
Proof.
  intros s d authorId now K. split; [|split].
  - intros Ia Ip Is.
    destruct (DbMore.createComment_resolves d authorId now s
                (DatabaseStorage.keyed_comments s K) Ia Ip Is) as [c [s' E]].
    destruct (DbMore.createComment_stores d authorId now s c s' E)
      as [Hc [Hs [Hg [Ho [Hp Hu]]]]].
    subst c. exists s'. split; [exact E|]. split; [exact Hg|].
    split; [exact Ho|]. split; [exact Hs|]. split; assumption.
  - apply DbMore.createComment_rejects.
  - apply DbMore.createComment_exhausted.
Qed.

Lemma DatabaseStorage_createComment_then_getComment_witness :
  exists s',
    DatabaseStorage.createComment (InsertComment.mk "Me too" 2) 1 5
                                  Samples.discussed
    = (Ok (Comment.mk (DatabaseStorage.commentsSeq Samples.discussed)
                      "Me too" 1 2 5), s')
    /\ DatabaseStorage.getComment
         (DatabaseStorage.commentsSeq Samples.discussed) s'
       = (Ok (Some (Comment.mk (DatabaseStorage.commentsSeq Samples.discussed)
                               "Me too" 1 2 5)), s')
    /\ (forall k, k <> DatabaseStorage.commentsSeq Samples.discussed ->
          fst (DatabaseStorage.getComment k s')
          = fst (DatabaseStorage.getComment k Samples.discussed))
    /\ DatabaseStorage.comments s'
       = DatabaseStorage.comments Samples.discussed
         ++ [Comment.mk (DatabaseStorage.commentsSeq Samples.discussed)
                        "Me too" 1 2 5]
    /\ DatabaseStorage.posts s' = DatabaseStorage.posts Samples.discussed
    /\ DatabaseStorage.users s' = DatabaseStorage.users Samples.discussed.
Proof.
  apply (proj1 (DatabaseStorage_createComment_then_getComment Samples.discussed
                  (InsertComment.mk "Me too" 2) 1 5 discussed_keyed));
    reflexivity.
Defined.

(** X7. [updateComment] on the database, for an id that is a 32-bit
    integer, resolves. It changes the body of the comments with the id,
    and only when a body that is not empty is supplied; every other
    comment and every other table is left as it was, the order of the rows
    apart. It resolves with no comment exactly when no comment has the id,
    and otherwise with a comment as it is stored afterwards. For any other
    id it is rejected and nothing is written. *)
Theorem DatabaseStorage_updateComment_changes_only_the_body :
  forall (id : Z) (d : PartialInsertComment.t) (s : DatabaseStorage.t),
    (DatabaseStorage.int4 id = true ->
     exists r s' rows,
       DatabaseStorage.updateComment id d s = (Ok r, s')
       /\ Permutation rows (DatabaseStorage.comments s')
       /\ Forall2 (fun old new =>
                     if Comment.id old =? id then CommentUpdate.patched d old new
                     else new = old)
                  (DatabaseStorage.comments s) rows
       /\ (r = None <->
           forall c, In c (DatabaseStorage.comments s) -> Comment.id c <> id)
       /\ (forall c', r = Some c' ->
             exists c, In c (DatabaseStorage.comments s) /\ Comment.id c = id
                       /\ CommentUpdate.patched d c c'
                       /\ In c' (DatabaseStorage.comments s'))
       /\ DatabaseStorage.users s' = DatabaseStorage.users s
       /\ DatabaseStorage.posts s' = DatabaseStorage.posts s
       /\ DatabaseStorage.tags s' = DatabaseStorage.tags s
       /\ DatabaseStorage.postTags s' = DatabaseStorage.postTags s)
    /\ (DatabaseStorage.int4 id = false ->
        DatabaseStorage.updateComment id d s
        = (Throw DatabaseStorage.NotInt4, s)).
Proof.
  intros id d s. split; [|apply DbMore.updateComment_rejects].
  intros I.
  destruct (DbMore.updateComment_result id d s I)
    as [r [s' [E [Hu [Hp [Ht [Hl [Hn Hs]]]]]]]].
  destruct (DbMore.updateComment_spec id d s I) as [rows [P F]].
  rewrite E in P. exists r, s', rows. split; [exact E|]. splits; auto.
Qed.

Lemma DatabaseStorage_updateComment_changes_only_the_body_witness :
  exists r s' rows,
    DatabaseStorage.updateComment 1 (PartialInsertComment.mk (Some "Nicer") None)
                                  Samples.discussed = (Ok r, s')
    /\ Permutation rows (DatabaseStorage.comments s')
    /\ Forall2 (fun old new =>
                  if Comment.id old =? 1
                  then CommentUpdate.patched
                         (PartialInsertComment.mk (Some "Nicer") None) old new
                  else new = old)
               (DatabaseStorage.comments Samples.discussed) rows
    /\ (r = None <->
        forall c, In c (DatabaseStorage.comments Samples.discussed) ->
                  Comment.id c <> 1)
    /\ (forall c', r = Some c' ->
          exists c, In c (DatabaseStorage.comments Samples.discussed)
                    /\ Comment.id c = 1
                    /\ CommentUpdate.patched
                         (PartialInsertComment.mk (Some "Nicer") None) c c'
                    /\ In c' (DatabaseStorage.comments s'))
    /\ DatabaseStorage.users s' = DatabaseStorage.users Samples.discussed
    /\ DatabaseStorage.posts s' = DatabaseStorage.posts Samples.discussed
    /\ DatabaseStorage.tags s' = DatabaseStorage.tags Samples.discussed
    /\ DatabaseStorage.postTags s' = DatabaseStorage.postTags Samples.discussed.
Proof.
  apply (proj1 (DatabaseStorage_updateComment_changes_only_the_body
                  1 (PartialInsertComment.mk (Some "Nicer") None) Samples.discussed)).
  reflexivity.
Defined.

(** X8. [deleteComment] on the database, for an id that is a 32-bit
    integer, resolves. It removes exactly the comments with the id,
    resolves with true when there was one and with false otherwise, and
    [getComment] on the id then finds nothing. For any other id it is
    rejected and nothing is written. *)
Theorem DatabaseStorage_deleteComment_removes_the_comment :
  forall (id : Z) (s : DatabaseStorage.t),
    (DatabaseStorage.int4 id = true ->
     exists b s',
       DatabaseStorage.deleteComment id s = (Ok b, s')
       /\ DatabaseStorage.comments s'
          = filter (fun c => negb (Comment.id c =? id))
                   (DatabaseStorage.comments s)
       /\ (forall c, In c (DatabaseStorage.comments s') <->
                     In c (DatabaseStorage.comments s) /\ Comment.id c <> id)
       /\ (b = true <->
           exists c, In c (DatabaseStorage.comments s) /\ Comment.id c = id)
       /\ DatabaseStorage.getComment id s' = (Ok None, s'))
    /\ (DatabaseStorage.int4 id = false ->
        DatabaseStorage.deleteComment id s
        = (Throw DatabaseStorage.NotInt4, s)).
Proof.
  intros id s. split; [|apply DbMore.deleteComment_rejects].
  intros I.
  destruct (DbMore.deleteComment_spec id s I) as [b [s' [E [Hc [Hb Hg]]]]].
  exists b, s'. splits; auto.
  intros c. rewrite Hc, filter_In, negb_true_iff, Z.eqb_neq. tauto.
Qed.

Lemma DatabaseStorage_deleteComment_removes_the_comment_witness :
  exists b s',
    DatabaseStorage.deleteComment 1 Samples.discussed = (Ok b, s')
    /\ DatabaseStorage.comments s'
       = filter (fun c => negb (Comment.id c =? 1))
                (DatabaseStorage.comments Samples.discussed)
    /\ (forall c, In c (DatabaseStorage.comments s') <->
                  In c (DatabaseStorage.comments Samples.discussed)
                  /\ Comment.id c <> 1)
    /\ (b = true <->
        exists c, In c (DatabaseStorage.comments Samples.discussed)
                  /\ Comment.id c = 1)
    /\ DatabaseStorage.getComment 1 s' = (Ok None, s').
Proof.
  apply (proj1 (DatabaseStorage_deleteComment_removes_the_comment
                  1 Samples.discussed)).
  reflexivity.
Defined.

(** X9. [removeTagFromPost] on the database, for a post id and a tag id
    that are 32-bit integers, resolves. It removes every row that links
    the post to the tag and no other row, leaves the table of tags alone,
    and resolves with true exactly when such a row was stored; afterwards
    the post is not linked to the tag, and every other link reads as
    before. For any other ids it is rejected and nothing is written. *)
Theorem DatabaseStorage_removeTagFromPost_unlinks_the_pair :
  forall (postId tagId : Z) (s : DatabaseStorage.t),
    (DatabaseStorage.int4 postId = true ->
     DatabaseStorage.int4 tagId = true ->
     exists b s',
       DatabaseStorage.removeTagFromPost postId tagId s = (Ok b, s')
       /\ DatabaseStorage.postTags s'
          = filter (fun r => negb ((PostTag.postId r =? postId)
                                   && (PostTag.tagId r =? tagId)))
                   (DatabaseStorage.postTags s)
       /\ (forall r, In r (DatabaseStorage.postTags s') <->
                     In r (DatabaseStorage.postTags s)
                     /\ DatabaseStorage.pairOf r <> (postId, tagId))
       /\ DatabaseStorage.tags s' = DatabaseStorage.tags s
       /\ (b = true <->
           exists r, In r (DatabaseStorage.postTags s)
                     /\ DatabaseStorage.pairOf r = (postId, tagId))
       /\ (exists linked,
             DatabaseStorage.getTagsByPostId postId s' = (Ok linked, s')
             /\ forall g, In g linked -> Tag.id g <> tagId)
       /\ (forall q g before after,
             q <> postId \/ Tag.id g <> tagId ->
             DatabaseStorage.getTagsByPostId q s = (Ok before, s) ->
             DatabaseStorage.getTagsByPostId q s' = (Ok after, s') ->
             (In g after <-> In g before)))
    /\ (DatabaseStorage.int4 postId = false
        \/ DatabaseStorage.int4 tagId = false ->
        DatabaseStorage.removeTagFromPost postId tagId s
        = (Throw DatabaseStorage.NotInt4, s)).
Proof.
  intros postId tagId s. split; [|apply DbMore.removeTagFromPost_rejects].
  intros Ip It.
  destruct (DbMore.removeTagFromPost_spec postId tagId s Ip It)
    as [b [s' [E [Hr [Ht [Hb [Hl Ho]]]]]]].
  exists b, s'. splits; auto.
  - intros r. rewrite Hr, filter_In, negb_true_iff, andb_false_iff.
    rewrite !Z.eqb_neq. unfold DatabaseStorage.pairOf. split.
    + intros [Hin Hne]. split; [exact Hin|]. intros [= A B]. tauto.
    + intros [Hin Hne]. split; [exact Hin|].
      destruct (Z.eq_dec (PostTag.postId r) postId) as [A|A]; [|now left].
      right. intros B. apply Hne. congruence.
  - exists (DatabaseStorage.linkedTags s' postId).
    split; [now apply DbFacts.getTagsByPostId_linked | exact Hl].
  - intros q g before after Hq Hbefore Hafter.
    destruct (DatabaseStorage.int4 q) eqn:Iq.
    + rewrite DbFacts.getTagsByPostId_linked in Hbefore, Hafter by exact Iq.
      injection Hbefore as <-. injection Hafter as <-. now apply Ho.
    + unfold DatabaseStorage.getTagsByPostId, DatabaseStorage.query in Hbefore.
      rewrite DbFacts.bound_rejects in Hbefore by now apply DbFacts.misfits1.
      discriminate.
Qed.

Lemma DatabaseStorage_removeTagFromPost_unlinks_the_pair_witness :
  exists b s',
    DatabaseStorage.removeTagFromPost 1 1 Samples.discussed = (Ok b, s')
    /\ DatabaseStorage.postTags s'
       = filter (fun r => negb ((PostTag.postId r =? 1)
                                && (PostTag.tagId r =? 1)))
                (DatabaseStorage.postTags Samples.discussed)
    /\ (forall r, In r (DatabaseStorage.postTags s') <->
                  In r (DatabaseStorage.postTags Samples.discussed)
                  /\ DatabaseStorage.pairOf r <> (1, 1))
    /\ DatabaseStorage.tags s' = DatabaseStorage.tags Samples.discussed
    /\ (b = true <->
        exists r, In r (DatabaseStorage.postTags Samples.discussed)
                  /\ DatabaseStorage.pairOf r = (1, 1))
    /\ (exists linked,
          DatabaseStorage.getTagsByPostId 1 s' = (Ok linked, s')
          /\ forall g, In g linked -> Tag.id g <> 1)
    /\ (forall q g before after,
          q <> 1 \/ Tag.id g <> 1 ->
          DatabaseStorage.getTagsByPostId q Samples.discussed
          = (Ok before, Samples.discussed) ->
          DatabaseStorage.getTagsByPostId q s' = (Ok after, s') ->
          (In g after <-> In g before)).
Proof.
  apply (proj1 (DatabaseStorage_removeTagFromPost_unlinks_the_pair
                  1 1 Samples.discussed)); reflexivity.
Defined.

(** X10. [POST /api/posts] on a well-formed database for a stored user,
    while the sequences of post, tag and link ids have ids left in the
    32-bit range: the handler replies 201 with the post as [getPost] reads
    it back, never the 500 "Failed to retrieve created post". The post
    carries the next id of the sequence, the title and body of the
    request, the user as author and the instant of creation, and its tag
    names, lower-cased, are the canonical names of the request. Once the
    sequence of post ids is exhausted the insert is rejected, the handler
    passes the error on and nothing is written. *)
Theorem postApiPosts_replies_with_the_stored_post :
  forall (s : DatabaseStorage.t) (d : InsertPost.t) (u : User.t) (now : Z),
    DatabaseStorage.wf s -> DatabaseStorage.keyed s ->
    In u (DatabaseStorage.users s) ->
    (DatabaseStorage.int4 (DatabaseStorage.postsSeq s) = true ->
     DatabaseStorage.room
       (Z.of_nat (List.length (Spec.canonical (InsertPost.tags d)))) s ->
     exists pd s',
       Handlers.postApiPosts d (Some u) now s = (Handlers.Created pd, s')
       /\ PostWithDetails.post pd
          = Post.mk (DatabaseStorage.postsSeq s) (InsertPost.title d)
                    (InsertPost.body d) (User.id u) now
       /\ Author.id (PostWithDetails.author pd) = User.id u
       /\ DatabaseStorage.posts s'
          = DatabaseStorage.posts s ++ [PostWithDetails.post pd]
       /\ DatabaseStorage.getPost (DatabaseStorage.postsSeq s) s'
          = (Ok (Some pd), s')
       /\ (InsertPost.tags d <> [] ->
           forall x, In x (map Js.toLowerCase (PostWithDetails.tags pd))
                     <-> In x (Spec.canonical (InsertPost.tags d))))
    /\ (DatabaseStorage.int4 (DatabaseStorage.postsSeq s) = false ->
        Handlers.postApiPosts d (Some u) now s
        = (Handlers.Errored (DatabaseStorage.SequenceExhausted "posts"), s)).
Proof.
  intros s d u now W K Hu. split.
  - intros Is Hr. exact (DbMore.postApiPosts_created d u now s W K Hu Is Hr).
  - intros Is. unfold Handlers.postApiPosts.
    now rewrite (DbMore.createPost_exhausted d (User.id u) now s
                   (DbMore.keyed_user_fits s u K Hu) Is).
Qed.

Lemma discussed_bob : In Samples.bob (DatabaseStorage.users Samples.discussed).
Proof. simpl. right. left. reflexivity. Qed.

Lemma discussed_room_for_three :
  DatabaseStorage.room
    (Z.of_nat (List.length (Spec.canonical ["Go "; "go"; "API"])))
    Samples.discussed.
Proof. apply discussed_room. vm_compute. discriminate. Qed.

Lemma postApiPosts_replies_with_the_stored_post_witness :
  exists pd s',
    Handlers.postApiPosts (InsertPost.mk "Third" "More" ["Go "; "go"; "API"])
                          (Some Samples.bob) 7 Samples.discussed
    = (Handlers.Created pd, s')
    /\ PostWithDetails.post pd
       = Post.mk (DatabaseStorage.postsSeq Samples.discussed) "Third" "More"
                 (User.id Samples.bob) 7
    /\ Author.id (PostWithDetails.author pd) = User.id Samples.bob
    /\ DatabaseStorage.posts s'
       = DatabaseStorage.posts Samples.discussed ++ [PostWithDetails.post pd]
    /\ DatabaseStorage.getPost (DatabaseStorage.postsSeq Samples.discussed) s'
       = (Ok (Some pd), s')
    /\ (["Go "; "go"; "API"] <> [] ->
        forall x, In x (map Js.toLowerCase (PostWithDetails.tags pd))
                  <-> In x (Spec.canonical ["Go "; "go"; "API"])).
Proof.
  apply (proj1 (postApiPosts_replies_with_the_stored_post Samples.discussed
                  (InsertPost.mk "Third" "More" ["Go "; "go"; "API"])
                  Samples.bob 7 discussed_wf discussed_keyed discussed_bob)).
  - reflexivity.
  - exact discussed_room_for_three.
Defined.

(** X11. [updatePost] on the database, for an id that is a 32-bit
    integer, touches the tags only when it writes a title or a body. With
    neither a title nor a body that is not empty it resolves with the
    stored post and leaves the whole database as it was, whatever tags are
    supplied. With one of them, a stored post and a list of tags that is
    not empty, while the sequences of tag and link ids have ids left, it
    resolves with the post and the names of the tags then linked,
    lower-cased, are the canonical names. For any other id it is rejected
    and nothing is written. *)
Theorem DatabaseStorage_updatePost_sets_tags_only_with_title_or_body :
  forall (s : DatabaseStorage.t) (id : Z) (d : PartialInsertPost.t),
    DatabaseStorage.wf s ->
    (DatabaseStorage.int4 id = true ->
     fieldSet (PartialInsertPost.title d) = None ->
     fieldSet (PartialInsertPost.body d) = None ->
     exists r, DatabaseStorage.updatePost id d s = (Ok r, s))
    /\ (DatabaseStorage.int4 id = true ->
        fieldSet (PartialInsertPost.title d) <> None
        \/ fieldSet (PartialInsertPost.body d) <> None ->
        (exists p, In p (DatabaseStorage.posts s) /\ Post.id p = id) ->
        forall x r, PartialInsertPost.tags d = Some (x :: r) ->
        DatabaseStorage.room
          (Z.of_nat (List.length (Spec.canonical (x :: r)))) s ->
        exists p' s' linked,
          DatabaseStorage.updatePost id d s = (Ok (Some p'), s')
          /\ DatabaseStorage.getTagsByPostId id s' = (Ok linked, s')
          /\ forall y, In y (map Js.toLowerCase (map Tag.name linked))
                       <-> In y (Spec.canonical (x :: r)))
    /\ (DatabaseStorage.int4 id = false ->
        DatabaseStorage.updatePost id d s = (Throw DatabaseStorage.NotInt4, s)).
Proof.
  intros s id d W. split; [|split].
  - intros I Ht Hb. eexists. now apply DbMore.updatePost_no_fields.
  - intros I Hf Hp x r Htags Hr.
    destruct (DbMore.updatePost_with_tags id d s x r W I Hr Hf Hp Htags)
      as [p' [s' [E [_ Hl]]]].
    exists p', s', (DatabaseStorage.linkedTags s' id).
    split; [exact E|].
    split; [now apply DbFacts.getTagsByPostId_linked | exact Hl].
  - apply DbFacts.updatePost_rejects.
Qed.

Lemma DatabaseStorage_updatePost_sets_tags_only_with_title_or_body_witness :
  let d := PartialInsertPost.mk (Some "Hello again") None (Some ["Go"]) in
  (DatabaseStorage.int4 1 = true ->
   fieldSet (PartialInsertPost.title d) = None ->
   fieldSet (PartialInsertPost.body d) = None ->
   exists r, DatabaseStorage.updatePost 1 d Samples.discussed
             = (Ok r, Samples.discussed))
  /\ (DatabaseStorage.int4 1 = true ->
      fieldSet (PartialInsertPost.title d) <> None
      \/ fieldSet (PartialInsertPost.body d) <> None ->
      (exists p, In p (DatabaseStorage.posts Samples.discussed)
                 /\ Post.id p = 1) ->
      forall x r, PartialInsertPost.tags d = Some (x :: r) ->
      DatabaseStorage.room
        (Z.of_nat (List.length (Spec.canonical (x :: r)))) Samples.discussed ->
      exists p' s' linked,
        DatabaseStorage.updatePost 1 d Samples.discussed = (Ok (Some p'), s')
        /\ DatabaseStorage.getTagsByPostId 1 s' = (Ok linked, s')
        /\ forall y, In y (map Js.toLowerCase (map Tag.name linked))
                     <-> In y (Spec.canonical (x :: r)))
  /\ (DatabaseStorage.int4 1 = false ->
      DatabaseStorage.updatePost 1 d Samples.discussed
      = (Throw DatabaseStorage.NotInt4, Samples.discussed)).
Proof.
  apply (DatabaseStorage_updatePost_sets_tags_only_with_title_or_body
           Samples.discussed 1
           (PartialInsertPost.mk (Some "Hello again") None (Some ["Go"]))).
  exact discussed_wf.
Defined.

(** X12. In every database produced through the routes, which reach the
    tags only through [updatePostTags], every tag name is trimmed,
    lower-case and not empty, and no two tags have the same name, also
    when letter case is ignored. *)
Theorem routes_keep_tag_names_canonical :
  forall s : DatabaseStorage.t,
    DatabaseStorage.routeReachable s ->
    (forall g, In g (DatabaseStorage.tags s) ->
               Js.trim (Js.toLowerCase (Tag.name g)) = Tag.name g
               /\ Js.toLowerCase (Tag.name g) = Tag.name g
               /\ Tag.name g <> "")
    /\ NoDup (map Tag.name (DatabaseStorage.tags s))
    /\ NoDup (map (fun g => Js.toLowerCase (Tag.name g))
                  (DatabaseStorage.tags s)).
Proof.
  intros s Hs. pose proof (DbMore.routeReachable_canonical s Hs) as C.
  split; [|split].
  - intros g Hg. destruct C as [F _]. rewrite Forall_forall in F.
    destruct (F g Hg) as [A B]. split; [exact A|]. split; [|exact B].
    apply DbMore.normalizedName_lower. now split.
  - apply C.
  - now apply DbMore.canonical_lower_unique.
Qed.

Lemma routes_keep_tag_names_canonical_witness :
  let s := DatabaseStorage.exec
             (DatabaseStorage.UpdatePostTags 1 ["Go "; "go"; " API"])
             DatabaseStorage.new in
  (forall g, In g (DatabaseStorage.tags s) ->
             Js.trim (Js.toLowerCase (Tag.name g)) = Tag.name g
             /\ Js.toLowerCase (Tag.name g) = Tag.name g
             /\ Tag.name g <> "")
  /\ NoDup (map Tag.name (DatabaseStorage.tags s))
  /\ NoDup (map (fun g => Js.toLowerCase (Tag.name g))
                (DatabaseStorage.tags s)).
Proof.
  apply (routes_keep_tag_names_canonical
           (DatabaseStorage.exec
              (DatabaseStorage.UpdatePostTags 1 ["Go "; "go"; " API"])
              DatabaseStorage.new)).
  apply DatabaseStorage.routeReachable_exec;
    [reflexivity | apply DatabaseStorage.routeReachable_new].
Defined.

(** X13. On a database produced through the routes, [getPostsByTag] with
    a lower-cased name resolves with the posts of the tag that
    [getTagByName] finds for the name in any letter case: a post is listed
    exactly when a row links it to that tag and [getPost] reads it. *)
Theorem DatabaseStorage_getPostsByTag_with_lower_case_name :
  forall (s : DatabaseStorage.t) (name : string),
    DatabaseStorage.routeReachable s ->
    exists ps,
      DatabaseStorage.getPostsByTag (Js.toLowerCase name) s = (Ok ps, s)
      /\ forall d, In d ps <->
           exists tag r,
             DatabaseStorage.getTagByName name s = (Ok (Some tag), s)
             /\ In r (DatabaseStorage.postTags s)
             /\ PostTag.tagId r = Tag.id tag
             /\ DatabaseStorage.getPost (PostTag.postId r) s = (Ok (Some d), s).
Proof.
  intros s name Hs.
  pose proof (DbMore.routeReachable_canonical s Hs) as C.
  pose proof (DbMore.routeReachable_reachable s Hs) as R.
  destruct (DbMore.getPostsByTag_In (Js.toLowerCase name) s
              (DbFacts.reachable_wf s R) (DbMore.reachable_keyed s R))
    as [ps [E H]].
  exists ps. split; [exact E|]. intros d. rewrite H.
  rewrite (DbMore.canonical_lookup s name C).
  split; intros [tag [r [A B]]]; exists tag, r; (split; [|exact B]).
  - now rewrite A.
  - now injection A.
Qed.

Lemma DatabaseStorage_getPostsByTag_with_lower_case_name_witness :
  let s := DatabaseStorage.exec
             (DatabaseStorage.CreatePost
                (InsertPost.mk "Hello" "First post" ["Go"]) 1 0)
             (DatabaseStorage.exec
                (DatabaseStorage.CreateUser
                   (InsertUser.mk "Alice" "alice@example.org" "x" None))
                DatabaseStorage.new) in
  exists ps,
    DatabaseStorage.getPostsByTag (Js.toLowerCase "GO") s = (Ok ps, s)
    /\ forall d, In d ps <->
         exists tag r,
           DatabaseStorage.getTagByName "GO" s = (Ok (Some tag), s)
           /\ In r (DatabaseStorage.postTags s)
           /\ PostTag.tagId r = Tag.id tag
           /\ DatabaseStorage.getPost (PostTag.postId r) s = (Ok (Some d), s).
Proof.
  apply (DatabaseStorage_getPostsByTag_with_lower_case_name
           (DatabaseStorage.exec
              (DatabaseStorage.CreatePost
                 (InsertPost.mk "Hello" "First post" ["Go"]) 1 0)
              (DatabaseStorage.exec
                 (DatabaseStorage.CreateUser
                    (InsertUser.mk "Alice" "alice@example.org" "x" None))
                 DatabaseStorage.new))
           "GO").
  apply DatabaseStorage.routeReachable_exec; [reflexivity|].
  apply DatabaseStorage.routeReachable_exec;
    [reflexivity | apply DatabaseStorage.routeReachable_new].
Defined.

(** X14. A run of the expiry job on any storage in which
    [getPostsOlderThan] resolves and every [deletePost] resolves: with no
    expired post it logs "No posts to delete" and calls nothing; otherwise
    it calls [deletePost] once for each expired post, in the order
    returned, logs each deletion and then the completion, and logs no
    error. The storage is left as the deletes left it. *)
Theorem job_deletes_each_expired_post_in_order :
  forall (St E : Type) (storage : Scheduler.IStorage St E)
         (zone : Js.Zone) (now : Z) (s s1 s2 : St) (oldPosts : list Post.t),
    Scheduler.getPostsOlderThan zone now 24%Q s = (Ok oldPosts, s1) ->
    Scheduler.deletesResolve oldPosts s1 s2 ->
    exists tr,
      Scheduler.job zone now s = (tr, s2)
      /\ Scheduler.deleteCalls tr = map Post.id oldPosts
      /\ (forall e, ~ In (Scheduler.ErrorInJob e) tr)
      /\ (oldPosts = [] ->
          tr = [Scheduler.LogRunning; Scheduler.LogNoPosts])
      /\ (oldPosts <> [] ->
          tr = Scheduler.LogRunning
                 :: Scheduler.LogFound (Z.of_nat (List.length oldPosts))
                 :: flat_map (fun p => [Scheduler.CallDeletePost (Post.id p);
                                        Scheduler.LogDeleted (Post.id p)])
                             oldPosts
                 ++ [Scheduler.LogCompleted]).
Proof.
  intros St E storage zone now s s1 s2 old Hg Hr.
  pose proof (SchedulerMore.job_resolves zone now s old s1 s2 Hg Hr) as J.
  eexists. split; [exact J|].
  assert (Hcalls : forall ps : list Post.t,
             Scheduler.deleteCalls
               (Scheduler.resolvedTrace (E := E) ps ++ [Scheduler.LogCompleted])
             = map Post.id ps).
  { intros ps. rewrite SchedulerFacts.deleteCalls_app,
      SchedulerFacts.deleteCalls_resolvedTrace. simpl. apply app_nil_r. }
  assert (Hnoerr : forall (ps : list Post.t) e,
             ~ In (Scheduler.ErrorInJob e)
                  (Scheduler.resolvedTrace (E := E) ps ++ [Scheduler.LogCompleted])).
  { intros ps e Hin. apply in_app_or in Hin. destruct Hin as [Hin|[Hin|[]]];
      [|discriminate].
    unfold Scheduler.resolvedTrace in Hin. apply in_flat_map in Hin.
    destruct Hin as [p [_ [H|[H|[]]]]]; discriminate. }
  destruct old as [|p r].
  - splits; auto.
    + intros e [H|[H|[]]]; discriminate.
    + intros H. now destruct H.
  - splits.
    + unfold Scheduler.deleteCalls. simpl.
      fold (Scheduler.deleteCalls
              (Scheduler.resolvedTrace (E := E) r ++ [Scheduler.LogCompleted])).
      now rewrite Hcalls.
    + intros e [H|[H|H]]; [discriminate | discriminate |].
      exact (Hnoerr (p :: r) e H).
    + discriminate.
    + reflexivity.
Qed.

Lemma flaky_db_expired :
  Scheduler.getPostsOlderThan Samples.utc Samples.twoDaysOn 24%Q
    (Scheduler.Flaky.db Samples.flaky)
  = (Ok [Samples.oldPost1; Samples.oldPost2], Scheduler.Flaky.db Samples.flaky).
Proof. vm_compute. reflexivity. Qed.

Lemma flaky_db_deletes :
  Scheduler.deletesResolve [Samples.oldPost1; Samples.oldPost2]
    (Scheduler.Flaky.db Samples.flaky)
    (DatabaseStorage.mk [Samples.alice] [] [] [] [] 2 3 1 1 1).
Proof.
  exists true, (DatabaseStorage.mk [Samples.alice] [Samples.oldPost2] [] [] []
                                   2 3 1 1 1).
  split; [vm_compute; reflexivity|].
  exists true, (DatabaseStorage.mk [Samples.alice] [] [] [] [] 2 3 1 1 1).
  split; [vm_compute; reflexivity | reflexivity].
Qed.

Lemma job_deletes_each_expired_post_in_order_witness :
  exists tr,
    Scheduler.job Samples.utc Samples.twoDaysOn
      (Scheduler.Flaky.db Samples.flaky)
    = (tr, DatabaseStorage.mk [Samples.alice] [] [] [] [] 2 3 1 1 1)
    /\ Scheduler.deleteCalls tr = map Post.id [Samples.oldPost1; Samples.oldPost2]
    /\ (forall e, ~ In (Scheduler.ErrorInJob e) tr)
    /\ ([Samples.oldPost1; Samples.oldPost2] = [] ->
        tr = [Scheduler.LogRunning; Scheduler.LogNoPosts])
    /\ ([Samples.oldPost1; Samples.oldPost2] <> [] ->
        tr = Scheduler.LogRunning
               :: Scheduler.LogFound
                    (Z.of_nat (List.length [Samples.oldPost1; Samples.oldPost2]))
               :: flat_map (fun p => [Scheduler.CallDeletePost (Post.id p);
                                      Scheduler.LogDeleted (Post.id p)])
                           [Samples.oldPost1; Samples.oldPost2]
               ++ [Scheduler.LogCompleted]).
Proof.
  apply (job_deletes_each_expired_post_in_order
           DatabaseStorage.t DatabaseStorage.DbError Scheduler.databaseStorage
           Samples.utc Samples.twoDaysOn (Scheduler.Flaky.db Samples.flaky)
           (Scheduler.Flaky.db Samples.flaky)
           (DatabaseStorage.mk [Samples.alice] [] [] [] [] 2 3 1 1 1)
           [Samples.oldPost1; Samples.oldPost2]).
  - exact flaky_db_expired.
  - exact flaky_db_deletes.
Defined.

(** X15. One run of the expiry job on a database whose ids lie below
    their sequences and in the 32-bit range, with distinct post ids: it
    logs no error, calls [deletePost] for exactly the posts created before
    the cutoff, leaves exactly the other posts stored, removes the comments
    and the tag links of the expired posts and no others, and leaves users
    and tags alone. A second run at the same instant finds nothing to
    delete and changes nothing. The cutoff is the instant that reads on
    the server's clock as the run does, a day earlier: 24 hours before the
    run whenever the zone's offset from UTC is then what it is at the
    run. *)
Theorem sweep_on_database_removes_exactly_the_expired_posts :
  forall (zone : Js.Zone) (now : Z) (s : DatabaseStorage.t),
    DatabaseStorage.keyed s ->
    let cutoff :=
      Js.setHours zone now (inject_Z (Js.getHours zone now) - 24) in
    (exists tr s',
       Scheduler.job zone now s = (tr, s')
       /\ (forall e, ~ In (Scheduler.ErrorInJob e) tr)
       /\ Scheduler.deleteCalls tr
          = map Post.id
              (filter (fun p => Post.createdAt p <? cutoff)
                      (DatabaseStorage.posts s))
       /\ DatabaseStorage.posts s'
          = filter (fun p => negb (Post.createdAt p <? cutoff))
                   (DatabaseStorage.posts s)
       /\ (forall c, In c (DatabaseStorage.comments s') <->
                     In c (DatabaseStorage.comments s)
                     /\ forall p, In p (DatabaseStorage.posts s) ->
                                  Post.createdAt p < cutoff ->
                                  Comment.postId c <> Post.id p)
       /\ (forall r, In r (DatabaseStorage.postTags s') <->
                     In r (DatabaseStorage.postTags s)
                     /\ forall p, In p (DatabaseStorage.posts s) ->
                                  Post.createdAt p < cutoff ->
                                  PostTag.postId r <> Post.id p)
       /\ DatabaseStorage.users s' = DatabaseStorage.users s
       /\ DatabaseStorage.tags s' = DatabaseStorage.tags s
       /\ Scheduler.job zone now s'
          = ([Scheduler.LogRunning; Scheduler.LogNoPosts], s'))
    /\ (Js.offsetOfLocal zone (Js.LocalTime zone now - 24 * Js.msPerHour)
        = Js.offsetAt zone now ->
        cutoff = now - 24 * Js.msPerHour).
Proof.
  intros zone now s K cutoff. split; [|apply SchedulerMore.cutoff_day].
  destruct (SchedulerMore.sweep_database zone now s K)
    as [tr [s' [J [Htr [Hcalls [Hp [Hc [Hr [Hu [Ht J2]]]]]]]]]].
  fold cutoff in Htr, Hcalls, Hp, Hc, Hr.
  assert (Hold : forall k,
             existsb (Z.eqb k)
               (map Post.id
                  (filter (fun p => Post.createdAt p <? cutoff)
                          (DatabaseStorage.posts s))) = false
             <-> forall p, In p (DatabaseStorage.posts s) ->
                           Post.createdAt p < cutoff ->
                           k <> Post.id p).
  { intros k. split.
    - intros Hf p Hin Hlt Ek.
      assert (Ht' : existsb (Z.eqb k)
                (map Post.id
                   (filter (fun p => Post.createdAt p <? cutoff)
                           (DatabaseStorage.posts s))) = true).
      { apply SchedulerMore.existsb_eqb_In. rewrite Ek. apply in_map.
        apply filter_In. split; [exact Hin | now apply Z.ltb_lt]. }
      congruence.
    - intros H. apply DbFacts.existsb_false. intros x Hx.
      apply in_map_iff in Hx. destruct Hx as [p [<- Hp']].
      apply filter_In in Hp'. destruct Hp' as [Hin Hlt].
      apply Z.eqb_neq. apply H; [exact Hin | now apply Z.ltb_lt]. }
  exists tr, s'. split; [exact J|]. splits; auto.
  - intros e Hin. rewrite Htr in Hin.
    destruct (filter _ (DatabaseStorage.posts s)) as [|p r].
    + destruct Hin as [H|[H|[]]]; discriminate.
    + destruct Hin as [H|[H|H]]; [discriminate | discriminate |].
      apply in_app_or in H. destruct H as [H|[H|[]]]; [|discriminate].
      unfold Scheduler.resolvedTrace in H. apply in_flat_map in H.
      destruct H as [q [_ [H|[H|[]]]]]; discriminate.
  - intros c. rewrite Hc, filter_In, negb_true_iff. now rewrite Hold.
  - intros r. rewrite Hr, filter_In, negb_true_iff. now rewrite Hold.
Qed.

Lemma sweep_on_database_removes_exactly_the_expired_posts_witness :
  let cutoff :=
    Js.setHours Samples.utc Samples.twoDaysOn
      (inject_Z (Js.getHours Samples.utc Samples.twoDaysOn) - 24) in
  (exists tr s',
     Scheduler.job Samples.utc Samples.twoDaysOn Samples.discussed = (tr, s')
     /\ (forall e, ~ In (Scheduler.ErrorInJob e) tr)
     /\ Scheduler.deleteCalls tr
        = map Post.id
            (filter (fun p => Post.createdAt p <? cutoff)
                    (DatabaseStorage.posts Samples.discussed))
     /\ DatabaseStorage.posts s'
        = filter (fun p => negb (Post.createdAt p <? cutoff))
                 (DatabaseStorage.posts Samples.discussed)
     /\ (forall c, In c (DatabaseStorage.comments s') <->
                   In c (DatabaseStorage.comments Samples.discussed)
                   /\ forall p, In p (DatabaseStorage.posts Samples.discussed) ->
                                Post.createdAt p < cutoff ->
                                Comment.postId c <> Post.id p)
     /\ (forall r, In r (DatabaseStorage.postTags s') <->
                   In r (DatabaseStorage.postTags Samples.discussed)
                   /\ forall p, In p (DatabaseStorage.posts Samples.discussed) ->
                                Post.createdAt p < cutoff ->
                                PostTag.postId r <> Post.id p)
     /\ DatabaseStorage.users s' = DatabaseStorage.users Samples.discussed
     /\ DatabaseStorage.tags s' = DatabaseStorage.tags Samples.discussed
     /\ Scheduler.job Samples.utc Samples.twoDaysOn s'
        = ([Scheduler.LogRunning; Scheduler.LogNoPosts], s'))
  /\ (Js.offsetOfLocal Samples.utc
        (Js.LocalTime Samples.utc Samples.twoDaysOn - 24 * Js.msPerHour)
      = Js.offsetAt Samples.utc Samples.twoDaysOn ->
      cutoff = Samples.twoDaysOn - 24 * Js.msPerHour).
Proof.
  apply (sweep_on_database_removes_exactly_the_expired_posts
           Samples.utc Samples.twoDaysOn Samples.discussed).
  exact discussed_keyed.
Defined.

(** X16. On a well-formed database whose ids lie below their sequences
    and in the 32-bit range, [deletePost] for an id that is a 32-bit
    integer resolves; afterwards [getPost] finds nothing under the id, no
    post listed by [getPostsByTag] carries it, and every other id reads
    with [getPost] exactly as before. For any other id [deletePost] is
    rejected and nothing is written. *)
Theorem DatabaseStorage_deletePost_then_reads :
  forall (id : Z) (s : DatabaseStorage.t),
    DatabaseStorage.wf s -> DatabaseStorage.keyed s ->
    (DatabaseStorage.int4 id = true ->
     exists b s',
       DatabaseStorage.deletePost id s = (Ok b, s')
       /\ DatabaseStorage.getPost id s' = (Ok None, s')
       /\ (forall k, k <> id ->
             fst (DatabaseStorage.getPost k s')
             = fst (DatabaseStorage.getPost k s))
       /\ (forall tagName,
             exists ps,
               DatabaseStorage.getPostsByTag tagName s' = (Ok ps, s')
               /\ forall d, In d ps -> Post.id (PostWithDetails.post d) <> id))
    /\ (DatabaseStorage.int4 id = false ->
        DatabaseStorage.deletePost id s = (Throw DatabaseStorage.NotInt4, s)).
Proof.
  intros id s W K. split; [|apply DbFacts.deletePost_rejects].
  intros I.
  destruct (DbFacts.deletePost_spec id s I) as [b [s' [E _]]].
  pose proof (DbMore.deletePost_gone id s I) as G.
  pose proof (DbMore.deletePost_frame id s) as F.
  pose proof (DbMore.deletePost_then_details id s) as D.
  pose proof (DbFacts.wf_exec (DatabaseStorage.DeletePost id) s W) as W'.
  pose proof (DbMore.keyed_exec (DatabaseStorage.DeletePost id) s K) as K'.
  unfold DatabaseStorage.exec in W', K'.
  rewrite E in G, F, D, W', K'. simpl in G, F, D, W', K'.
  exists b, s'. split; [exact E|]. split; [|split].
  - now rewrite DbMore.getPost_details, G.
  - intros k Hk. destruct (DatabaseStorage.int4 k) eqn:Ik.
    + rewrite !DbMore.getPost_details by assumption. simpl. now rewrite F.
    + now rewrite !DbMore.getPost_rejects.
  - intros tagName.
    destruct (DbMore.getPostsByTag_In tagName s' W' K') as [ps [E' H]].
    exists ps. split; [exact E'|]. intros d Hd.
    apply H in Hd. destruct Hd as [tag [r [_ [Hr [_ Hg]]]]].
    assert (Ir : DatabaseStorage.int4 (PostTag.postId r) = true).
    { destruct (DatabaseStorage.int4 (PostTag.postId r)) eqn:Ir; [reflexivity|].
      rewrite DbMore.getPost_rejects in Hg by exact Ir. discriminate. }
    rewrite DbMore.getPost_details in Hg by assumption. injection Hg as Hg.
    apply (D _ _ I Hg).
Qed.

Lemma DatabaseStorage_deletePost_then_reads_witness :
  exists b s',
    DatabaseStorage.deletePost 1 Samples.discussed = (Ok b, s')
    /\ DatabaseStorage.getPost 1 s' = (Ok None, s')
    /\ (forall k, k <> 1 ->
          fst (DatabaseStorage.getPost k s')
          = fst (DatabaseStorage.getPost k Samples.discussed))
    /\ (forall tagName,
          exists ps,
            DatabaseStorage.getPostsByTag tagName s' = (Ok ps, s')
            /\ forall d, In d ps -> Post.id (PostWithDetails.post d) <> 1).
Proof.
  apply (proj1 (DatabaseStorage_deletePost_then_reads 1 Samples.discussed
                  discussed_wf discussed_keyed)).
  reflexivity.
Defined.

(** X17. [isAuthor] never writes to the database. Without [req.user] it
    replies 401. With a user, on a database whose ids lie below their
    sequences and in the 32-bit range, it calls [next()] exactly when the
    id of the request is a number, the resource exists and the user is its
    author: the post that [getPost] reads when the base URL contains
    [posts], and otherwise the comment that [getComment] reads, whatever
    posts are stored. A missing resource gives 404 and a different author
    403. When the id of the request is not a number, or not a 32-bit
    integer, the read is rejected and [isAuthor] calls [next(error)]. *)
Theorem isAuthor_lets_only_the_author_through :
  forall (resourceId : option Z) (baseUrl : string) (user : option User.t)
         (s : DatabaseStorage.t),
    DatabaseStorage.keyed s ->
    exists r,
      AuthMiddleware.isAuthor resourceId baseUrl user s = (r, s)
      /\ (user = None -> r = AuthMiddleware.Respond 401 "Not authenticated")
      /\ (forall u, user = Some u ->
            (r = AuthMiddleware.Next <->
             if Js.strIncludes baseUrl "posts" then
               exists id d,
                 resourceId = Some id
                 /\ DatabaseStorage.getPost id s = (Ok (Some d), s)
                 /\ Author.id (PostWithDetails.author d) = User.id u
             else
               exists id c,
                 resourceId = Some id
                 /\ DatabaseStorage.getComment id s = (Ok (Some c), s)
                 /\ Comment.authorId c = User.id u)
            /\ (r = AuthMiddleware.NextError DatabaseStorage.NotInt4
                <-> DatabaseStorage.isInt4 resourceId = false)
            /\ (r = AuthMiddleware.Next
                \/ (exists message, r = AuthMiddleware.Respond 404 message)
                \/ (exists message, r = AuthMiddleware.Respond 403 message)
                \/ r = AuthMiddleware.NextError DatabaseStorage.NotInt4)).
Proof.
  intros resourceId baseUrl [u|] s K.
  - destruct (Js.strIncludes baseUrl "posts") eqn:Hb.
    + destruct (AuthFacts.isAuthor_post resourceId baseUrl u s K Hb)
        as [r [E [Hn [_ [He Hc]]]]].
      exists r. split; [exact E|]. split; [discriminate|].
      intros u' [= <-]. split; [exact Hn|]. split; [exact He|].
      destruct Hc as [H|[H|[H|H]]]; eauto.
    + destruct (AuthFacts.isAuthor_comment resourceId baseUrl u s Hb)
        as [r [E [Hn [_ [He Hc]]]]].
      exists r. split; [exact E|]. split; [discriminate|].
      intros u' [= <-]. split; [exact Hn|]. split; [exact He|].
      destruct Hc as [H|[H|[H|H]]]; eauto.
  - eexists. split; [reflexivity|].
    split; [reflexivity | discriminate].
Qed.

Lemma isAuthor_lets_only_the_author_through_witness :
  exists r,
    AuthMiddleware.isAuthor (Some 1) "/api/posts" (Some Samples.alice)
                            Samples.discussed = (r, Samples.discussed)
    /\ (Some Samples.alice = None ->
        r = AuthMiddleware.Respond 401 "Not authenticated")
    /\ (forall u, Some Samples.alice = Some u ->
          (r = AuthMiddleware.Next <->
           if Js.strIncludes "/api/posts" "posts" then
             exists id d,
               Some 1 = Some id
               /\ DatabaseStorage.getPost id Samples.discussed
                  = (Ok (Some d), Samples.discussed)
               /\ Author.id (PostWithDetails.author d) = User.id u
           else
             exists id c,
               Some 1 = Some id
               /\ DatabaseStorage.getComment id Samples.discussed
                  = (Ok (Some c), Samples.discussed)
               /\ Comment.authorId c = User.id u)
          /\ (r = AuthMiddleware.NextError DatabaseStorage.NotInt4
              <-> DatabaseStorage.isInt4 (Some 1) = false)
          /\ (r = AuthMiddleware.Next
              \/ (exists message, r = AuthMiddleware.Respond 404 message)
              \/ (exists message, r = AuthMiddleware.Respond 403 message)
              \/ r = AuthMiddleware.NextError DatabaseStorage.NotInt4)).
Proof.
  apply (isAuthor_lets_only_the_author_through (Some 1) "/api/posts"
           (Some Samples.alice) Samples.discussed).
  exact discussed_keyed.
Defined.

(** X18. [authenticateJWT], for any token check and any storage: it never
    calls [next(error)]. It calls [next()] only when the header is set,
    its second space-separated field is a token that is not empty and
    verifies, and [getUser] resolves with a user for the id of the
    payload; [req.user] is then that user. In every other case, a rejected
    [getUser] included, it replies 401 and sets no user. *)
Theorem authenticateJWT_proceeds_only_with_a_stored_user :
  forall (St E : Type)
         (getUser : Z -> St -> settled E (option User.t) * St)
         (verify : string -> option AuthMiddleware.JwtPayload)
         (authorization : option string) (s : St),
    exists r user s',
      AuthMiddleware.authenticateJWT getUser verify authorization s
      = (r, user, s')
      /\ (forall e, r <> AuthMiddleware.NextError e)
      /\ ((r = AuthMiddleware.Next /\
           exists header token payload u,
             authorization = Some header
             /\ nth_error (Js.split " " header) 1 = Some token
             /\ token <> ""
             /\ verify token = Some payload
             /\ getUser (AuthMiddleware.id payload) s = (Ok (Some u), s')
             /\ user = Some u)
          \/ (user = None
              /\ exists message, r = AuthMiddleware.Respond 401 message)).
Proof.
  intros St E getUser verify authorization s.
  destruct (AuthFacts.authenticateJWT_outcome getUser verify authorization s)
    as [r [user [s' [Eq H]]]].
  exists r, user, s'. split; [exact Eq|]. split; [|exact H].
  intros e ->. destruct H as [[H _]|[_ [m H]]]; discriminate.
Qed.

(** X19. [authenticateJWT] never looks at the scheme of the
    [Authorization] header: a header made of any word without a space, a
    space and the rest is treated exactly as [Bearer], a space and the
    same rest. *)
Theorem authenticateJWT_ignores_the_scheme :
  forall (St E : Type)
         (getUser : Z -> St -> settled E (option User.t) * St)
         (verify : string -> option AuthMiddleware.JwtPayload)
         (scheme rest : string) (s : St),
    Js.split " " scheme = [scheme] ->
    AuthMiddleware.authenticateJWT getUser verify
      (Some (scheme ++ String " " rest)%string) s
    = AuthMiddleware.authenticateJWT getUser verify
        (Some ("Bearer" ++ String " " rest)%string) s.
Proof.
  intros St E getUser verify scheme rest s H.
  now apply AuthFacts.authenticateJWT_scheme.
Qed.

Lemma authenticateJWT_ignores_the_scheme_witness :
  AuthMiddleware.authenticateJWT DatabaseStorage.getUser Samples.verifyAlice
    (Some ("Basic" ++ String " " "t1")%string) Samples.discussed
  = AuthMiddleware.authenticateJWT DatabaseStorage.getUser Samples.verifyAlice
      (Some ("Bearer" ++ String " " "t1")%string) Samples.discussed.
Proof.
  apply (authenticateJWT_ignores_the_scheme
           DatabaseStorage.t DatabaseStorage.DbError DatabaseStorage.getUser
           Samples.verifyAlice "Basic" "t1" Samples.discussed).
  reflexivity.
Defined.

(** X20. The pages of [GET /api/posts] cover the list: requests with the
    same [per_page] parameter for the pages 1 to [total_pages], taken in
    order, return the full list, each post once and in its place. *)
Theorem getApiPosts_pages_cover_the_list :
  forall (A : Type) (allPosts : list A) (q0 : Routes.Query)
         (qs : list Routes.Query),
    Forall (fun q => Routes.per_page q = Routes.per_page q0) qs ->
    map Routes.pageOf qs
    = map Z.of_nat
        (seq 1 (Z.to_nat (Routes.total_pages
                            (Routes.meta (Routes.getApiPosts q0 allPosts))))) ->
    List.concat (map (fun q => Routes.posts (Routes.getApiPosts q allPosts)) qs)
    = allPosts.
Proof.
  intros A allPosts q0 qs F E. now apply (RoutesMore.pages_cover allPosts q0).
Qed.

Lemma getApiPosts_pages_cover_the_list_witness :
  List.concat
    (map (fun q => Routes.posts (Routes.getApiPosts q [10; 20; 30; 40; 50]))
         [Routes.mkQuery (Some "1") (Some "2");
          Routes.mkQuery (Some "2") (Some "2");
          Routes.mkQuery (Some "3") (Some "2")])
  = [10; 20; 30; 40; 50].
Proof.
  apply (getApiPosts_pages_cover_the_list Z [10; 20; 30; 40; 50]
           (Routes.mkQuery None (Some "2"))
           [Routes.mkQuery (Some "1") (Some "2");
            Routes.mkQuery (Some "2") (Some "2");
            Routes.mkQuery (Some "3") (Some "2")]).
  - repeat constructor.
  - reflexivity.
Defined.

(** X21. [total_pages] of [GET /api/posts] counts the pages that hold
    posts: the page returned is empty exactly when [current_page] is past
    [total_pages], a page before the last holds exactly the page size, and
    no page holds more than 100 posts. *)
Theorem getApiPosts_total_pages_counts_the_filled_pages :
  forall (A : Type) (q : Routes.Query) (allPosts : list A),
    (Routes.posts (Routes.getApiPosts q allPosts) = []
     <-> Routes.total_pages (Routes.meta (Routes.getApiPosts q allPosts))
         < Routes.current_page (Routes.meta (Routes.getApiPosts q allPosts)))
    /\ (Routes.current_page (Routes.meta (Routes.getApiPosts q allPosts))
        < Routes.total_pages (Routes.meta (Routes.getApiPosts q allPosts)) ->
        Z.of_nat (List.length (Routes.posts (Routes.getApiPosts q allPosts)))
        = Routes.perPageOf q)
    /\ Z.of_nat (List.length (Routes.posts (Routes.getApiPosts q allPosts)))
       <= 100.
Proof.
  intros A q allPosts. split; [apply RoutesMore.page_empty_iff|].
  split; [apply RoutesMore.page_full|].
  rewrite RoutesMore.page_length.
  pose proof (RoutesMore.perPageOf_range q). lia.
Qed.

(** X22. When the client and the server each keep a constant offset
    from UTC, whatever the two offsets, the expiry instant a post card
    shows is the instant from which the expiry job selects the post: it is
    the creation instant plus 24 hours, [getPostsOlderThan(24)] returns a
    stored post exactly when that instant has passed, and the card marks
    the post as expiring soon exactly when less than two hours are left. *)
Theorem post_card_expiry_agrees_with_the_sweep :
  forall (tzaClient tzaServer now : Z) (p : Post.t) (s : DatabaseStorage.t),
    Client.expiryTime (Js.fixed tzaClient) (Post.createdAt p)
    = Post.createdAt p + 24 * Js.msPerHour
    /\ (exists old,
          DatabaseStorage.getPostsOlderThan (Js.fixed tzaServer) now 24%Q s
          = (Ok old, s)
          /\ (In p old <->
              In p (DatabaseStorage.posts s)
              /\ Client.expiryTime (Js.fixed tzaClient) (Post.createdAt p) < now))
    /\ (Client.isExpiringSoon (Js.fixed tzaClient) (Post.createdAt p) now = true
        <-> Client.expiryTime (Js.fixed tzaClient) (Post.createdAt p) - now
            < 2 * Js.msPerHour).
Proof.
  intros tzaClient tzaServer now p s.
  rewrite ClientFacts.expiryTime_plus_day. split; [reflexivity|]. split.
  - unfold DatabaseStorage.getPostsOlderThan.
    rewrite DbFacts.query_fits by reflexivity.
    change 24%Q with (inject_Z 24).
    rewrite JsFacts.setHours_getHours. eexists. split; [reflexivity|].
    rewrite filter_In, Z.ltb_lt. split; intros [H1 H2]; split; auto; lia.
  - unfold Client.isExpiringSoon. rewrite ClientFacts.expiryTime_plus_day.
    rewrite Z.ltb_lt. unfold Js.msPerHour, Js.msPerMinute, Js.msPerSecond. lia.
Qed.

(** X23. The filter of blank tags in the post form does not change what
    [updatePostTags] does on the database: with the filtered names it
    gives the same result and the same database as with the names as
    typed. In memory the names it leaves are those the database method
    keeps, the empty string never among them. *)
Theorem post_form_tag_filter_is_transparent :
  forall (tags : list string),
    (forall postId s,
        DatabaseStorage.updatePostTags postId (Client.submittedTags tags) s
        = DatabaseStorage.updatePostTags postId tags s)
    /\ MemStorage.uniqueTags (Client.submittedTags tags)
       = DatabaseStorage.uniqueTags tags
    /\ ~ In "" (MemStorage.uniqueTags (Client.submittedTags tags)).
Proof.
  intros tags. destruct (ClientFacts.uniqueTags_submitted tags) as [M D].
  split; [|split].
  - intros postId s. destruct (DatabaseStorage.int4 postId) eqn:I.
    + rewrite !DbFacts.updatePostTags_unfold by exact I. now rewrite D.
    + now rewrite !DbFacts.updatePostTags_rejects.
  - exact M.
  - rewrite M. unfold DatabaseStorage.uniqueTags. intros H.
    apply filter_In in H. destruct H as [_ H]. discriminate.
Qed.

(** X24. In every store the methods of [MemStorage] can produce, every
    user, post and comment is stored under its own id, below the counter.
    So [getAllPosts] lists a post exactly when [getPost] reads it under
    its id, and [getPostsByAuthor] is [getAllPosts] restricted to the
    posts of the author, in the same order. *)
Theorem MemStorage_getPostsByAuthor_filters_getAllPosts :
  forall (s : MemStorage.t) (authorId : Z),
    MemStorage.reachable s ->
    MemStorage.keyed s
    /\ MemStorage.getPostsByAuthor s authorId
       = filter (fun d => Post.authorId (PostWithDetails.post d) =? authorId)
                (MemStorage.getAllPosts s)
    /\ forall d, In d (MemStorage.getAllPosts s) <->
                 MemStorage.getPost s (Post.id (PostWithDetails.post d)) = Some d.
Proof.
  intros s authorId Hs. pose proof (MemMore.mem_reachable_keyed s Hs) as K.
  split; [exact K|]. split.
  - now apply MemMore.getPostsByAuthor_filter.
  - intros d. now apply MemMore.getAllPosts_In.
Qed.

Lemma MemStorage_getPostsByAuthor_filters_getAllPosts_witness :
  let s := MemStorage.exec
             (MemStorage.CreatePost (InsertPost.mk "Hello" "First post" ["Go"]) 1 0)
             (MemStorage.exec
                (MemStorage.CreateUser
                   (InsertUser.mk "Alice" "alice@example.org" "x" None))
                MemStorage.new) in
  MemStorage.keyed s
  /\ MemStorage.getPostsByAuthor s 1
     = filter (fun d => Post.authorId (PostWithDetails.post d) =? 1)
              (MemStorage.getAllPosts s)
  /\ forall d, In d (MemStorage.getAllPosts s) <->
               MemStorage.getPost s (Post.id (PostWithDetails.post d)) = Some d.
Proof.
  apply (MemStorage_getPostsByAuthor_filters_getAllPosts
           (MemStorage.exec
              (MemStorage.CreatePost (InsertPost.mk "Hello" "First post" ["Go"]) 1 0)
              (MemStorage.exec
                 (MemStorage.CreateUser
                    (InsertUser.mk "Alice" "alice@example.org" "x" None))
                 MemStorage.new))
           1).
  apply MemStorage.reachable_exec. apply MemStorage.reachable_exec.
  apply MemStorage.reachable_new.
Defined.

Lemma discussedMem_keyed : MemStorage.keyed Samples.discussedMem.
Proof.
  constructor; simpl.
  - repeat constructor; simpl; intuition discriminate.
  - intros k u [E|[E|[]]]; injection E as <- <-; simpl; lia.
  - repeat constructor; simpl; intuition discriminate.
  - intros k u [E|[E|[]]]; injection E as <- <-; simpl; lia.
  - repeat constructor; simpl; intuition discriminate.
  - intros k u [E|[E|[]]]; injection E as <- <-; simpl; lia.
Qed.

(** X25. In memory, on a store whose entries are kept under their own
    ids, [createComment] returns a comment with the next id that
    [getComment] then finds, and it leaves every other comment as it was.
    [getCommentsByPostId] for the post of the comment lists what it listed
    before followed by the new comment with its author, or the same list
    when no user has the author id; for every other post it lists what it
    listed before. *)
Theorem MemStorage_createComment_is_listed_last :
  forall (s : MemStorage.t) (d : InsertComment.t) (authorId now : Z),
    MemStorage.keyed s ->
    exists c s',
      MemStorage.createComment d authorId now s = (c, s')
      /\ c = Comment.mk (MemStorage.commentId s) (InsertComment.body d)
                        authorId (InsertComment.postId d) now
      /\ MemStorage.getComment s' (Comment.id c) = Some c
      /\ (forall k, k <> Comment.id c ->
            MemStorage.getComment s' k = MemStorage.getComment s k)
      /\ MemStorage.getCommentsByPostId s' (InsertComment.postId d)
         = MemStorage.getCommentsByPostId s (InsertComment.postId d)
           ++ match MemStorage.getUser s authorId with
              | Some author =>
                  [CommentWithAuthor.mk c (Author.mk (User.id author)
                                                     (User.name author))]
              | None => []
              end
      /\ (forall q, q <> InsertComment.postId d ->
            MemStorage.getCommentsByPostId s' q
            = MemStorage.getCommentsByPostId s q).
Proof.
  intros s d authorId now K.
  destruct (MemMore.createComment_listed d authorId now s K)
    as [Hc [Hg [Ho [Hl Hq]]]].
  exists (fst (MemStorage.createComment d authorId now s)),
         (snd (MemStorage.createComment d authorId now s)).
  split; [now destruct (MemStorage.createComment d authorId now s)|].
  rewrite Hc. simpl Comment.id. splits; auto.
Qed.

Lemma MemStorage_createComment_is_listed_last_witness :
  exists c s',
    MemStorage.createComment (InsertComment.mk "Me too" 2) 1 5
                             Samples.discussedMem = (c, s')
    /\ c = Comment.mk (MemStorage.commentId Samples.discussedMem) "Me too" 1 2 5
    /\ MemStorage.getComment s' (Comment.id c) = Some c
    /\ (forall k, k <> Comment.id c ->
          MemStorage.getComment s' k
          = MemStorage.getComment Samples.discussedMem k)
    /\ MemStorage.getCommentsByPostId s' 2
       = MemStorage.getCommentsByPostId Samples.discussedMem 2
         ++ match MemStorage.getUser Samples.discussedMem 1 with
            | Some author =>
                [CommentWithAuthor.mk c (Author.mk (User.id author)
                                                   (User.name author))]
            | None => []
            end
    /\ (forall q, q <> 2 ->
          MemStorage.getCommentsByPostId s' q
          = MemStorage.getCommentsByPostId Samples.discussedMem q).
Proof.
  apply (MemStorage_createComment_is_listed_last Samples.discussedMem
           (InsertComment.mk "Me too" 2) 1 5).
  exact discussedMem_keyed.
Defined.

(** X26. The pager of the post list, for a current page between 1 and
    [totalPages]: every link it renders leads to a page between 1 and
    [totalPages], is marked active exactly when it is the current page,
    and [handlePageChange] accepts it; the current page is always linked,
    and so are the page before and the page after when they exist; an
    ellipsis stands only for a page strictly between the first and the
    last. *)
Theorem pager_links_the_current_page_and_its_neighbours :
  forall (page totalPages : Z),
    1 <= page <= totalPages ->
    (forall n a, In (PostList.PageLink n a)
                    (PostList.pagerItems page totalPages) ->
                 1 <= n <= totalPages
                 /\ (a = true <-> n = page)
                 /\ PostList.handlePageChange totalPages page n = n)
    /\ In (PostList.PageLink page true) (PostList.pagerItems page totalPages)
    /\ (1 < page ->
        In (PostList.PageLink (page - 1) false)
           (PostList.pagerItems page totalPages))
    /\ (page < totalPages ->
        In (PostList.PageLink (page + 1) false)
           (PostList.pagerItems page totalPages))
    /\ (forall n, In (PostList.Ellipsis n)
                     (PostList.pagerItems page totalPages) ->
                  1 < n < totalPages /\ n <> page).
Proof.
  intros page T Hp. splits.
  - intros n a Hin. apply PostListFacts.pagerItems_In in Hin.
    destruct Hin as [i [Hi E]]. exact (PostListFacts.itemAt_link _ _ _ _ _ Hp Hi E).
  - pose proof (PostListFacts.near_linked page T page Hp) as H.
    rewrite Z.eqb_refl in H. apply H; lia.
  - intros H1. pose proof (PostListFacts.near_linked page T (page - 1) Hp) as H.
    replace (page =? page - 1) with false in H
      by (symmetry; apply Z.eqb_neq; lia).
    apply H; lia.
  - intros H1. pose proof (PostListFacts.near_linked page T (page + 1) Hp) as H.
    replace (page =? page + 1) with false in H
      by (symmetry; apply Z.eqb_neq; lia).
    apply H; lia.
  - intros n Hin. apply PostListFacts.pagerItems_In in Hin.
    destruct Hin as [i [Hi E]]. exact (PostListFacts.itemAt_ellipsis _ _ _ _ Hp Hi E).
Qed.

Lemma pager_links_the_current_page_and_its_neighbours_witness :
  (forall n a, In (PostList.PageLink n a) (PostList.pagerItems 5 10) ->
               1 <= n <= 10
               /\ (a = true <-> n = 5)
               /\ PostList.handlePageChange 10 5 n = n)
  /\ In (PostList.PageLink 5 true) (PostList.pagerItems 5 10)
  /\ (1 < 5 -> In (PostList.PageLink (5 - 1) false) (PostList.pagerItems 5 10))
  /\ (5 < 10 -> In (PostList.PageLink (5 + 1) false) (PostList.pagerItems 5 10))
  /\ (forall n, In (PostList.Ellipsis n) (PostList.pagerItems 5 10) ->
                1 < n < 10 /\ n <> 5).
Proof.
  apply (pager_links_the_current_page_and_its_neighbours 5 10). lia.
Defined.

(** X27. The pages of the post list on the client, for a positive page
    size: every page between 1 and [totalPages] holds at least one post
    and at most the page size, and the pages 1 to [totalPages], taken in
    order, are the filtered list, each post once and in its place. *)
Theorem post_list_pages_cover_the_filtered_posts :
  forall (A : Type) (filteredPosts : list A) (perPage : Z),
    0 < perPage ->
    (forall page,
        1 <= page <= PostList.totalPages filteredPosts perPage ->
        PostList.paginatedPosts filteredPosts page perPage <> []
        /\ Z.of_nat (List.length
                       (PostList.paginatedPosts filteredPosts page perPage))
           <= perPage)
    /\ List.concat
         (map (fun k => PostList.paginatedPosts filteredPosts (Z.of_nat k) perPage)
              (seq 1 (Z.to_nat (PostList.totalPages filteredPosts perPage))))
       = filteredPosts.
Proof.
  intros A l perPage Hq. split.
  - intros page Hp. now apply PostListFacts.paginatedPosts_filled.
  - now apply PostListFacts.paginatedPosts_cover.
Qed.

Lemma post_list_pages_cover_the_filtered_posts_witness :
  (forall page,
      1 <= page <= PostList.totalPages [10; 20; 30; 40; 50; 60; 70]
                     (PostList.perPageOf (Some 6)) ->
      PostList.paginatedPosts [10; 20; 30; 40; 50; 60; 70] page
        (PostList.perPageOf (Some 6)) <> []
      /\ Z.of_nat (List.length
                     (PostList.paginatedPosts [10; 20; 30; 40; 50; 60; 70] page
                        (PostList.perPageOf (Some 6))))
         <= PostList.perPageOf (Some 6))
  /\ List.concat
       (map (fun k => PostList.paginatedPosts [10; 20; 30; 40; 50; 60; 70]
                        (Z.of_nat k) (PostList.perPageOf (Some 6)))
            (seq 1 (Z.to_nat (PostList.totalPages [10; 20; 30; 40; 50; 60; 70]
                                (PostList.perPageOf (Some 6))))))
     = [10; 20; 30; 40; 50; 60; 70].
Proof.
  apply (post_list_pages_cover_the_filtered_posts Z
           [10; 20; 30; 40; 50; 60; 70] (PostList.perPageOf (Some 6))).
  reflexivity.
Defined.

Lemma discussed_same :
  Agreement.sameComments Samples.discussedMem Samples.discussed.
Proof. split; [apply Permutation_refl | reflexivity]. Qed.

(** X28. On comments the two storages behave alike for ids that are
    32-bit integers. When the store in memory keeps its entries under
    their own ids and holds the same comments as the database, in whatever
    order the table keeps its rows, and with the same next id, then
    [getComment], [updateComment] and [deleteComment] for such an id, and
    [createComment] for such an author id and post id while the sequence
    has an id left, return in memory what they resolve with on the
    database, and they leave the two with the same comments again. For any
    other id the three methods are rejected on the database and write
    nothing. *)
Theorem comment_methods_agree_in_memory_and_database :
  forall (m : MemStorage.t) (d : DatabaseStorage.t),
    MemStorage.keyed m -> Agreement.sameComments m d ->
    (forall id,
        DatabaseStorage.int4 id = true ->
        DatabaseStorage.getComment id d = (Ok (MemStorage.getComment m id), d))
    /\ (forall data authorId now,
          DatabaseStorage.int4 authorId = true ->
          DatabaseStorage.int4 (InsertComment.postId data) = true ->
          DatabaseStorage.int4 (DatabaseStorage.commentsSeq d) = true ->
          exists d',
            DatabaseStorage.createComment data authorId now d
            = (Ok (fst (MemStorage.createComment data authorId now m)), d')
            /\ MemStorage.keyed (snd (MemStorage.createComment data authorId now m))
            /\ Agreement.sameComments
                 (snd (MemStorage.createComment data authorId now m)) d')
    /\ (forall id data,
          DatabaseStorage.int4 id = true ->
          exists d',
            DatabaseStorage.updateComment id data d
            = (Ok (fst (MemStorage.updateComment id data m)), d')
            /\ MemStorage.keyed (snd (MemStorage.updateComment id data m))
            /\ Agreement.sameComments
                 (snd (MemStorage.updateComment id data m)) d')
    /\ (forall id,
          DatabaseStorage.int4 id = true ->
          exists d',
            DatabaseStorage.deleteComment id d
            = (Ok (fst (MemStorage.deleteComment id m)), d')
            /\ MemStorage.keyed (snd (MemStorage.deleteComment id m))
            /\ Agreement.sameComments (snd (MemStorage.deleteComment id m)) d')
    /\ (forall id data,
          DatabaseStorage.int4 id = false ->
          DatabaseStorage.getComment id d = (Throw DatabaseStorage.NotInt4, d)
          /\ DatabaseStorage.updateComment id data d
             = (Throw DatabaseStorage.NotInt4, d)
          /\ DatabaseStorage.deleteComment id d
             = (Throw DatabaseStorage.NotInt4, d)).
Proof.
  intros m d K S. splits.
  - intros id I. now apply AgreementFacts.getComment_agrees.
  - intros data authorId now Ia Ip Is.
    assert (Is' : DatabaseStorage.int4 (MemStorage.commentId m) = true)
      by (destruct S as [_ Hn]; now rewrite Hn).
    destruct (AgreementFacts.createComment_agrees m d data authorId now K S
                Ia Ip Is') as [d' [E S']].
    exists d'. splits; auto. now apply MemMore.keyed_createComment.
  - intros id data I.
    destruct (AgreementFacts.updateComment_agrees m d id data K S I)
      as [d' [E S']].
    exists d'. splits; auto. now apply MemMore.keyed_updateComment.
  - intros id I.
    destruct (AgreementFacts.deleteComment_agrees m d id K S I) as [d' [E S']].
    exists d'. splits; auto. now apply MemMore.keyed_deleteComment.
  - intros id data I. splits.
    + now apply AuthFacts.getComment_rejects.
    + now apply DbMore.updateComment_rejects.
    + now apply DbMore.deleteComment_rejects.
Qed.

Lemma comment_methods_agree_in_memory_and_database_witness :
  (forall id,
      DatabaseStorage.int4 id = true ->
      DatabaseStorage.getComment id Samples.discussed
      = (Ok (MemStorage.getComment Samples.discussedMem id), Samples.discussed))
  /\ (forall data authorId now,
        DatabaseStorage.int4 authorId = true ->
        DatabaseStorage.int4 (InsertComment.postId data) = true ->
        DatabaseStorage.int4 (DatabaseStorage.commentsSeq Samples.discussed)
        = true ->
        exists d',
          DatabaseStorage.createComment data authorId now Samples.discussed
          = (Ok (fst (MemStorage.createComment data authorId now
                        Samples.discussedMem)), d')
          /\ MemStorage.keyed
               (snd (MemStorage.createComment data authorId now
                       Samples.discussedMem))
          /\ Agreement.sameComments
               (snd (MemStorage.createComment data authorId now
                       Samples.discussedMem)) d')
  /\ (forall id data,
        DatabaseStorage.int4 id = true ->
        exists d',
          DatabaseStorage.updateComment id data Samples.discussed
          = (Ok (fst (MemStorage.updateComment id data Samples.discussedMem)), d')
          /\ MemStorage.keyed
               (snd (MemStorage.updateComment id data Samples.discussedMem))
          /\ Agreement.sameComments
               (snd (MemStorage.updateComment id data Samples.discussedMem)) d')
  /\ (forall id,
        DatabaseStorage.int4 id = true ->
        exists d',
          DatabaseStorage.deleteComment id Samples.discussed
          = (Ok (fst (MemStorage.deleteComment id Samples.discussedMem)), d')
          /\ MemStorage.keyed
               (snd (MemStorage.deleteComment id Samples.discussedMem))
          /\ Agreement.sameComments
               (snd (MemStorage.deleteComment id Samples.discussedMem)) d')
  /\ (forall id data,
        DatabaseStorage.int4 id = false ->
        DatabaseStorage.getComment id Samples.discussed
        = (Throw DatabaseStorage.NotInt4, Samples.discussed)
        /\ DatabaseStorage.updateComment id data Samples.discussed
           = (Throw DatabaseStorage.NotInt4, Samples.discussed)
        /\ DatabaseStorage.deleteComment id Samples.discussed
           = (Throw DatabaseStorage.NotInt4, Samples.discussed)).
Proof.
  apply (comment_methods_agree_in_memory_and_database
           Samples.discussedMem Samples.discussed).
  - exact discussedMem_keyed.
  - exact discussed_same.
Defined.

(** X29. [DELETE /api/posts/:id] through [authenticateJWT] and
    [isAuthor], on a database whose ids lie below their sequences and in
    the 32-bit range. Either a middleware ends the request with 401, 403
    or 404 and the database is as it was; or the id of the request is not
    a number, or not a 32-bit integer, [isAuthor] passes the rejected read
    to [next(error)] and the database is as it was; or the handler runs
    [deletePost] on the id: then the header carried a token that verifies
    for a stored user, and that user is the author of the post that
    [getPost] reads when the base URL contains [posts], in which case the
    handler reports success; when the base URL does not contain [posts],
    the user is the author of the comment with that id, whoever wrote the
    post. *)
Theorem delete_post_route_runs_deletePost_only_past_isAuthor :
  forall (verify : string -> option AuthMiddleware.JwtPayload)
         (authorization : option string) (id : option Z) (baseUrl : string)
         (s : DatabaseStorage.t),
    DatabaseStorage.keyed s ->
    exists out s',
      Handlers.deletePostRoute verify authorization id baseUrl s = (out, s')
      /\ ((s' = s /\
           exists status message,
             out = inl (AuthMiddleware.Respond status message)
             /\ (status = 401 \/ status = 403 \/ status = 404))
          \/ (s' = s
              /\ out = inl (AuthMiddleware.NextError DatabaseStorage.NotInt4)
              /\ DatabaseStorage.isInt4 id = false)
          \/ (exists r header token payload u b k,
                out = inr r
                /\ id = Some k /\ DatabaseStorage.int4 k = true
                /\ authorization = Some header
                /\ nth_error (Js.split " " header) 1 = Some token
                /\ verify token = Some payload
                /\ DatabaseStorage.getUser (AuthMiddleware.id payload) s
                   = (Ok (Some u), s)
                /\ DatabaseStorage.deletePost k s = (Ok b, s')
                /\ (if Js.strIncludes baseUrl "posts" then
                      r = Handlers.Removed
                      /\ exists d,
                           DatabaseStorage.getPost k s = (Ok (Some d), s)
                           /\ Author.id (PostWithDetails.author d) = User.id u
                    else
                      exists c,
                        DatabaseStorage.getComment k s = (Ok (Some c), s)
                        /\ Comment.authorId c = User.id u))).
Proof.
  intros verify authorization id baseUrl s K.
  destruct (AuthFacts.deletePostRoute_outcome verify authorization id baseUrl s K)
    as [out [s' [E H]]].
  exists out, s'. split; [exact E | exact H].
Qed.

Lemma delete_post_route_runs_deletePost_only_past_isAuthor_witness :
  exists out s',
    Handlers.deletePostRoute Samples.verifyAlice (Some "Bearer t1") (Some 1)
                             "/api/posts" Samples.discussed = (out, s')
    /\ ((s' = Samples.discussed /\
         exists status message,
           out = inl (AuthMiddleware.Respond status message)
           /\ (status = 401 \/ status = 403 \/ status = 404))
        \/ (s' = Samples.discussed
            /\ out = inl (AuthMiddleware.NextError DatabaseStorage.NotInt4)
            /\ DatabaseStorage.isInt4 (Some 1) = false)
        \/ (exists r header token payload u b k,
              out = inr r
              /\ Some 1 = Some k /\ DatabaseStorage.int4 k = true
              /\ Some "Bearer t1" = Some header
              /\ nth_error (Js.split " " header) 1 = Some token
              /\ Samples.verifyAlice token = Some payload
              /\ DatabaseStorage.getUser (AuthMiddleware.id payload)
                   Samples.discussed
                 = (Ok (Some u), Samples.discussed)
              /\ DatabaseStorage.deletePost k Samples.discussed = (Ok b, s')
              /\ (if Js.strIncludes "/api/posts" "posts" then
                    r = Handlers.Removed
                    /\ exists d,
                         DatabaseStorage.getPost k Samples.discussed
                         = (Ok (Some d), Samples.discussed)
                         /\ Author.id (PostWithDetails.author d) = User.id u
                  else
                    exists c,
                      DatabaseStorage.getComment k Samples.discussed
                      = (Ok (Some c), Samples.discussed)
                      /\ Comment.authorId c = User.id u))).
Proof.
  apply (delete_post_route_runs_deletePost_only_past_isAuthor
           Samples.verifyAlice (Some "Bearer t1") (Some 1) "/api/posts"
           Samples.discussed).
  exact discussed_keyed.
Defined.
